(** * AI visibility tracker: the analysis pipeline

    A shallow embedding of [backend/services/geminiService.js] and
    [backend/services/analysisRunner.js], the two services that make up the
    analysis pipeline, with the properties of the pipeline proved about it.

    Conventions of the embedding.

    - A JavaScript string is a sequence of UTF-16 code units.  The
      development covers strings whose code units are below 256 (the Latin-1
      range) and represents them as [list ascii]; case mapping, white space
      and the word characters of regular expressions are those of ECMAScript
      restricted to that range.
    - JavaScript numbers that hold counts and indices are [nat] (or [Z] where
      the code stores [-1]); a finite double is the rational number it
      denotes ([Q]).  [shareOfVoice], whose values are added up, is computed
      with the rounding of each operation to the nearest double
      ([round_double]); the sentiment score and the other per-brand ratios,
      of which only comparisons and bounds are stated, are the exact
      quotients.
    - An operation that can throw returns a [result]; the code that awaits
      the database runs in a state-and-exception monad over the tables. *)

From Stdlib Require Import String Ascii List Bool Arith ZArith QArith Qminmax.
From Stdlib Require Import Qpower Lia Lqa Permutation.
From Stdlib Require SpecFloat.
Import ListNotations.

Set Implicit Arguments.
Local Open Scope nat_scope.
Local Open Scope list_scope.

(* ================================================================== *)
(** * JavaScript strings *)
(* ================================================================== *)

Definition jsstring := list ascii.

Definition str (s : string) : jsstring := list_ascii_of_string s.

Definition code (c : ascii) : nat := nat_of_ascii c.

Definition in_range (lo hi n : nat) : bool := (lo <=? n) && (n <=? hi).

(** [String.prototype.toLowerCase] on one code unit of the Latin-1 range:
    A-Z and the accented capitals U+00C0..U+00DE (but not the multiplication
    sign U+00D7) move up by 32. *)
Definition toLower_unit (c : ascii) : ascii :=
  let n := code c in
  if in_range 65 90 n || (in_range 192 222 n && negb (n =? 215))
  then ascii_of_nat (n + 32) else c.

Definition toLowerCase (s : jsstring) : jsstring := map toLower_unit s.

(** The [Canonicalize] operation of a regular expression with the [i] flag
    and without the [u] flag: the upper-case mapping of the code unit when it
    is again one code unit.  In the Latin-1 range U+00DF has a two-unit upper
    case and stays; U+00B5 and U+00FF have upper cases outside the range that
    no other Latin-1 unit shares, so each is its own class. *)
Definition Canonicalize (c : ascii) : ascii :=
  let n := code c in
  if in_range 97 122 n || (in_range 224 254 n && negb (n =? 247))
  then ascii_of_nat (n - 32) else c.

(** [\w]: the basic word characters [A-Za-z0-9_]. *)
Definition isWordChar (c : ascii) : bool :=
  let n := code c in
  in_range 97 122 n || in_range 65 90 n || in_range 48 57 n || (n =? 95).

(** White space and line terminators removed by [String.prototype.trim]:
    TAB, LF, VT, FF, CR, SP and NBSP are the ones below 256. *)
Definition isWhiteSpace (c : ascii) : bool :=
  let n := code c in in_range 9 13 n || (n =? 32) || (n =? 160).

(** Line terminators, which [.] does not match. *)
Definition isLineTerminator (c : ascii) : bool :=
  let n := code c in (n =? 10) || (n =? 13).

Fixpoint trimStart (s : jsstring) : jsstring :=
  match s with
  | c :: s' => if isWhiteSpace c then trimStart s' else s
  | [] => []
  end.

Definition trimEnd (s : jsstring) : jsstring := rev (trimStart (rev s)).

Definition trim (s : jsstring) : jsstring := trimEnd (trimStart s).

(** [s.slice(a, b)] for [0 <= a] and [0 <= b <= s.length]. *)
Definition slice (s : jsstring) (a b : nat) : jsstring :=
  firstn (b - a) (skipn a s).

Fixpoint startsWith (pat s : jsstring) : bool :=
  match pat, s with
  | [], _ => true
  | p :: pat', c :: s' => Ascii.eqb p c && startsWith pat' s'
  | _ :: _, [] => false
  end.

(** [s.includes(pat)]. *)
Fixpoint includes (s pat : jsstring) : bool :=
  startsWith pat s ||
  match s with
  | [] => false
  | _ :: s' => includes s' pat
  end.

Definition jsstring_eqb (a b : jsstring) : bool :=
  if list_eq_dec ascii_dec a b then true else false.

(* ================================================================== *)
(** * Exceptions *)
(* ================================================================== *)

Inductive syntax_error :=
| NothingToRepeat
| UnmatchedParen
| UnterminatedGroup
| TrailingBackslash
| RejectedByEngine.

(** The values the pipeline throws and catches.  Only [error.message] is
    ever read from them. *)
Inductive exn :=
| SyntaxError (pattern : jsstring) (why : syntax_error)
| ProviderError (message : jsstring)
| PrismaError (message : jsstring)
| PlainError (message : jsstring).

Definition syntax_error_reason (e : syntax_error) : jsstring :=
  match e with
  | NothingToRepeat => str "Nothing to repeat"
  | UnmatchedParen => str "Unmatched ')'"
  | UnterminatedGroup => str "Unterminated group"
  | TrailingBackslash => str "\ at end of pattern"
  | RejectedByEngine => str "Invalid pattern"
  end.

Definition message (e : exn) : jsstring :=
  match e with
  | SyntaxError p why =>
      str "Invalid regular expression: /" ++ p ++ str "/: "
        ++ syntax_error_reason why
  | ProviderError m => m
  | PrismaError m => m
  | PlainError m => m
  end.

Inductive result (A : Type) :=
| Ok (a : A)
| Throw (e : exn).
Arguments Ok {A} a.
Arguments Throw {A} e.

Definition rbind {A B} (r : result A) (k : A -> result B) : result B :=
  match r with
  | Ok a => k a
  | Throw e => Throw e
  end.

Declare Scope result_scope.
Delimit Scope result_scope with result.
Notation "x <- r ;; k" := (rbind r (fun x => k))
  (at level 61, r at next level, right associativity) : result_scope.

(** [xs.map(f)] where [f] may throw: elements are visited left to right and
    the first exception ends the traversal. *)
Fixpoint mapM {A B} (f : A -> result B) (l : list A) : result (list B) :=
  match l with
  | [] => Ok []
  | x :: l' =>
      (y <- f x ;; ys <- mapM f l' ;; Ok (y :: ys))%result
  end.

(** [xs.some(p)] where [p] may throw: stops at the first [true]. *)
Fixpoint someM {A} (p : A -> result bool) (l : list A) : result bool :=
  match l with
  | [] => Ok false
  | x :: l' =>
      (b <- p x ;; if b then Ok true else someM p l')%result
  end.

(* ================================================================== *)
(** * Regular expressions *)
(* ================================================================== *)

(** The fragment of ECMAScript patterns (Annex B grammar, no [u] flag) that
    is given a semantics here: pattern characters, identity escapes of
    syntax characters, [.], the assertions [^], [$], [\b] and [\B], groups,
    alternation, and the quantifiers [*], [+] and [?] with their lazy
    forms.  A pattern that leaves the fragment (a character class, a braced
    quantifier, any other escape, a group specifier [(?...]) is handed to
    the engine parameter of [RegExp_new]. *)
Inductive regex :=
| REmpty
| RChar (c : ascii)
| RAny
| RWordB (negated : bool)
| RBol
| REol
| RSeq (r1 r2 : regex)
| RAlt (r1 r2 : regex)
| RQuant (min : nat) (max : option nat) (greedy : bool) (r : regex)
| RGroup (r : regex).

Inductive parse_result :=
| Parsed (r : regex)
| Invalid (e : syntax_error)
| OutOfFragment.

(** ECMAScript [SyntaxCharacter]: one of [^ $ \ . * + ? ( ) [ ] { } |]. *)
Definition SyntaxCharacter (c : ascii) : bool :=
  existsb (Ascii.eqb c) (str "^$\.*+?()[]{}|").

Inductive char_kind :=
| KBackslash | KOpen | KClose | KBar | KStar | KPlus | KQuestion
| KCaret | KDollar | KDot | KBracket | KBrace | KLiteral.

(** What a code unit means at the start of a term.  In the Annex B grammar
    [ExtendedPatternCharacter] is every character except
    [^ $ \ . * + ? ( ) [ |], so a lone closing bracket or brace is a literal;
    an opening brace can start a braced quantifier and is left to the
    engine. *)
Definition classify (c : ascii) : char_kind :=
  if Ascii.eqb c "\" then KBackslash
  else if Ascii.eqb c "(" then KOpen
  else if Ascii.eqb c ")" then KClose
  else if Ascii.eqb c "|" then KBar
  else if Ascii.eqb c "*" then KStar
  else if Ascii.eqb c "+" then KPlus
  else if Ascii.eqb c "?" then KQuestion
  else if Ascii.eqb c "^" then KCaret
  else if Ascii.eqb c "$" then KDollar
  else if Ascii.eqb c "." then KDot
  else if Ascii.eqb c "[" then KBracket
  else if Ascii.eqb c "{" then KBrace
  else KLiteral.

(** Whether the term just read can take a quantifier. *)
Inductive qstate :=
| QNone         (* start of an alternative, or after an assertion *)
| QAtom         (* after an atom *)
| QQuantified.  (* after a quantifier: only a lazy mark may follow *)

(** An open group: the alternatives already closed and the terms of the
    current one, both most recent first. *)
Record frame := { alts : list regex; cur : list regex }.

Record pstate := { top : frame; below : list frame; last : qstate }.

Definition empty_frame : frame := {| alts := []; cur := [] |}.

Definition initial_pstate : pstate :=
  {| top := empty_frame; below := []; last := QNone |}.

Definition seq_of (ts : list regex) : regex := fold_right RSeq REmpty ts.

Definition close_frame (f : frame) : regex :=
  fold_left (fun acc a => RAlt a acc) (alts f) (seq_of (rev (cur f))).

Definition push_term (t : regex) (q : qstate) (st : pstate) : pstate :=
  {| top := {| alts := alts (top st); cur := t :: cur (top st) |};
     below := below st; last := q |}.

Definition next_alternative (st : pstate) : pstate :=
  {| top := {| alts := seq_of (rev (cur (top st))) :: alts (top st);
               cur := [] |};
     below := below st; last := QNone |}.

Definition open_group (st : pstate) : pstate :=
  {| top := empty_frame; below := top st :: below st; last := QNone |}.

Definition close_group (st : pstate) : option pstate :=
  match below st with
  | [] => None
  | f :: fs =>
      Some {| top := {| alts := alts f;
                        cur := RGroup (close_frame (top st)) :: cur f |};
              below := fs; last := QAtom |}
  end.

Definition quantify (min : nat) (max : option nat) (st : pstate)
  : option pstate :=
  match last st, cur (top st) with
  | QAtom, t :: ts =>
      Some {| top := {| alts := alts (top st);
                        cur := RQuant min max true t :: ts |};
              below := below st; last := QQuantified |}
  | _, _ => None
  end.

Definition make_lazy (st : pstate) : option pstate :=
  match last st, cur (top st) with
  | QQuantified, RQuant min max _ t :: ts =>
      Some {| top := {| alts := alts (top st);
                        cur := RQuant min max false t :: ts |};
              below := below st; last := QNone |}
  | _, _ => None
  end.

Fixpoint parse (p : jsstring) (st : pstate) : parse_result :=
  match p with
  | [] =>
      match below st with
      | [] => Parsed (close_frame (top st))
      | _ :: _ => Invalid UnterminatedGroup
      end
  | c :: rest =>
      match classify c with
      | KBackslash =>
          match rest with
          | [] => Invalid TrailingBackslash
          | d :: rest' =>
              if Ascii.eqb d "b" then parse rest' (push_term (RWordB false) QNone st)
              else if Ascii.eqb d "B" then parse rest' (push_term (RWordB true) QNone st)
              else if SyntaxCharacter d then parse rest' (push_term (RChar d) QAtom st)
              else OutOfFragment
          end
      | KOpen =>
          match rest with
          | d :: _ => if Ascii.eqb d "?" then OutOfFragment
                      else parse rest (open_group st)
          | [] => parse rest (open_group st)
          end
      | KClose =>
          match close_group st with
          | Some st' => parse rest st'
          | None => Invalid UnmatchedParen
          end
      | KBar => parse rest (next_alternative st)
      | KStar =>
          match quantify 0 None st with
          | Some st' => parse rest st'
          | None => Invalid NothingToRepeat
          end
      | KPlus =>
          match quantify 1 None st with
          | Some st' => parse rest st'
          | None => Invalid NothingToRepeat
          end
      | KQuestion =>
          match make_lazy st with
          | Some st' => parse rest st'
          | None =>
              match quantify 0 (Some 1) st with
              | Some st' => parse rest st'
              | None => Invalid NothingToRepeat
              end
          end
      | KCaret => parse rest (push_term RBol QNone st)
      | KDollar => parse rest (push_term REol QNone st)
      | KDot => parse rest (push_term RAny QAtom st)
      | KBracket | KBrace => OutOfFragment
      | KLiteral => parse rest (push_term (RChar c) QAtom st)
      end
  end.

(** ** Matching

    [ends r i] lists the end indices of the matches of [r] that start at
    index [i] of the input, in the order in which backtracking tries them:
    the head is the match the engine reports. *)
Section Matcher.

Variable ignoreCase : bool.
Variable input : jsstring.

Definition char_matches (c ch : ascii) : bool :=
  if ignoreCase then Ascii.eqb (Canonicalize c) (Canonicalize ch)
  else Ascii.eqb c ch.

(** [IsWordChar(e)]: false outside the input. *)
Definition wordAt (e : nat) : bool :=
  match nth_error input e with
  | Some c => isWordChar c
  | None => false
  end.

Definition wordBefore (e : nat) : bool :=
  match e with
  | 0 => false
  | S e' => wordAt e'
  end.

Definition atWordBoundary (e : nat) : bool :=
  negb (Bool.eqb (wordBefore e) (wordAt e)).

Definition opt_pred (m : option nat) : option nat := option_map pred m.

Fixpoint ends (r : regex) (i : nat) {struct r} : list nat :=
  match r with
  | REmpty => [i]
  | RChar c =>
      match nth_error input i with
      | Some ch => if char_matches c ch then [S i] else []
      | None => []
      end
  | RAny =>
      match nth_error input i with
      | Some ch => if isLineTerminator ch then [] else [S i]
      | None => []
      end
  | RWordB negated =>
      if Bool.eqb (atWordBoundary i) (negb negated) then [i] else []
  | RBol => if i =? 0 then [i] else []
  | REol => if i =? length input then [i] else []
  | RSeq r1 r2 => flat_map (ends r2) (ends r1 i)
  | RAlt r1 r2 => ends r1 i ++ ends r2 i
  | RGroup r1 => ends r1 i
  | RQuant min max greedy r1 =>
      (fix repeat (fuel min : nat) (max : option nat) (i : nat)
           {struct fuel} : list nat :=
         match fuel with
         | 0 => []
         | S fuel' =>
             match max with
             | Some 0 => [i]
             | _ =>
                 let again :=
                   flat_map
                     (fun j =>
                        if (min =? 0) && (j =? i) then []
                        else repeat fuel' (pred min) (opt_pred max) j)
                     (ends r1 i) in
                 if 0 <? min then again
                 else if greedy then again ++ [i]
                 else i :: again
             end
         end) (min + length input + 2) min max i
  end.

End Matcher.

(** A compiled pattern: input and start index to the end indices of the
    matches there, best first. *)
Definition matcher := jsstring -> nat -> list nat.

Fixpoint exec_from (mt : nat -> list nat) (tries i : nat)
  : option (nat * nat) :=
  match tries with
  | 0 => None
  | S tries' =>
      match mt i with
      | e :: _ => Some (i, e)
      | [] => exec_from mt tries' (S i)
      end
  end.

(** [RegExpBuiltinExec] from [lastIndex]: the leftmost start index that has
    a match, with the end of the match found first there. *)
Definition RegExp_exec (mt : matcher) (text : jsstring) (lastIndex : nat)
  : option (nat * nat) :=
  exec_from (mt text) (S (length text) - lastIndex) lastIndex.

(** [regex.test(text)] for a regular expression without the [g] flag. *)
Definition RegExp_test (mt : matcher) (text : jsstring) : bool :=
  match RegExp_exec mt text 0 with
  | Some _ => true
  | None => false
  end.

(** [text.match(regex)] without the [g] flag: [match.index] of the first
    match, if there is one. *)
Definition String_match (text : jsstring) (mt : matcher) : option nat :=
  option_map fst (RegExp_exec mt text 0).

(** [[...text.matchAll(regex)]] with the [g] flag: successive matches, each
    search starting where the previous match ended, and one unit further
    after an empty match. *)
Fixpoint matchAll_from (mt : matcher) (text : jsstring)
    (fuel lastIndex : nat) : list (nat * nat) :=
  match fuel with
  | 0 => []
  | S fuel' =>
      match RegExp_exec mt text lastIndex with
      | None => []
      | Some (i, e) =>
          (i, e) :: matchAll_from mt text fuel'
                      (if e =? i then S e else e)
      end
  end.

Definition String_matchAll (text : jsstring) (mt : matcher)
  : list (nat * nat) :=
  matchAll_from mt text (length text + 2) 0.

Section Engine.

(** The host engine on the patterns outside the fragment: [None] when it
    rejects the pattern with a [SyntaxError]. *)
Variable engine : jsstring -> bool -> option matcher.

(** [new RegExp(pattern, flags)]; [ignoreCase] is the [i] flag (the [g]
    flag only selects which of the functions above is used). *)
Definition RegExp_new (pattern : jsstring) (ignoreCase : bool)
  : result matcher :=
  match parse pattern initial_pstate with
  | Parsed r => Ok (fun text => ends ignoreCase text r)
  | Invalid e => Throw (SyntaxError pattern e)
  | OutOfFragment =>
      match engine pattern ignoreCase with
      | Some mt => Ok mt
      | None => Throw (SyntaxError pattern RejectedByEngine)
      end
  end.

End Engine.

(** An engine that rejects whatever is outside the fragment; used where a
    concrete run needs one. *)
Definition strict_engine : jsstring -> bool -> option matcher :=
  fun _ _ => None.

(* ================================================================== *)
(** * Arrays and plain objects *)
(* ================================================================== *)

(** [Array.prototype.sort] with a comparator.  The sort is stable, and for
    a consistent comparator its result is determined by that: an element
    moves behind another only when the comparator is positive. *)
Fixpoint sort_insert {A} (cmp : A -> A -> Z) (x : A) (l : list A) : list A :=
  match l with
  | [] => [x]
  | y :: l' => if (cmp x y >? 0)%Z then y :: sort_insert cmp x l'
               else x :: l
  end.

Definition Array_sort {A} (cmp : A -> A -> Z) (l : list A) : list A :=
  fold_right (sort_insert cmp) [] l.

(** A plain object [{}] whose property values are numbers: its own
    properties, most recent first.  It inherits from [Object.prototype]. *)
Definition js_object := list (jsstring * nat).

Inductive js_value :=
| VNumber (n : nat)
| VObject          (* an object or function inherited from the prototype *)
| VUndefined.

Definition proto_key : jsstring := str "__proto__".

Definition Object_prototype_keys : list jsstring :=
  map str ["constructor"; "hasOwnProperty"; "isPrototypeOf";
           "propertyIsEnumerable"; "toLocaleString"; "toString"; "valueOf";
           "__defineGetter__"; "__defineSetter__"; "__lookupGetter__";
           "__lookupSetter__"]%string.

(** [o[k] = v] for a number [v]: creates or overwrites an own property,
    except for [__proto__], whose inherited setter ignores a number. *)
Definition obj_set (o : js_object) (k : jsstring) (v : nat) : js_object :=
  if jsstring_eqb k proto_key then o else (k, v) :: o.

Fixpoint own_property (o : js_object) (k : jsstring) : option nat :=
  match o with
  | [] => None
  | (k', v) :: o' => if jsstring_eqb k k' then Some v else own_property o' k
  end.

(** [o[k]]: an own property first, then the prototype chain; [__proto__]
    reads the prototype object itself. *)
Definition obj_get (o : js_object) (k : jsstring) : js_value :=
  if jsstring_eqb k proto_key then VObject
  else match own_property o k with
       | Some v => VNumber v
       | None => if existsb (jsstring_eqb k) Object_prototype_keys
                 then VObject else VUndefined
       end.

(* ================================================================== *)
(** * GeminiService *)
(* ================================================================== *)

Inductive sentiment_label := Positive | Neutral | Negative.

Record sentiment_result := {
  sr_sentiment : sentiment_label;
  sr_score : Q
}.

(** The value of [positionMap[brand] || null]. *)
Inductive position_value :=
| PosNull
| PosNum (n : nat)
| PosObject.

(** One element of the array returned by [extractBrandMentions].  A field
    that is [null], or absent as in the placeholders of a failed call, is
    [None]; an absent [isRecommended] reads as [false] wherever it is
    used. *)
Record mention := {
  brand : jsstring;
  mentioned : bool;
  count : nat;
  position : position_value;
  context : option jsstring;
  sentiment : option sentiment_label;
  sentimentScore : option Q;
  isRecommended : bool
}.

Record brand_position := {
  bp_brand : jsstring;
  firstIndex : Z
}.

(** [chunk.web] of a grounding chunk. *)
Record web_source := {
  uri : jsstring;
  title : option jsstring
}.

Record grounding_chunk := { web : option web_source }.

Record grounding_metadata := {
  groundingChunks : option (list grounding_chunk);
  webSearchQueries : option (list jsstring)
}.

Record citation := {
  url : jsstring;
  cite_title : jsstring;
  domain : jsstring
}.

(** What [model.generateContent] and [response.text()] did: a text with its
    optional grounding metadata, or an exception. *)
Inductive provider_outcome :=
| Responded (text : jsstring) (grounding : option grounding_metadata)
| Failed (error : exn).

(** One call of the provider, with the reading of the clock taken after
    it. *)
Record provider_call := {
  outcome : provider_outcome;
  elapsedMs : nat
}.

Record analysis_result := {
  success : bool;
  prompt : jsstring;
  response : option jsstring;
  responseLength : option nat;
  processingTimeMs : nat;
  error : option jsstring;
  mentions : list mention;
  citations : list citation;
  searchQueries : list jsstring
}.

(** The character class of the regular expression in [escapeRegex]. *)
Definition escapeRegex_class (c : ascii) : bool :=
  existsb (Ascii.eqb c) (str ".*+?^${}()|[]\").

(** [string.replace(/[...]/g, '\\$&')]: a backslash before each character
    of the class. *)
Definition escapeRegex (s : jsstring) : jsstring :=
  flat_map (fun c => if escapeRegex_class c then ["\"%char; c] else [c]) s.

Definition positivePatterns : list jsstring :=
  map str ["best"; "excellent"; "great"; "recommended"; "leading"; "top";
           "powerful"; "popular"; "reliable"; "trusted"; "innovative";
           "easy to use"; "intuitive"; "robust"; "comprehensive";
           "outstanding"; "impressive"; "exceptional"; "superior";
           "favorite"; "preferred"; "highly rated"; "well-known";
           "industry leader"; "market leader"; "stands out"; "excels";
           "shines"; "ideal"; "perfect for"]%string.

Definition negativePatterns : list jsstring :=
  map str ["expensive"; "complex"; "difficult"; "limited"; "lacking";
           "poor"; "slow"; "outdated"; "complicated"; "overpriced";
           "basic"; "frustrating"; "clunky"; "steep learning curve";
           "confusing"; "unreliable"; "disappointing"; "worst"; "avoid";
           "issues"; "problems"; "bugs"; "crashes"; "not recommended"]%string.

(** The two loops of [analyzeSentiment]: the running score and the number
    of patterns matched so far. *)
Definition count_positive (lowerContext : jsstring) (acc : Z * nat)
    (pattern : jsstring) : Z * nat :=
  if includes lowerContext pattern then ((fst acc + 1)%Z, S (snd acc))
  else acc.

Definition count_negative (lowerContext : jsstring) (acc : Z * nat)
    (pattern : jsstring) : Z * nat :=
  if includes lowerContext pattern then ((fst acc - 1)%Z, S (snd acc))
  else acc.

Definition Q_of_nat (n : nat) : Q := inject_Z (Z.of_nat n).

Definition analyzeSentiment (context brand : jsstring) : sentiment_result :=
  let lowerContext := toLowerCase context in
  let after_positive :=
    fold_left (count_positive lowerContext) positivePatterns (0%Z, 0) in
  let matchedPositive := snd after_positive in
  let after_negative :=
    fold_left (count_negative lowerContext) negativePatterns
              (fst after_positive, 0) in
  let score := fst after_negative in
  let matchedNegative := snd after_negative in
  let totalMatches := matchedPositive + matchedNegative in
  let normalizedScore : Q :=
    if 0 <? totalMatches
    then Qmax (-1)
           (Qmin 1 (inject_Z score /
                    Q_of_nat (Nat.max (Nat.max matchedPositive matchedNegative) 1)))
    else 0%Q in
  let sentiment :=
    if negb (Qle_bool normalizedScore (2 # 10)) then Positive
    else if negb (Qle_bool (- (2 # 10)) normalizedScore) then Negative
    else Neutral in
  {| sr_sentiment := sentiment; sr_score := normalizedScore |}.

Definition recommendPatterns (lowerBrand : jsstring) : list jsstring :=
  [ str "recommend " ++ lowerBrand;
    lowerBrand ++ str " is recommended";
    str "suggest " ++ lowerBrand;
    lowerBrand ++ str " is a great choice";
    lowerBrand ++ str " is ideal";
    lowerBrand ++ str " is perfect";
    lowerBrand ++ str " is the best";
    str "top pick.*" ++ lowerBrand;
    lowerBrand ++ str ".*top pick";
    str "best.*" ++ lowerBrand;
    lowerBrand ++ str ".*stands out" ].

(** The regular expression literal [/^www\./] of [extractDomain]. *)
Definition www_regex : regex :=
  seq_of [RBol; RChar "w"; RChar "w"; RChar "w"; RChar "."].

(** [s.replace(regex, replacement)] without the [g] flag and with a
    replacement free of [$] patterns: the first match is replaced. *)
Definition String_replace (s : jsstring) (mt : matcher)
    (replacement : jsstring) : jsstring :=
  match RegExp_exec mt s 0 with
  | Some (i, e) => firstn i s ++ replacement ++ skipn e s
  | None => s
  end.

Definition unmentioned (b : jsstring) : mention :=
  {| brand := b; mentioned := false; count := 0; position := PosNull;
     context := None; sentiment := None; sentimentScore := None;
     isRecommended := false |}.

Section GeminiService.

Variable engine : jsstring -> bool -> option matcher.

(** [new URL(url).hostname]: [None] when the constructor throws. *)
Variable URL_hostname : jsstring -> option jsstring.

Definition checkIfRecommended (text brand : jsstring) : result bool :=
  let lowerText := toLowerCase text in
  let lowerBrand := toLowerCase brand in
  someM (fun pattern =>
           (regex <- RegExp_new engine pattern true ;;
            Ok (RegExp_test regex lowerText))%result)
        (recommendPatterns lowerBrand).

Definition extractDomain (u : jsstring) : jsstring :=
  match URL_hostname u with
  | Some hostname =>
      String_replace hostname (fun text => ends false text www_regex) []
  | None => u
  end.

(** The loop over [groundingChunks]: the citations collected so far (in
    order) and the set [seenUrls]. *)
Definition visit_chunk (acc : list citation * list jsstring)
    (chunk : grounding_chunk) : list citation * list jsstring :=
  match web chunk with
  | Some w =>
      if negb (existsb (jsstring_eqb (uri w)) (snd acc))
      then (fst acc ++ [{| url := uri w;
                           cite_title := match title w with
                                         | Some t => t
                                         | None => []
                                         end;
                           domain := extractDomain (uri w) |}],
            uri w :: snd acc)
      else acc
  | None => acc
  end.

(** The second loop of the function, over [groundingSupports], has an
    empty body and is left out. *)
Definition extractCitations (groundingMetadata : option grounding_metadata)
  : list citation :=
  match groundingMetadata with
  | None => []
  | Some gm =>
      let chunks := match groundingChunks gm with
                    | Some cs => cs
                    | None => []
                    end in
      fst (fold_left visit_chunk chunks ([], []))
  end.

(** The pattern [`\\b${this.escapeRegex(brand)}\\b`]. *)
Definition mention_pattern (b : jsstring) : jsstring :=
  str "\b" ++ escapeRegex b ++ str "\b".

Definition locate (text b : jsstring) : result brand_position :=
  (regex <- RegExp_new engine (mention_pattern b) true ;;
   Ok {| bp_brand := b;
         firstIndex := match String_match text regex with
                       | Some i => Z.of_nat i
                       | None => (-1)%Z
                       end |})%result.

(** First pass: the matched brands in the order of their first match. *)
Definition brandPositions (text : jsstring) (brands : list jsstring)
  : result (list brand_position) :=
  (located <- mapM (locate text) brands ;;
   Ok (Array_sort (fun a b => (firstIndex a - firstIndex b)%Z)
         (filter (fun b => negb (firstIndex b =? -1)%Z) located)))%result.

(** [brandPositions.forEach((item, index) => ...)]. *)
Definition fill_positionMap (acc : js_object * nat) (item : brand_position)
  : js_object * nat :=
  (obj_set (fst acc) (bp_brand item) (snd acc + 1), S (snd acc)).

Definition positionMap_of (bps : list brand_position) : js_object :=
  fst (fold_left fill_positionMap bps ([], 0)).

Definition position_or_null (v : js_value) : position_value :=
  match v with
  | VNumber 0 => PosNull
  | VNumber n => PosNum n
  | VObject => PosObject
  | VUndefined => PosNull
  end.

(** The body of the second loop, for one brand. *)
Definition mention_of (text : jsstring) (positionMap : js_object)
    (b : jsstring) : result mention :=
  (regex <- RegExp_new engine (mention_pattern b) true ;;
   let matches := String_matchAll text regex in
   match matches with
   | firstMatch :: _ =>
       let contextStart := Nat.max 0 (fst firstMatch - 150) in
       let contextEnd :=
         Nat.min (length text) (fst firstMatch + length b + 150) in
       let ctx := trim (slice text contextStart contextEnd) in
       let sentimentResult := analyzeSentiment ctx b in
       rec <- checkIfRecommended text b ;;
       Ok {| brand := b;
             mentioned := true;
             count := length matches;
             position := position_or_null (obj_get positionMap b);
             context := Some ctx;
             sentiment := Some (sr_sentiment sentimentResult);
             sentimentScore := Some (sr_score sentimentResult);
             isRecommended := rec |}
   | [] => Ok (unmentioned b)
   end)%result.

Definition extractBrandMentions (text : jsstring) (brands : list jsstring)
  : result (list mention) :=
  (bps <- brandPositions text brands ;;
   mapM (mention_of text (positionMap_of bps)) brands)%result.

(** [analyzePrompt]: everything between [try] and [catch], then the
    handler.  The call of the provider is the argument [call]. *)
Definition analyzePrompt_try (call : provider_call)
    (promptText : jsstring) (brands : list jsstring)
  : result analysis_result :=
  match outcome call with
  | Failed e => Throw e
  | Responded text groundingMetadata =>
      (ms <- extractBrandMentions text brands ;;
       let cs := extractCitations groundingMetadata in
       Ok {| success := true;
             prompt := promptText;
             response := Some text;
             responseLength := Some (length text);
             processingTimeMs := elapsedMs call;
             error := None;
             mentions := ms;
             citations := cs;
             searchQueries :=
               match groundingMetadata with
               | Some gm => match webSearchQueries gm with
                            | Some qs => qs
                            | None => []
                            end
               | None => []
               end |})%result
  end.

Definition analyzePrompt (call : provider_call)
    (promptText : jsstring) (brands : list jsstring) : analysis_result :=
  match analyzePrompt_try call promptText brands with
  | Ok r => r
  | Throw e =>
      {| success := false;
         prompt := promptText;
         response := None;
         responseLength := None;
         processingTimeMs := elapsedMs call;
         error := Some (message e);
         mentions := map unmentioned brands;
         citations := [];
         searchQueries := [] |}
  end.

End GeminiService.

(* ================================================================== *)
(** * The database *)
(* ================================================================== *)

(** The tables of the Prisma schema that the pipeline reads and writes.
    Identifiers are numbers handed out by a counter; the time stamps
    ([createdAt], [startedAt], [completedAt]) are not represented. *)

Record Brand := {
  brand_id : nat;
  brand_name : jsstring;
  isUserBrand : bool
}.

Record Prompt := {
  prompt_id : nat;
  prompt_text : jsstring;
  isActive : bool
}.

Record Project := {
  project_id : nat;
  project_brands : list Brand;
  project_prompts : list Prompt
}.

Inductive run_status := pending | processing | completed | failed.

Record AnalysisRun := {
  run_id : nat;
  run_projectId : nat;
  status : run_status;
  totalPrompts : option nat;
  processedPrompts : nat
}.

Record PromptResult := {
  pr_id : nat;
  pr_analysisRunId : nat;
  pr_promptId : nat;
  rawResponse : option jsstring;
  pr_responseLength : option nat;
  pr_processingTimeMs : option nat;
  pr_error : option jsstring
}.

Record BrandMention := {
  bm_id : nat;
  bm_promptResultId : nat;
  bm_brandId : nat;
  bm_position : option nat;
  bm_sentiment : option sentiment_label;
  bm_sentimentScore : option Q;
  contextSnippet : option jsstring;
  bm_isRecommended : bool
}.

Record Citation := {
  cit_id : nat;
  cit_promptResultId : nat;
  cit_url : jsstring;
  cit_domain : jsstring;
  cit_title : option jsstring
}.

(** [shareOfVoice], like the other [REAL] columns of the migration, is
    nullable and has no default. *)
Record MetricsSnapshot := {
  ms_id : nat;
  ms_analysisRunId : nat;
  ms_brandId : nat;
  visibilityScore : option Q;
  mentionCount : nat;
  citationCount : nat;
  shareOfVoice : option Q;
  averagePosition : option Q;
  positiveMentions : nat;
  neutralMentions : nat;
  negativeMentions : nat;
  averageSentiment : option Q;
  recommendationCount : nat;
  firstPositionCount : nat
}.

Record db := {
  projects : list Project;
  runs : list AnalysisRun;
  promptResults : list PromptResult;
  brandMentions : list BrandMention;
  citationRows : list Citation;
  snapshots : list MetricsSnapshot;
  next_id : nat
}.

Definition with_runs (d : db) (rs : list AnalysisRun) : db :=
  {| projects := projects d; runs := rs; promptResults := promptResults d;
     brandMentions := brandMentions d; citationRows := citationRows d;
     snapshots := snapshots d; next_id := next_id d |}.

Definition add_promptResult (d : db) (r : PromptResult) : db :=
  {| projects := projects d; runs := runs d;
     promptResults := promptResults d ++ [r];
     brandMentions := brandMentions d; citationRows := citationRows d;
     snapshots := snapshots d; next_id := S (next_id d) |}.

Definition add_brandMention (d : db) (r : BrandMention) : db :=
  {| projects := projects d; runs := runs d; promptResults := promptResults d;
     brandMentions := brandMentions d ++ [r];
     citationRows := citationRows d;
     snapshots := snapshots d; next_id := S (next_id d) |}.

Definition add_citation (d : db) (r : Citation) : db :=
  {| projects := projects d; runs := runs d; promptResults := promptResults d;
     brandMentions := brandMentions d;
     citationRows := citationRows d ++ [r];
     snapshots := snapshots d; next_id := S (next_id d) |}.

Definition with_snapshots (d : db) (ss : list MetricsSnapshot) (n : nat) : db :=
  {| projects := projects d; runs := runs d; promptResults := promptResults d;
     brandMentions := brandMentions d; citationRows := citationRows d;
     snapshots := ss; next_id := n |}.

(** ** Queries

    Each takes the tables and gives what the awaited promise settles to,
    with the tables afterwards. *)
Definition query (A : Type) := db -> result A * db.

(** [project.findUnique] with [include: { brands: true, prompts: { where:
    { isActive: true } } }]. *)
Definition project_findUnique (projectId : nat) : query (option Project) :=
  fun d =>
    (Ok (option_map
           (fun p => {| project_id := project_id p;
                        project_brands := project_brands p;
                        project_prompts := filter isActive (project_prompts p) |})
           (find (fun p => project_id p =? projectId) (projects d))),
     d).

(** [analysisRun.update] of the row with the given id; Prisma rejects when
    there is no such row. *)
Definition analysisRun_update (runId : nat)
    (change : AnalysisRun -> AnalysisRun) : query unit :=
  fun d =>
    if existsb (fun r => run_id r =? runId) (runs d)
    then (Ok tt,
          with_runs d (map (fun r => if run_id r =? runId then change r else r)
                           (runs d)))
    else (Throw (PrismaError (str "Record to update not found.")), d).

Definition start_processing (total : nat) (r : AnalysisRun) : AnalysisRun :=
  {| run_id := run_id r; run_projectId := run_projectId r;
     status := processing; totalPrompts := Some total;
     processedPrompts := processedPrompts r |}.

Definition set_processed (n : nat) (r : AnalysisRun) : AnalysisRun :=
  {| run_id := run_id r; run_projectId := run_projectId r;
     status := status r; totalPrompts := totalPrompts r;
     processedPrompts := n |}.

Definition set_completed (r : AnalysisRun) : AnalysisRun :=
  {| run_id := run_id r; run_projectId := run_projectId r;
     status := completed; totalPrompts := totalPrompts r;
     processedPrompts := processedPrompts r |}.

Definition promptResult_create (runId promptId : nat)
    (raw : option jsstring) (len time : option nat) (err : option jsstring)
  : query PromptResult :=
  fun d =>
    let row := {| pr_id := next_id d; pr_analysisRunId := runId;
                  pr_promptId := promptId; rawResponse := raw;
                  pr_responseLength := len; pr_processingTimeMs := time;
                  pr_error := err |} in
    (Ok row, add_promptResult d row).

(** [brandMention.create].  The column [position] is [Int?]: the client
    validates the argument and rejects a value that is neither an integer
    nor [null]. *)
Definition brandMention_create (promptResultId brandId : nat) (m : mention)
  : query unit :=
  fun d =>
    match position m with
    | PosObject =>
        (Throw (PrismaError (str "Argument position: Invalid value provided.")), d)
    | p =>
        (Ok tt,
         add_brandMention d
           {| bm_id := next_id d; bm_promptResultId := promptResultId;
              bm_brandId := brandId;
              bm_position := match p with PosNum n => Some n | _ => None end;
              bm_sentiment := sentiment m;
              bm_sentimentScore := sentimentScore m;
              contextSnippet := context m;
              bm_isRecommended := isRecommended m |})
    end.

Definition citation_create (promptResultId : nat) (c : citation) : query unit :=
  fun d =>
    (Ok tt,
     add_citation d
       {| cit_id := next_id d; cit_promptResultId := promptResultId;
          cit_url := url c; cit_domain := domain c;
          cit_title := match cite_title c with
                       | [] => None
                       | t => Some t
                       end |}).

(** A prompt result with its [include]d mentions and citations. *)
Record PromptResult_included := {
  pri_row : PromptResult;
  pri_brandMentions : list BrandMention;
  pri_citations : list Citation
}.

Definition promptResult_findMany (runId : nat)
  : query (list PromptResult_included) :=
  fun d =>
    (Ok (map (fun r =>
                {| pri_row := r;
                   pri_brandMentions :=
                     filter (fun m => bm_promptResultId m =? pr_id r)
                            (brandMentions d);
                   pri_citations :=
                     filter (fun c => cit_promptResultId c =? pr_id r)
                            (citationRows d) |})
             (filter (fun r => pr_analysisRunId r =? runId) (promptResults d))),
     d).

(** The values computed for one brand, as passed to both branches of the
    upsert. *)
Record snapshot_values := {
  sv_visibilityScore : Q;
  sv_mentionCount : nat;
  sv_citationCount : nat;
  sv_averagePosition : option Q;
  sv_positiveMentions : nat;
  sv_neutralMentions : nat;
  sv_negativeMentions : nat;
  sv_averageSentiment : option Q;
  sv_recommendationCount : nat;
  sv_firstPositionCount : nat
}.

Definition snapshot_created (id runId brandId : nat) (v : snapshot_values)
  : MetricsSnapshot :=
  {| ms_id := id; ms_analysisRunId := runId; ms_brandId := brandId;
     visibilityScore := Some (sv_visibilityScore v);
     mentionCount := sv_mentionCount v;
     citationCount := sv_citationCount v;
     shareOfVoice := None;
     averagePosition := sv_averagePosition v;
     positiveMentions := sv_positiveMentions v;
     neutralMentions := sv_neutralMentions v;
     negativeMentions := sv_negativeMentions v;
     averageSentiment := sv_averageSentiment v;
     recommendationCount := sv_recommendationCount v;
     firstPositionCount := sv_firstPositionCount v |}.

Definition snapshot_updated (s : MetricsSnapshot) (v : snapshot_values)
  : MetricsSnapshot :=
  {| ms_id := ms_id s; ms_analysisRunId := ms_analysisRunId s;
     ms_brandId := ms_brandId s;
     visibilityScore := Some (sv_visibilityScore v);
     mentionCount := sv_mentionCount v;
     citationCount := sv_citationCount v;
     shareOfVoice := shareOfVoice s;
     averagePosition := sv_averagePosition v;
     positiveMentions := sv_positiveMentions v;
     neutralMentions := sv_neutralMentions v;
     negativeMentions := sv_negativeMentions v;
     averageSentiment := sv_averageSentiment v;
     recommendationCount := sv_recommendationCount v;
     firstPositionCount := sv_firstPositionCount v |}.

Definition snapshot_is (runId brandId : nat) (s : MetricsSnapshot) : bool :=
  (ms_analysisRunId s =? runId) && (ms_brandId s =? brandId).

(** [metricsSnapshot.upsert] on the unique key (analysisRunId, brandId). *)
Definition metricsSnapshot_upsert (runId brandId : nat) (v : snapshot_values)
  : query unit :=
  fun d =>
    if existsb (snapshot_is runId brandId) (snapshots d)
    then (Ok tt,
          with_snapshots d
            (map (fun s => if snapshot_is runId brandId s
                           then snapshot_updated s v else s)
                 (snapshots d))
            (next_id d))
    else (Ok tt,
          with_snapshots d
            (snapshots d ++ [snapshot_created (next_id d) runId brandId v])
            (S (next_id d))).

Definition of_run (runId : nat) (s : MetricsSnapshot) : bool :=
  ms_analysisRunId s =? runId.

(** [metricsSnapshot.aggregate] with [_sum: { mentionCount: true }]: the
    sum is [null] when no row is selected. *)
Definition metricsSnapshot_sum_mentionCount (runId : nat)
  : query (option nat) :=
  fun d =>
    match filter (of_run runId) (snapshots d) with
    | [] => (Ok None, d)
    | rows => (Ok (Some (list_sum (map mentionCount rows))), d)
    end.

Definition metricsSnapshot_findMany (runId : nat)
  : query (list MetricsSnapshot) :=
  fun d => (Ok (filter (of_run runId) (snapshots d)), d).

Definition set_shareOfVoice (q : Q) (s : MetricsSnapshot) : MetricsSnapshot :=
  {| ms_id := ms_id s; ms_analysisRunId := ms_analysisRunId s;
     ms_brandId := ms_brandId s;
     visibilityScore := visibilityScore s;
     mentionCount := mentionCount s;
     citationCount := citationCount s;
     shareOfVoice := Some q;
     averagePosition := averagePosition s;
     positiveMentions := positiveMentions s;
     neutralMentions := neutralMentions s;
     negativeMentions := negativeMentions s;
     averageSentiment := averageSentiment s;
     recommendationCount := recommendationCount s;
     firstPositionCount := firstPositionCount s |}.

(** [metricsSnapshot.update] of [shareOfVoice] for the row with an id. *)
Definition metricsSnapshot_update_share (id : nat) (q : Q) : query unit :=
  fun d =>
    if existsb (fun s => ms_id s =? id) (snapshots d)
    then (Ok tt,
          with_snapshots d
            (map (fun s => if ms_id s =? id then set_shareOfVoice q s else s)
                 (snapshots d))
            (next_id d))
    else (Throw (PrismaError (str "Record to update not found.")), d).

(* ================================================================== *)
(** * AnalysisRunner *)
(* ================================================================== *)

(** Events handed to the [onProgress] callback. *)
Inductive progress_event :=
| Progress (processed total : nat) (currentPrompt : jsstring)
| Complete (runId : nat).

(** An element of the array [results] that [runAnalysis] returns. *)
Record run_result := {
  rr_promptId : nat;
  rr_success : bool;
  rr_error : option jsstring
}.

(** What a run can observe and change: the tables, how many database calls
    were awaited so far, the events given to the observer and the local
    array [results]. *)
Record world := {
  store : db;
  calls : nat;
  emitted : list progress_event;
  results : list run_result
}.

(** The code of the runner: a state transformer that returns or throws. *)
Definition M (A : Type) := world -> result A * world.

Definition ret {A} (a : A) : M A := fun w => (Ok a, w).

Definition throw {A} (e : exn) : M A := fun w => (Throw e, w).

Definition bind {A B} (m : M A) (k : A -> M B) : M B :=
  fun w =>
    match m w with
    | (Ok a, w') => k a w'
    | (Throw e, w') => (Throw e, w')
    end.

(** [try { body } catch (error) { handler }]: what the body wrote before
    it threw stays written. *)
Definition try_catch {A} (body : M A) (handler : exn -> M A) : M A :=
  fun w =>
    match body w with
    | (Ok a, w') => (Ok a, w')
    | (Throw e, w') => handler e w'
    end.

Declare Scope run_scope.
Delimit Scope run_scope with run.
Notation "x <- m ;; k" := (bind m (fun x => k))
  (at level 61, m at next level, right associativity) : run_scope.
Notation "m ;; k" := (bind m (fun _ => k))
  (at level 61, right associativity) : run_scope.

(** [for (const x of xs) { await f(x) }]. *)
Fixpoint forM {A} (f : A -> M unit) (l : list A) : M unit :=
  match l with
  | [] => ret tt
  | x :: l' => (f x ;; forM f l')%run
  end.

Definition when (b : bool) (m : M unit) : M unit :=
  if b then m else ret tt.

Definition emit (e : progress_event) : M unit :=
  fun w => (Ok tt, {| store := store w; calls := calls w;
                      emitted := emitted w ++ [e];
                      results := results w |}).

Definition push_result (r : run_result) : M unit :=
  fun w => (Ok tt, {| store := store w; calls := calls w;
                      emitted := emitted w;
                      results := results w ++ [r] |}).

Definition get_results : M (list run_result) :=
  fun w => (Ok (results w), w).

(** [x || null] for a string and for a number. *)
Definition string_or_null (s : option jsstring) : option jsstring :=
  match s with
  | Some [] => None
  | other => other
  end.

Definition number_or_null (n : option nat) : option nat :=
  match n with
  | Some 0 => None
  | other => other
  end.

(** [!r.error]: no error, or the empty string. *)
Definition no_error (r : PromptResult_included) : bool :=
  match pr_error (pri_row r) with
  | None | Some [] => true
  | Some (_ :: _) => false
  end.

Definition is_some {A} (o : option A) : bool :=
  match o with Some _ => true | None => false end.

Fixpoint somes {A} (l : list (option A)) : list A :=
  match l with
  | [] => []
  | Some a :: l' => a :: somes l'
  | None :: l' => somes l'
  end.

Definition sentiment_is (s : sentiment_label) (m : BrandMention) : bool :=
  match bm_sentiment m, s with
  | Some Positive, Positive | Some Neutral, Neutral
  | Some Negative, Negative => true
  | _, _ => false
  end.

Definition Qsum (l : list Q) : Q := fold_left Qplus l 0%Q.

(** The per-brand part of [calculateMetrics], before the upsert. *)
Definition brand_metrics (validResults : list PromptResult_included)
    (b : Brand) : snapshot_values :=
  let brandMentions :=
    flat_map (fun r => filter (fun m => bm_brandId m =? brand_id b)
                              (pri_brandMentions r)) validResults in
  let mentionedResults :=
    filter (fun m => is_some (bm_position m)) brandMentions in
  let mentionCount := length mentionedResults in
  let visibilityScore :=
    if 0 <? length validResults
    then (Q_of_nat mentionCount / Q_of_nat (length validResults) * 100)%Q
    else 0%Q in
  let positions := somes (map bm_position mentionedResults) in
  let averagePosition :=
    if 0 <? length positions
    then Some (Q_of_nat (fold_left Nat.add positions 0%nat)
               / Q_of_nat (length positions))%Q
    else None in
  let firstPositionCount := length (filter (fun p => p =? 1) positions) in
  let sentimentScores := somes (map bm_sentimentScore mentionedResults) in
  let averageSentiment :=
    if 0 <? length sentimentScores
    then Some (Qsum sentimentScores / Q_of_nat (length sentimentScores))%Q
    else None in
  {| sv_visibilityScore := visibilityScore;
     sv_mentionCount := mentionCount;
     sv_citationCount :=
       fold_left (fun sum r => sum + length (pri_citations r))
         (filter (fun r =>
                    existsb (fun m => (bm_brandId m =? brand_id b)
                                      && is_some (bm_position m))
                            (pri_brandMentions r))
                 validResults) 0;
     sv_averagePosition := averagePosition;
     sv_positiveMentions := length (filter (sentiment_is Positive) mentionedResults);
     sv_neutralMentions := length (filter (sentiment_is Neutral) mentionedResults);
     sv_negativeMentions := length (filter (sentiment_is Negative) mentionedResults);
     sv_averageSentiment := averageSentiment;
     sv_recommendationCount := length (filter bm_isRecommended mentionedResults);
     sv_firstPositionCount := firstPositionCount |}.

(** ** Doubles

    A JavaScript number is a binary64 value of IEEE 754.  The finite ones
    are rationals, and the result of an arithmetic operation is the exact
    result rounded to the nearest of them, a tie going to the one with the
    even significand.  [round_double] is this rounding: the significand has
    53 bits and the exponent of its last place is at least -1074.  (Results
    beyond the largest double, which would be infinite, do not occur: the
    quotients rounded here are at most 1 and the products at most 100.) *)

(** The integer nearest to [n / d], for [0 < d], ties to even. *)
Definition round_half_even (n d : Z) : Z :=
  let k := (n / d)%Z in
  match (2 * (n mod d) ?= d)%Z with
  | Lt => k
  | Gt => (k + 1)%Z
  | Eq => if Z.even k then k else (k + 1)%Z
  end.

(** For [0 < q], the exponent [e] with [2^52 <= q / 2^e < 2^53]: the
    difference of the binary logarithms of numerator and denominator is off
    by at most one. *)
Definition normal_exponent (q : Q) : Z :=
  let e0 := (Z.log2 (Qnum q) - Z.log2 (QDen q) - 52)%Z in
  if Qle_bool (2 ^ 52) (q / 2 ^ e0) then e0 else (e0 - 1)%Z.

(** The exponent of the last place of the double nearest to [q]; below
    2^-1022 the doubles are evenly spaced. *)
Definition last_place (q : Q) : Z := Z.max (normal_exponent q) (-1074).

Definition round_positive (q : Q) : Q :=
  let e := last_place q in
  let x := (q / 2 ^ e)%Q in
  (inject_Z (round_half_even (Qnum x) (QDen x)) * 2 ^ e)%Q.

Definition round_double (q : Q) : Q :=
  match Qnum q with
  | Z0 => 0%Q
  | Zpos _ => round_positive q
  | Zneg _ => (- round_positive (- q))%Q
  end.

(** [(snapshot.mentionCount / total) * 100]: a division and a
    multiplication of doubles.  The counts are [Int] columns and are doubles
    as they stand.  The code evaluates it only for [total > 0]. *)
Definition share_of (mentions total : nat) : Q :=
  round_double (round_double (Q_of_nat mentions / Q_of_nat total) * 100)%Q.

Section AnalysisRunner.

Variable engine : jsstring -> bool -> option matcher.
Variable URL_hostname : jsstring -> option jsstring.

(** The provider's answer to the prompt at each index of the run. *)
Variable provider : nat -> provider_call.

(** The database calls that fail, by their number in the order in which
    the run awaits them, with the message of the rejection. *)
Variable faults : nat -> option jsstring.

(** [await this.prisma. ...]: the call settles as the query says unless
    the database fails it. *)
Definition prisma {A} (q : query A) : M A :=
  fun w =>
    match faults (calls w) with
    | Some msg =>
        (Throw (PrismaError msg),
         {| store := store w; calls := S (calls w);
            emitted := emitted w; results := results w |})
    | None =>
        let (r, d) := q (store w) in
        (r, {| store := d; calls := S (calls w);
               emitted := emitted w; results := results w |})
    end.

Definition calculateMetrics (runId : nat) (project : Project) : M unit :=
  (promptResults <- prisma (promptResult_findMany runId) ;;
   let validResults := filter no_error promptResults in
   forM (fun b =>
           prisma (metricsSnapshot_upsert runId (brand_id b)
                     (brand_metrics validResults b)))
        (project_brands project) ;;
   totalMentions <- prisma (metricsSnapshot_sum_mentionCount runId) ;;
   let total := match totalMentions with
                | Some n => n
                | None => 0
                end in
   if 0 <? total
   then
     (found <- prisma (metricsSnapshot_findMany runId) ;;
      forM (fun snapshot =>
              prisma (metricsSnapshot_update_share (ms_id snapshot)
                        (share_of (mentionCount snapshot) total)))
           found)
   else ret tt)%run.

Definition save_mention (project : Project) (promptResultId : nat)
    (m : mention) : M unit :=
  match find (fun b => jsstring_eqb (brand_name b) (brand m))
             (project_brands project) with
  | Some b => prisma (brandMention_create promptResultId (brand_id b) m)
  | None => ret tt
  end.

(** The body of the [try] for the prompt at index [i]. *)
Definition process_prompt (project : Project) (runId onProgress_total : nat)
    (onProgress : bool) (i : nat) (p : Prompt) : M unit :=
  let brandNames := map brand_name (project_brands project) in
  let result := analyzePrompt engine URL_hostname (provider i)
                  (prompt_text p) brandNames in
  (promptResult <-
     prisma (promptResult_create runId (prompt_id p)
               (string_or_null (response result))
               (number_or_null (responseLength result))
               (Some (processingTimeMs result))
               (string_or_null (error result))) ;;
   when (0 <? length (mentions result))
        (forM (save_mention project (pr_id promptResult))
              (mentions result)) ;;
   when (0 <? length (citations result))
        (forM (fun c => prisma (citation_create (pr_id promptResult) c))
              (citations result)) ;;
   push_result {| rr_promptId := prompt_id p;
                  rr_success := success result;
                  rr_error := error result |} ;;
   prisma (analysisRun_update runId (set_processed (i + 1))) ;;
   when onProgress
        (emit (Progress (i + 1) onProgress_total (prompt_text p))))%run.

(** The [catch] of the loop body. *)
Definition record_failure (runId : nat) (p : Prompt) (e : exn) : M unit :=
  (prisma (promptResult_create runId (prompt_id p) None None None
             (Some (message e))) ;;
   push_result {| rr_promptId := prompt_id p;
                  rr_success := false;
                  rr_error := Some (message e) |})%run.

Fixpoint for_prompts (project : Project) (runId total : nat)
    (onProgress : bool) (i : nat) (ps : list Prompt) : M unit :=
  match ps with
  | [] => ret tt
  | p :: ps' =>
      (try_catch (process_prompt project runId total onProgress i p)
                 (record_failure runId p) ;;
       for_prompts project runId total onProgress (S i) ps')%run
  end.

(** [runAnalysis(projectId, runId, onProgress)]; [onProgress] says
    whether a callback was given.  The pacing delay and the console
    output leave no trace in the world. *)
Definition runAnalysis (projectId runId : nat) (onProgress : bool)
  : M (list run_result) :=
  (found <- prisma (project_findUnique projectId) ;;
   match found with
   | None => throw (PlainError (str "Project not found"))
   | Some project =>
       let prompts := project_prompts project in
       prisma (analysisRun_update runId
                 (start_processing (length prompts))) ;;
       for_prompts project runId (length prompts) onProgress 0 prompts ;;
       calculateMetrics runId project ;;
       prisma (analysisRun_update runId set_completed) ;;
       when onProgress (emit (Complete runId)) ;;
       get_results
   end)%run.

End AnalysisRunner.

Definition no_faults : nat -> option jsstring := fun _ => None.

(* ================================================================== *)
(** * Definitions used in the statements *)
(* ================================================================== *)

(** The state of the pattern parser after the characters of a name, each
    read as a literal. *)
Definition push_literals (b : jsstring) (st : pstate) : pstate :=
  fold_left (fun st c => push_term (RChar c) QAtom st) b st.

(** The regular expression that the pattern of a brand name denotes: the
    characters of the name, each a literal, between two word-boundary
    assertions. *)
Definition mention_regex (b : jsstring) : regex :=
  seq_of (RWordB false :: map RChar b ++ [RWordB false]).

(** [b] is, up to the case of letters, a prefix of [s]. *)
Fixpoint ci_prefix (b s : jsstring) : bool :=
  match b, s with
  | [], _ => true
  | c :: b', ch :: s' =>
      Ascii.eqb (Canonicalize c) (Canonicalize ch) && ci_prefix b' s'
  | _ :: _, [] => false
  end.

(** The brand name stands at index [i] of the text between two word
    boundaries. *)
Definition whole_word_at (text b : jsstring) (i : nat) : bool :=
  atWordBoundary text i && ci_prefix b (skipn i text)
  && atWordBoundary text (i + length b).

(** The least index at which the brand name stands as a whole word. *)
Definition first_whole_word (text b : jsstring) : option nat :=
  find (whole_word_at text b) (seq 0 (S (length text))).

(** The same, said without indices into the text: the text splits into what
    comes before, the occurrence and what comes after. *)
Definition same_ignoring_case (a b : jsstring) : Prop :=
  Forall2 (fun x y => Canonicalize x = Canonicalize y) a b.

Definition ends_in_word (l : jsstring) : bool :=
  match rev l with
  | c :: _ => isWordChar c
  | [] => false
  end.

Definition starts_with_word (r : jsstring) : bool :=
  match r with
  | c :: _ => isWordChar c
  | [] => false
  end.

(** Exactly one side of the cut is a word character. *)
Definition word_boundary (l r : jsstring) : Prop :=
  ends_in_word l <> starts_with_word r.

Definition whole_word_occurrence (text b : jsstring) (i : nat) : Prop :=
  exists pre mid post,
    text = pre ++ mid ++ post /\ length pre = i /\
    same_ignoring_case b mid /\
    word_boundary pre (mid ++ post) /\ word_boundary (pre ++ mid) post.

(** The index stored by the first pass for a brand. *)
Definition located (text b : jsstring) : brand_position :=
  {| bp_brand := b;
     firstIndex := match first_whole_word text b with
                   | Some i => Z.of_nat i
                   | None => (-1)%Z
                   end |}.

(** The brands found in the text, in the order of the brand list. *)
Definition matched_brands (text : jsstring) (brands : list jsstring)
  : list brand_position :=
  filter (fun b => negb (firstIndex b =? -1)%Z) (map (located text) brands).

Definition by_firstIndex (a b : brand_position) : Z :=
  (firstIndex a - firstIndex b)%Z.

(** The record built for a brand found at index [i], given the outcome of
    the recommendation check. *)
Definition mentioned_at (text : jsstring) (positionMap : js_object)
    (b : jsstring) (i : nat) (rec : bool) : mention :=
  let ctx := trim (slice text (Nat.max 0 (i - 150))
                     (Nat.min (length text) (i + length b + 150))) in
  {| brand := b;
     mentioned := true;
     count := length (String_matchAll text
                        (fun t => ends true t (mention_regex b)));
     position := position_or_null (obj_get positionMap b);
     context := Some ctx;
     sentiment := Some (sr_sentiment (analyzeSentiment ctx b));
     sentimentScore := Some (sr_score (analyzeSentiment ctx b));
     isRecommended := rec |}.

(** An occurrence [mid] of a name, between [pre] and [post], that continues
    a word on a side where it begins or ends with a word character. *)
Definition inside_larger_word (pre mid post : jsstring) : Prop :=
  (ends_in_word pre = true /\ starts_with_word mid = true) \/
  (ends_in_word mid = true /\ starts_with_word post = true).

(** The context window of [extractBrandMentions] for a match that starts at
    index [i]. *)
Definition context_window (text b : jsstring) (i : nat) : jsstring :=
  trim (slice text (i - 150) (Nat.min (length text) (i + length b + 150))).

(** The context window as the specification words it: 150 characters to
    either side of the start of the match. *)
Definition context_window_spec (text : jsstring) (i : nat) : jsstring :=
  trim (slice text (i - 150) (Nat.min (length text) (i + 150))).

(** ** Sample inputs *)

Definition review_text : jsstring := str "We tested Acme (Pro) and liked it".

Definition paren_brand : jsstring := str "Acme (Pro".

(** A response of 205 characters that starts with the brand name. *)
Definition long_text : jsstring := str "Acme " ++ repeat "x"%char 200.

(** The index of the first occurrence of a name in a list of names. *)
Fixpoint index_of (k : jsstring) (l : list jsstring) : option nat :=
  match l with
  | [] => None
  | x :: l' => if jsstring_eqb k x then Some 0
               else option_map S (index_of k l')
  end.

(** The place of a name in a list, counted from 1. *)
Definition rank_in (l : list jsstring) (k : jsstring) : nat :=
  match index_of k l with
  | Some j => S j
  | None => 0
  end.

(** The key that the first pass sorts by. *)
Definition first_index (text b : jsstring) : Z := firstIndex (located text b).

Definition is_found (text b : jsstring) : bool :=
  is_some (first_whole_word text b).

(** The found brands in the order in which the first pass leaves them. *)
Definition ranking (text : jsstring) (brands : list jsstring)
  : list jsstring :=
  Array_sort (fun a b => (first_index text a - first_index text b)%Z)
             (filter (is_found text) brands).

Definition has_position (p : position_value) : bool :=
  match p with
  | PosNull => false
  | _ => true
  end.

(** The positions that are not [null], in the order of the records. *)
Definition assigned_positions (ms : list mention) : list position_value :=
  filter has_position (map position ms).

(** A list is in ascending order of a key. *)
Definition ascending {A} (key : A -> Z) (l : list A) : Prop :=
  forall i j a b, i < j -> nth_error l i = Some a -> nth_error l j = Some b ->
                  (key a <= key b)%Z.

(** The records of a run of [extractBrandMentions] that returns. *)
Definition records_of (r : result (list mention)) : list mention :=
  match r with
  | Ok ms => ms
  | Throw _ => []
  end.

Definition duel_text : jsstring := str "Globex beats Acme".

Definition duel_brands : list jsstring := [str "Acme"; str "Globex"].

Definition duel_mentions : list mention :=
  Eval vm_compute in
    records_of (extractBrandMentions strict_engine duel_text duel_brands).

(** A phrase occurs in a context, the case of letters ignored. *)
Definition occurs_ignoring_case (phrase ctx : jsstring) : Prop :=
  exists pre mid post,
    ctx = pre ++ mid ++ post /\ toLowerCase mid = toLowerCase phrase.

(** How many phrases of a lexicon are found in the lower-cased context. *)
Definition count_found (lexicon : list jsstring) (ctx : jsstring) : nat :=
  length (filter (includes (toLowerCase ctx)) lexicon).

Definition clamp (lo hi x : Q) : Q := Qmax lo (Qmin hi x).

(** Pairwise distinct, decided. *)
Fixpoint distinct (l : list jsstring) : bool :=
  match l with
  | [] => true
  | x :: l' => negb (existsb (jsstring_eqb x) l') && distinct l'
  end.

(** A host name without a leading [www.]. *)
Definition strip_www (h : jsstring) : jsstring :=
  if startsWith (str "www.") h then skipn 4 h else h.

(** The web entries of a list of grounding chunks, in order. *)
Definition web_sources (chunks : list grounding_chunk) : list web_source :=
  somes (map web chunks).

(** The first web entry with a given URL. *)
Definition first_with_uri (u : jsstring) (ws : list web_source)
  : option web_source :=
  find (fun w => jsstring_eqb (uri w) u) ws.

(** [web.title || '']. *)
Definition title_or_empty (w : web_source) : jsstring :=
  match title w with
  | Some t => t
  | None => []
  end.

Definition chunks_of (gm : grounding_metadata) : list grounding_chunk :=
  match groundingChunks gm with
  | Some cs => cs
  | None => []
  end.

(** What the loop over the chunks keeps true: the citations collected from
    the chunks [seen_chunks] visited so far, with the set of their URLs. *)
Definition citations_of (URL_hostname : jsstring -> option jsstring)
    (seen_chunks : list grounding_chunk)
    (acc : list citation * list jsstring) : Prop :=
  let ws := web_sources seen_chunks in
  (forall u, In u (snd acc) <-> In u (map uri ws)) /\
  (forall u, In u (map url (fst acc)) <-> In u (map uri ws)) /\
  NoDup (map url (fst acc)) /\
  forall c, In c (fst acc) ->
    exists w, first_with_uri (url c) ws = Some w /\
              cite_title c = title_or_empty w /\
              domain c = extractDomain URL_hostname (url c).

(** ** A sample project and its runs *)

Definition acme : Brand :=
  {| brand_id := 10; brand_name := str "Acme"; isUserBrand := true |}.

Definition globex : Brand :=
  {| brand_id := 11; brand_name := str "Globex"; isUserBrand := false |}.

Definition first_prompt : Prompt :=
  {| prompt_id := 20; prompt_text := str "best crm"; isActive := true |}.

Definition second_prompt : Prompt :=
  {| prompt_id := 21; prompt_text := str "crm pricing"; isActive := true |}.

(** A project with the given prompts, and one pending run (id 30) of it in
    an otherwise empty database. *)
Definition sample_world (ps : list Prompt) : world :=
  {| store :=
       {| projects := [ {| project_id := 1;
                           project_brands := [acme; globex];
                           project_prompts := ps |} ];
          runs := [ {| run_id := 30; run_projectId := 1; status := pending;
                       totalPrompts := Some (length ps);
                       processedPrompts := 0 |} ];
          promptResults := []; brandMentions := []; citationRows := [];
          snapshots := []; next_id := 100 |};
     calls := 0; emitted := []; results := [] |}.

Definition no_hostname : jsstring -> option jsstring := fun _ => None.

(** A provider that answers every prompt with the same text. *)
Definition answering (text : string) : nat -> provider_call :=
  fun _ => {| outcome := Responded (str text) None; elapsedMs := 5 |}.

(** A provider whose every call fails. *)
Definition failing (msg : string) : nat -> provider_call :=
  fun _ => {| outcome := Failed (ProviderError (str msg)); elapsedMs := 5 |}.

(** The database fails the call with the given number. *)
Definition fault_at (n : nat) (msg : string) : nat -> option jsstring :=
  fun k => if k =? n then Some (str msg) else None.

(** All of a brand mention row except its keys is empty, as in the rows
    made from the placeholders of a failed call. *)
Definition placeholder_row (m : BrandMention) : Prop :=
  bm_position m = None /\ bm_sentiment m = None /\
  bm_sentimentScore m = None /\ contextSnippet m = None /\
  bm_isRecommended m = false.

(** ** Reasoning about the runner *)

(** From a world where [P] holds, [m] returns [a] in a world where [Q a]
    holds, or throws in a world where [E] holds. *)
Definition triple {A} (P : world -> Prop) (m : M A)
    (Q : A -> world -> Prop) (E : world -> Prop) : Prop :=
  forall w r w', P w -> m w = (r, w') ->
                 match r with
                 | Ok a => Q a w'
                 | Throw _ => E w'
                 end.

(** A property of the tables, as a property of the world. *)
Definition on (P : db -> Prop) : world -> Prop := fun w => P (store w).

(** Every row refers to a prompt result whose id was already handed out. *)
Definition refs_below (d : db) : Prop :=
  (forall r, In r (promptResults d) -> pr_id r < next_id d) /\
  (forall m, In m (brandMentions d) -> bm_promptResultId m < next_id d) /\
  (forall c, In c (citationRows d) -> cit_promptResultId c < next_id d).

(** The prompt results with an error, among those with an id from [n0] on,
    have no citation rows, and placeholders for brand mention rows. *)
Definition error_rows_bare (n0 : nat) (d : db) : Prop :=
  forall r, In r (promptResults d) -> n0 <= pr_id r -> pr_error r <> None ->
    (forall c, In c (citationRows d) -> cit_promptResultId c <> pr_id r) /\
    (forall m, In m (brandMentions d) -> bm_promptResultId m = pr_id r ->
               placeholder_row m).

Definition run_invariant (n0 : nat) (d : db) : Prop :=
  refs_below d /\ n0 <= next_id d /\ error_rows_bare n0 d.

(** While the rows of the prompt result [k], stored with error [e], are
    being written. *)
Definition saving (n0 k : nat) (e : option jsstring) (d : db) : Prop :=
  run_invariant n0 d /\ k < next_id d /\
  forall r, In r (promptResults d) -> pr_id r = k -> pr_error r = e.

(** A call that leaves the three tables of results and the bound on ids
    alone keeps any property of them. *)
Definition same_results (d d' : db) : Prop :=
  promptResults d' = promptResults d /\ brandMentions d' = brandMentions d /\
  citationRows d' = citationRows d /\ next_id d <= next_id d'.

(** A mention record with nothing but its brand, as [analyzePrompt] makes
    them for a failed call. *)
Definition blank (m : mention) : Prop :=
  position m = PosNull /\ sentiment m = None /\ sentimentScore m = None /\
  context m = None /\ isRecommended m = false.

(** The rows that the first loop of [calculateMetrics] creates for the
    brands of a run without snapshots, the first one with id [n]. *)
Fixpoint created_rows (runId : nat) (validResults : list PromptResult_included)
    (n : nat) (brands : list Brand) : list MetricsSnapshot :=
  match brands with
  | [] => []
  | b :: bs =>
      snapshot_created n runId (brand_id b) (brand_metrics validResults b)
      :: created_rows runId validResults (S n) bs
  end.

(** What the updates of the second loop, for the snapshots [targets], do to
    one row. *)
Definition share_updates (total : nat) (targets : list MetricsSnapshot)
    (s : MetricsSnapshot) : MetricsSnapshot :=
  fold_left (fun s' t => if ms_id s' =? ms_id t
                         then set_shareOfVoice (share_of (mentionCount t) total) s'
                         else s')
            targets s.

(** The snapshots of a run in the tables of a world. *)
Definition run_snapshots (runId : nat) (w : world) : list MetricsSnapshot :=
  filter (of_run runId) (snapshots (store w)).

(** The project of the sample world as [runAnalysis] finds it. *)
Definition sample_project : Project :=
  {| project_id := 1; project_brands := [acme; globex];
     project_prompts := [first_prompt] |}.

(** The sample world after the loop over the prompts, for a response that
    names one brand. *)
Definition aggregation_input : world :=
  Eval vm_compute in
    snd (for_prompts strict_engine no_hostname (answering "Acme is great")
           no_faults sample_project 30 1 false 0 [first_prompt]
           (sample_world [first_prompt])).

(* ================================================================== *)
(** * Definitions for the further properties *)
(* ================================================================== *)

(** No character of the string is in the class that [escapeRegex]
    escapes. *)
Definition plain (s : jsstring) : bool :=
  forallb (fun c => negb (escapeRegex_class c)) s.

(** A pattern made of literal characters and of [.*] only. *)
Fixpoint literals_and_wildcards (p : jsstring) : bool :=
  match p with
  | [] => true
  | c :: rest =>
      match classify c with
      | KLiteral => literals_and_wildcards rest
      | KDot =>
          match rest with
          | d :: rest' =>
              match classify d with
              | KStar => literals_and_wildcards rest'
              | _ => false
              end
          | [] => false
          end
      | _ => false
      end
  end.

(** Every character of the pattern is read as a literal. *)
Definition all_literal (p : jsstring) : bool :=
  forallb (fun c => match classify c with KLiteral => true | _ => false end) p.

(** The patterns of [checkIfRecommended] that have no wildcard: the first
    seven. *)
Definition phrase_patterns (lowerBrand : jsstring) : list jsstring :=
  firstn 7 (recommendPatterns lowerBrand).

(** The parts of the world that a run is observed through: the runs table,
    the events sent, the array [results], and which prompts the rows of
    the prompt results table belong to. *)
Definition observed (R : list AnalysisRun) (Ev : list progress_event)
    (Rs : list run_result) (pids : list nat) (w : world) : Prop :=
  runs (store w) = R /\ emitted w = Ev /\ results w = Rs /\
  map pr_promptId (promptResults (store w)) = pids.

(** [analysisRun.update] on the table of runs. *)
Definition change_run (runId : nat) (f : AnalysisRun -> AnalysisRun)
    (rs : list AnalysisRun) : list AnalysisRun :=
  map (fun r => if run_id r =? runId then f r else r) rs.

(** The row of a run that went through all of its [total] prompts. *)
Definition finished (total : nat) (r : AnalysisRun) : AnalysisRun :=
  {| run_id := run_id r; run_projectId := run_projectId r;
     status := completed; totalPrompts := Some total;
     processedPrompts := match total with
                         | 0 => processedPrompts r
                         | _ => total
                         end |}.

(** The progress events of the prompts [ps], the first of which has index
    [i]. *)
Fixpoint progress_events (total i : nat) (ps : list Prompt)
  : list progress_event :=
  match ps with
  | [] => []
  | p :: ps' =>
      Progress (i + 1) total (prompt_text p) :: progress_events total (S i) ps'
  end.

(** The sample project with two prompts, as [runAnalysis] finds it. *)
Definition two_prompt_project : Project :=
  {| project_id := 1; project_brands := [acme; globex];
     project_prompts := [first_prompt; second_prompt] |}.

(** The entries that a run pushes to [results] for the prompts [ps], the
    first of which has index [i], when every iteration reaches the push. *)
Fixpoint reported (engine : jsstring -> bool -> option matcher)
    (URL_hostname : jsstring -> option jsstring)
    (provider : nat -> provider_call) (brandNames : list jsstring)
    (i : nat) (ps : list Prompt) : list run_result :=
  match ps with
  | [] => []
  | p :: ps' =>
      let result := analyzePrompt engine URL_hostname (provider i)
                      (prompt_text p) brandNames in
      {| rr_promptId := prompt_id p; rr_success := success result;
         rr_error := error result |}
      :: reported engine URL_hostname provider brandNames (S i) ps'
  end.

(** A provider that fails the calls with the given indices and answers the
    others. *)
Definition failing_at (bad : list nat) (msg text : string)
  : nat -> provider_call :=
  fun i => if existsb (Nat.eqb i) bad
           then {| outcome := Failed (ProviderError (str msg)); elapsedMs := 5 |}
           else {| outcome := Responded (str text) None; elapsedMs := 5 |}.

(** What a run of [runId] may have done to the tables [d0]: the projects
    are as they were; the runs are the same rows in the same order, each but
    the run's own unchanged, and none newly [failed]; rows were only added
    to the prompt results (all of this run), the brand mentions and the
    citations. *)
Definition confined (runId : nat) (d0 d : db) : Prop :=
  projects d = projects d0 /\
  Forall2 (fun r0 r => run_id r = run_id r0 /\
                       run_projectId r = run_projectId r0 /\
                       (run_id r0 <> runId -> r = r0) /\
                       (status r = failed -> status r0 = failed))
          (runs d0) (runs d) /\
  (exists rows, promptResults d = promptResults d0 ++ rows /\
                forall r, In r rows -> pr_analysisRunId r = runId) /\
  (exists rows, brandMentions d = brandMentions d0 ++ rows) /\
  (exists rows, citationRows d = citationRows d0 ++ rows).

(** The snapshots [ss] hold the metrics of the brand [b] for the run: there
    is a row for the pair, and an upsert with the brand's metrics would
    leave every such row as it is. *)
Definition settled (runId : nat) (valid : list PromptResult_included)
    (b : Brand) (ss : list MetricsSnapshot) : Prop :=
  existsb (snapshot_is runId (brand_id b)) ss = true /\
  forall s, In s ss -> snapshot_is runId (brand_id b) s = true ->
            snapshot_updated s (brand_metrics valid b) = s.

(** The results without error of the sample run, as the aggregation reads
    them. *)
Definition sample_valid : list PromptResult_included :=
  Eval vm_compute in
    match fst (promptResult_findMany 30 (store aggregation_input)) with
    | Ok l => filter no_error l
    | Throw _ => []
    end.

(** A list of URLs without the repetitions: every URL at the place of its
    first occurrence. *)
Fixpoint first_occurrences (l : list jsstring) : list jsstring :=
  match l with
  | [] => []
  | x :: l' =>
      x :: filter (fun y => negb (jsstring_eqb y x)) (first_occurrences l')
  end.

(** The runs [R] are the runs [R0] with the run [runId] in the status [st]
    and with [n] as its number of prompts; the other runs are as they
    were. *)
Definition in_progress (runId n : nat) (st : run_status)
    (R0 R : list AnalysisRun) : Prop :=
  Forall2 (fun r0 r => run_id r = run_id r0 /\
                       if run_id r0 =? runId
                       then status r = st /\ totalPrompts r = Some n
                       else r = r0)
          R0 R.

(** A project with a brand that is named like the prototype accessor and
    that the response of the provider mentions. *)
Definition proto_world : world :=
  {| store :=
       {| projects := [ {| project_id := 1;
                           project_brands :=
                             [acme; {| brand_id := 12; brand_name := proto_key;
                                       isUserBrand := false |}];
                           project_prompts := [first_prompt; second_prompt] |} ];
          runs := [ {| run_id := 30; run_projectId := 1; status := pending;
                       totalPrompts := Some 2; processedPrompts := 0 |} ];
          promptResults := []; brandMentions := []; citationRows := [];
          snapshots := []; next_id := 100 |};
     calls := 0; emitted := []; results := [] |}.

Definition proto_project : Project :=
  {| project_id := 1;
     project_brands := [acme; {| brand_id := 12; brand_name := proto_key;
                                 isUserBrand := false |}];
     project_prompts := [first_prompt; second_prompt] |}.

(* ================================================================== *)
(** * The route that starts a run *)
(* ================================================================== *)

(** [analysisRun.findFirst] with [where: { projectId, status:
    'processing' }]. *)
Definition is_processing (projectId : nat) (r : AnalysisRun) : bool :=
  (run_projectId r =? projectId) &&
  match status r with processing => true | _ => false end.

Definition analysisRun_findFirst_processing (projectId : nat)
  : query (option AnalysisRun) :=
  fun d => (Ok (find (is_processing projectId) (runs d)), d).

(** The row that [analysisRun.create] makes from [projectId], [status:
    'pending'] and [totalPrompts]; [processedPrompts] takes its default. *)
Definition new_run (id projectId total : nat) : AnalysisRun :=
  {| run_id := id; run_projectId := projectId; status := pending;
     totalPrompts := Some total; processedPrompts := 0 |}.

Definition analysisRun_create (projectId total : nat) : query AnalysisRun :=
  fun d =>
    let row := new_run (next_id d) projectId total in
    (Ok row,
     {| projects := projects d; runs := runs d ++ [row];
        promptResults := promptResults d; brandMentions := brandMentions d;
        citationRows := citationRows d; snapshots := snapshots d;
        next_id := S (next_id d) |}).

Definition set_failed (r : AnalysisRun) : AnalysisRun :=
  {| run_id := run_id r; run_projectId := run_projectId r;
     status := failed; totalPrompts := totalPrompts r;
     processedPrompts := processedPrompts r |}.

(** The JSON bodies that the route sends. *)
Inductive response_body :=
| ErrorBody (error : jsstring) (runId : option nat)
| StartedBody (runId totalPrompts estimatedTimeSeconds : nat).

Record http_response := {
  statusCode : nat;
  body : response_body
}.

(** What the handler did with the request: it sent a response, or it gave
    an error to [next]. *)
Inductive handler_outcome :=
| Sent (r : http_response)
| PassedToNext (e : exn).

(** How the run that the handler started in the background settled:
    [runAnalysis] returned; or it threw and the rejection handler marked
    the run; or the update of the rejection handler was rejected as
    well. *)
Inductive background :=
| NotStarted
| Returned (rs : list run_result)
| MarkedFailed (e : exn)
| Unhandled (e e' : exn).

(** [!process.env.GEMINI_API_KEY]. *)
Definition no_api_key (key : option jsstring) : bool :=
  match key with
  | None | Some [] => true
  | Some (_ :: _) => false
  end.

Section AnalysisRoutes.

Variable engine : jsstring -> bool -> option matcher.
Variable URL_hostname : jsstring -> option jsstring.
Variable provider : nat -> provider_call.
Variable faults : nat -> option jsstring.

(** [process.env.GEMINI_API_KEY]. *)
Variable GEMINI_API_KEY : option jsstring.

(** The handler of [POST /:projectId/run] up to the response: the response
    and, when a run was created, its id. *)
Definition start_run (projectId : nat) : M (http_response * option nat) :=
  (found <- prisma faults (project_findUnique projectId) ;;
   match found with
   | None =>
       ret ({| statusCode := 404;
               body := ErrorBody (str "Project not found") None |}, None)
   | Some project =>
       let total := length (project_prompts project) in
       if total =? 0
       then ret ({| statusCode := 400;
                    body := ErrorBody (str "No active prompts to analyze")
                              None |}, None)
       else if no_api_key GEMINI_API_KEY
       then ret ({| statusCode := 500;
                    body := ErrorBody
                              (str "GEMINI_API_KEY not configured. Please add it to your .env file.")
                              None |}, None)
       else
         runningAnalysis <-
           prisma faults (analysisRun_findFirst_processing projectId) ;;
         match runningAnalysis with
         | Some running =>
             ret ({| statusCode := 400;
                     body := ErrorBody
                               (str "An analysis is already running for this project")
                               (Some (run_id running)) |}, None)
         | None =>
             analysisRun <-
               prisma faults (analysisRun_create projectId total) ;;
             ret ({| statusCode := 202;
                     body := StartedBody (run_id analysisRun) total
                               (total * 2) |},
                  Some (run_id analysisRun))
         end
   end)%run.

(** The whole handler, with the run it leaves in the background followed
    until it settles.  [runAnalysis] starts with an empty [results] and is
    given a callback; what the callback writes to a connected client is a
    function of the events and is left out. *)
Definition post_run (projectId : nat) (w : world)
  : handler_outcome * background * world :=
  match start_run projectId w with
  | (Throw e, w1) => (PassedToNext e, NotStarted, w1)
  | (Ok (r, None), w1) => (Sent r, NotStarted, w1)
  | (Ok (r, Some runId), w1) =>
      match runAnalysis engine URL_hostname provider faults projectId runId
              true
              {| store := store w1; calls := calls w1; emitted := emitted w1;
                 results := [] |} with
      | (Ok rs, w2) => (Sent r, Returned rs, w2)
      | (Throw e, w2) =>
          match prisma faults (analysisRun_update runId set_failed) w2 with
          | (Ok _, w3) => (Sent r, MarkedFailed e, w3)
          | (Throw e', w3) => (Sent r, Unhandled e e', w3)
          end
      end
  end.

End AnalysisRoutes.

(** The run [runId] is in the table, and in the status [st]. *)
Definition run_status_is (runId : nat) (st : run_status)
    (R : list AnalysisRun) : Prop :=
  existsb (fun r => run_id r =? runId) R = true /\
  forall r, In r R -> run_id r = runId -> status r = st.

(* ================================================================== *)
(** * Dashboard routes: the prompts of a run *)
(* ================================================================== *)

(** A brand mention with [include: { brand: true }], and a prompt result
    with its prompt, mentions and citations as the routes read it. *)
Record mention_included := {
  mi_row : BrandMention;
  mi_brand : Brand
}.

Record result_included := {
  ri_prompt : Prompt;
  ri_brandMentions : list mention_included;
  ri_citations : list Citation
}.

Record mention_summary := {
  am_brand : jsstring;
  am_position : option nat;
  am_sentiment : option sentiment_label
}.

(** An element of [prompts] in the response of [GET /:projectId/prompts]. *)
Record prompt_view := {
  pv_id : nat;
  pv_text : jsstring;
  isMentioned : bool;
  pv_position : option nat;
  pv_sentiment : option sentiment_label;
  pv_isRecommended : bool;
  pv_context : option jsstring;
  allMentions : list mention_summary;
  pv_citationCount : nat;
  topCitation : option jsstring
}.

(** [r.brandMentions.find(m => m.brandId === userBrand?.id)]: without a
    user brand the id is [undefined] and no row matches. *)
Definition userMention_of (userBrand : option Brand) (r : result_included)
  : option mention_included :=
  match userBrand with
  | Some ub =>
      find (fun m => bm_brandId (mi_row m) =? brand_id ub) (ri_brandMentions r)
  | None => None
  end.

(** The callback of [results.map].  [userMention?.position !== null] is
    true for [undefined]. *)
Definition prompt_view_of (userBrand : option Brand) (r : result_included)
  : prompt_view :=
  let userMention := userMention_of userBrand r in
  {| pv_id := prompt_id (ri_prompt r);
     pv_text := prompt_text (ri_prompt r);
     isMentioned := match userMention with
                    | Some m => is_some (bm_position (mi_row m))
                    | None => true
                    end;
     pv_position := match userMention with
                    | Some m => number_or_null (bm_position (mi_row m))
                    | None => None
                    end;
     pv_sentiment := match userMention with
                     | Some m => bm_sentiment (mi_row m)
                     | None => None
                     end;
     pv_isRecommended := match userMention with
                         | Some m => bm_isRecommended (mi_row m)
                         | None => false
                         end;
     pv_context := match userMention with
                   | Some m => string_or_null (contextSnippet (mi_row m))
                   | None => None
                   end;
     allMentions :=
       map (fun m => {| am_brand := brand_name (mi_brand m);
                        am_position := bm_position (mi_row m);
                        am_sentiment := bm_sentiment (mi_row m) |})
           (filter (fun m => is_some (bm_position (mi_row m)))
                   (ri_brandMentions r));
     pv_citationCount := length (ri_citations r);
     topCitation := match ri_citations r with
                    | c :: _ => string_or_null (Some (cit_domain c))
                    | [] => None
                    end |}.

Record prompts_response := {
  rp_prompts : list prompt_view;
  rp_total : nat;
  rp_mentioned : nat;
  rp_notMentioned : nat
}.

(** The body of the handler after its queries: [userBrand] and [results]
    are what the queries returned, [filter] the query parameter. *)
Definition prompts_response_of (userBrand : option Brand) (filter_ : jsstring)
    (results_ : list result_included) : prompts_response :=
  let prompts := map (prompt_view_of userBrand) results_ in
  let filteredPrompts :=
    if jsstring_eqb filter_ (str "mentioned")
    then filter isMentioned prompts
    else if jsstring_eqb filter_ (str "not-mentioned")
    then filter (fun p => negb (isMentioned p)) prompts
    else prompts in
  {| rp_prompts := filteredPrompts;
     rp_total := length prompts;
     rp_mentioned := length (filter isMentioned prompts);
     rp_notMentioned := length (filter (fun p => negb (isMentioned p)) prompts) |}.

(** [GET /:projectId] reads the mentions with [where: { brand: {
    isUserBrand: true } }] and counts a prompt as mentioned when one of
    these rows has a position. *)
Definition summary_rows (r : result_included) : list mention_included :=
  filter (fun m => isUserBrand (mi_brand m)) (ri_brandMentions r).

Definition summary_mentioned (r : result_included) : bool :=
  existsb (fun m => is_some (bm_position (mi_row m))) (summary_rows r).

(** [promptsSummary]: the numbers of mentioned and of not mentioned
    prompts. *)
Definition promptsSummary (results_ : list result_included) : nat * nat :=
  (length (filter summary_mentioned results_),
   length (filter (fun r => negb (summary_mentioned r)) results_)).

(** A prompt result as the handler of a failed iteration leaves it:
    without mention rows. *)
Definition bare_result : result_included :=
  {| ri_prompt := first_prompt; ri_brandMentions := []; ri_citations := [] |}.

(* ================================================================== *)
(** * Dashboard routes: the cited domains of a run *)
(* ================================================================== *)

(** A citation with [include: { promptResult: { include: { prompt: true }
    } }]; of the prompt only the text is read. *)
Record citation_included := {
  ci_row : Citation;
  ci_promptText : jsstring
}.

(** [set.add(x)] on a [Set] of strings, its elements in insertion order. *)
Definition Set_add (s : list jsstring) (x : jsstring) : list jsstring :=
  if existsb (jsstring_eqb x) s then s else s ++ [x].

(** A value of [domainData]. *)
Record domain_entry := {
  de_domain : jsstring;
  de_count : nat;
  de_urls : list jsstring;
  de_prompts : list jsstring
}.

(** The plain object [domainData]: its own properties in the order of
    their creation.  It inherits from [Object.prototype]. *)
Definition domain_object := list (jsstring * domain_entry).

(** The property names that a plain object inherits: reading one of them
    gives a function, or the prototype itself for [__proto__]. *)
Definition inherited (k : jsstring) : bool :=
  jsstring_eqb k proto_key || existsb (jsstring_eqb k) Object_prototype_keys.

Fixpoint own_entry (o : domain_object) (k : jsstring) : option domain_entry :=
  match o with
  | [] => None
  | (k', e) :: o' => if jsstring_eqb k k' then Some e else own_entry o' k
  end.

(** A mutation of the object that is the value of an own property. *)
Definition update_entry (o : domain_object) (k : jsstring)
    (f : domain_entry -> domain_entry) : domain_object :=
  map (fun ke => if jsstring_eqb k (fst ke) then (fst ke, f (snd ke)) else ke) o.

(** A computation of the route that returns or throws a [TypeError]. *)
Inductive attempt (A : Type) :=
| Done (a : A)
| ThrewTypeError (message : jsstring).

Arguments Done {A} a.
Arguments ThrewTypeError {A} message.

(** [domainData[k]]: for [__proto__] the prototype; otherwise an own
    property first, then what the prototype has under that name. *)
Inductive entry_lookup :=
| OwnEntry (e : domain_entry)
| InheritedValue
| NoValue.

Definition read_entry (o : domain_object) (k : jsstring) : entry_lookup :=
  if jsstring_eqb k proto_key then InheritedValue
  else match own_entry o k with
       | Some e => OwnEntry e
       | None => if existsb (jsstring_eqb k) Object_prototype_keys
                 then InheritedValue else NoValue
       end.

(** The callback of the first [citations.forEach].  For an inherited name
    the test [!domainData[c.domain]] reads a function (or the prototype),
    so nothing is created; [count++] writes to that object; its [urls] is
    [undefined], and the call of [add] throws. *)
Definition count_citation (o : domain_object) (c : citation_included)
  : attempt domain_object :=
  let key := cit_domain (ci_row c) in
  let o1 := match read_entry o key with
            | NoValue => o ++ [(key, {| de_domain := key; de_count := 0;
                                        de_urls := []; de_prompts := [] |})]
            | _ => o
            end in
  match read_entry o1 key with
  | OwnEntry _ =>
      Done (update_entry o1 key
              (fun d => {| de_domain := de_domain d;
                           de_count := S (de_count d);
                           de_urls := Set_add (de_urls d) (cit_url (ci_row c));
                           de_prompts := Set_add (de_prompts d)
                                           (ci_promptText c) |}))
  | InheritedValue =>
      ThrewTypeError (str "Cannot read properties of undefined (reading 'add')")
  | NoValue =>
      ThrewTypeError (str "Cannot read properties of undefined (reading 'count')")
  end.

Fixpoint count_citations (o : domain_object) (cs : list citation_included)
  : attempt domain_object :=
  match cs with
  | [] => Done o
  | c :: cs' =>
      match count_citation o c with
      | Done o' => count_citations o' cs'
      | ThrewTypeError m => ThrewTypeError m
      end
  end.

(** An array index: the canonical decimal form of an integer below
    2^32 - 1.  Own properties with such names are listed first, in
    ascending order. *)
Definition is_digit (c : ascii) : bool := in_range 48 57 (code c).

Definition decimal_value (s : jsstring) : N :=
  fold_left (fun acc c => (acc * 10 + N.of_nat (code c - 48))%N) s 0%N.

Definition array_index (k : jsstring) : option N :=
  match k with
  | [] => None
  | c :: rest =>
      if forallb is_digit k
         && (negb (code c =? 48) || match rest with [] => true | _ => false end)
         && (decimal_value k <? 4294967295)%N
      then Some (decimal_value k)
      else None
  end.

(** [Object.values(o)]: the values of the array indices in ascending
    order, then those of the other names in the order of creation. *)
Definition Object_values {V} (o : list (jsstring * V)) : list V :=
  let index_of kv := match array_index (fst kv) with
                     | Some n => Z.of_N n
                     | None => 0%Z
                     end in
  map snd
    (Array_sort (fun a b => (index_of a - index_of b)%Z)
       (filter (fun kv => is_some (array_index (fst kv))) o)
     ++ filter (fun kv => negb (is_some (array_index (fst kv)))) o).

Record domain_row := {
  dr_domain : jsstring;
  dr_citationCount : nat;
  dr_uniqueUrls : nat;
  dr_promptsCited : nat;
  dr_percentage : Q
}.

(** [array.slice(0, end)] for the [end] that [parseInt] gave: [None] is
    [NaN], which counts as 0; a negative [end] counts from the end. *)
Definition slice_to {A} (end_ : option Z) (l : list A) : list A :=
  match end_ with
  | None => []
  | Some k =>
      if (k <? 0)%Z then firstn (Z.to_nat (Z.of_nat (length l) + k)) l
      else firstn (Z.to_nat k) l
  end.

(** The rows of [domains] before the [slice]. *)
Definition domain_rows (citations_ : list citation_included)
  : attempt (list domain_row) :=
  match count_citations [] citations_ with
  | ThrewTypeError m => ThrewTypeError m
  | Done domainData =>
      Done (Array_sort
              (fun a b => (Z.of_nat (dr_citationCount b)
                           - Z.of_nat (dr_citationCount a))%Z)
              (map (fun d =>
                      {| dr_domain := de_domain d;
                         dr_citationCount := de_count d;
                         dr_uniqueUrls := length (de_urls d);
                         dr_promptsCited := length (de_prompts d);
                         dr_percentage :=
                           (Q_of_nat (de_count d)
                            / Q_of_nat (length citations_) * 100)%Q |})
                   (Object_values domainData)))
  end.

Record citations_response := {
  cr_totalCitations : nat;
  cr_uniqueDomains : nat;
  cr_domains : list domain_row
}.

(** The body of the handler of [GET /:projectId/citations] after its
    queries, without [topPages]; [limit] is the value of
    [parseInt(limit)]. *)
Definition citations_response_of (limit : option Z)
    (citations_ : list citation_included) : attempt citations_response :=
  match count_citations [] citations_, domain_rows citations_ with
  | Done domainData, Done rows =>
      Done {| cr_totalCitations := length citations_;
              cr_uniqueDomains := length domainData;
              cr_domains := slice_to limit rows |}
  | ThrewTypeError m, _ | _, ThrewTypeError m => ThrewTypeError m
  end.

(** How many of the citations have the domain [k]. *)
Definition count_domain (k : jsstring) (cs : list citation_included) : nat :=
  length (filter (fun c => jsstring_eqb (cit_domain (ci_row c)) k) cs).

(** What the loop over the citations keeps true of [domainData] after the
    citations [seen]. *)
Definition counted (seen : list citation_included) (o : domain_object)
  : Prop :=
  NoDup (map fst o) /\
  (forall k, In k (map fst o) <-> In k (map (fun c => cit_domain (ci_row c)) seen)) /\
  (forall k e, In (k, e) o ->
     de_domain e = k /\ de_count e = count_domain k seen /\
     1 <= length (de_urls e) <= de_count e /\
     1 <= length (de_prompts e) <= de_count e) /\
  (forall k, In k (map fst o) -> inherited k = false).

(** Citations of three pages on two sites. *)
Definition sample_citations : list citation_included :=
  [ {| ci_row := {| cit_id := 1; cit_promptResultId := 100;
                    cit_url := str "https://a.example/x";
                    cit_domain := str "a.example"; cit_title := None |};
       ci_promptText := str "best crm" |};
    {| ci_row := {| cit_id := 2; cit_promptResultId := 100;
                    cit_url := str "https://b.example/";
                    cit_domain := str "b.example"; cit_title := None |};
       ci_promptText := str "best crm" |};
    {| ci_row := {| cit_id := 3; cit_promptResultId := 101;
                    cit_url := str "https://a.example/y";
                    cit_domain := str "a.example"; cit_title := None |};
       ci_promptText := str "crm pricing" |} ].

Definition sample_domain_rows : list domain_row :=
  Eval vm_compute in
    match domain_rows sample_citations with
    | Done rows => rows
    | ThrewTypeError _ => []
    end.

(* ================================================================== *)
(** * Further sample inputs for the matching of names *)
(* ================================================================== *)

(** Neither neighbour of an occurrence is a word character: the occurrence
    stands as a word of its own. *)
Definition stands_alone (pre post : jsstring) : Prop :=
  ends_in_word pre = false /\ starts_with_word post = false.

(** A text that has one name in capitals and another only inside a longer
    word. *)
Definition shout_text : jsstring := str "Browse the Catalog for ACME gear".

Definition shout_brands : list jsstring := [str "Cat"; str "acme"].

Definition shout_mentions : list mention :=
  Eval vm_compute in
    records_of (extractBrandMentions strict_engine shout_text shout_brands).

Definition shout_acme : mention :=
  Eval vm_compute in nth 1 shout_mentions (unmentioned []).

(** A name that ends with the letter U+00E9, which is no word character
    for [\b]; a text where the name begins a longer word, and one where it
    stands alone. *)
Definition cafe : jsstring := str "caf" ++ ["233"%char].

Definition cafes_text : jsstring := str "Two " ++ cafe ++ str "s nearby".

Definition cafe_text : jsstring := str "The " ++ cafe ++ str " nearby".

(** ** Host names

    [new URL(u).hostname] for a URL with a scheme other than the special
    ones (http, https, ws, wss, ftp, file): the host is kept as written. *)
Definition opaque_host_url : jsstring := str "foo://WWW.Example.COM/x".

Definition opaque_host_parser (u : jsstring) : option jsstring :=
  if jsstring_eqb u opaque_host_url then Some (str "WWW.Example.COM")
  else None.

(** A text in which two names begin at the same offset. *)
Definition tie_text : jsstring := str "Globex, Acme Pro and Acme".

Definition tie_brands : list jsstring :=
  [str "Acme Pro"; str "Globex"; str "Acme"].

Definition tie_mentions : list mention :=
  Eval vm_compute in
    records_of (extractBrandMentions strict_engine tie_text tie_brands).

(* ================================================================== *)
(** * Share of voice: definitions used in the statements *)
(* ================================================================== *)

(** The same computation with the operations of the standard library's
    specification of IEEE 754 arithmetic, at the format binary64 (precision
    53, maximal exponent 1024), for comparison with [share_of]. *)
Definition float_of_nat (n : nat) : SpecFloat.spec_float :=
  match n with
  | O => SpecFloat.S754_zero false
  | _ => SpecFloat.S754_finite false (Pos.of_nat n) 0
  end.

Definition binary64_share (mentions total : nat) : SpecFloat.spec_float :=
  SpecFloat.SFmul 53 1024
    (SpecFloat.SFdiv 53 1024 (float_of_nat mentions) (float_of_nat total))
    (float_of_nat 100).

Definition float_value (f : SpecFloat.spec_float) : option Q :=
  match f with
  | SpecFloat.S754_zero _ => Some 0%Q
  | SpecFloat.S754_finite s m e =>
      Some ((if s then -1 else 1) * inject_Z (Zpos m) * 2 ^ e)%Q
  | _ => None
  end.

Definition agrees_with_binary64 (p : nat * nat) : bool :=
  match float_value (binary64_share (fst p) (snd p)) with
  | Some v => Qeq_bool (share_of (fst p) (snd p)) v
  | None => false
  end.

(** The pairs of counts [(mentions, total)] with [mentions <= total] and
    [0 < total <= n]. *)
Definition count_pairs (n : nat) : list (nat * nat) :=
  flat_map (fun t => map (fun m => (m, t)) (seq 0 (S t))) (seq 1 n).

(** Half a unit in the last place, relative to the value: 2^-53. *)
Definition unit_roundoff : Q := 1 # 9007199254740992.

(** The percentage in exact arithmetic. *)
Definition exact_share (mentions total : nat) : Q :=
  (Q_of_nat mentions / Q_of_nat total * 100)%Q.

(** The tolerance within which the shares of a run add up to 100. *)
Definition share_tolerance : Q := 1 # 10000000000000.

(** What an aggregation that does not write [shareOfVoice] leaves in a
    snapshot [s], given the snapshots [old] from before: a snapshot that
    existed keeps its value, and one that the aggregation created has
    null. *)
Definition share_untouched (old : list MetricsSnapshot) (s : MetricsSnapshot)
  : Prop :=
  (exists s0, In s0 old /\ ms_id s0 = ms_id s /\
              ms_analysisRunId s0 = ms_analysisRunId s /\
              shareOfVoice s = shareOfVoice s0) \/
  ((forall s0, In s0 old -> ms_id s0 <> ms_id s) /\ shareOfVoice s = None).

(** What the upserts of an aggregation keep true of the snapshots, [old]
    being the snapshots from before: ids are unique and were handed out,
    and no [shareOfVoice] was written. *)
Definition snapshots_from (old : list MetricsSnapshot) (d : db) : Prop :=
  NoDup (map ms_id (snapshots d)) /\
  (forall s, In s (snapshots d) -> ms_id s < next_id d) /\
  (forall s0, In s0 old -> ms_id s0 < next_id d) /\
  forall s, In s (snapshots d) -> share_untouched old s.

(** A provider that gives the first text to the first call and the second
    text to every later one. *)
Definition answering_first (first later : string) : nat -> provider_call :=
  fun i => {| outcome := Responded (str (if i =? 0 then first else later)) None;
              elapsedMs := 5 |}.

(** The sample world with two prompts after the loop over its prompts:
    the first response names both brands, the second names one; and the
    outcome of the aggregation from there. *)
Definition thirds_input : world :=
  Eval vm_compute in
    snd (for_prompts strict_engine no_hostname
           (answering_first "Acme and Globex both work" "Acme is great")
           no_faults two_prompt_project 30 2 false 0
           (project_prompts two_prompt_project)
           (sample_world (project_prompts two_prompt_project))).

Definition thirds_output : result unit * world :=
  Eval vm_compute in
    calculateMetrics no_faults 30 two_prompt_project thirds_input.

(* ================================================================== *)
(** * The rows of a failed prompt: definitions used in the statements *)
(* ================================================================== *)

(** The brands of the mention rows stored for the prompt result [k], in the
    order of the rows. *)
Definition mention_brands (k : nat) (d : db) : list nat :=
  map bm_brandId
      (filter (fun m => bm_promptResultId m =? k) (brandMentions d)).

(** The prompt results with an id from [n0] on: those that a run stored,
    when [n0] was the next id before the run. *)
Definition new_results (n0 : nat) (d : db) : list PromptResult :=
  filter (fun r => n0 <=? pr_id r) (promptResults d).

(** The prompt and the error of a prompt result. *)
Definition logged (r : PromptResult) : nat * option jsstring :=
  (pr_promptId r, pr_error r).

(** The prompts and errors of the prompt results that a run stores for the
    prompts [ps], the first of which has index [i], when every iteration
    completes: the error is that of the result of [analyzePrompt]. *)
Fixpoint stored_errors (engine : jsstring -> bool -> option matcher)
    (URL_hostname : jsstring -> option jsstring)
    (provider : nat -> provider_call) (brandNames : list jsstring)
    (i : nat) (ps : list Prompt) : list (nat * option jsstring) :=
  match ps with
  | [] => []
  | p :: ps' =>
      (prompt_id p,
       string_or_null
         (error (analyzePrompt engine URL_hostname (provider i)
                   (prompt_text p) brandNames)))
      :: stored_errors engine URL_hostname provider brandNames (S i) ps'
  end.

Definition run_exists (runId : nat) (w : world) : Prop :=
  existsb (fun r => run_id r =? runId) (runs (store w)) = true.

(** Every prompt result with an error, among those with an id from [n0] on
    and but for the one being written, has one mention row per brand, in
    the order of the brands. *)
Definition rows_per_brand (brands : list Brand) (n0 : nat)
    (being_written : option nat) (d : db) : Prop :=
  forall r, In r (promptResults d) -> n0 <= pr_id r -> pr_error r <> None ->
            Some (pr_id r) <> being_written ->
            mention_brands (pr_id r) d = map brand_id brands.

(** What the iterations of a run keep true when none of them fails. *)
Definition per_brand (brands : list Brand) (n0 : nat)
    (errs : list (nat * option jsstring)) (d : db) : Prop :=
  refs_below d /\ n0 <= next_id d /\
  map logged (new_results n0 d) = errs /\
  rows_per_brand brands n0 None d.

(** While the mention rows of the prompt result [k], stored with error [e],
    are being written, [j] of them so far. *)
Definition writing_mentions (brands : list Brand) (n0 : nat)
    (errs : list (nat * option jsstring)) (k : nat) (e : option jsstring)
    (j : nat) (d : db) : Prop :=
  refs_below d /\ n0 <= k /\ k < next_id d /\
  map logged (new_results n0 d) = errs /\
  (forall r, In r (promptResults d) -> pr_id r = k -> pr_error r = e) /\
  rows_per_brand brands n0 (Some k) d /\
  (e <> None -> mention_brands k d = map brand_id (firstn j brands)).

(** The run of the sample project with two prompts when the first call of
    the provider fails and the second is answered. *)
Definition half_failed_run : result (list run_result) * world :=
  Eval vm_compute in
    runAnalysis strict_engine no_hostname
      (failing_at [0] "quota exceeded" "Acme is great")
      no_faults 1 30 false (sample_world [first_prompt; second_prompt]).
(* ================================================================== *)
(** * Facts about code units *)
(* ================================================================== *)

Ltac each_ascii c :=
  destruct c as [[] [] [] [] [] [] [] []]; try reflexivity; try discriminate.

Lemma escapeRegex_class_is_SyntaxCharacter c :
  escapeRegex_class c = SyntaxCharacter c.
Proof. each_ascii c. Qed.

Lemma unescaped_is_literal c :
  escapeRegex_class c = false -> classify c = KLiteral.
Proof. each_ascii c. Qed.

Lemma escaped_is_classified c :
  escapeRegex_class c = true ->
  Ascii.eqb c "b" = false /\ Ascii.eqb c "B" = false /\ SyntaxCharacter c = true.
Proof. each_ascii c; intros _; repeat split. Qed.

Lemma isWordChar_Canonicalize c : isWordChar (Canonicalize c) = isWordChar c.
Proof. each_ascii c. Qed.

Lemma toLower_unit_idempotent c : toLower_unit (toLower_unit c) = toLower_unit c.
Proof. each_ascii c. Qed.

Lemma jsstring_eqb_eq a b : jsstring_eqb a b = true <-> a = b.
Proof.
  unfold jsstring_eqb. destruct (list_eq_dec ascii_dec a b); split; congruence.
Qed.

Lemma jsstring_eqb_neq a b : jsstring_eqb a b = false <-> a <> b.
Proof.
  unfold jsstring_eqb. destruct (list_eq_dec ascii_dec a b); split; congruence.
Qed.

Lemma jsstring_eqb_refl a : jsstring_eqb a a = true.
Proof. now apply jsstring_eqb_eq. Qed.

(* ================================================================== *)
(** * The pattern of a brand name *)
(* ================================================================== *)

Lemma parse_escapeRegex b : forall rest st,
  parse (escapeRegex b ++ rest) st = parse rest (push_literals b st).
Proof.
  induction b as [|c b IH]; intros rest st; [reflexivity|].
  unfold escapeRegex in *. cbn [flat_map].
  destruct (escapeRegex_class c) eqn:E.
  - destruct (escaped_is_classified c E) as (Hb & HB & HS).
    assert (Hk : classify "\"%char = KBackslash) by reflexivity.
    cbn [app parse]. rewrite Hk, Hb, HB, HS. apply IH.
  - cbn [app parse]. rewrite (unescaped_is_literal c E). apply IH.
Qed.

Lemma push_literals_top b : forall st,
  top (push_literals b st) =
  {| alts := alts (top st); cur := rev (map RChar b) ++ cur (top st) |}.
Proof.
  induction b as [|c b IH]; intros st.
  - destruct st as [[a c] bl l]; reflexivity.
  - cbn [push_literals fold_left]. fold (push_literals b (push_term (RChar c) QAtom st)).
    rewrite IH. cbn. now rewrite <- app_assoc.
Qed.

Lemma push_literals_below b : forall st,
  below (push_literals b st) = below st.
Proof.
  induction b as [|c b IH]; intros st; [reflexivity|].
  cbn [push_literals fold_left]. fold (push_literals b (push_term (RChar c) QAtom st)).
  now rewrite IH.
Qed.

Lemma parse_word_boundary rest st :
  parse ("\"%char :: "b"%char :: rest) st =
  parse rest (push_term (RWordB false) QNone st).
Proof. reflexivity. Qed.

Lemma parse_mention_pattern b :
  parse (mention_pattern b) initial_pstate = Parsed (mention_regex b).
Proof.
  unfold mention_pattern.
  change (str "\b") with ["\"%char; "b"%char].
  cbn [app]. rewrite parse_word_boundary, parse_escapeRegex, parse_word_boundary.
  cbn [parse push_term below]. rewrite push_literals_below.
  cbn [below push_term initial_pstate].
  unfold close_frame, push_term. cbn [top alts cur].
  rewrite !push_literals_top.
  cbn [alts cur top initial_pstate empty_frame fold_left].
  unfold mention_regex. f_equal. f_equal.
  cbn [rev]. rewrite rev_app_distr, rev_involutive. reflexivity.
Qed.

Lemma RegExp_new_mention engine b :
  RegExp_new engine (mention_pattern b) true =
  Ok (fun text => ends true text (mention_regex b)).
Proof. unfold RegExp_new. now rewrite parse_mention_pattern. Qed.

(* ================================================================== *)
(** * Matching the pattern of a brand name *)
(* ================================================================== *)

Lemma nth_error_skipn_hd {A} (l : list A) : forall i,
  nth_error l i = hd_error (skipn i l).
Proof.
  induction l as [|x l IH]; intros [|i]; cbn; auto.
Qed.

Lemma skipn_S_tl {A} (l : list A) : forall i,
  skipn (S i) l = tl (skipn i l).
Proof.
  induction l as [|x l IH]; intros [|i]; cbn [skipn tl]; auto.
  rewrite <- IH. reflexivity.
Qed.

Lemma ends_seq_cons ic text t ts i :
  ends ic text (seq_of (t :: ts)) i =
  flat_map (ends ic text (seq_of ts)) (ends ic text t i).
Proof. reflexivity. Qed.

Lemma ends_literals text tail b : forall i,
  ends true text (seq_of (map RChar b ++ tail)) i =
  if ci_prefix b (skipn i text)
  then ends true text (seq_of tail) (i + length b) else [].
Proof.
  induction b as [|c b IH]; intros i.
  - cbn [map app ci_prefix length]. now rewrite Nat.add_0_r.
  - cbn [map app]. rewrite ends_seq_cons. cbn [ends].
    rewrite nth_error_skipn_hd.
    destruct (skipn i text) as [|ch s] eqn:E; cbn [hd_error ci_prefix]; [reflexivity|].
    unfold char_matches.
    destruct (Ascii.eqb (Canonicalize c) (Canonicalize ch)); cbn [andb flat_map];
      [|reflexivity].
    rewrite app_nil_r, IH, skipn_S_tl, E. cbn [tl length].
    now rewrite Nat.add_succ_r.
Qed.

Lemma ends_word_boundary text i :
  ends true text (seq_of [RWordB false]) i =
  if atWordBoundary text i then [i] else [].
Proof.
  cbn. destruct (atWordBoundary text i); reflexivity.
Qed.

Lemma ends_mention_regex text b i :
  ends true text (mention_regex b) i =
  if whole_word_at text b i then [i + length b] else [].
Proof.
  unfold mention_regex, whole_word_at.
  rewrite ends_seq_cons. cbn [ends negb].
  destruct (atWordBoundary text i); cbn [Bool.eqb flat_map andb]; [|reflexivity].
  rewrite app_nil_r, ends_literals.
  destruct (ci_prefix b (skipn i text)); cbn [andb]; [|reflexivity].
  apply ends_word_boundary.
Qed.

(** ** Searching for the first match *)

Lemma exec_from_find mt : forall tries i,
  exec_from mt tries i =
  option_map (fun j => (j, hd 0 (mt j)))
    (find (fun j => match mt j with [] => false | _ :: _ => true end)
          (seq i tries)).
Proof.
  induction tries as [|n IH]; intros i; [reflexivity|].
  cbn [exec_from seq find]. destruct (mt i) as [|e es] eqn:E; [apply IH|].
  cbn [option_map]. now rewrite E.
Qed.

Lemma find_ext {A} (f g : A -> bool) l :
  (forall x, f x = g x) -> find f l = find g l.
Proof.
  intros H. induction l as [|x l IH]; cbn; [reflexivity|].
  now rewrite H, IH.
Qed.

Lemma exec_mention text b last :
  RegExp_exec (fun t => ends true t (mention_regex b)) text last =
  option_map (fun j => (j, j + length b))
    (find (whole_word_at text b) (seq last (S (length text) - last))).
Proof.
  unfold RegExp_exec. rewrite exec_from_find.
  rewrite (find_ext _ (whole_word_at text b)).
  - destruct (find _ _) as [j|] eqn:F; cbn [option_map]; [|reflexivity].
    apply find_some in F. destruct F as [_ F].
    now rewrite ends_mention_regex, F.
  - intros j. rewrite ends_mention_regex.
    now destruct (whole_word_at text b j).
Qed.

Lemma String_match_mention text b :
  String_match text (fun t => ends true t (mention_regex b)) =
  first_whole_word text b.
Proof.
  unfold String_match, first_whole_word. rewrite exec_mention, Nat.sub_0_r.
  now destruct (find _ _).
Qed.

Lemma String_matchAll_mention text b :
  match first_whole_word text b with
  | Some i =>
      exists more,
        String_matchAll text (fun t => ends true t (mention_regex b)) =
        (i, i + length b) :: more
  | None =>
      String_matchAll text (fun t => ends true t (mention_regex b)) = []
  end.
Proof.
  unfold String_matchAll, first_whole_word.
  rewrite Nat.add_comm. cbn [Nat.add matchAll_from].
  rewrite exec_mention, Nat.sub_0_r.
  destruct (find _ _) as [i|]; cbn [option_map]; eauto.
Qed.

(** ** Whole-word occurrences *)

Lemma ci_prefix_split b : forall s,
  ci_prefix b s = true <->
  exists mid post, s = mid ++ post /\ same_ignoring_case b mid.
Proof.
  unfold same_ignoring_case.
  induction b as [|c b IH]; intros s; cbn [ci_prefix].
  - split; [intros _; exists [], s; split; [reflexivity|constructor]|trivial].
  - destruct s as [|ch s].
    + split; [discriminate|].
      intros (mid & post & E & F). inversion F; subst. discriminate.
    + rewrite andb_true_iff, IH, Ascii.eqb_eq. split.
      * intros (Hc & mid & post & -> & F).
        exists (ch :: mid), post. split; [reflexivity|now constructor].
      * intros (mid & post & E & F). inversion F as [|? y ? mid' Hc F']; subst.
        injection E as -> ->. split; [assumption|]. now exists mid', post.
Qed.

Lemma same_ignoring_case_length a b :
  same_ignoring_case a b -> length a = length b.
Proof. induction 1; cbn; congruence. Qed.

Lemma wordAt_app_r l r : wordAt (l ++ r) (length l) = starts_with_word r.
Proof.
  unfold wordAt, starts_with_word.
  rewrite nth_error_app2, Nat.sub_diag by lia. now destruct r.
Qed.

Lemma wordBefore_app_l l r : wordBefore (l ++ r) (length l) = ends_in_word l.
Proof.
  unfold ends_in_word.
  destruct l as [|x l'] using rev_ind; [reflexivity|].
  rewrite rev_app_distr, length_app. cbn [rev app length].
  rewrite Nat.add_1_r. cbn [wordBefore]. unfold wordAt.
  rewrite <- app_assoc, nth_error_app2, Nat.sub_diag by lia. reflexivity.
Qed.

Lemma atWordBoundary_split l r :
  atWordBoundary (l ++ r) (length l) = true <-> word_boundary l r.
Proof.
  unfold atWordBoundary, word_boundary.
  rewrite wordAt_app_r, wordBefore_app_l.
  destruct (ends_in_word l), (starts_with_word r); cbn; intuition congruence.
Qed.

Lemma atWordBoundary_inside text i :
  atWordBoundary text i = true -> i <= length text.
Proof.
  unfold atWordBoundary, wordBefore, wordAt. intros H.
  destruct (Nat.le_gt_cases i (length text)) as [|L]; [assumption|exfalso].
  destruct i as [|i]; [lia|].
  destruct (nth_error text i) eqn:E1.
  - assert (N : nth_error text i <> None) by congruence.
    apply nth_error_Some in N. lia.
  - destruct (nth_error text (S i)) eqn:E2; [|discriminate].
    assert (N : nth_error text (S i) <> None) by congruence.
    apply nth_error_Some in N. lia.
Qed.

Lemma whole_word_at_occurrence text b i :
  whole_word_at text b i = true <-> whole_word_occurrence text b i.
Proof.
  unfold whole_word_at, whole_word_occurrence. split.
  - rewrite !andb_true_iff. intros [[B1 P] B2].
    pose proof (atWordBoundary_inside _ _ B1) as Hi.
    apply ci_prefix_split in P. destruct P as (mid & post & E & F).
    exists (firstn i text), mid, post.
    assert (L : length (firstn i text) = i) by (rewrite length_firstn; lia).
    assert (T : text = firstn i text ++ mid ++ post)
      by (rewrite <- E; symmetry; apply firstn_skipn).
    repeat split; try assumption.
    + apply atWordBoundary_split. rewrite <- T, L. assumption.
    + apply atWordBoundary_split. rewrite <- app_assoc, <- T, length_app, L.
      now rewrite <- (same_ignoring_case_length F).
  - intros (pre & mid & post & -> & <- & F & B1 & B2).
    rewrite !andb_true_iff. repeat split.
    + now apply atWordBoundary_split.
    + apply ci_prefix_split. exists mid, post. split; [|assumption].
      rewrite skipn_app, Nat.sub_diag, skipn_all. reflexivity.
    + rewrite (same_ignoring_case_length F), <- length_app, app_assoc.
      now apply atWordBoundary_split.
Qed.

(** [first_whole_word] gives the least index of an occurrence. *)
Lemma find_seq_least f : forall n start i,
  find f (seq start n) = Some i ->
  f i = true /\ start <= i < start + n /\
  forall j, start <= j < i -> f j = false.
Proof.
  induction n as [|n IH]; intros start i; cbn [seq find]; [discriminate|].
  destruct (f start) eqn:E.
  - intros [= <-]. repeat split; [assumption|lia|lia|]. intros j ?. lia.
  - intros F. apply IH in F. destruct F as (Fi & R & Least).
    repeat split; [assumption|lia|lia|].
    intros j Hj. destruct (Nat.eq_dec j start) as [->|]; [assumption|].
    apply Least. lia.
Qed.

Lemma find_seq_none f : forall n start,
  find f (seq start n) = None ->
  forall j, start <= j < start + n -> f j = false.
Proof.
  induction n as [|n IH]; intros start; cbn [seq find]; [intros _ j; lia|].
  destruct (f start) eqn:E; [discriminate|].
  intros F j Hj. destruct (Nat.eq_dec j start) as [->|]; [assumption|].
  apply (@IH _ F). lia.
Qed.

Lemma first_whole_word_some text b i :
  first_whole_word text b = Some i <->
  whole_word_occurrence text b i /\
  forall j, j < i -> ~ whole_word_occurrence text b j.
Proof.
  unfold first_whole_word. split.
  - intros F. apply find_seq_least in F. destruct F as (Fi & _ & Least).
    split; [now apply whole_word_at_occurrence|].
    intros j Hj Oc. apply whole_word_at_occurrence in Oc.
    rewrite Least in Oc by lia. discriminate.
  - intros [Oc Least].
    destruct (find _ _) as [k|] eqn:F.
    + apply find_seq_least in F. destruct F as (Fk & _ & LeastK).
      destruct (Nat.lt_trichotomy k i) as [L|[->|L]]; [|reflexivity|].
      * exfalso. apply (Least k L). now apply whole_word_at_occurrence.
      * apply whole_word_at_occurrence in Oc. rewrite LeastK in Oc by lia.
        discriminate.
    + exfalso. apply whole_word_at_occurrence in Oc.
      assert (Hi : i <= length text).
      { unfold whole_word_at in Oc. rewrite !andb_true_iff in Oc.
        now apply atWordBoundary_inside. }
      rewrite (@find_seq_none _ _ _ F i ltac:(lia)) in Oc. discriminate.
Qed.

Lemma first_whole_word_none text b :
  first_whole_word text b = None <->
  forall i, ~ whole_word_occurrence text b i.
Proof.
  split.
  - intros F i Oc. apply whole_word_at_occurrence in Oc.
    assert (Hi : i <= length text).
    { unfold whole_word_at in Oc. rewrite !andb_true_iff in Oc.
      now apply atWordBoundary_inside. }
    unfold first_whole_word in F.
    rewrite (@find_seq_none _ _ _ F i ltac:(lia)) in Oc. discriminate.
  - intros N. destruct (first_whole_word text b) as [i|] eqn:F; [|reflexivity].
    apply first_whole_word_some in F. destruct F as [Oc _]. now apply N in Oc.
Qed.

(* ================================================================== *)
(** * extractBrandMentions *)
(* ================================================================== *)

Lemma mapM_pure {A B} (f : A -> result B) (g : A -> B) l :
  (forall x, In x l -> f x = Ok (g x)) -> mapM f l = Ok (map g l).
Proof.
  induction l as [|x l IH]; intros H; [reflexivity|].
  cbn [mapM map]. rewrite (H x) by now left. cbn [rbind].
  rewrite IH by (intros; apply H; now right). reflexivity.
Qed.

Lemma mapM_Ok {A B} (f : A -> result B) : forall l ys,
  mapM f l = Ok ys -> Forall2 (fun x y => f x = Ok y) l ys.
Proof.
  induction l as [|x l IH]; intros ys; cbn [mapM].
  - intros [= <-]. constructor.
  - destruct (f x) as [y|e] eqn:E; cbn [rbind]; [|discriminate].
    destruct (mapM f l) as [ys'|e] eqn:E'; cbn [rbind]; [|discriminate].
    intros [= <-]. constructor; [assumption|]. now apply IH.
Qed.

Lemma locate_eq engine text b : locate engine text b = Ok (located text b).
Proof.
  unfold locate. rewrite RegExp_new_mention. cbn [rbind].
  now rewrite String_match_mention.
Qed.

Lemma brandPositions_eq engine text brands :
  brandPositions engine text brands =
  Ok (Array_sort by_firstIndex (matched_brands text brands)).
Proof.
  unfold brandPositions.
  rewrite (mapM_pure _ (located text)) by (intros; apply locate_eq).
  reflexivity.
Qed.

Lemma mention_of_eq engine text pm b :
  mention_of engine text pm b =
  match first_whole_word text b with
  | Some i =>
      rbind (checkIfRecommended engine text b)
            (fun rec => Ok (mentioned_at text pm b i rec))
  | None => Ok (unmentioned b)
  end.
Proof.
  unfold mention_of. rewrite RegExp_new_mention. cbn [rbind].
  pose proof (String_matchAll_mention text b) as H.
  destruct (first_whole_word text b) as [i|].
  - destruct H as [more H]. unfold mentioned_at. rewrite H. reflexivity.
  - now rewrite H.
Qed.

(** What [extractBrandMentions] returns, when it returns: one record per
    brand, in the order of the list. *)
Lemma extractBrandMentions_records engine text brands ms :
  extractBrandMentions engine text brands = Ok ms ->
  let pm := positionMap_of (Array_sort by_firstIndex (matched_brands text brands)) in
  Forall2 (fun b m =>
             match first_whole_word text b with
             | Some i => exists rec, checkIfRecommended engine text b = Ok rec
                                     /\ m = mentioned_at text pm b i rec
             | None => m = unmentioned b
             end) brands ms.
Proof.
  unfold extractBrandMentions. rewrite brandPositions_eq. cbn [rbind].
  intros H. apply mapM_Ok in H. cbn zeta.
  eapply Forall2_impl; [|exact H].
  intros b m. cbn beta. rewrite mention_of_eq.
  destruct (first_whole_word text b) as [i|].
  - destruct (checkIfRecommended engine text b) as [rec|e]; cbn [rbind];
      [|discriminate].
    intros [= <-]. now exists rec.
  - now intros [= <-].
Qed.

Lemma Forall2_In_r {A B} (R : A -> B -> Prop) l l' y :
  Forall2 R l l' -> In y l' -> exists x, In x l /\ R x y.
Proof.
  induction 1 as [|x y' l l' Hxy H IH]; cbn; [tauto|].
  intros [<-|Hy].
  - exists x. auto.
  - destruct (IH Hy) as (x' & ? & ?). exists x'. auto.
Qed.

Lemma starts_with_word_app mid post :
  starts_with_word mid = true ->
  starts_with_word (mid ++ post) = true.
Proof. destruct mid; [discriminate|trivial]. Qed.

Lemma ends_in_word_app pre mid :
  ends_in_word mid = true -> ends_in_word (pre ++ mid) = true.
Proof.
  unfold ends_in_word. rewrite rev_app_distr.
  destruct (rev mid); [discriminate|trivial].
Qed.

Lemma inside_larger_word_no_boundary pre mid post :
  inside_larger_word pre mid post ->
  ~ (word_boundary pre (mid ++ post) /\ word_boundary (pre ++ mid) post).
Proof.
  unfold word_boundary. intros [[P M]|[M P]] [B1 B2].
  - apply B1. now rewrite P, (starts_with_word_app _ _ M).
  - apply B2. now rewrite P, (ends_in_word_app _ _ M).
Qed.

Lemma Forall2_rev {A B} (R : A -> B -> Prop) l l' :
  Forall2 R l l' -> Forall2 R (rev l) (rev l').
Proof.
  induction 1 as [|x y l l' Hxy H IH]; [constructor|].
  cbn [rev]. apply Forall2_app; [exact IH|]. now repeat constructor.
Qed.

Lemma same_ignoring_case_starts b mid :
  same_ignoring_case b mid -> starts_with_word mid = starts_with_word b.
Proof.
  intros [|x y l l' Hxy _]; [reflexivity|]. cbn [starts_with_word].
  now rewrite <- (isWordChar_Canonicalize x), Hxy, isWordChar_Canonicalize.
Qed.

Lemma same_ignoring_case_ends b mid :
  same_ignoring_case b mid -> ends_in_word mid = ends_in_word b.
Proof.
  intros H. apply Forall2_rev in H. unfold ends_in_word.
  destruct H as [|x y l l' Hxy _]; [reflexivity|].
  now rewrite <- (isWordChar_Canonicalize x), Hxy, isWordChar_Canonicalize.
Qed.

Lemma starts_with_word_front mid post :
  mid <> [] -> starts_with_word (mid ++ post) = starts_with_word mid.
Proof. destruct mid; [congruence|reflexivity]. Qed.

Lemma ends_in_word_back pre mid :
  mid <> [] -> ends_in_word (pre ++ mid) = ends_in_word mid.
Proof.
  intros NE. unfold ends_in_word. rewrite rev_app_distr.
  destruct (rev mid) as [|c r] eqn:E; [|reflexivity].
  exfalso. apply NE. apply (f_equal (@rev _)) in E. now rewrite rev_involutive in E.
Qed.

Lemma same_ignoring_case_nonempty b mid :
  same_ignoring_case b mid -> b <> [] -> mid <> [].
Proof. intros [|] NE; [congruence|discriminate]. Qed.

(** The sides of an occurrence that has a word boundary at both ends. *)
Lemma boundaries_of_occurrence b pre mid post :
  same_ignoring_case b mid -> b <> [] ->
  (word_boundary pre (mid ++ post) <-> ends_in_word pre <> starts_with_word b) /\
  (word_boundary (pre ++ mid) post <-> ends_in_word b <> starts_with_word post).
Proof.
  intros S NE. pose proof (same_ignoring_case_nonempty S NE) as NM.
  unfold word_boundary.
  rewrite (starts_with_word_front post NM), (ends_in_word_back pre NM),
    (same_ignoring_case_starts S), (same_ignoring_case_ends S).
  tauto.
Qed.



(** What the run on that text gives: "Cat" is not mentioned, "acme" is,
    found in capitals at index 23. *)
Example mixed_case_is_matched :
  map mentioned shout_mentions = [false; true] /\
  first_whole_word shout_text (str "acme") = Some 23 /\
  first_whole_word shout_text (str "Cat") = None.
Proof. repeat split. Qed.


(** C4.  On the response "We tested Acme (Pro) and liked it" and the one
    brand "Acme (Pro", [extractBrandMentions] returns no list of records:
    the brand is found, its recommendation check builds the pattern
    "recommend acme (pro" from the unescaped name, and the constructor of
    the regular expression throws. *)
Theorem C4_throws_on_found_brand_with_open_paren engine :
  first_whole_word review_text paren_brand = Some 10 /\
  extractBrandMentions engine review_text [paren_brand] =
  Throw (SyntaxError (str "recommend acme (pro") UnterminatedGroup).
Proof. split; reflexivity. Qed.

(** C8, as worded, fails: for the brand Acme at the start of a response of
    205 characters the snippet holds the 154 characters up to 150 past the
    end of the match, not the 150 characters up to 150 past its start. *)
Lemma C8_counterexample :
  exists m,
    extractBrandMentions strict_engine long_text [str "Acme"] = Ok [m] /\
    mentioned m = true /\
    first_whole_word long_text (brand m) = Some 0 /\
    option_map (@length ascii) (context m) = Some 154 /\
    length (context_window_spec long_text 0) = 150 /\
    context m <> Some (context_window_spec long_text 0).
Proof.
  eexists. split; [vm_compute; reflexivity|].
  repeat split; try (vm_compute; reflexivity).
  intros E. apply (f_equal (option_map (@length ascii))) in E.
  vm_compute in E. discriminate.
Qed.

(** C8, amended.  For every mentioned brand the context snippet is the text
    from 150 characters before the start of the first whole-word match to
    150 characters after the end of that match (its start plus the length
    of the brand name), clipped to the bounds of the text and trimmed of
    leading and trailing white space. *)
Theorem C8_context_window engine text brands ms m :
  extractBrandMentions engine text brands = Ok ms ->
  In m ms ->
  mentioned m = true ->
  exists i,
    whole_word_occurrence text (brand m) i /\
    (forall j, j < i -> ~ whole_word_occurrence text (brand m) j) /\
    context m =
    Some (trim (slice text (i - 150)
                  (Nat.min (length text) (i + length (brand m) + 150)))).
Proof.
  intros H Hm M. apply extractBrandMentions_records in H. cbn zeta in H.
  destruct (Forall2_In_r _ H Hm) as (b & _ & R).
  destruct (first_whole_word text b) as [i|] eqn:F.
  - destruct R as (rec & _ & ->). cbn [brand context mentioned_at].
    apply first_whole_word_some in F. destruct F as [Oc Least].
    exists i. repeat split; assumption.
  - subst m. discriminate.
Qed.

Lemma C8_witness :
  exists i,
    whole_word_occurrence (str "Try Acme now") (str "Acme") i /\
    (forall j, j < i -> ~ whole_word_occurrence (str "Try Acme now") (str "Acme") j) /\
    Some (str "Try Acme now") =
    Some (trim (slice (str "Try Acme now") (i - 150)
                  (Nat.min (length (str "Try Acme now"))
                           (i + length (str "Acme") + 150)))).
Proof.
  apply (@C8_context_window strict_engine (str "Try Acme now") [str "Acme"]
           [mentioned_at (str "Try Acme now") [(str "Acme", 1)] (str "Acme") 4 false]
           (mentioned_at (str "Try Acme now") [(str "Acme", 1)] (str "Acme") 4 false)).
  - vm_compute. reflexivity.
  - left. reflexivity.
  - reflexivity.
Defined.

(* ================================================================== *)
(** * analyzePrompt *)
(* ================================================================== *)

(** The result that the handler of [analyzePrompt] builds. *)
Lemma analyzePrompt_caught engine URL_hostname call promptText brands e :
  analyzePrompt_try engine URL_hostname call promptText brands = Throw e ->
  analyzePrompt engine URL_hostname call promptText brands =
  {| success := false; prompt := promptText; response := None;
     responseLength := None; processingTimeMs := elapsedMs call;
     error := Some (message e); mentions := map unmentioned brands;
     citations := []; searchQueries := [] |}.
Proof. unfold analyzePrompt. now intros ->. Qed.

Lemma message_SyntaxError_nonempty p why : message (SyntaxError p why) <> [].
Proof. discriminate. Qed.

Lemma Forall2_In_l {A B} (R : A -> B -> Prop) l l' x :
  Forall2 R l l' -> In x l -> exists y, In y l' /\ R x y.
Proof.
  induction 1 as [|x' y l l' Hxy H IH]; cbn; [tauto|].
  intros [<-|Hx].
  - exists y. auto.
  - destruct (IH Hx) as (y' & ? & ?). exists y'. auto.
Qed.

(** A found brand whose recommendation check throws turns the response of
    the provider into an error result. *)
Lemma analyzePrompt_recommendation_throws
    engine URL_hostname text grounding elapsed promptText brands b i e :
  In b brands ->
  first_whole_word text b = Some i ->
  checkIfRecommended engine text b = Throw e ->
  exists e',
    analyzePrompt_try engine URL_hostname
      {| outcome := Responded text grounding; elapsedMs := elapsed |}
      promptText brands = Throw e'.
Proof.
  intros Hb F C. unfold analyzePrompt_try. cbn [outcome].
  destruct (extractBrandMentions engine text brands) as [ms|e'] eqn:E;
    cbn [rbind]; [exfalso|eauto].
  apply extractBrandMentions_records in E. cbn zeta in E.
  destruct (Forall2_In_l _ E Hb) as (m & _ & R).
  rewrite F in R. destruct R as (rec & C' & _). congruence.
Qed.

(** C10.  Recommendation detection builds its patterns from the lower-cased
    brand name as it is, while mention matching escapes the name.  For the
    brand "Acme (Pro" in the response "We tested Acme (Pro) and liked it"
    the mention pattern compiles and finds the brand at index 10, but
    [checkIfRecommended] throws a [SyntaxError] while constructing its first
    pattern; inside the [try] of [analyzePrompt] this turns the response of
    the provider into an error result: [success] false, [error] set, every
    brand unmentioned and no citation. *)
Theorem C10_unescaped_recommendation_pattern :
  exists b text,
    escapeRegex b <> b /\
    (forall engine,
        RegExp_new engine (mention_pattern b) true =
        Ok (fun t => ends true t (mention_regex b))) /\
    first_whole_word text b = Some 10 /\
    (forall engine,
        checkIfRecommended engine text b =
        Throw (SyntaxError (str "recommend " ++ toLowerCase b) UnterminatedGroup)) /\
    (forall engine URL_hostname grounding elapsed promptText,
        analyzePrompt engine URL_hostname
          {| outcome := Responded text grounding; elapsedMs := elapsed |}
          promptText [b] =
        {| success := false; prompt := promptText; response := None;
           responseLength := None; processingTimeMs := elapsed;
           error := Some (message (SyntaxError (str "recommend " ++ toLowerCase b)
                                     UnterminatedGroup));
           mentions := [unmentioned b]; citations := [];
           searchQueries := [] |}).
Proof.
  exists paren_brand, review_text. split; [discriminate|].
  split; [intros; apply RegExp_new_mention|].
  split; [reflexivity|]. split; [reflexivity|].
  intros. apply analyzePrompt_caught. reflexivity.
Qed.

(* ================================================================== *)
(** * Sorting and the position map *)
(* ================================================================== *)

Section SortByKey.

Variables A B : Type.
Variable f : A -> B.
Variable cmp : B -> B -> Z.

Lemma sort_insert_map x l :
  sort_insert cmp (f x) (map f l) =
  map f (sort_insert (fun a b => cmp (f a) (f b)) x l).
Proof.
  induction l as [|y l IH]; [reflexivity|].
  cbn [map sort_insert]. destruct (cmp (f x) (f y) >? 0)%Z; cbn [map];
    [now rewrite IH|reflexivity].
Qed.

Lemma Array_sort_map l :
  Array_sort cmp (map f l) =
  map f (Array_sort (fun a b => cmp (f a) (f b)) l).
Proof.
  unfold Array_sort. induction l as [|x l IH]; [reflexivity|].
  cbn [map fold_right]. now rewrite IH, sort_insert_map.
Qed.

End SortByKey.

Section SortFacts.

Variable A : Type.
Variable key : A -> Z.

Lemma sort_insert_Permutation x l :
  Permutation (sort_insert (fun a b : A => (key a - key b)%Z) x l) (x :: l).
Proof.
  induction l as [|y l IH]; [reflexivity|].
  cbn [sort_insert]. destruct (key x - key y >? 0)%Z; [|reflexivity].
  rewrite IH. apply perm_swap.
Qed.

Lemma Array_sort_Permutation l : Permutation (Array_sort (fun a b : A => (key a - key b)%Z) l) l.
Proof.
  unfold Array_sort. induction l as [|x l IH]; [reflexivity|].
  cbn [fold_right]. rewrite sort_insert_Permutation. now constructor.
Qed.

Lemma ascending_cons x l :
  (forall y, In y l -> (key x <= key y)%Z) -> ascending key l ->
  ascending key (x :: l).
Proof.
  intros Hx Hl i j a b Hij Ha Hb.
  destruct j as [|j]; [lia|]. cbn in Hb.
  destruct i as [|i]; cbn in Ha.
  - injection Ha as <-. apply Hx. eapply nth_error_In; eassumption.
  - apply (Hl i j); [lia|assumption|assumption].
Qed.

Lemma ascending_tail x l : ascending key (x :: l) -> ascending key l.
Proof.
  intros H i j a b Hij Ha Hb. apply (H (S i) (S j)); [lia|assumption|assumption].
Qed.

Lemma ascending_head x l y : ascending key (x :: l) -> In y l -> (key x <= key y)%Z.
Proof.
  intros H Hy. apply In_nth_error in Hy. destruct Hy as [j Hj].
  apply (H 0 (S j)); [lia|reflexivity|assumption].
Qed.

Lemma sort_insert_ascending x l :
  ascending key l -> ascending key (sort_insert (fun a b : A => (key a - key b)%Z) x l).
Proof.
  induction l as [|y l IH]; intros Hl.
  - intros i j a b Hij Ha Hb. destruct j as [|[|j]]; [lia|discriminate|discriminate].
  - cbn [sort_insert].
    destruct (key x - key y >? 0)%Z eqn:E.
    + apply ascending_cons; [|apply IH; eapply ascending_tail; eassumption].
      intros z Hz.
      apply (Permutation_in _ (sort_insert_Permutation x l)) in Hz.
      destruct Hz as [<-|Hz]; [lia|]. eapply ascending_head; eassumption.
    + apply ascending_cons; [|assumption].
      intros z [<-|Hz]; [lia|].
      pose proof (@ascending_head y l z Hl Hz). lia.
Qed.

Lemma Array_sort_ascending l : ascending key (Array_sort (fun a b : A => (key a - key b)%Z) l).
Proof.
  unfold Array_sort. induction l as [|x l IH].
  - intros i j a b Hij Ha. destruct i; discriminate.
  - cbn [fold_right]. now apply sort_insert_ascending.
Qed.

(** The sort is stable: an element passes only elements with a smaller
    key, so the elements with one key keep their order. *)
Lemma sort_insert_filter k x l :
  filter (fun a => key a =? k)%Z
         (sort_insert (fun a b : A => (key a - key b)%Z) x l)
  = filter (fun a => key a =? k)%Z (x :: l).
Proof.
  induction l as [|y l IH]; [reflexivity|].
  cbn [sort_insert]. destruct (key x - key y >? 0)%Z eqn:E; [|reflexivity].
  cbn [filter] in *. rewrite IH.
  destruct (Z.eqb_spec (key x) k), (Z.eqb_spec (key y) k);
    try reflexivity. exfalso. lia.
Qed.

Lemma Array_sort_filter k l :
  filter (fun a => key a =? k)%Z
         (Array_sort (fun a b : A => (key a - key b)%Z) l)
  = filter (fun a => key a =? k)%Z l.
Proof.
  unfold Array_sort. induction l as [|x l IH]; [reflexivity|].
  cbn [fold_right]. rewrite sort_insert_filter. cbn [filter]. now rewrite IH.
Qed.

End SortFacts.

(** ** Places in a list of distinct names *)

Lemma index_of_None k l : index_of k l = None <-> ~ In k l.
Proof.
  induction l as [|x l IH]; cbn [index_of In]; [tauto|].
  destruct (jsstring_eqb k x) eqn:E.
  - apply jsstring_eqb_eq in E. subst. split; [discriminate|tauto].
  - apply jsstring_eqb_neq in E.
    destruct (index_of k l); cbn [option_map].
    + split; [discriminate|]. intros H. exfalso.
      assert (C : Some n = None) by (apply IH; tauto). discriminate.
    + split; [|trivial]. intros _ [C|C]; [congruence|]. now apply (proj1 IH).
Qed.

Lemma index_of_nth k l j :
  index_of k l = Some j -> nth_error l j = Some k.
Proof.
  revert j. induction l as [|x l IH]; intros j; cbn [index_of]; [discriminate|].
  destruct (jsstring_eqb k x) eqn:E.
  - apply jsstring_eqb_eq in E. subst. now intros [= <-].
  - destruct (index_of k l) as [j'|]; cbn [option_map]; [|discriminate].
    intros [= <-]. cbn. now apply IH.
Qed.

Lemma index_of_In k l : In k l -> exists j, index_of k l = Some j.
Proof.
  intros H. destruct (index_of k l) as [j|] eqn:E; [eauto|].
  now apply index_of_None in E.
Qed.

Lemma rank_in_cons_other x l y :
  y <> x -> In y l -> rank_in (x :: l) y = S (rank_in l y).
Proof.
  intros N H. unfold rank_in. cbn [index_of].
  apply jsstring_eqb_neq in N. rewrite N.
  destruct (index_of_In _ _ H) as [j ->]. reflexivity.
Qed.

Lemma rank_in_head x l : rank_in (x :: l) x = 1.
Proof. unfold rank_in. cbn [index_of]. now rewrite jsstring_eqb_refl. Qed.

Lemma rank_in_positive l y : In y l -> 0 < rank_in l y.
Proof.
  intros H. unfold rank_in. destruct (index_of_In _ _ H) as [j ->]. lia.
Qed.

(** Leaving names out of a list of distinct names does not change the
    order of those that stay. *)
Lemma rank_in_filter (f : jsstring -> bool) l a b :
  NoDup l -> In a l -> In b l -> f a = true -> f b = true ->
  (rank_in l a < rank_in l b <->
   rank_in (filter f l) a < rank_in (filter f l) b).
Proof.
  intros ND. revert a b. induction ND as [|x l Hx ND IH]; intros a b Ha Hb Fa Fb;
    [contradiction|].
  assert (Keep : forall y, In y l -> f y = true -> In y (filter f l))
    by (intros; now apply filter_In).
  cbn [filter]. destruct Ha as [<-|Ha], Hb as [Eb|Hb].
  - subst b. rewrite Fa, !rank_in_head. lia.
  - assert (N : b <> x) by congruence.
    pose proof (rank_in_positive _ _ Hb).
    pose proof (rank_in_positive _ _ (Keep b Hb Fb)).
    rewrite Fa, !rank_in_head, !rank_in_cons_other; auto; lia.
  - subst b. assert (N : a <> x) by congruence.
    rewrite Fb, !rank_in_head, !rank_in_cons_other; auto; lia.
  - assert (Na : a <> x) by congruence. assert (Nb : b <> x) by congruence.
    rewrite !(@rank_in_cons_other x l) by assumption.
    destruct (f x).
    + rewrite !rank_in_cons_other by auto.
      rewrite <- !Nat.succ_lt_mono. now apply IH.
    + rewrite <- Nat.succ_lt_mono. now apply IH.
Qed.

Lemma map_rank_in l : NoDup l -> map (rank_in l) l = seq 1 (length l).
Proof.
  induction 1 as [|x l Hx ND IH]; [reflexivity|].
  cbn [map length seq]. f_equal.
  - unfold rank_in. cbn [index_of]. now rewrite jsstring_eqb_refl.
  - rewrite <- seq_shift, <- IH, map_map. apply map_ext_in.
    intros y Hy. apply rank_in_cons_other; [|assumption]. congruence.
Qed.

(** ** The position map *)

Lemma fill_positionMap_lookup bps : forall o n k,
  NoDup (map bp_brand bps) ->
  ~ In proto_key (map bp_brand bps) ->
  own_property (fst (fold_left fill_positionMap bps (o, n))) k =
  match index_of k (map bp_brand bps) with
  | Some j => Some (n + j + 1)
  | None => own_property o k
  end.
Proof.
  induction bps as [|bp bps IH]; intros o n k ND NP; [reflexivity|].
  cbn [map] in ND, NP. inversion ND as [|? ? Hx ND']; subst.
  cbn [fold_left map index_of]. unfold fill_positionMap at 2. cbn [fst snd].
  rewrite IH; [|assumption|intros C; apply NP; now right].
  unfold obj_set.
  assert (P : jsstring_eqb (bp_brand bp) proto_key = false).
  { apply jsstring_eqb_neq. intros C. apply NP. now left. }
  rewrite P.
  destruct (jsstring_eqb k (bp_brand bp)) eqn:E.
  - apply jsstring_eqb_eq in E. subst k.
    apply index_of_None in Hx. rewrite Hx. cbn [own_property].
    rewrite jsstring_eqb_refl. f_equal. lia.
  - destruct (index_of k (map bp_brand bps)) as [j|]; cbn [option_map].
    + f_equal. lia.
    + cbn [own_property]. now rewrite E.
Qed.

Lemma position_in_map bps k :
  NoDup (map bp_brand bps) ->
  ~ In proto_key (map bp_brand bps) ->
  In k (map bp_brand bps) ->
  position_or_null (obj_get (positionMap_of bps) k) =
  PosNum (rank_in (map bp_brand bps) k).
Proof.
  intros ND NP Hk. unfold obj_get, positionMap_of.
  assert (P : jsstring_eqb k proto_key = false).
  { apply jsstring_eqb_neq. intros ->. contradiction. }
  rewrite P, fill_positionMap_lookup by assumption.
  unfold rank_in. destruct (index_of_In _ _ Hk) as [j ->].
  cbn [Nat.add position_or_null]. now rewrite Nat.add_1_r.
Qed.

(* ================================================================== *)
(** * Positions *)
(* ================================================================== *)

Lemma first_index_found text b i :
  first_whole_word text b = Some i -> first_index text b = Z.of_nat i.
Proof. unfold first_index, located. cbn. now intros ->. Qed.

Lemma located_found text b :
  negb (firstIndex (located text b) =? -1)%Z = is_found text b.
Proof.
  unfold is_found, located. cbn [firstIndex].
  destruct (first_whole_word text b) as [i|]; cbn [is_some]; [|reflexivity].
  destruct (Z.eqb_spec (Z.of_nat i) (-1)); [lia|reflexivity].
Qed.

Lemma matched_brands_eq text brands :
  matched_brands text brands =
  map (located text) (filter (is_found text) brands).
Proof.
  unfold matched_brands. induction brands as [|b l IH]; [reflexivity|].
  cbn [map filter]. rewrite located_found, IH.
  now destruct (is_found text b).
Qed.

Lemma sorted_positions_eq text brands :
  Array_sort by_firstIndex (matched_brands text brands) =
  map (located text) (ranking text brands).
Proof.
  rewrite matched_brands_eq. unfold ranking.
  now rewrite (Array_sort_map (located text) by_firstIndex).
Qed.

Lemma map_bp_brand_located text l : map bp_brand (map (located text) l) = l.
Proof. rewrite map_map. cbn. apply map_id. Qed.

Lemma ranking_Permutation text brands :
  Permutation (ranking text brands) (filter (is_found text) brands).
Proof. apply Array_sort_Permutation. Qed.

Lemma ranking_In text brands b :
  In b (ranking text brands) <-> In b brands /\ is_found text b = true.
Proof.
  rewrite <- filter_In. split; apply Permutation_in;
    [|symmetry]; apply ranking_Permutation.
Qed.

Lemma ranking_NoDup text brands : NoDup brands -> NoDup (ranking text brands).
Proof.
  intros ND. eapply Permutation_NoDup.
  - symmetry. apply ranking_Permutation.
  - now apply NoDup_filter.
Qed.

(** The position stored in the record of a found brand. *)
Lemma position_of_found text brands b :
  NoDup brands -> ~ In proto_key brands ->
  In b brands -> is_found text b = true ->
  position_or_null
    (obj_get (positionMap_of (Array_sort by_firstIndex (matched_brands text brands))) b) =
  PosNum (rank_in (ranking text brands) b).
Proof.
  intros ND NP Hb Fb. rewrite sorted_positions_eq.
  rewrite position_in_map; rewrite map_bp_brand_located.
  - reflexivity.
  - now apply ranking_NoDup.
  - intros C. apply ranking_In in C. tauto.
  - apply ranking_In. tauto.
Qed.

Lemma assigned_positions_of_records engine text pm (rk : jsstring -> nat) :
  forall l ms,
    (forall b, In b l -> is_found text b = true ->
               position_or_null (obj_get pm b) = PosNum (rk b)) ->
    Forall2 (fun b m =>
               match first_whole_word text b with
               | Some i => exists rec, checkIfRecommended engine text b = Ok rec
                                       /\ m = mentioned_at text pm b i rec
               | None => m = unmentioned b
               end) l ms ->
    assigned_positions ms = map (fun b => PosNum (rk b)) (filter (is_found text) l)
    /\ length (filter mentioned ms) = length (filter (is_found text) l).
Proof.
  intros l ms Hpos H. induction H as [|b m l ms R H IH].
  - split; reflexivity.
  - destruct IH as [IH1 IH2]; [intros; apply Hpos; [now right|assumption]|].
    unfold assigned_positions in *. cbn [map filter].
    pose proof (Hpos b (or_introl eq_refl)) as Pb.
    unfold is_found in *.
    destruct (first_whole_word text b) as [i|].
    + destruct R as (rec & _ & ->).
      cbn [position mentioned mentioned_at is_some].
      rewrite (Pb eq_refl). cbn [has_position map length].
      now rewrite IH1, IH2.
    + subst m. cbn [position mentioned unmentioned is_some has_position].
      now rewrite IH1, IH2.
Qed.

Lemma not_Permutation_2_2 : ~ Permutation [2; 2] (seq 1 2).
Proof.
  intros P. symmetry in P.
  assert (H : In 1 [2; 2]) by (apply (Permutation_in _ P); now left).
  cbn in H. intuition discriminate.
Qed.

(** C5, as worded, fails on two kinds of brand list: when a name occurs
    twice, both records get the position written last (Acme, Acme in a text
    that mentions Acme: positions 2 and 2); and for the name [__proto__] the
    position read from the map is the prototype object, not a number. *)
Lemma C5_counterexample :
  (exists ms,
      extractBrandMentions strict_engine (str "Acme wins")
        [str "Acme"; str "Acme"] = Ok ms /\
      length (filter mentioned ms) = 2 /\
      assigned_positions ms = [PosNum 2; PosNum 2] /\
      ~ Permutation [2; 2] (seq 1 2)) /\
  (exists ms,
      extractBrandMentions strict_engine (str "the __proto__ brand")
        [proto_key] = Ok ms /\
      length (filter mentioned ms) = 1 /\
      assigned_positions ms = [PosObject]).
Proof.
  split; eexists; (split; [vm_compute; reflexivity|]).
  - repeat split; try reflexivity. apply not_Permutation_2_2.
  - split; reflexivity.
Qed.

(** Among the brands found at one offset, the ranking keeps the order of
    the brand list. *)
Lemma ranking_ties text brands a b :
  NoDup brands ->
  In a brands -> In b brands ->
  is_found text a = true -> is_found text b = true ->
  first_index text a = first_index text b ->
  (rank_in brands a < rank_in brands b <->
   rank_in (ranking text brands) a < rank_in (ranking text brands) b).
Proof.
  intros ND Ha Hb Fa Fb E.
  set (k := first_index text b) in *.
  set (same := fun x => (first_index text x =? k)%Z).
  assert (Sa : same a = true) by (unfold same; now apply Z.eqb_eq).
  assert (Sb : same b = true) by (unfold same; now apply Z.eqb_eq).
  assert (Ia : In a (filter (is_found text) brands)) by now apply filter_In.
  assert (Ib : In b (filter (is_found text) brands)) by now apply filter_In.
  rewrite (@rank_in_filter (is_found text) _ _ _ ND Ha Hb Fa Fb).
  rewrite (@rank_in_filter same _ _ _ (NoDup_filter _ ND) Ia Ib Sa Sb).
  rewrite (@rank_in_filter same _ _ _ (ranking_NoDup text ND)
             (proj2 (ranking_In text brands a) (conj Ha Fa))
             (proj2 (ranking_In text brands b) (conj Hb Fb)) Sa Sb).
  unfold ranking, same. now rewrite (Array_sort_filter (first_index text)).
Qed.

(** C5, amended.  For every response text and every list of pairwise
    distinct brand names that does not contain [__proto__], the positions
    that are not null are numbers, one for each mentioned brand, and form a
    permutation of 1..k, where k is the number of mentioned brands; and the
    ranks ascend with the offset of the first whole-word match: a brand
    whose first match starts earlier has the smaller position, a smaller
    position never belongs to a later first match, and of two brands whose
    first matches start at the same offset the one that comes first in the
    brand list has the smaller position. *)
Theorem C5_positions engine text brands ms :
  NoDup brands ->
  ~ In proto_key brands ->
  extractBrandMentions engine text brands = Ok ms ->
  exists ranks,
    assigned_positions ms = map PosNum ranks /\
    length ranks = length (filter mentioned ms) /\
    Permutation ranks (seq 1 (length ranks)) /\
    forall m1 m2 p1 p2 i1 i2,
      In m1 ms -> In m2 ms ->
      position m1 = PosNum p1 -> position m2 = PosNum p2 ->
      first_whole_word text (brand m1) = Some i1 ->
      first_whole_word text (brand m2) = Some i2 ->
      (i1 < i2 -> p1 < p2) /\ (p1 < p2 -> i1 <= i2) /\
      (i1 = i2 ->
       (rank_in brands (brand m1) < rank_in brands (brand m2) <-> p1 < p2)).
Proof.
  intros ND NP H. apply extractBrandMentions_records in H. cbn zeta in H.
  set (pm := positionMap_of _) in H.
  set (rk := rank_in (ranking text brands)).
  assert (Hpos : forall b, In b brands -> is_found text b = true ->
                           position_or_null (obj_get pm b) = PosNum (rk b))
    by (intros; now apply position_of_found).
  destruct (@assigned_positions_of_records engine text pm rk brands ms Hpos H) as [A L].
  exists (map rk (filter (is_found text) brands)).
  split; [now rewrite map_map|]. split; [now rewrite length_map|].
  split.
  { rewrite length_map, <- (Permutation_length (ranking_Permutation text brands)).
    rewrite <- (map_rank_in (ranking_NoDup text ND)).
    apply Permutation_map. symmetry. apply ranking_Permutation. }
  assert (Rank : forall m p i,
             In m ms -> position m = PosNum p ->
             first_whole_word text (brand m) = Some i ->
             In (brand m) brands /\ p = rk (brand m) /\
             exists j, p = S j /\ nth_error (ranking text brands) j = Some (brand m)).
  { intros m p i Hm Pm Fm.
    destruct (Forall2_In_r _ H Hm) as (b & Hb & R).
    destruct (first_whole_word text b) as [i'|] eqn:F.
    - destruct R as (rec & _ & ->). cbn [position brand mentioned_at] in *.
      rewrite Hpos in Pm by (unfold is_found; now rewrite ?F).
      injection Pm as <-. split; [exact Hb|]. split; [reflexivity|].
      unfold rk, rank_in.
      assert (Hin : In b (ranking text brands))
        by (apply ranking_In; unfold is_found; now rewrite F).
      destruct (index_of_In _ _ Hin) as [j Ej]. rewrite Ej.
      exists j. split; [reflexivity|]. now apply index_of_nth.
    - subst m. discriminate. }
  assert (Asc : ascending (first_index text) (ranking text brands))
    by apply Array_sort_ascending.
  assert (Le : forall m1 m2 p1 p2 i1 i2,
             In m1 ms -> In m2 ms ->
             position m1 = PosNum p1 -> position m2 = PosNum p2 ->
             first_whole_word text (brand m1) = Some i1 ->
             first_whole_word text (brand m2) = Some i2 ->
             p1 < p2 -> i1 <= i2).
  { intros m1 m2 p1 p2 i1 i2 H1 H2 P1 P2 F1 F2 Lt.
    destruct (Rank _ _ _ H1 P1 F1) as (_ & _ & j1 & -> & N1).
    destruct (Rank _ _ _ H2 P2 F2) as (_ & _ & j2 & -> & N2).
    assert (Hj : j1 < j2) by lia.
    pose proof (Asc j1 j2 _ _ Hj N1 N2) as K.
    rewrite (first_index_found _ _ F1), (first_index_found _ _ F2) in K. lia. }
  intros m1 m2 p1 p2 i1 i2 H1 H2 P1 P2 F1 F2.
  split; [|split; [now apply (Le m1 m2)|]].
  - intros Lt. destruct (Nat.lt_trichotomy p1 p2) as [|[E|G]]; [assumption|exfalso..].
    + subst p2.
      destruct (Rank _ _ _ H1 P1 F1) as (_ & _ & j1 & E1 & N1).
      destruct (Rank _ _ _ H2 P2 F2) as (_ & _ & j2 & E2 & N2).
      assert (j1 = j2) by lia. subst j2.
      assert (brand m1 = brand m2) by congruence.
      assert (Some i1 = Some i2) by congruence.
      assert (i1 = i2) by congruence. lia.
    + pose proof (Le m2 m1 p2 p1 i2 i1 H2 H1 P2 P1 F2 F1 G). lia.
  - intros Tie. subst i2.
    destruct (Rank _ _ _ H1 P1 F1) as (B1 & -> & _).
    destruct (Rank _ _ _ H2 P2 F2) as (B2 & -> & _).
    apply ranking_ties; try assumption.
    + unfold is_found. now rewrite F1.
    + unfold is_found. now rewrite F2.
    + now rewrite (first_index_found _ _ F1), (first_index_found _ _ F2).
Qed.

(** A text in which two names begin at the same offset: the one that comes
    first in the brand list is ranked first. *)
Lemma C5_witness :
  exists ranks,
    assigned_positions tie_mentions = map PosNum ranks /\
    length ranks = length (filter mentioned tie_mentions) /\
    Permutation ranks (seq 1 (length ranks)) /\
    forall m1 m2 p1 p2 i1 i2,
      In m1 tie_mentions -> In m2 tie_mentions ->
      position m1 = PosNum p1 -> position m2 = PosNum p2 ->
      first_whole_word tie_text (brand m1) = Some i1 ->
      first_whole_word tie_text (brand m2) = Some i2 ->
      (i1 < i2 -> p1 < p2) /\ (p1 < p2 -> i1 <= i2) /\
      (i1 = i2 ->
       (rank_in tie_brands (brand m1) < rank_in tie_brands (brand m2)
        <-> p1 < p2)).
Proof.
  apply (@C5_positions strict_engine tie_text tie_brands tie_mentions).
  - repeat constructor; cbn; intuition discriminate.
  - cbn. intuition discriminate.
  - vm_compute. reflexivity.
Defined.

Example tie_positions :
  map (fun m => (first_whole_word tie_text (brand m), position m)) tie_mentions
  = [(Some 8, PosNum 2); (Some 0, PosNum 1); (Some 8, PosNum 3)].
Proof. reflexivity. Qed.

(* ================================================================== *)
(** * analyzeSentiment *)
(* ================================================================== *)

Lemma startsWith_prefix pat : forall s,
  startsWith pat s = true <-> exists post, s = pat ++ post.
Proof.
  induction pat as [|p pat IH]; intros s; cbn [startsWith].
  - split; [intros _; now exists s|trivial].
  - destruct s as [|c s]; [split; [discriminate|intros [post E]; discriminate]|].
    rewrite andb_true_iff, Ascii.eqb_eq, IH. split.
    + intros [-> [post ->]]. now exists post.
    + intros [post E]. injection E as -> ->. split; [reflexivity|now exists post].
Qed.

Lemma includes_substring pat : forall s,
  includes s pat = true <-> exists pre post, s = pre ++ pat ++ post.
Proof.
  induction s as [|c s IH]; cbn [includes]; rewrite orb_true_iff, startsWith_prefix.
  - split.
    + intros [[post E]|C]; [|discriminate]. now exists [], post.
    + intros (pre & post & E). left.
      destruct pre; [now exists post|discriminate].
  - rewrite IH. split.
    + intros [[post E]|(pre & post & E)].
      * now exists [], post.
      * exists (c :: pre), post. now rewrite E.
    + intros (pre & post & E). destruct pre as [|c' pre].
      * left. now exists post.
      * right. injection E as -> ->. now exists pre, post.
Qed.

Lemma includes_lower_occurs ctx p :
  toLowerCase p = p ->
  includes (toLowerCase ctx) p = true <-> occurs_ignoring_case p ctx.
Proof.
  intros Lp. rewrite includes_substring. unfold occurs_ignoring_case, toLowerCase in *.
  split.
  - intros (pre & post & E).
    apply map_eq_app in E. destruct E as (a & rest & -> & Ea & E).
    apply map_eq_app in E. destruct E as (b & c & -> & Eb & Ec).
    exists a, b, c. split; [reflexivity|]. now rewrite Lp.
  - intros (a & b & c & -> & E). rewrite Lp in E.
    exists (map toLower_unit a), (map toLower_unit c).
    now rewrite !map_app, E.
Qed.

Lemma lexicons_lower_case p :
  In p (positivePatterns ++ negativePatterns) -> toLowerCase p = p.
Proof.
  assert (F : forallb (fun q => jsstring_eqb (toLowerCase q) q)
                (positivePatterns ++ negativePatterns) = true)
    by (vm_compute; reflexivity).
  rewrite forallb_forall in F. intros H. now apply jsstring_eqb_eq, F.
Qed.

Lemma distinct_NoDup l : distinct l = true -> NoDup l.
Proof.
  induction l as [|x l IH]; cbn [distinct]; [constructor|].
  rewrite andb_true_iff, negb_true_iff. intros [N D].
  constructor; [|auto]. intros C.
  assert (E : existsb (jsstring_eqb x) l = true)
    by (apply existsb_exists; exists x; split; [assumption|apply jsstring_eqb_refl]).
  congruence.
Qed.

Lemma count_positive_fold lc l : forall z n,
  fold_left (count_positive lc) l (z, n) =
  ((z + Z.of_nat (length (filter (includes lc) l)))%Z,
   n + length (filter (includes lc) l)).
Proof.
  induction l as [|p l IH]; intros z n; cbn [fold_left filter].
  - cbn. f_equal; lia.
  - unfold count_positive at 2. cbn [fst snd].
    destruct (includes lc p); rewrite IH; cbn [length]; f_equal; lia.
Qed.

Lemma count_negative_fold lc l : forall z n,
  fold_left (count_negative lc) l (z, n) =
  ((z - Z.of_nat (length (filter (includes lc) l)))%Z,
   n + length (filter (includes lc) l)).
Proof.
  induction l as [|p l IH]; intros z n; cbn [fold_left filter].
  - cbn. f_equal; lia.
  - unfold count_negative at 2. cbn [fst snd].
    destruct (includes lc p); rewrite IH; cbn [length]; f_equal; lia.
Qed.

Lemma not_Qle_bool_lt a b : negb (Qle_bool a b) = true <-> (b < a)%Q.
Proof.
  rewrite negb_true_iff. split.
  - intros H. apply Qnot_le_lt. intros C. apply Qle_bool_iff in C. congruence.
  - intros H. destruct (Qle_bool a b) eqn:E; [|reflexivity].
    apply Qle_bool_iff in E. exfalso. now apply (Qlt_not_le _ _ H).
Qed.

Opaque positivePatterns negativePatterns.

Lemma score_eq ctx brand :
  sr_score (analyzeSentiment ctx brand) =
    (if count_found positivePatterns ctx + count_found negativePatterns ctx =? 0 then 0%Q
     else clamp (-1) 1
            (inject_Z (Z.of_nat (count_found positivePatterns ctx)
                       - Z.of_nat (count_found negativePatterns ctx)) /
             Q_of_nat (Nat.max (Nat.max (count_found positivePatterns ctx)
                                        (count_found negativePatterns ctx)) 1))%Q).
Proof.
  unfold analyzeSentiment, count_found.
  rewrite count_positive_fold.
  lazy beta iota zeta delta [fst snd sr_score].
  rewrite !count_negative_fold.
  lazy beta iota zeta delta [fst snd].
  set (mp := length (filter (includes (toLowerCase ctx)) positivePatterns)). clearbody mp.
  set (mn := length (filter (includes (toLowerCase ctx)) negativePatterns)). clearbody mn.
  rewrite Z.add_0_l, !Nat.add_0_l. unfold clamp.
  destruct (mp + mn) as [|k]; reflexivity.
Qed.

Lemma label_eq ctx brand :
  sr_sentiment (analyzeSentiment ctx brand) =
  if negb (Qle_bool (sr_score (analyzeSentiment ctx brand)) (2 # 10)) then Positive
  else if negb (Qle_bool (- (2 # 10)) (sr_score (analyzeSentiment ctx brand))) then Negative
  else Neutral.
Proof. reflexivity. Qed.

(** C7.  The sentiment score of a context is 0 when no phrase of either
    lexicon occurs in it, and otherwise (matchedPositive - matchedNegative) /
    max(matchedPositive, matchedNegative, 1) clamped to [-1, 1], where the
    two counts are the numbers of (pairwise distinct) lexicon phrases that
    occur in the context as substrings, the case of letters ignored.  The
    label is positive exactly when the score exceeds 0.2, negative exactly
    when it is below -0.2, and neutral otherwise; so a context without
    lexicon matches is neutral with score 0. *)
Theorem C7_sentiment_score ctx brand :
  let matchedPositive := count_found positivePatterns ctx in
  let matchedNegative := count_found negativePatterns ctx in
  let r := analyzeSentiment ctx brand in
  (forall p, In p (positivePatterns ++ negativePatterns) ->
             (includes (toLowerCase ctx) p = true <-> occurs_ignoring_case p ctx)) /\
  NoDup positivePatterns /\ NoDup negativePatterns /\
  sr_score r =
    (if matchedPositive + matchedNegative =? 0 then 0%Q
     else clamp (-1) 1
            (inject_Z (Z.of_nat matchedPositive - Z.of_nat matchedNegative) /
             Q_of_nat (Nat.max (Nat.max matchedPositive matchedNegative) 1))%Q) /\
  (sr_sentiment r = Positive <-> (2 # 10 < sr_score r)%Q) /\
  (sr_sentiment r = Negative <-> (sr_score r < - (2 # 10))%Q) /\
  (sr_sentiment r = Neutral <->
   (- (2 # 10) <= sr_score r)%Q /\ (sr_score r <= 2 # 10)%Q) /\
  (matchedPositive + matchedNegative = 0 ->
   sr_score r = 0%Q /\ sr_sentiment r = Neutral).
Proof.
  cbn zeta.
  split; [intros p Hp; apply includes_lower_occurs, lexicons_lower_case, Hp|].
  split; [apply distinct_NoDup; vm_compute; reflexivity|].
  split; [apply distinct_NoDup; vm_compute; reflexivity|].
  pose proof (score_eq ctx brand) as S.
  split; [exact S|].
  rewrite label_eq.
  set (s := sr_score (analyzeSentiment ctx brand)) in *.
  pose proof (not_Qle_bool_lt s (2 # 10)) as P.
  pose proof (not_Qle_bool_lt (- (2 # 10)) s) as N.
  assert (Excl : (2 # 10 < s)%Q -> (s < - (2 # 10))%Q -> False).
  { intros A B. pose proof (Qlt_trans _ _ _ A B) as T. discriminate T. }
  destruct (negb (Qle_bool s (2 # 10))) eqn:E1;
    destruct (negb (Qle_bool (- (2 # 10)) s)) eqn:E2.
  - exfalso. apply Excl; [now apply P|now apply N].
  - assert (Hp : (2 # 10 < s)%Q) by now apply P.
    split; [tauto|]. split; [split; [discriminate|]|].
    { intros H. exfalso. now apply Excl. }
    split; [split; [discriminate|]|].
    { intros [_ U]. exfalso. now apply (Qlt_not_le _ _ Hp). }
    intros Z. exfalso. rewrite S, Z in Hp. discriminate Hp.
  - assert (Hn : (s < - (2 # 10))%Q) by now apply N.
    split; [split; [discriminate|]|].
    { intros H. exfalso. now apply Excl. }
    split; [tauto|].
    split; [split; [discriminate|]|].
    { intros [L _]. exfalso. now apply (Qlt_not_le _ _ Hn). }
    intros Z. exfalso. rewrite S, Z in Hn. discriminate Hn.
  - assert (L : (- (2 # 10) <= s)%Q).
    { apply Qnot_lt_le. intros H. apply N in H. discriminate. }
    assert (U : (s <= 2 # 10)%Q).
    { apply Qnot_lt_le. intros H. apply P in H. discriminate. }
    split; [split; [discriminate|]|].
    { intros H. apply P in H. discriminate. }
    split; [split; [discriminate|]|].
    { intros H. apply N in H. discriminate. }
    split; [tauto|].
    intros Z. split; [|reflexivity]. now rewrite S, Z.
Qed.

Transparent positivePatterns negativePatterns.

Example sentiment_of_praise :
  analyzeSentiment (str "X is the best tool, highly rated") (str "X") =
  {| sr_sentiment := Positive; sr_score := 1 |}.
Proof. vm_compute. reflexivity. Qed.

Example sentiment_of_complaint :
  analyzeSentiment (str "X is expensive and clunky") (str "X") =
  {| sr_sentiment := Negative; sr_score := - (1) |}.
Proof. vm_compute. reflexivity. Qed.

(* ================================================================== *)
(** * extractCitations *)
(* ================================================================== *)

Lemma ends_literals_exact text tail b : forall i,
  ends false text (seq_of (map RChar b ++ tail)) i =
  if startsWith b (skipn i text)
  then ends false text (seq_of tail) (i + length b) else [].
Proof.
  induction b as [|c b IH]; intros i.
  - cbn [map app startsWith length]. now rewrite Nat.add_0_r.
  - cbn [map app]. rewrite ends_seq_cons. cbn [ends].
    rewrite nth_error_skipn_hd.
    destruct (skipn i text) as [|ch s] eqn:E; cbn [hd_error startsWith]; [reflexivity|].
    unfold char_matches.
    destruct (Ascii.eqb c ch); cbn [andb flat_map]; [|reflexivity].
    rewrite app_nil_r, IH, skipn_S_tl, E. cbn [tl length].
    now rewrite Nat.add_succ_r.
Qed.

Lemma ends_www_regex h i :
  ends false h www_regex i =
  if (i =? 0) && startsWith (str "www.") h then [4] else [].
Proof.
  change www_regex with (seq_of (RBol :: map RChar (str "www.") ++ [])).
  rewrite ends_seq_cons. cbn [ends].
  destruct i as [|i]; cbn [Nat.eqb andb flat_map]; [|reflexivity].
  rewrite app_nil_r, ends_literals_exact. cbn [skipn].
  destruct (startsWith (str "www.") h); reflexivity.
Qed.

Lemma find_false_on {A} (f : A -> bool) l :
  (forall x, In x l -> f x = false) -> find f l = None.
Proof.
  induction l as [|x l IH]; intros H; [reflexivity|].
  cbn [find]. rewrite (H x) by now left. apply IH. intros; apply H; now right.
Qed.

Lemma replace_www h :
  String_replace h (fun text => ends false text www_regex) [] = strip_www h.
Proof.
  unfold String_replace, RegExp_exec, strip_www.
  rewrite exec_from_find, Nat.sub_0_r. cbn [seq find].
  rewrite ends_www_regex. cbn [Nat.eqb andb].
  destruct (startsWith (str "www.") h) eqn:E.
  - cbn [option_map hd firstn app]. rewrite ends_www_regex, E. reflexivity.
  - rewrite find_false_on; [reflexivity|].
    intros j Hj. apply in_seq in Hj. rewrite ends_www_regex.
    destruct j; [lia|reflexivity].
Qed.

Lemma extractDomain_eq URL_hostname u :
  extractDomain URL_hostname u =
  match URL_hostname u with
  | Some h => strip_www h
  | None => u
  end.
Proof.
  unfold extractDomain. destruct (URL_hostname u); [apply replace_www|reflexivity].
Qed.

Lemma web_sources_app a b : web_sources (a ++ b) = web_sources a ++ web_sources b.
Proof.
  unfold web_sources. induction a as [|[[w|]] a IH]; cbn; [reflexivity| |assumption].
  now rewrite IH.
Qed.

Lemma first_with_uri_app u ws ws' w :
  first_with_uri u ws = Some w -> first_with_uri u (ws ++ ws') = Some w.
Proof.
  unfold first_with_uri. induction ws as [|x ws IH]; cbn [find app]; [discriminate|].
  destruct (jsstring_eqb (uri x) u); auto.
Qed.

Lemma first_with_uri_fresh u ws w :
  ~ In u (map uri ws) -> uri w = u ->
  first_with_uri u (ws ++ [w]) = Some w.
Proof.
  unfold first_with_uri. intros N E. induction ws as [|x ws IH]; cbn [find app].
  - subst u. now rewrite jsstring_eqb_refl.
  - cbn [map In] in N. destruct (jsstring_eqb (uri x) u) eqn:F.
    + apply jsstring_eqb_eq in F. tauto.
    + apply IH. tauto.
Qed.

Lemma existsb_seen u seen :
  existsb (jsstring_eqb u) seen = true <-> In u seen.
Proof.
  rewrite existsb_exists. split.
  - intros (x & Hx & E). apply jsstring_eqb_eq in E. now subst.
  - intros H. exists u. split; [assumption|apply jsstring_eqb_refl].
Qed.

Lemma visit_chunk_keeps URL_hostname seen_chunks acc chunk :
  citations_of URL_hostname seen_chunks acc ->
  citations_of URL_hostname (seen_chunks ++ [chunk])
    (visit_chunk URL_hostname acc chunk).
Proof.
  unfold citations_of. cbn zeta. intros (S & U & ND & T).
  rewrite web_sources_app. unfold visit_chunk.
  destruct chunk as [[w|]]; unfold web_sources at 2 4 6; cbn [web map somes].
  - destruct (existsb (jsstring_eqb (uri w)) (snd acc)) eqn:E; cbn [negb].
    + apply existsb_seen in E.
      repeat split.
      * intros H. rewrite map_app, in_app_iff. left. now apply S.
      * rewrite map_app, in_app_iff. cbn [map In].
        intros [H|[<-|[]]]; [now apply S|assumption].
      * intros H. rewrite map_app, in_app_iff. left. now apply U.
      * rewrite map_app, in_app_iff. cbn [map In].
        intros [H|[<-|[]]]; [now apply U|]. apply U. now apply S.
      * assumption.
      * intros c Hc. destruct (T c Hc) as (w' & F & Tt & D).
        exists w'. split; [now apply first_with_uri_app|auto].
    + assert (N : ~ In (uri w) (snd acc)).
      { intros C. apply existsb_seen in C. congruence. }
      cbn [fst snd]. repeat split.
      * cbn [In]. rewrite map_app, in_app_iff. cbn [map In].
        intros [<-|H]; [tauto|]. left. now apply S.
      * cbn [In]. rewrite map_app, in_app_iff. cbn [map In].
        intros [H|[<-|[]]]; [right; now apply S|now left].
      * rewrite !map_app, !in_app_iff. cbn [map In url].
        intros [H|[<-|[]]]; [left; now apply U|tauto].
      * rewrite !map_app, !in_app_iff. cbn [map In url].
        intros [H|[<-|[]]]; [left; now apply U|tauto].
      * rewrite map_app. cbn [map url].
        apply NoDup_app; [assumption|repeat constructor; cbn; tauto|].
        intros x Hx [<-|[]]. apply N, S, U, Hx.
      * intros c Hc. apply in_app_iff in Hc. destruct Hc as [Hc|[<-|[]]].
        -- destruct (T c Hc) as (w' & F & Tt & D).
           exists w'. split; [now apply first_with_uri_app|auto].
        -- cbn [url cite_title domain]. exists w.
           split; [|split; reflexivity].
           apply first_with_uri_fresh; [|reflexivity].
           intros C. now apply N, S.
  - rewrite app_nil_r. repeat split; auto; try apply S; try apply U.
Qed.

Lemma visit_chunks_keep URL_hostname rest : forall seen_chunks acc,
  citations_of URL_hostname seen_chunks acc ->
  citations_of URL_hostname (seen_chunks ++ rest)
    (fold_left (visit_chunk URL_hostname) rest acc).
Proof.
  induction rest as [|chunk rest IH]; intros seen_chunks acc H.
  - now rewrite app_nil_r.
  - cbn [fold_left].
    replace (seen_chunks ++ chunk :: rest) with ((seen_chunks ++ [chunk]) ++ rest)
      by now rewrite <- app_assoc.
    apply IH. now apply visit_chunk_keeps.
Qed.

Lemma startsWith_split pat : forall s,
  startsWith pat s = true -> s = pat ++ skipn (length pat) s.
Proof.
  induction pat as [|c pat IH]; intros s; [reflexivity|].
  destruct s as [|ch s]; cbn [startsWith]; [discriminate|].
  rewrite andb_true_iff, Ascii.eqb_eq. intros [-> H].
  cbn [length skipn app]. f_equal. now apply IH.
Qed.

(** Removing the prefix does not change the case of what is left: the
    domain is lower case exactly when the host name is. *)
Lemma strip_www_lower h :
  toLowerCase (strip_www h) = strip_www h <-> toLowerCase h = h.
Proof.
  unfold strip_www. destruct (startsWith (str "www.") h) eqn:S; [|tauto].
  apply startsWith_split in S.
  change (length (str "www.")) with 4 in S.
  set (rest := skipn 4 h) in *. clearbody rest. subst h.
  unfold toLowerCase. rewrite map_app. fold (toLowerCase rest).
  change (map toLower_unit (str "www.")) with (str "www.").
  split; [now intros ->|]. intros E. now apply app_inv_head in E.
Qed.



(* ================================================================== *)
(** * runAnalysis on sample runs *)
(* ================================================================== *)

(** C2.  A run over one prompt in which the database rejects the creation
    of the prompt result (call number 2): the handler of the loop records
    the failure, the run completes with [processedPrompts] still 0 of 1, and
    the observer is sent the completion event only.  With two prompts and
    the same fault the counter goes from 0 to 2 and a single progress event
    is sent. *)
Theorem C2_failed_prompt_is_not_counted :
  let w1 := snd (runAnalysis strict_engine no_hostname (answering "Acme is great")
                   (fault_at 2 "database is locked") 1 30 true
                   (sample_world [first_prompt])) in
  let w2 := snd (runAnalysis strict_engine no_hostname (answering "Acme is great")
                   (fault_at 2 "database is locked") 1 30 true
                   (sample_world [first_prompt; second_prompt])) in
  map pr_error (promptResults (store w1)) = [Some (str "database is locked")] /\
  runs (store w1) =
    [ {| run_id := 30; run_projectId := 1; status := completed;
         totalPrompts := Some 1; processedPrompts := 0 |} ] /\
  emitted w1 = [Complete 30] /\
  runs (store w2) =
    [ {| run_id := 30; run_projectId := 1; status := completed;
         totalPrompts := Some 2; processedPrompts := 2 |} ] /\
  emitted w2 = [Progress 2 2 (str "crm pricing"); Complete 30].
Proof. vm_compute. repeat split. Qed.

(** C1, as worded, fails: when the call of the provider fails, the prompt
    result is stored with its error and one brand mention row per brand is
    stored for it. *)
Lemma C1_counterexample :
  let w := snd (runAnalysis strict_engine no_hostname (failing "quota exceeded")
                  no_faults 1 30 false (sample_world [first_prompt])) in
  exists r,
    promptResults (store w) = [r] /\
    pr_error r = Some (str "quota exceeded") /\
    map bm_brandId
      (filter (fun m => bm_promptResultId m =? pr_id r) (brandMentions (store w)))
    = [10; 11].
Proof. vm_compute. eexists. repeat split. Qed.

(** C3, as worded, fails: when no brand is mentioned in the run, the
    snapshots exist and their [shareOfVoice] is null, not 0. *)
Lemma C3_counterexample :
  let w := snd (runAnalysis strict_engine no_hostname (answering "No vendor stands out")
                  no_faults 1 30 false (sample_world [first_prompt])) in
  map ms_brandId (snapshots (store w)) = [10; 11] /\
  map mentionCount (snapshots (store w)) = [0; 0] /\
  map shareOfVoice (snapshots (store w)) = [None; None] /\
  ~ (forall s, In s (snapshots (store w)) -> shareOfVoice s = Some 0%Q).
Proof.
  vm_compute. repeat split.
  intros H. specialize (H _ (or_introl eq_refl)). discriminate H.
Qed.

(* ================================================================== *)
(** * Rules for the runner *)
(* ================================================================== *)

Lemma triple_ret {A} (P : world -> Prop) (a : A) (Q : A -> world -> Prop) E :
  (forall w, P w -> Q a w) -> triple P (ret a) Q E.
Proof. intros H w r w' Pw [= <- <-]. auto. Qed.

Lemma triple_throw {A} (P : world -> Prop) e (Q : A -> world -> Prop)
    (E : world -> Prop) :
  (forall w, P w -> E w) -> triple P (throw e) Q E.
Proof. intros H w r w' Pw [= <- <-]. auto. Qed.

Lemma triple_bind {A B} P (m : M A) (k : A -> M B) R Q E :
  triple P m R E -> (forall a, triple (R a) (k a) Q E) ->
  triple P (bind m k) Q E.
Proof.
  intros Hm Hk w r w' Pw. unfold bind.
  destruct (m w) as [[a|e] w1] eqn:Em; pose proof (Hm _ _ _ Pw Em) as H1.
  - intros Ek. exact (Hk a _ _ _ H1 Ek).
  - intros [= <- <-]. exact H1.
Qed.

Lemma triple_try_catch {A} P (body : M A) handler Q E' E :
  triple P body Q E' -> (forall e, triple E' (handler e) Q E) ->
  triple P (try_catch body handler) Q E.
Proof.
  intros Hb Hh w r w' Pw. unfold try_catch.
  destruct (body w) as [[a|e] w1] eqn:Eb; pose proof (Hb _ _ _ Pw Eb) as H1.
  - intros [= <- <-]. exact H1.
  - intros Eh. exact (Hh e _ _ _ H1 Eh).
Qed.

Lemma triple_weaken {A} (P P' : world -> Prop) (m : M A)
    (Q Q' : A -> world -> Prop) (E E' : world -> Prop) :
  triple P' m Q' E' ->
  (forall w, P w -> P' w) -> (forall a w, Q' a w -> Q a w) ->
  (forall w, E' w -> E w) ->
  triple P m Q E.
Proof.
  intros H HP HQ HE w r w' Pw Em. specialize (H _ _ _ (HP _ Pw) Em).
  destruct r; auto.
Qed.

Lemma triple_forM {A} (I : world -> Prop) (f : A -> M unit) l E :
  (forall x, In x l -> triple I (f x) (fun _ => I) E) ->
  triple I (forM f l) (fun _ => I) E.
Proof.
  intros H. induction l as [|x l' IH].
  - apply triple_ret. auto.
  - cbn [forM]. eapply triple_bind; [apply H; now left|].
    intros u. apply IH. intros; apply H; now right.
Qed.

Lemma triple_when (I : world -> Prop) b m E :
  triple I m (fun _ => I) E -> triple I (when b m) (fun _ => I) E.
Proof. intros H. destruct b; [exact H|apply triple_ret; auto]. Qed.

Lemma triple_emit (P : db -> Prop) ev E :
  triple (on P) (emit ev) (fun _ => on P) E.
Proof. intros w r w' Pw [= <- <-]. exact Pw. Qed.

Lemma triple_push_result (P : db -> Prop) x E :
  triple (on P) (push_result x) (fun _ => on P) E.
Proof. intros w r w' Pw [= <- <-]. exact Pw. Qed.

Lemma triple_get_results (P : db -> Prop) E :
  triple (on P) get_results (fun _ => on P) E.
Proof. intros w r w' Pw [= <- <-]. exact Pw. Qed.

(** A database call: what the query guarantees, and nothing changed when
    the database fails the call. *)
Lemma triple_prisma {A} faults (q : query A) (P : db -> Prop)
    (Q : A -> db -> Prop) (E : db -> Prop) :
  (forall d r d', P d -> q d = (r, d') ->
                  match r with Ok a => Q a d' | Throw _ => E d' end) ->
  (forall d, P d -> E d) ->
  triple (on P) (prisma faults q) (fun a => on (Q a)) (on E).
Proof.
  intros Hq Hf w r w' Pw. unfold prisma, on in *.
  destruct (faults (calls w)).
  - intros [= <- <-]. cbn. auto.
  - destruct (q (store w)) as [r1 d] eqn:Eq. intros [= <- <-].
    specialize (Hq _ _ _ Pw Eq). destruct r1; exact Hq.
Qed.

Lemma run_invariant_same n0 d d' :
  same_results d d' -> run_invariant n0 d -> run_invariant n0 d'.
Proof.
  intros (Ep & Em & Ec & Hn) ((R1 & R2 & R3) & N & B).
  unfold run_invariant, refs_below, error_rows_bare. rewrite Ep, Em, Ec.
  split; [|split; [lia|exact B]].
  split; [|split].
  - intros x Hx. specialize (R1 x Hx). lia.
  - intros x Hx. specialize (R2 x Hx). lia.
  - intros x Hx. specialize (R3 x Hx). lia.
Qed.

(* ================================================================== *)
(** * What a run stores for a failed prompt *)
(* ================================================================== *)

Lemma saving_same n0 k e d d' :
  same_results d d' -> saving n0 k e d -> saving n0 k e d'.
Proof.
  intros S (I & K & R). pose proof S as (Ep & _ & _ & Hn).
  split; [now apply (run_invariant_same S)|]. split; [lia|]. now rewrite Ep.
Qed.

Lemma same_results_refl d : same_results d d.
Proof. repeat split; lia. Qed.

Lemma project_findUnique_same projectId d r d' :
  project_findUnique projectId d = (r, d') -> same_results d d'.
Proof. intros [= _ <-]. apply same_results_refl. Qed.

Lemma analysisRun_update_same runId change d r d' :
  analysisRun_update runId change d = (r, d') -> same_results d d'.
Proof.
  unfold analysisRun_update. destruct (existsb _ _); intros [= _ <-];
    repeat split; cbn; lia.
Qed.

Lemma promptResult_findMany_same runId d r d' :
  promptResult_findMany runId d = (r, d') -> same_results d d'.
Proof. intros [= _ <-]. apply same_results_refl. Qed.

Lemma metricsSnapshot_upsert_same runId brandId v d r d' :
  metricsSnapshot_upsert runId brandId v d = (r, d') -> same_results d d'.
Proof.
  unfold metricsSnapshot_upsert. destruct (existsb _ _); intros [= _ <-];
    repeat split; cbn; lia.
Qed.

Lemma metricsSnapshot_sum_same runId d r d' :
  metricsSnapshot_sum_mentionCount runId d = (r, d') -> same_results d d'.
Proof.
  unfold metricsSnapshot_sum_mentionCount. destruct (filter _ _);
    intros [= _ <-]; apply same_results_refl.
Qed.

Lemma metricsSnapshot_findMany_same runId d r d' :
  metricsSnapshot_findMany runId d = (r, d') -> same_results d d'.
Proof. intros [= _ <-]. apply same_results_refl. Qed.

Lemma metricsSnapshot_update_share_same id q d r d' :
  metricsSnapshot_update_share id q d = (r, d') -> same_results d d'.
Proof.
  unfold metricsSnapshot_update_share. destruct (existsb _ _); intros [= _ <-];
    repeat split; cbn; lia.
Qed.

(** A database call that leaves the result tables alone keeps a property
    that only depends on them. *)
Lemma triple_prisma_same {A} faults (q : query A) (P : db -> Prop) :
  (forall d r d', q d = (r, d') -> same_results d d') ->
  (forall d d', same_results d d' -> P d -> P d') ->
  triple (on P) (prisma faults q) (fun _ => on P) (on P).
Proof.
  intros Hq HP. apply triple_prisma; [|auto].
  intros d r d' Pd Eq. destruct r; eapply HP; eauto.
Qed.

Lemma calculateMetrics_keeps faults runId project (P : db -> Prop) :
  (forall d d', same_results d d' -> P d -> P d') ->
  triple (on P) (calculateMetrics faults runId project) (fun _ => on P) (on P).
Proof.
  intros HP. unfold calculateMetrics.
  eapply triple_bind;
    [apply triple_prisma_same; [apply promptResult_findMany_same|assumption]|].
  intros prs. cbn beta.
  eapply triple_bind.
  { apply triple_forM. intros b _. apply triple_prisma_same; [|assumption].
    apply metricsSnapshot_upsert_same. }
  intros u.
  eapply triple_bind;
    [apply triple_prisma_same; [apply metricsSnapshot_sum_same|assumption]|].
  intros total. cbn beta.
  destruct (0 <? _); [|apply triple_ret; auto].
  eapply triple_bind;
    [apply triple_prisma_same; [apply metricsSnapshot_findMany_same|assumption]|].
  intros found. apply triple_forM. intros s _.
  apply triple_prisma_same; [apply metricsSnapshot_update_share_same|assumption].
Qed.

Lemma run_invariant_initial d : refs_below d -> run_invariant (next_id d) d.
Proof.
  intros R. split; [assumption|]. split; [lia|].
  intros r Hr Hn. destruct R as (R1 & _). specialize (R1 r Hr). lia.
Qed.

Lemma promptResult_create_saving n0 runId promptId raw len time err d r d' :
  run_invariant n0 d ->
  promptResult_create runId promptId raw len time err d = (r, d') ->
  match r with
  | Ok row => saving n0 (pr_id row) err d'
  | Throw _ => run_invariant n0 d'
  end.
Proof.
  intros ((R1 & R2 & R3) & N & B). unfold promptResult_create.
  intros [= <- <-]. cbn [pr_id].
  unfold saving, run_invariant, refs_below, error_rows_bare.
  cbn [promptResults brandMentions citationRows next_id add_promptResult].
  split; [split; [split; [|split]|split]|split].
  - intros r Hr. apply in_app_iff in Hr. destruct Hr as [Hr|[<-|[]]].
    + specialize (R1 r Hr). lia.
    + cbn. lia.
  - intros m Hm. specialize (R2 m Hm). lia.
  - intros c Hc. specialize (R3 c Hc). lia.
  - lia.
  - intros r Hr Hn He. apply in_app_iff in Hr. destruct Hr as [Hr|[<-|[]]].
    + now apply (B r).
    + cbn [pr_id]. split.
      * intros c Hc. specialize (R3 c Hc). lia.
      * intros m Hm E. specialize (R2 m Hm). lia.
  - lia.
  - intros r Hr E. apply in_app_iff in Hr. destruct Hr as [Hr|[<-|[]]].
    + specialize (R1 r Hr). lia.
    + reflexivity.
Qed.

Lemma saving_invariant n0 k e d : saving n0 k e d -> run_invariant n0 d.
Proof. now intros (I & _). Qed.

Lemma add_brandMention_saving n0 k e d row :
  saving n0 k e d ->
  bm_promptResultId row = k ->
  (e <> None -> placeholder_row row) ->
  saving n0 k e (add_brandMention d row).
Proof.
  intros (((R1 & R2 & R3) & N & B) & K & E) Ek Hrow.
  unfold saving, run_invariant, refs_below, error_rows_bare.
  cbn [promptResults brandMentions citationRows next_id add_brandMention].
  split; [split; [split; [|split]|split]|split].
  - intros r Hr. specialize (R1 r Hr). lia.
  - intros x Hx. apply in_app_iff in Hx. destruct Hx as [Hx|[<-|[]]].
    + specialize (R2 x Hx). lia.
    + lia.
  - intros c Hc. specialize (R3 c Hc). lia.
  - lia.
  - intros r Hr Hn He. destruct (B r Hr Hn He) as [Bc Bm]. split; [exact Bc|].
    intros x Hx Ex. apply in_app_iff in Hx. destruct Hx as [Hx|[<-|[]]].
    + now apply Bm.
    + apply Hrow. rewrite <- (E r Hr); [assumption|congruence].
  - lia.
  - assumption.
Qed.

Lemma brandMention_create_saving n0 k e brandId m d r d' :
  saving n0 k e d ->
  (e <> None -> blank m) ->
  brandMention_create k brandId m d = (r, d') ->
  saving n0 k e d'.
Proof.
  intros S Hm. unfold brandMention_create.
  destruct (position m) eqn:Pm; intros [= <- <-]; try exact S;
    (apply add_brandMention_saving; [exact S|reflexivity|]);
    intros Ee; destruct (Hm Ee) as (M1 & M2 & M3 & M4 & M5);
    [unfold placeholder_row; cbn; auto|congruence].
Qed.

Lemma citation_create_saving n0 k c d r d' :
  saving n0 k None d ->
  citation_create k c d = (r, d') ->
  saving n0 k None d'.
Proof.
  intros (((R1 & R2 & R3) & N & B) & K & E). unfold citation_create.
  intros [= <- <-].
  unfold saving, run_invariant, refs_below, error_rows_bare.
  cbn [promptResults brandMentions citationRows next_id add_citation].
  split; [split; [split; [|split]|split]|split].
  - intros r Hr. specialize (R1 r Hr). lia.
  - intros m Hm. specialize (R2 m Hm). lia.
  - intros x Hx. apply in_app_iff in Hx. destruct Hx as [Hx|[<-|[]]].
    + specialize (R3 x Hx). lia.
    + cbn. lia.
  - lia.
  - intros r Hr Hn He. destruct (B r Hr Hn He) as [Bc Bm]. split; [|exact Bm].
    intros x Hx. apply in_app_iff in Hx. destruct Hx as [Hx|[<-|[]]].
    + now apply Bc.
    + cbn [cit_promptResultId]. intros Ex. apply He. now apply E.
  - lia.
  - assumption.
Qed.

Lemma blank_unmentioned b : blank (unmentioned b).
Proof. repeat split. Qed.

(** A result of [analyzePrompt] that carries an error is the result built
    by its handler: placeholders for mentions and no citation. *)
Lemma analyzePrompt_error engine URL_hostname call promptText brands :
  let r := analyzePrompt engine URL_hostname call promptText brands in
  error r <> None ->
  success r = false /\ mentions r = map unmentioned brands /\ citations r = [].
Proof.
  cbn zeta. unfold analyzePrompt.
  destruct (analyzePrompt_try engine URL_hostname call promptText brands)
    as [r|e] eqn:E.
  - unfold analyzePrompt_try in E. destruct (outcome call); [|discriminate].
    destruct (extractBrandMentions engine text brands); cbn [rbind] in E;
      [|discriminate].
    injection E as <-. cbn [error]. congruence.
  - cbn. auto.
Qed.

Lemma string_or_null_Some s : string_or_null s <> None -> s <> None.
Proof. destruct s; [intros _; discriminate|cbn; congruence]. Qed.

Section RunKeeps.

Variable engine : jsstring -> bool -> option matcher.
Variable URL_hostname : jsstring -> option jsstring.
Variable provider : nat -> provider_call.
Variable faults : nat -> option jsstring.
Variable n0 : nat.

Lemma process_prompt_keeps project runId total onProgress i p :
  triple (on (run_invariant n0))
    (process_prompt engine URL_hostname provider faults project runId total
       onProgress i p)
    (fun _ => on (run_invariant n0)) (on (run_invariant n0)).
Proof.
  unfold process_prompt.
  set (result := analyzePrompt engine URL_hostname (provider i) (prompt_text p)
                   (map brand_name (project_brands project))).
  set (e := string_or_null (error result)).
  assert (F : e <> None ->
              (forall m, In m (mentions result) -> blank m) /\
              citations result = []).
  { intros He. apply string_or_null_Some in He.
    destruct (analyzePrompt_error engine URL_hostname (provider i) (prompt_text p)
                (map brand_name (project_brands project)) He) as (_ & Em & Ec).
    fold result in Em, Ec. split; [|assumption].
    intros m Hm. rewrite Em in Hm. apply in_map_iff in Hm.
    destruct Hm as (b & <- & _). apply blank_unmentioned. }
  eapply triple_bind.
  { apply (@triple_prisma _ faults _ (run_invariant n0)
             (fun row => saving n0 (pr_id row) e) (run_invariant n0)); [|auto].
    intros d r d' I Eq. exact (promptResult_create_saving I Eq). }
  intros row. cbn beta.
  set (k := pr_id row).
  assert (Same : forall d d', same_results d d' -> saving n0 k e d -> saving n0 k e d')
    by (intros; eapply saving_same; eassumption).
  apply triple_weaken with (P' := on (saving n0 k e))
                           (Q' := fun _ : unit => on (saving n0 k e))
                           (E' := on (saving n0 k e));
    [|auto|intros a w S; exact (saving_invariant S)
      |intros w S; exact (saving_invariant S)].
  eapply triple_bind.
  { apply triple_when, triple_forM. intros m Hm. unfold save_mention.
    destruct (find _ _) as [b|]; [|apply triple_ret; auto].
    apply triple_prisma; [|auto].
    intros d r d' S Eq.
    assert (S' : saving n0 k e d').
    { eapply brandMention_create_saving; [exact S| |exact Eq].
      intros He. now apply (proj1 (F He)). }
    destruct r; exact S'. }
  intros u1. eapply triple_bind.
  { apply triple_when, triple_forM. intros c Hc.
    apply triple_prisma; [|auto].
    intros d r d' S Eq.
    assert (En : e = None).
    { destruct e eqn:Ee; [|reflexivity]. exfalso.
      assert (He : Some j <> None) by discriminate.
      destruct (F He) as (_ & Ec). rewrite Ec in Hc. contradiction. }
    rewrite En in *.
    pose proof (citation_create_saving S Eq) as S'. destruct r; exact S'. }
  intros u2. eapply triple_bind; [apply triple_push_result|].
  intros u3. eapply triple_bind.
  { apply triple_prisma_same; [apply analysisRun_update_same|exact Same]. }
  intros u4. apply triple_when, triple_emit.
Qed.

Lemma record_failure_keeps runId p e :
  triple (on (run_invariant n0)) (record_failure faults runId p e)
    (fun _ => on (run_invariant n0)) (on (run_invariant n0)).
Proof.
  unfold record_failure. eapply triple_bind.
  { apply (@triple_prisma _ faults _ (run_invariant n0)
             (fun _ => run_invariant n0) (run_invariant n0)); [|auto].
    intros d r d' I Eq. pose proof (promptResult_create_saving I Eq) as S.
    destruct r; [exact (saving_invariant S)|exact S]. }
  intros row. apply triple_push_result.
Qed.

Lemma for_prompts_keeps project runId total onProgress ps : forall i,
  triple (on (run_invariant n0))
    (for_prompts engine URL_hostname provider faults project runId total
       onProgress i ps)
    (fun _ => on (run_invariant n0)) (on (run_invariant n0)).
Proof.
  induction ps as [|p ps IH]; intros i; cbn [for_prompts].
  - apply triple_ret. auto.
  - eapply triple_bind; [|intros u; apply IH].
    eapply triple_try_catch; [apply process_prompt_keeps|].
    intros e. apply record_failure_keeps.
Qed.

Lemma runAnalysis_keeps projectId runId onProgress :
  triple (on (run_invariant n0))
    (runAnalysis engine URL_hostname provider faults projectId runId onProgress)
    (fun _ => on (run_invariant n0)) (on (run_invariant n0)).
Proof.
  assert (Same : forall d d', same_results d d' ->
                              run_invariant n0 d -> run_invariant n0 d')
    by (intros; eapply run_invariant_same; eassumption).
  unfold runAnalysis. eapply triple_bind.
  { apply triple_prisma_same; [apply project_findUnique_same|exact Same]. }
  intros [project|]; [|apply triple_throw; auto].
  eapply triple_bind.
  { apply triple_prisma_same; [apply analysisRun_update_same|exact Same]. }
  intros u1. eapply triple_bind; [apply for_prompts_keeps|].
  intros u2. eapply triple_bind; [apply calculateMetrics_keeps; exact Same|].
  intros u3. eapply triple_bind.
  { apply triple_prisma_same; [apply analysisRun_update_same|exact Same]. }
  intros u4. eapply triple_bind; [apply triple_when, triple_emit|].
  intros u5. apply triple_get_results.
Qed.

End RunKeeps.


(* ================================================================== *)
(** * calculateMetrics *)
(* ================================================================== *)

Lemma bind_Ok {A B} (m : M A) (k : A -> M B) w b w' :
  bind m k w = (Ok b, w') ->
  exists a w1, m w = (Ok a, w1) /\ k a w1 = (Ok b, w').
Proof.
  unfold bind. destruct (m w) as [[a|e] w1]; [eauto|discriminate].
Qed.

Lemma prisma_Ok {A} faults (q : query A) w a w' :
  prisma faults q w = (Ok a, w') ->
  q (store w) = (Ok a, store w') /\ emitted w' = emitted w.
Proof.
  unfold prisma. destruct (faults (calls w)); [discriminate|].
  destruct (q (store w)) as [r d]. intros [= -> <-]. auto.
Qed.

Section Aggregation.

Variable faults : nat -> option jsstring.
Variable runId : nat.

Lemma upsert_loop valid : forall brands w w',
  NoDup (map brand_id brands) ->
  (forall s, In s (snapshots (store w)) -> ms_analysisRunId s = runId ->
             ~ In (ms_brandId s) (map brand_id brands)) ->
  forM (fun b => prisma faults (metricsSnapshot_upsert runId (brand_id b)
                                  (brand_metrics valid b))) brands w
  = (Ok tt, w') ->
  snapshots (store w') =
  snapshots (store w) ++ created_rows runId valid (next_id (store w)) brands.
Proof.
  induction brands as [|b bs IH]; intros w w' ND Fresh.
  - intros [= <-]. cbn. now rewrite app_nil_r.
  - cbn [forM]. intros H. apply bind_Ok in H. destruct H as (u & w1 & H1 & H2).
    apply prisma_Ok in H1. destruct H1 as [H1 _].
    unfold metricsSnapshot_upsert in H1.
    assert (None_yet : existsb (snapshot_is runId (brand_id b))
                         (snapshots (store w)) = false).
    { destruct (existsb _ _) eqn:E; [exfalso|reflexivity].
      apply existsb_exists in E. destruct E as (s & Hs & Is).
      unfold snapshot_is in Is. apply andb_true_iff in Is.
      destruct Is as [Ir Ib]. apply Nat.eqb_eq in Ir, Ib.
      apply (Fresh s Hs Ir). left. congruence. }
    rewrite None_yet in H1. apply (f_equal snd) in H1. cbn [snd] in H1. rename H1 into E1.
    cbn [map] in ND. inversion ND as [|? ? Hb ND']; subst.
    rewrite (IH w1 w' ND'); [|clear IH H2|exact H2].
    + rewrite <- E1. cbn [snapshots next_id with_snapshots created_rows].
      now rewrite <- app_assoc.
    + rewrite <- E1. cbn [snapshots with_snapshots]. intros s Hs Rs.
      apply in_app_iff in Hs. destruct Hs as [Hs|[<-|[]]].
      * intros C. apply (Fresh s Hs Rs). now right.
      * exact Hb.
Qed.

Lemma created_rows_ids valid brands : forall n,
  map ms_id (created_rows runId valid n brands) = seq n (length brands).
Proof.
  induction brands as [|b bs IH]; intros n; [reflexivity|].
  cbn. now rewrite IH.
Qed.

Lemma created_rows_brands valid brands : forall n,
  map ms_brandId (created_rows runId valid n brands) = map brand_id brands.
Proof.
  induction brands as [|b bs IH]; intros n; [reflexivity|].
  cbn. now rewrite IH.
Qed.

Lemma created_rows_of_run valid brands : forall n,
  filter (of_run runId) (created_rows runId valid n brands) =
  created_rows runId valid n brands.
Proof.
  induction brands as [|b bs IH]; intros n; [reflexivity|].
  cbn [created_rows filter]. unfold of_run at 1.
  cbn [ms_analysisRunId snapshot_created]. now rewrite Nat.eqb_refl, IH.
Qed.

Lemma created_rows_no_share valid brands : forall n s,
  In s (created_rows runId valid n brands) -> shareOfVoice s = None.
Proof.
  induction brands as [|b bs IH]; intros n s; cbn [created_rows In]; [intros []|].
  intros [<-|H]; [reflexivity|exact (IH _ _ H)].
Qed.

Lemma filter_none {A} (f : A -> bool) l :
  (forall x, In x l -> f x = false) -> filter f l = [].
Proof.
  induction l as [|x l IH]; intros H; [reflexivity|].
  cbn [filter]. rewrite (H x) by now left. apply IH. intros; apply H; now right.
Qed.

Variable total : nat.

Lemma update_loop : forall targets w w',
  forM (fun snapshot =>
          prisma faults (metricsSnapshot_update_share (ms_id snapshot)
                           (share_of (mentionCount snapshot) total)))
       targets w = (Ok tt, w') ->
  snapshots (store w') = map (share_updates total targets) (snapshots (store w)).
Proof.
  induction targets as [|t ts IH]; intros w w'.
  - intros [= <-]. cbn. now rewrite map_id.
  - cbn [forM]. intros H. apply bind_Ok in H. destruct H as (u & w1 & H1 & H2).
    apply prisma_Ok in H1. destruct H1 as [H1 _].
    unfold metricsSnapshot_update_share in H1.
    destruct (existsb _ _); [|discriminate]. apply (f_equal snd) in H1. cbn [snd] in H1. rename H1 into E1.
    rewrite (IH _ _ H2), <- E1. cbn [snapshots with_snapshots].
    rewrite map_map. reflexivity.
Qed.

Lemma share_updates_cons t ts s :
  share_updates total (t :: ts) s =
  share_updates total ts
    (if ms_id s =? ms_id t
     then set_shareOfVoice (share_of (mentionCount t) total) s else s).
Proof. reflexivity. Qed.

Lemma share_updates_id ts : forall s, ms_id (share_updates total ts s) = ms_id s.
Proof.
  induction ts as [|t ts IH]; intros s; [reflexivity|].
  rewrite share_updates_cons.
  rewrite IH. now destruct (ms_id s =? ms_id t).
Qed.

Lemma share_updates_run ts : forall s,
  of_run runId (share_updates total ts s) = of_run runId s.
Proof.
  induction ts as [|t ts IH]; intros s; [reflexivity|].
  rewrite share_updates_cons.
  rewrite IH. now destruct (ms_id s =? ms_id t).
Qed.

Lemma share_updates_other ts : forall s,
  (forall t, In t ts -> ms_id t <> ms_id s) -> share_updates total ts s = s.
Proof.
  induction ts as [|t ts IH]; intros s H; [reflexivity|].
  rewrite share_updates_cons.
  destruct (Nat.eqb_spec (ms_id s) (ms_id t)) as [E|_].
  - exfalso. apply (H t); [now left|congruence].
  - apply IH. intros; apply H; now right.
Qed.

Lemma share_updates_own ts : forall s s0,
  NoDup (map ms_id ts) -> In s0 ts -> ms_id s = ms_id s0 ->
  share_updates total ts s =
  set_shareOfVoice (share_of (mentionCount s0) total) s.
Proof.
  induction ts as [|t ts IH]; intros s s0 ND Hin E; [contradiction|].
  cbn [map] in ND. inversion ND as [|? ? Ht ND']; subst.
  rewrite share_updates_cons.
  destruct Hin as [<-|Hin].
  - rewrite E, Nat.eqb_refl. apply share_updates_other.
    intros t' Ht' C. apply Ht. cbn [ms_id set_shareOfVoice] in C.
    rewrite E in C. rewrite <- C. now apply in_map.
  - destruct (Nat.eqb_spec (ms_id s) (ms_id t)) as [E'|_].
    + exfalso. apply Ht. rewrite <- E', E. now apply in_map.
    + now apply IH.
Qed.

Lemma filter_map_commute {A} (f : A -> bool) (g : A -> A) l :
  (forall x, f (g x) = f x) -> filter f (map g l) = map g (filter f l).
Proof.
  intros H. induction l as [|x l IH]; [reflexivity|].
  cbn [map filter]. rewrite H, IH. now destruct (f x).
Qed.

End Aggregation.

Lemma prisma_Ok_unchanged {A} faults (q : query A) (v : db -> A) w a w' :
  (forall d, q d = (Ok (v d), d)) ->
  prisma faults q w = (Ok a, w') ->
  a = v (store w) /\ store w' = store w.
Proof.
  intros Hq H. apply prisma_Ok in H. destruct H as [H _].
  rewrite Hq in H. injection H as <- <-. auto.
Qed.

Lemma sum_mentionCount_value runId d :
  metricsSnapshot_sum_mentionCount runId d =
  (Ok (match filter (of_run runId) (snapshots d) with
       | [] => None
       | rows => Some (list_sum (map mentionCount rows))
       end), d).
Proof.
  unfold metricsSnapshot_sum_mentionCount.
  now destruct (filter (of_run runId) (snapshots d)).
Qed.

(** The snapshots of a run after an aggregation that completed, for a run
    that had none before. *)
Lemma calculateMetrics_rows faults runId project w w' :
  NoDup (map brand_id (project_brands project)) ->
  (forall s, In s (snapshots (store w)) -> ms_analysisRunId s <> runId) ->
  calculateMetrics faults runId project w = (Ok tt, w') ->
  exists created,
    map ms_brandId created = map brand_id (project_brands project) /\
    (forall s, In s created -> shareOfVoice s = None) /\
    let total := list_sum (map mentionCount created) in
    run_snapshots runId w' =
    if 0 <? total
    then map (fun s => set_shareOfVoice (share_of (mentionCount s) total) s) created
    else created.
Proof.
  intros ND Fresh H. unfold calculateMetrics in H.
  apply bind_Ok in H. destruct H as (prs & w1 & H1 & H).
  apply prisma_Ok in H1. destruct H1 as [H1 _].
  apply (f_equal snd) in H1. cbn [snd promptResult_findMany] in H1.
  symmetry in H1. rename H1 into S1.
  apply bind_Ok in H. destruct H as (u & w2 & H2 & H). destruct u.
  apply upsert_loop in H2; [|assumption|].
  2:{ intros s Hs Rs. rewrite S1 in Hs. now apply Fresh in Hs. }
  set (valid := filter no_error prs) in *.
  set (created := created_rows runId valid (next_id (store w1))
                    (project_brands project)) in *.
  assert (RunRows : filter (of_run runId) (snapshots (store w2)) = created).
  { rewrite H2, filter_app, filter_none;
      [unfold created; now rewrite created_rows_of_run|].
    intros s Hs. rewrite S1 in Hs. apply Fresh in Hs. unfold of_run.
    now apply Nat.eqb_neq. }
  apply bind_Ok in H. destruct H as (tm & w3 & H3 & H).
  apply (@prisma_Ok_unchanged _ faults _
           (fun d => match filter (of_run runId) (snapshots d) with
                     | [] => None
                     | rows => Some (list_sum (map mentionCount rows))
                     end)) in H3; [|apply sum_mentionCount_value].
  destruct H3 as [Etm S3]. rewrite RunRows in Etm.
  assert (Etotal : match tm with Some n => n | None => 0 end
                   = list_sum (map mentionCount created)).
  { subst tm. now destruct created. }
  rewrite Etotal in H. clear Etm Etotal.
  exists created. split; [apply created_rows_brands|].
  split; [apply created_rows_no_share|]. cbn zeta.
  set (total := list_sum (map mentionCount created)) in *.
  unfold run_snapshots.
  destruct (0 <? total).
  - apply bind_Ok in H. destruct H as (found & w4 & H4 & H).
    apply (@prisma_Ok_unchanged _ faults _
             (fun d => filter (of_run runId) (snapshots d)))
      in H4; [|reflexivity].
    destruct H4 as [Ef S4]. rewrite S3, RunRows in Ef. subst found.
    apply update_loop in H. rewrite H, S4, S3.
    rewrite filter_map_commute by apply share_updates_run.
    rewrite RunRows. apply map_ext_in. intros s Hs.
    apply share_updates_own; [|assumption|reflexivity].
    unfold created. rewrite created_rows_ids. apply seq_NoDup.
  - injection H as <-. now rewrite S3.
Qed.

Lemma somes_map_Some {A B} (f : A -> B) l :
  somes (map (fun x => Some (f x)) l) = map f l.
Proof. induction l as [|x l IH]; cbn; [reflexivity|now rewrite IH]. Qed.


(* ================================================================== *)
(** * Further properties of GeminiService *)
(* ================================================================== *)

Lemma escapeRegex_plain s : escapeRegex s = s <-> plain s = true.
Proof.
  unfold plain, escapeRegex. induction s as [|c s IH]; cbn [flat_map forallb].
  - tauto.
  - destruct (escapeRegex_class c) eqn:E; cbn [negb andb app].
    + split; [|discriminate]. intros H.
      apply (f_equal (@length ascii)) in H. cbn [length] in H.
      assert (L : length s <= length (flat_map
                    (fun c => if escapeRegex_class c then ["\"%char; c] else [c]) s)).
      { clear. induction s as [|x s IH]; cbn [flat_map length]; [lia|].
        rewrite length_app. destruct (escapeRegex_class x); cbn [length]; lia. }
      lia.
    + rewrite <- IH. split; [intros [= H]; exact H|intros ->; reflexivity].
Qed.

(** X1.  [escapeRegex] turns every string into a pattern that is valid and
    stands for exactly the characters of the string, each as a literal; it
    leaves a string unchanged exactly when the string has no character of
    its class. *)
Theorem X1_escapeRegex_literal s :
  parse (escapeRegex s) initial_pstate = Parsed (seq_of (map RChar s)) /\
  (escapeRegex s = s <-> plain s = true).
Proof.
  split; [|apply escapeRegex_plain].
  rewrite <- (app_nil_r (escapeRegex s)), parse_escapeRegex.
  cbn [parse]. rewrite push_literals_below. cbn [below initial_pstate].
  unfold close_frame. rewrite push_literals_top.
  cbn [alts cur top initial_pstate empty_frame fold_left].
  now rewrite app_nil_r, rev_involutive.
Qed.

Lemma first_whole_word_empty_text b : first_whole_word [] b = None.
Proof.
  unfold first_whole_word. cbn [length seq find].
  unfold whole_word_at. now destruct b.
Qed.

Lemma Forall2_map_l {A B C} (R : A -> B -> Prop) (f : B -> C) (g : A -> C) l l' :
  Forall2 R l l' -> (forall x y, R x y -> f y = g x) -> map f l' = map g l.
Proof.
  intros H HR. induction H as [|x y l l' Hxy H IH]; cbn; [reflexivity|].
  now rewrite IH, (HR x y Hxy).
Qed.

(** X2.  When [extractBrandMentions] returns, its records are keyed to the
    brand names one for one and in the order of the list; the record of a
    brand that is not mentioned is blank; the record of a mentioned brand
    has a count of at least 1 and carries a context, a sentiment and a
    score. *)
Theorem X2_records_follow_brands engine text brands ms :
  extractBrandMentions engine text brands = Ok ms ->
  map brand ms = brands /\
  (forall m, In m ms -> mentioned m = false -> m = unmentioned (brand m)) /\
  (forall m, In m ms -> mentioned m = true ->
             1 <= count m /\ context m <> None /\ sentiment m <> None /\
             sentimentScore m <> None).
Proof.
  intros H. apply extractBrandMentions_records in H. cbn zeta in H.
  split; [|split].
  - rewrite <- (map_id brands). eapply Forall2_map_l; [exact H|].
    intros b m R. cbn beta in R.
    destruct (first_whole_word text b); [destruct R as (rec & _ & ->)|subst m];
      reflexivity.
  - intros m Hm M. destruct (Forall2_In_r _ H Hm) as (b & _ & R).
    destruct (first_whole_word text b); [destruct R as (rec & _ & ->)|subst m].
    + discriminate.
    + reflexivity.
  - intros m Hm M. destruct (Forall2_In_r _ H Hm) as (b & _ & R).
    pose proof (String_matchAll_mention text b) as A.
    destruct (first_whole_word text b) as [i|];
      [destruct R as (rec & _ & ->)|subst m; discriminate].
    destruct A as [more A]. cbn [count context sentiment sentimentScore mentioned_at].
    rewrite A. cbn [length]. repeat split; try discriminate. lia.
Qed.

Lemma X2_witness :
  map brand duel_mentions = duel_brands /\
  (forall m, In m duel_mentions -> mentioned m = false ->
             m = unmentioned (brand m)) /\
  (forall m, In m duel_mentions -> mentioned m = true ->
             1 <= count m /\ context m <> None /\ sentiment m <> None /\
             sentimentScore m <> None).
Proof.
  apply (@X2_records_follow_brands strict_engine duel_text duel_brands duel_mentions).
  vm_compute. reflexivity.
Defined.

(** X3.  On an empty response text [extractBrandMentions] returns for every
    brand list, whatever the names contain, with every brand unmentioned;
    in particular an empty brand list gives an empty result on any text. *)
Theorem X3_empty_inputs engine :
  (forall brands,
      extractBrandMentions engine [] brands = Ok (map unmentioned brands)) /\
  (forall text, extractBrandMentions engine text [] = Ok []).
Proof.
  split; [|reflexivity].
  intros brands. unfold extractBrandMentions. rewrite brandPositions_eq.
  cbn [rbind]. apply mapM_pure. intros b _.
  now rewrite mention_of_eq, first_whole_word_empty_text.
Qed.

(** ** Names without pattern syntax *)

Lemma plain_lower_literal c :
  escapeRegex_class c = false -> classify (toLower_unit c) = KLiteral.
Proof. each_ascii c. Qed.

Lemma parse_dot_star rest st :
  parse ("."%char :: "*"%char :: rest) st =
  parse rest
    {| top := {| alts := alts (top st);
                 cur := RQuant 0 None true RAny :: cur (top st) |};
       below := below st; last := QQuantified |}.
Proof. reflexivity. Qed.

Lemma parse_literals_and_wildcards p : forall n st,
  length p <= n ->
  literals_and_wildcards p = true -> below st = [] ->
  exists r, parse p st = Parsed r.
Proof.
  intros n. revert p. induction n as [|n IH]; intros p st L H B.
  - destruct p; [|cbn in L; lia]. cbn [parse]. rewrite B. eauto.
  - destruct p as [|c rest]; [cbn [parse]; rewrite B; eauto|].
    cbn [literals_and_wildcards] in H. cbn [length] in L.
    destruct (classify c) eqn:K; try discriminate.
    + destruct rest as [|d rest']; [discriminate|].
      destruct (classify d) eqn:K'; try discriminate.
      assert (c = "."%char) as -> by (revert K; clear; each_ascii c).
      assert (d = "*"%char) as -> by (revert K'; clear; each_ascii d).
      rewrite parse_dot_star. apply (IH rest'); [cbn [length] in L; lia|assumption|].
      exact B.
    + cbn [parse]. rewrite K. apply (IH rest); [lia|assumption|exact B].
Qed.

Lemma literals_and_wildcards_app a : forall n b,
  length a <= n ->
  literals_and_wildcards a = true -> literals_and_wildcards b = true ->
  literals_and_wildcards (a ++ b) = true.
Proof.
  intros n. revert a. induction n as [|n IH]; intros a b L Ha Hb.
  - destruct a; [exact Hb|cbn in L; lia].
  - destruct a as [|c rest]; [exact Hb|].
    cbn [literals_and_wildcards app] in *. cbn [length] in L.
    destruct (classify c); try discriminate.
    + destruct rest as [|d rest']; [discriminate|]. cbn [app].
      destruct (classify d); try discriminate.
      apply IH; [cbn [length] in L; lia|assumption|assumption].
    + apply IH; [lia|assumption|assumption].
Qed.

Lemma literals_and_wildcards_concat a b :
  literals_and_wildcards a = true -> literals_and_wildcards b = true ->
  literals_and_wildcards (a ++ b) = true.
Proof. apply (@literals_and_wildcards_app a (length a)). lia. Qed.

Lemma plain_lower_pattern b :
  plain b = true -> literals_and_wildcards (toLowerCase b) = true.
Proof.
  unfold plain, toLowerCase. induction b as [|c b IH]; [reflexivity|].
  cbn [forallb map literals_and_wildcards]. rewrite andb_true_iff, negb_true_iff.
  intros [Hc Hb]. rewrite (plain_lower_literal c Hc). auto.
Qed.

Lemma recommendPatterns_parse b p :
  plain b = true -> In p (recommendPatterns (toLowerCase b)) ->
  exists r, parse p initial_pstate = Parsed r.
Proof.
  intros Hb Hp. apply plain_lower_pattern in Hb.
  apply (@parse_literals_and_wildcards p (length p)); [lia| |reflexivity].
  unfold recommendPatterns in Hp. cbn [In] in Hp.
  repeat (destruct Hp as [<-|Hp];
          [apply literals_and_wildcards_concat;
           solve [assumption|vm_compute; reflexivity]|]).
  contradiction.
Qed.

Lemma someM_total {A} (p : A -> result bool) l :
  (forall x, In x l -> exists b, p x = Ok b) -> exists b, someM p l = Ok b.
Proof.
  induction l as [|x l IH]; intros H; cbn [someM]; [eauto|].
  destruct (H x (or_introl eq_refl)) as [b ->]. cbn [rbind].
  destruct b; [eauto|]. apply IH. intros; apply H; now right.
Qed.

Lemma mapM_total {A B} (f : A -> result B) l :
  (forall x, In x l -> exists y, f x = Ok y) -> exists ys, mapM f l = Ok ys.
Proof.
  induction l as [|x l IH]; intros H; cbn [mapM]; [eauto|].
  destruct (H x (or_introl eq_refl)) as [y ->]. cbn [rbind].
  destruct IH as [ys ->]; [intros; apply H; now right|]. cbn [rbind]. eauto.
Qed.

Lemma checkIfRecommended_plain engine text b :
  plain b = true -> exists rec, checkIfRecommended engine text b = Ok rec.
Proof.
  intros Hb. unfold checkIfRecommended. apply someM_total.
  intros p Hp. destruct (@recommendPatterns_parse b p Hb Hp) as [r Hr].
  unfold RegExp_new. rewrite Hr. cbn [rbind]. eauto.
Qed.

(** X4.  When no brand name contains a character that is special in a
    pattern, [extractBrandMentions] returns, for every text and whatever
    the engine does outside the fragment: neither the mention patterns nor
    the recommendation patterns can be invalid. *)
Theorem X4_plain_names_never_throw engine text brands :
  (forall b, In b brands -> plain b = true) ->
  exists ms, extractBrandMentions engine text brands = Ok ms.
Proof.
  intros H. unfold extractBrandMentions. rewrite brandPositions_eq.
  cbn [rbind]. apply mapM_total. intros b Hb. rewrite mention_of_eq.
  destruct (first_whole_word text b); [|eauto].
  destruct (@checkIfRecommended_plain engine text b (H b Hb)) as [rec ->].
  cbn [rbind]. eauto.
Qed.

Lemma X4_witness :
  exists ms, extractBrandMentions strict_engine duel_text duel_brands = Ok ms.
Proof.
  apply (@X4_plain_names_never_throw strict_engine duel_text duel_brands).
  intros b [<-|[<-|[]]]; reflexivity.
Defined.

(** ** The range of the sentiment score *)

Lemma ratio_in_unit z m :
  (0 < m)%Z -> (- m <= z <= m)%Z ->
  (-1 <= inject_Z z / inject_Z m)%Q /\ (inject_Z z / inject_Z m <= 1)%Q.
Proof.
  intros Hm Hz.
  assert (Pm : (0 < inject_Z m)%Q) by (change 0%Q with (inject_Z 0); now rewrite <- Zlt_Qlt).
  split.
  - apply Qle_shift_div_l; [exact Pm|].
    change (-1)%Q with (inject_Z (-1)). rewrite <- inject_Z_mult, <- Zle_Qle. lia.
  - apply Qle_shift_div_r; [exact Pm|].
    change 1%Q with (inject_Z 1). rewrite <- inject_Z_mult, <- Zle_Qle. lia.
Qed.

(** X5.  The sentiment score always lies in [-1, 1], and the clamp of
    [analyzeSentiment] never changes anything: the score is the quotient
    (matchedPositive - matchedNegative) / max(matchedPositive,
    matchedNegative, 1) itself, also when nothing matched. *)
Theorem X5_score_range ctx brand :
  let matchedPositive := count_found positivePatterns ctx in
  let matchedNegative := count_found negativePatterns ctx in
  let score := sr_score (analyzeSentiment ctx brand) in
  (-1 <= score)%Q /\ (score <= 1)%Q /\
  (score ==
   inject_Z (Z.of_nat matchedPositive - Z.of_nat matchedNegative) /
   Q_of_nat (Nat.max (Nat.max matchedPositive matchedNegative) 1))%Q.
Proof.
  cbn zeta. rewrite score_eq.
  set (mp := count_found positivePatterns ctx).
  set (mn := count_found negativePatterns ctx).
  unfold Q_of_nat.
  destruct (ratio_in_unit (z := Z.of_nat mp - Z.of_nat mn)
              (m := Z.of_nat (Nat.max (Nat.max mp mn) 1))) as [Lo Hi]; [lia|lia|].
  destruct (Nat.eqb_spec (mp + mn) 0) as [Z|NZ].
  - assert (mp = 0) as -> by lia. assert (mn = 0) as -> by lia.
    split; [discriminate|]. split; [discriminate|]. reflexivity.
  - unfold clamp.
    assert (E : (Qmax (-1) (Qmin 1 (inject_Z (Z.of_nat mp - Z.of_nat mn) /
                                    inject_Z (Z.of_nat (Nat.max (Nat.max mp mn) 1))))
                 == inject_Z (Z.of_nat mp - Z.of_nat mn) /
                    inject_Z (Z.of_nat (Nat.max (Nat.max mp mn) 1)))%Q).
    { rewrite (Q.min_r _ _ Hi). apply Q.max_r. exact Lo. }
    rewrite E. split; [exact Lo|]. split; [exact Hi|]. reflexivity.
Qed.

(** ** Recommendation phrases *)

Lemma parse_all_literal p : forall rest st,
  all_literal p = true ->
  parse (p ++ rest) st = parse rest (push_literals p st).
Proof.
  unfold all_literal. induction p as [|c p IH]; intros rest st H; [reflexivity|].
  cbn [forallb] in H. apply andb_true_iff in H. destruct H as [Hc Hp].
  cbn [app parse]. destruct (classify c); try discriminate. now apply IH.
Qed.

Lemma RegExp_new_all_literal engine p :
  all_literal p = true ->
  RegExp_new engine p true = Ok (fun t => ends true t (seq_of (map RChar p))).
Proof.
  intros H. unfold RegExp_new.
  rewrite <- (app_nil_r p) at 1. rewrite (parse_all_literal _ _ _ H).
  cbn [parse]. rewrite push_literals_below. cbn [below initial_pstate].
  unfold close_frame. rewrite push_literals_top.
  cbn [alts cur top initial_pstate empty_frame fold_left].
  now rewrite app_nil_r, rev_involutive.
Qed.

Lemma ci_prefix_refl p : forall post, ci_prefix p (p ++ post) = true.
Proof.
  induction p as [|c p IH]; intros post; [reflexivity|].
  cbn [app ci_prefix]. now rewrite Ascii.eqb_refl, IH.
Qed.

Lemma find_exists {A} (f : A -> bool) l x :
  In x l -> f x = true -> find f l <> None.
Proof.
  intros Hx Fx E. now rewrite (find_none _ _ E x Hx) in Fx.
Qed.

Lemma RegExp_test_literal text p :
  includes text p = true ->
  RegExp_test (fun t => ends true t (seq_of (map RChar p))) text = true.
Proof.
  intros H. apply includes_substring in H. destruct H as (pre & post & ->).
  unfold RegExp_test, RegExp_exec. rewrite exec_from_find, Nat.sub_0_r.
  destruct (find _ _) eqn:F; [reflexivity|exfalso].
  apply (find_exists _ (seq 0 (S (length (pre ++ p ++ post)))) (length pre)) in F;
    [assumption| |].
  - apply in_seq. rewrite length_app. lia.
  - rewrite <- (app_nil_r (map RChar p)), ends_literals.
    rewrite skipn_app, Nat.sub_diag, skipn_all. cbn [skipn app].
    now rewrite ci_prefix_refl.
Qed.

Lemma someM_true {A} (f : A -> result bool) l x :
  (forall y, In y l -> exists b, f y = Ok b) ->
  In x l -> f x = Ok true -> someM f l = Ok true.
Proof.
  induction l as [|y l IH]; intros T Hx Fx; [contradiction|].
  cbn [someM]. destruct (T y (or_introl eq_refl)) as [b Fy]. rewrite Fy.
  cbn [rbind]. destruct b; [reflexivity|].
  destruct Hx as [->|Hx]; [congruence|].
  apply IH; [intros; apply T; now right|assumption|assumption].
Qed.

Lemma plain_lower_all_literal b :
  plain b = true -> all_literal (toLowerCase b) = true.
Proof.
  unfold plain, all_literal, toLowerCase. induction b as [|c b IH]; [reflexivity|].
  cbn [forallb map]. rewrite !andb_true_iff, negb_true_iff.
  intros [Hc Hb]. rewrite (plain_lower_literal c Hc). auto.
Qed.

Lemma phrase_patterns_literal b p :
  plain b = true -> In p (phrase_patterns (toLowerCase b)) ->
  all_literal p = true.
Proof.
  intros Hb Hp. apply plain_lower_all_literal in Hb.
  unfold phrase_patterns, recommendPatterns in Hp. cbn [firstn In] in Hp.
  unfold all_literal in *.
  repeat (destruct Hp as [<-|Hp];
          [rewrite forallb_app, Hb; vm_compute; reflexivity|]).
  contradiction.
Qed.

(** X6.  For a brand name without pattern syntax, a response that contains
    one of the seven recommendation phrases built from the name ("recommend
    X", "X is recommended", "suggest X", "X is a great choice", "X is ideal",
    "X is perfect", "X is the best"), in any mix of upper and lower case,
    makes [checkIfRecommended] answer true. *)
Theorem X6_recommendation_phrase engine text b :
  plain b = true ->
  existsb (includes (toLowerCase text)) (phrase_patterns (toLowerCase b)) = true ->
  checkIfRecommended engine text b = Ok true.
Proof.
  intros Hb H. apply existsb_exists in H. destruct H as (p & Hp & Inc).
  unfold checkIfRecommended.
  apply (@someM_true _ _ (recommendPatterns (toLowerCase b)) p).
  - intros q Hq. destruct (@recommendPatterns_parse b q Hb Hq) as [r Hr].
    unfold RegExp_new. rewrite Hr. cbn [rbind]. eauto.
  - unfold phrase_patterns in Hp. rewrite <- (firstn_skipn 7). apply in_or_app. now left.
  - rewrite (@RegExp_new_all_literal engine p (@phrase_patterns_literal b p Hb Hp)).
    cbn [rbind]. now rewrite RegExp_test_literal.
Qed.

Lemma X6_witness :
  checkIfRecommended strict_engine (str "Experts RECOMMEND Acme for teams")
    (str "Acme") = Ok true.
Proof.
  apply (@X6_recommendation_phrase strict_engine
           (str "Experts RECOMMEND Acme for teams") (str "Acme"));
    vm_compute; reflexivity.
Defined.

(* ================================================================== *)
(** * Further properties of AnalysisRunner *)
(* ================================================================== *)

(** X8.  When the project does not exist (and the database answers the
    lookup), [runAnalysis] throws "Project not found" and has changed no
    table and sent no event. *)
Theorem X8_project_not_found
    engine URL_hostname provider faults projectId runId onProgress w :
  faults (calls w) = None ->
  (forall p, In p (projects (store w)) -> project_id p <> projectId) ->
  exists w',
    runAnalysis engine URL_hostname provider faults projectId runId onProgress w
    = (Throw (PlainError (str "Project not found")), w') /\
    store w' = store w /\ emitted w' = emitted w /\ results w' = results w.
Proof.
  intros NF Missing. unfold runAnalysis, bind, prisma. rewrite NF.
  unfold project_findUnique.
  rewrite find_false_on.
  - cbn. eexists. split; [reflexivity|]. auto.
  - intros p Hp. apply Nat.eqb_neq. now apply Missing.
Qed.

Lemma X8_witness :
  exists w',
    runAnalysis strict_engine no_hostname (answering "Acme is great") no_faults
      2 30 true (sample_world [first_prompt])
    = (Throw (PlainError (str "Project not found")), w') /\
    store w' = store (sample_world [first_prompt]) /\
    emitted w' = emitted (sample_world [first_prompt]) /\
    results w' = results (sample_world [first_prompt]).
Proof.
  apply (@X8_project_not_found strict_engine no_hostname
           (answering "Acme is great") no_faults 2 30 true
           (sample_world [first_prompt])).
  - reflexivity.
  - intros p [<-|[]]. discriminate.
Defined.

(* ================================================================== *)
(** * A run that the database never fails *)
(* ================================================================== *)

Lemma triple_prisma_ok {A} (q : query A) (P : world -> Prop)
    (Q : A -> world -> Prop) (E : world -> Prop) :
  (forall w, P w ->
     exists a d', q (store w) = (Ok a, d') /\
                  Q a {| store := d'; calls := S (calls w);
                         emitted := emitted w; results := results w |}) ->
  triple P (prisma no_faults q) Q E.
Proof.
  intros H w r w' Pw. unfold prisma, no_faults.
  destruct (H w Pw) as (a & d' & Eq & HQ). rewrite Eq.
  intros [= <- <-]. exact HQ.
Qed.

Lemma triple_emit_to (P : world -> Prop) ev (Q : unit -> world -> Prop) E :
  (forall w, P w -> Q tt {| store := store w; calls := calls w;
                            emitted := emitted w ++ [ev];
                            results := results w |}) ->
  triple P (emit ev) Q E.
Proof. intros H w r w' Pw [= <- <-]. auto. Qed.

Lemma triple_push_to (P : world -> Prop) x (Q : unit -> world -> Prop) E :
  (forall w, P w -> Q tt {| store := store w; calls := calls w;
                            emitted := emitted w;
                            results := results w ++ [x] |}) ->
  triple P (push_result x) Q E.
Proof. intros H w r w' Pw [= <- <-]. auto. Qed.

Lemma change_run_ids runId f R :
  (forall r, run_id (f r) = run_id r) ->
  map run_id (change_run runId f R) = map run_id R.
Proof.
  intros Hf. unfold change_run. rewrite map_map. apply map_ext.
  intros r. destruct (run_id r =? runId); auto.
Qed.

Lemma existsb_map {A B} (g : A -> B) (f : B -> bool) l :
  existsb f (map g l) = existsb (fun x => f (g x)) l.
Proof. induction l as [|x l IH]; cbn; [reflexivity|now rewrite IH]. Qed.

Lemma run_exists_ids runId R :
  existsb (fun r => run_id r =? runId) R
  = existsb (fun i => i =? runId) (map run_id R).
Proof. now rewrite existsb_map. Qed.

Lemma change_run_exists runId f R :
  (forall r, run_id (f r) = run_id r) ->
  existsb (fun r => run_id r =? runId) (change_run runId f R)
  = existsb (fun r => run_id r =? runId) R.
Proof.
  intros Hf. now rewrite !run_exists_ids, change_run_ids.
Qed.

Lemma change_run_twice runId f g R :
  (forall r, run_id (g r) = run_id r) ->
  change_run runId f (change_run runId g R)
  = change_run runId (fun r => f (g r)) R.
Proof.
  intros Hg. unfold change_run. rewrite map_map. apply map_ext.
  intros r. destruct (run_id r =? runId) eqn:E; [|now rewrite E].
  now rewrite Hg, E.
Qed.

Lemma triple_update_run runId f R Ev Rs pids E :
  existsb (fun r => run_id r =? runId) R = true ->
  triple (observed R Ev Rs pids)
         (prisma no_faults (analysisRun_update runId f))
         (fun _ => observed (change_run runId f R) Ev Rs pids) E.
Proof.
  intros Ex. apply triple_prisma_ok. intros w (H1 & H2 & H3 & H4).
  unfold analysisRun_update. rewrite H1, Ex.
  eexists _, _. split; [reflexivity|].
  unfold observed. cbn. auto.
Qed.

Lemma own_property_filled b bps : forall acc,
  b <> proto_key ->
  In b (map bp_brand bps) \/ own_property (fst acc) b <> None ->
  own_property (fst (fold_left fill_positionMap bps acc)) b <> None.
Proof.
  induction bps as [|item bps IH]; intros acc NP H.
  - destruct H as [[]|H]. exact H.
  - cbn [fold_left]. apply IH; [exact NP|].
    cbn [map In] in H. destruct H as [[Hb|Hb]|Hb]; [right|now left|right];
      unfold fill_positionMap, obj_set; cbn [fst].
    + subst b. apply jsstring_eqb_neq in NP. rewrite NP.
      cbn [own_property]. rewrite jsstring_eqb_refl. discriminate.
    + destruct (jsstring_eqb (bp_brand item) proto_key); [exact Hb|].
      cbn [own_property]. now destruct (jsstring_eqb b (bp_brand item)).
Qed.

(** A found brand other than [__proto__] reads a number from the map. *)
Lemma found_position_is_no_object text brands b :
  b <> proto_key -> In b brands -> is_found text b = true ->
  position_or_null
    (obj_get (positionMap_of
                (Array_sort by_firstIndex (matched_brands text brands))) b)
  <> PosObject.
Proof.
  intros NP Hb Fb. unfold obj_get.
  pose proof NP as NP'. apply jsstring_eqb_neq in NP'. rewrite NP'.
  unfold positionMap_of.
  destruct (own_property
              (fst (fold_left fill_positionMap
                      (Array_sort by_firstIndex (matched_brands text brands))
                      ([], 0))) b) as [v|] eqn:Own.
  - destruct v; cbn; discriminate.
  - exfalso. revert Own. apply own_property_filled; [exact NP|]. left.
    rewrite sorted_positions_eq, map_bp_brand_located.
    apply ranking_In. auto.
Qed.

Lemma reported_ids engine URL_hostname provider names ps : forall i,
  map rr_promptId (reported engine URL_hostname provider names i ps)
  = map prompt_id ps.
Proof.
  induction ps as [|p ps IH]; intros i; [reflexivity|].
  cbn [reported map rr_promptId]. now rewrite IH.
Qed.

Lemma nth_error_reported engine URL_hostname provider names ps : forall i k p,
  nth_error ps k = Some p ->
  nth_error (reported engine URL_hostname provider names i ps) k
  = Some {| rr_promptId := prompt_id p;
            rr_success :=
              success (analyzePrompt engine URL_hostname (provider (i + k))
                         (prompt_text p) names);
            rr_error :=
              error (analyzePrompt engine URL_hostname (provider (i + k))
                       (prompt_text p) names) |}.
Proof.
  induction ps as [|q ps IH]; intros i k p; [now destruct k|].
  destruct k as [|k]; cbn [nth_error reported].
  - intros [= ->]. now rewrite Nat.add_0_r.
  - intros H. rewrite (IH (S i) k p H).
    now replace (S i + k) with (i + S k) by lia.
Qed.

Lemma analyzePrompt_failed engine URL_hostname call promptText brands e :
  outcome call = Failed e ->
  success (analyzePrompt engine URL_hostname call promptText brands) = false /\
  error (analyzePrompt engine URL_hostname call promptText brands)
  = Some (message e).
Proof.
  intros H. rewrite (@analyzePrompt_caught engine URL_hostname call promptText
                       brands e); [auto|].
  unfold analyzePrompt_try. now rewrite H.
Qed.

Section FaultFree.

Variable engine : jsstring -> bool -> option matcher.
Variable URL_hostname : jsstring -> option jsstring.
Variable provider : nat -> provider_call.

Lemma analyzePrompt_positions call promptText brands m :
  ~ In proto_key brands ->
  In m (mentions (analyzePrompt engine URL_hostname call promptText brands)) ->
  position m <> PosObject.
Proof.
  intros NP. unfold analyzePrompt.
  destruct (analyzePrompt_try engine URL_hostname call promptText brands)
    as [r|e] eqn:E.
  - unfold analyzePrompt_try in E. destruct (outcome call); [|discriminate].
    destruct (extractBrandMentions engine text brands) as [ms|] eqn:M;
      cbn [rbind] in E; [|discriminate].
    injection E as <-. cbn [mentions]. intros Hm.
    apply extractBrandMentions_records in M. cbn zeta in M.
    destruct (@Forall2_In_r _ _ _ _ _ _ M Hm) as (b & Hb & R). cbn beta in R.
    destruct (first_whole_word text b) as [i|] eqn:F.
    + destruct R as (rec & _ & ->). cbn [position mentioned_at].
      apply found_position_is_no_object; [congruence|exact Hb|].
      unfold is_found. now rewrite F.
    + subst m. discriminate.
  - cbn [mentions]. intros Hm. apply in_map_iff in Hm.
    destruct Hm as (b & <- & _). discriminate.
Qed.

Lemma process_prompt_ok project runId total onProgress i p R Ev Rs pids :
  existsb (fun r => run_id r =? runId) R = true ->
  ~ In proto_key (map brand_name (project_brands project)) ->
  triple (observed R Ev Rs pids)
    (process_prompt engine URL_hostname provider no_faults project runId total
       onProgress i p)
    (fun _ => observed (change_run runId (set_processed (i + 1)) R)
                (Ev ++ if onProgress
                       then [Progress (i + 1) total (prompt_text p)] else [])
                (Rs ++ reported engine URL_hostname provider
                         (map brand_name (project_brands project)) i [p])
                (pids ++ [prompt_id p]))
    (fun _ => False).
Proof.
  intros Ex NP. unfold process_prompt. cbn [reported]. cbn zeta.
  pose proof (fun m => @analyzePrompt_positions (provider i) (prompt_text p)
                         _ m NP) as Pos.
  set (result := analyzePrompt engine URL_hostname (provider i) (prompt_text p)
                   (map brand_name (project_brands project))) in *.
  clearbody result.
  set (I := observed R Ev Rs (pids ++ [prompt_id p])).
  eapply triple_bind with (R := fun _ => I).
  { apply triple_prisma_ok. intros w (H1 & H2 & H3 & H4).
    eexists _, _. split; [reflexivity|].
    unfold I, observed. cbn. rewrite map_app, H4. auto. }
  intros row. eapply triple_bind with (R := fun _ => I).
  { apply triple_when. apply triple_forM. intros m Hm.
    unfold save_mention. destruct (find _ _) as [b|]; [|apply triple_ret; auto].
    apply triple_prisma_ok. intros w (H1 & H2 & H3 & H4).
    unfold brandMention_create. specialize (Pos m Hm).
    destruct (position m); [| |contradiction];
      (eexists _, _; split; [reflexivity|]); unfold I, observed; cbn; auto. }
  intros u1. eapply triple_bind with (R := fun _ => I).
  { apply triple_when. apply triple_forM. intros c Hc.
    apply triple_prisma_ok. intros w (H1 & H2 & H3 & H4).
    eexists _, _. split; [reflexivity|]. unfold I, observed. cbn. auto. }
  intros u2.
  eapply triple_bind
    with (R := fun _ =>
                 observed R Ev
                   (Rs ++ [{| rr_promptId := prompt_id p;
                              rr_success := success result;
                              rr_error := error result |}])
                   (pids ++ [prompt_id p])).
  { apply triple_push_to. intros w (H1 & H2 & H3 & H4).
    unfold observed. cbn. rewrite H3. auto. }
  intros u3. eapply triple_bind; [apply triple_update_run; exact Ex|].
  intros u4. destruct onProgress; cbn [when].
  - apply triple_emit_to. intros w (H1 & H2 & H3 & H4).
    unfold observed. cbn. rewrite H2. auto.
  - apply triple_ret. intros w (H1 & H2 & H3 & H4).
    unfold observed. rewrite app_nil_r. auto.
Qed.

Lemma for_prompts_ok project runId total onProgress ps :
  forall i R Ev Rs pids,
  existsb (fun r => run_id r =? runId) R = true ->
  ~ In proto_key (map brand_name (project_brands project)) ->
  triple (observed R Ev Rs pids)
    (for_prompts engine URL_hostname provider no_faults project runId total
       onProgress i ps)
    (fun _ => observed
                (match ps with
                 | [] => R
                 | _ => change_run runId (set_processed (i + length ps)) R
                 end)
                (Ev ++ if onProgress then progress_events total i ps else [])
                (Rs ++ reported engine URL_hostname provider
                         (map brand_name (project_brands project)) i ps)
                (pids ++ map prompt_id ps))
    (fun _ => False).
Proof.
  induction ps as [|p ps IH]; intros i R Ev Rs pids Ex NP.
  - apply triple_ret. intros w H. cbn [map progress_events reported].
    rewrite !app_nil_r. now destruct onProgress; rewrite ?app_nil_r.
  - cbn [for_prompts]. eapply triple_bind.
    { eapply triple_try_catch; [apply process_prompt_ok; assumption|].
      intros e w r w' []. }
    intros u. eapply triple_weaken;
      [apply (IH (S i) (change_run runId (set_processed (i + 1)) R)
                (Ev ++ if onProgress
                       then [Progress (i + 1) total (prompt_text p)] else [])
                (Rs ++ reported engine URL_hostname provider
                         (map brand_name (project_brands project)) i [p])
                (pids ++ [prompt_id p]));
       [|exact NP]| | |].
    + rewrite change_run_exists; [exact Ex|reflexivity].
    + auto.
    + intros a w H. cbn beta in H.
      replace (change_run runId (set_processed (i + length (p :: ps))) R)
        with (match ps with
              | [] => change_run runId (set_processed (i + 1)) R
              | _ :: _ =>
                  change_run runId (set_processed (S i + length ps))
                    (change_run runId (set_processed (i + 1)) R)
              end).
      * cbn [map progress_events reported]. cbn [reported] in H.
        replace (Ev ++ (if onProgress
                        then Progress (i + 1) total (prompt_text p)
                             :: progress_events total (S i) ps
                        else []))
          with ((Ev ++ (if onProgress
                        then [Progress (i + 1) total (prompt_text p)] else []))
                ++ (if onProgress then progress_events total (S i) ps else []))
          by (destruct onProgress; now rewrite <- app_assoc).
        rewrite <- !app_assoc in H. cbn [app] in H.
        rewrite <- app_assoc. exact H.
      * destruct ps as [|p' ps'].
        -- reflexivity.
        -- rewrite change_run_twice by reflexivity.
           cbn [length]. replace (i + S (S (length ps')))
             with (S i + S (length ps')) by lia.
           reflexivity.
    + auto.
Qed.

Lemma snapshot_exists_ids id ss :
  In id (map ms_id ss) -> existsb (fun s => ms_id s =? id) ss = true.
Proof.
  intros H. apply in_map_iff in H. destruct H as (s & <- & Hs).
  apply existsb_exists. exists s. split; [exact Hs|apply Nat.eqb_refl].
Qed.

Lemma calculateMetrics_ok runId project R Ev Rs pids :
  triple (observed R Ev Rs pids)
         (calculateMetrics no_faults runId project)
         (fun _ => observed R Ev Rs pids) (fun _ => False).
Proof.
  set (I := observed R Ev Rs pids). unfold calculateMetrics.
  eapply triple_bind with (R := fun _ => I).
  { apply triple_prisma_ok. intros w H. eexists _, _.
    split; [reflexivity|]. exact H. }
  intros prs. cbn zeta. eapply triple_bind with (R := fun _ => I).
  { apply triple_forM. intros b Hb. apply triple_prisma_ok.
    intros w (H1 & H2 & H3 & H4). unfold metricsSnapshot_upsert.
    destruct (existsb _ _); (eexists _, _; split; [reflexivity|]);
      unfold I, observed; cbn; auto. }
  intros u. eapply triple_bind with (R := fun _ => I).
  { apply triple_prisma_ok. intros w H.
    rewrite sum_mentionCount_value. eexists _, _.
    split; [reflexivity|]. exact H. }
  intros tm. destruct (0 <? _); [|apply triple_ret; auto].
  eapply triple_bind
    with (R := fun found w =>
                 I w /\ forall s, In s found ->
                                  In (ms_id s) (map ms_id (snapshots (store w)))).
  { apply triple_prisma_ok. intros w H. eexists _, _.
    split; [reflexivity|]. split; [exact H|].
    intros s Hs. cbn [store]. apply filter_In in Hs. now apply in_map. }
  intros found.
  set (J := fun w : world =>
              I w /\ forall s, In s found ->
                               In (ms_id s) (map ms_id (snapshots (store w)))).
  apply triple_weaken
    with (P' := J) (Q' := fun _ : unit => J) (E' := fun _ : world => False);
    [apply triple_forM| | |].
  - intros s Hs. apply triple_prisma_ok. intros w [HI Ids].
    destruct HI as (H1 & H2 & H3 & H4).
    unfold metricsSnapshot_update_share.
    rewrite (snapshot_exists_ids _ _ (Ids s Hs)).
    eexists _, _. split; [reflexivity|]. split.
    + unfold I, observed. cbn. auto.
    + intros s' Hs'. cbn [store snapshots with_snapshots].
      rewrite map_map.
      replace (map (fun x => ms_id (if ms_id x =? ms_id s
                                    then set_shareOfVoice
                                           (share_of (mentionCount s)
                                              match tm with
                                              | Some n => n
                                              | None => 0
                                              end) x
                                    else x)) (snapshots (store w)))
        with (map ms_id (snapshots (store w))); [now apply Ids|].
      apply map_ext. intros x. now destruct (ms_id x =? ms_id s).
  - auto.
  - intros a w [H _]. exact H.
  - auto.
Qed.

(** A run on which the database fails no call: it returns, and what it
    leaves behind. *)
Lemma runAnalysis_fault_free projectId runId onProgress project w :
  fst (project_findUnique projectId (store w)) = Ok (Some project) ->
  existsb (fun r => run_id r =? runId) (runs (store w)) = true ->
  ~ In proto_key (map brand_name (project_brands project)) ->
  let ps := project_prompts project in
  exists rs w',
    runAnalysis engine URL_hostname provider no_faults projectId runId
      onProgress w = (Ok rs, w') /\
    rs = results w' /\
    observed
      (change_run runId (finished (length ps)) (runs (store w)))
      (emitted w ++ if onProgress
                    then progress_events (length ps) 0 ps ++ [Complete runId]
                    else [])
      (results w ++ reported engine URL_hostname provider
                    (map brand_name (project_brands project)) 0 ps)
      (map pr_promptId (promptResults (store w)) ++ map prompt_id ps) w'.
Proof.
  intros Found Ex NP ps.
  set (post := fun rs w' =>
    rs = results w' /\
    observed
      (change_run runId (finished (length ps)) (runs (store w)))
      (emitted w ++ if onProgress
                    then progress_events (length ps) 0 ps ++ [Complete runId]
                    else [])
      (results w ++ reported engine URL_hostname provider
                    (map brand_name (project_brands project)) 0 ps)
      (map pr_promptId (promptResults (store w)) ++ map prompt_id ps) w').
  assert (T : triple (fun w0 => w0 = w)
                (runAnalysis engine URL_hostname provider no_faults projectId
                   runId onProgress)
                post (fun _ => False)).
  { unfold runAnalysis.
    eapply triple_bind
      with (R := fun found w1 =>
                   found = Some project /\
                   observed (runs (store w)) (emitted w)
                     (results w)
                     (map pr_promptId (promptResults (store w))) w1).
    { apply triple_prisma_ok. intros w0 ->.
      unfold project_findUnique in *. cbn [fst] in Found.
      eexists _, _. split; [reflexivity|]. split; [congruence|].
      unfold observed. cbn. auto. }
    intros found. 
    eapply triple_weaken
      with (P' := fun w1 => found = Some project /\
                   observed (runs (store w)) (emitted w)
                     (results w)
                     (map pr_promptId (promptResults (store w))) w1)
           (Q' := post) (E' := fun _ => False); auto.
    intros w1 r w1' [-> Obs]. revert w1 r w1' Obs.
    change (triple
              (observed (runs (store w)) (emitted w)
                 (results w)
                 (map pr_promptId (promptResults (store w))))
              (let prompts := project_prompts project in
               bind (prisma no_faults
                       (analysisRun_update runId
                          (start_processing (length prompts))))
                    (fun _ =>
                     bind (for_prompts engine URL_hostname provider no_faults
                             project runId (length prompts) onProgress 0 prompts)
                          (fun _ =>
                           bind (calculateMetrics no_faults runId project)
                                (fun _ =>
                                 bind (prisma no_faults
                                         (analysisRun_update runId set_completed))
                                      (fun _ =>
                                       bind (when onProgress
                                               (emit (Complete runId)))
                                            (fun _ => get_results))))))
              post (fun _ => False)).
    cbn zeta. fold ps.
    eapply triple_bind; [apply triple_update_run; exact Ex|].
    intros u1. eapply triple_bind.
    { apply for_prompts_ok; [|exact NP].
      rewrite change_run_exists; [exact Ex|reflexivity]. }
    intros u2. eapply triple_bind; [apply calculateMetrics_ok|].
    intros u3. eapply triple_bind.
    { apply triple_update_run.
      destruct ps; rewrite ?change_run_exists; try exact Ex; reflexivity. }
    intros u4.
    assert (Row : change_run runId set_completed
                    match ps with
                    | [] => change_run runId (start_processing (length ps))
                              (runs (store w))
                    | _ :: _ =>
                        change_run runId (set_processed (0 + length ps))
                          (change_run runId (start_processing (length ps))
                             (runs (store w)))
                    end
                  = change_run runId (finished (length ps)) (runs (store w))).
    { destruct ps as [|p ps']; rewrite !change_run_twice by reflexivity;
        reflexivity. }
    rewrite Row. 
    eapply triple_bind
      with (R := fun _ =>
             observed
               (change_run runId (finished (length ps)) (runs (store w)))
               (emitted w ++ if onProgress
                             then progress_events (length ps) 0 ps
                                  ++ [Complete runId]
                             else [])
               (results w ++ reported engine URL_hostname provider
                    (map brand_name (project_brands project)) 0 ps)
               (map pr_promptId (promptResults (store w)) ++ map prompt_id ps)).
    { destruct onProgress; cbn [when].
      - apply triple_emit_to. intros w0 (H1 & H2 & H3 & H4).
        unfold observed. cbn. rewrite H2, <- app_assoc. auto.
      - apply triple_ret. intros w0 H. rewrite app_nil_r in H.
        rewrite app_nil_r. exact H. }
    intros u5 w0 r w0' H [= <- <-]. split; [reflexivity|exact H]. }
  destruct (runAnalysis engine URL_hostname provider no_faults projectId runId
              onProgress w) as [[rs|e] w'] eqn:Run.
  - exists rs, w'. split; [reflexivity|]. exact (T w (Ok rs) w' eq_refl Run).
  - destruct (T w (Throw e) w' eq_refl Run).
Qed.

End FaultFree.

(** X9.  When the database fails no call, the project and the run exist and
    no brand is named [__proto__], [runAnalysis] returns; the run is then
    [completed] with [totalPrompts] the number of active prompts and, when
    there is a prompt, [processedPrompts] the same number; no other run is
    changed; and an observer has received one progress event per prompt,
    counting from 1 in the order of the prompts, followed by the completion
    event (nothing when no callback was given). *)
Theorem X9_fault_free_run_completes
    engine URL_hostname provider projectId runId onProgress project w :
  fst (project_findUnique projectId (store w)) = Ok (Some project) ->
  existsb (fun r => run_id r =? runId) (runs (store w)) = true ->
  ~ In proto_key (map brand_name (project_brands project)) ->
  let ps := project_prompts project in
  exists rs w',
    runAnalysis engine URL_hostname provider no_faults projectId runId
      onProgress w = (Ok rs, w') /\
    runs (store w') = change_run runId (finished (length ps)) (runs (store w)) /\
    emitted w' =
    emitted w ++ (if onProgress
                  then progress_events (length ps) 0 ps ++ [Complete runId]
                  else []).
Proof.
  intros Found Ex NP ps.
  destruct (@runAnalysis_fault_free engine URL_hostname provider projectId
              runId onProgress project w Found Ex NP)
    as (rs & w' & Run & _ & H1 & H2 & _).
  exists rs, w'. auto.
Qed.

Lemma X9_witness :
  let ps := project_prompts two_prompt_project in
  exists rs w',
    runAnalysis strict_engine no_hostname (answering "Acme is great") no_faults
      1 30 true (sample_world [first_prompt; second_prompt]) = (Ok rs, w') /\
    runs (store w') =
    change_run 30 (finished (length ps))
      (runs (store (sample_world [first_prompt; second_prompt]))) /\
    emitted w' =
    emitted (sample_world [first_prompt; second_prompt])
    ++ (progress_events (length ps) 0 ps ++ [Complete 30]).
Proof.
  apply (@X9_fault_free_run_completes strict_engine no_hostname
           (answering "Acme is great") 1 30 true two_prompt_project
           (sample_world [first_prompt; second_prompt])).
  - reflexivity.
  - reflexivity.
  - cbn. intuition discriminate.
Defined.

(** X10.  Under the same conditions the run adds exactly one row to the
    prompt results for every active prompt, in the order of the prompts,
    and returns the array [results] with exactly one entry per prompt in
    the same order. *)
Theorem X10_one_result_per_prompt
    engine URL_hostname provider projectId runId onProgress project w :
  fst (project_findUnique projectId (store w)) = Ok (Some project) ->
  existsb (fun r => run_id r =? runId) (runs (store w)) = true ->
  ~ In proto_key (map brand_name (project_brands project)) ->
  let ps := project_prompts project in
  exists rs w',
    runAnalysis engine URL_hostname provider no_faults projectId runId
      onProgress w = (Ok rs, w') /\
    map rr_promptId rs = map rr_promptId (results w) ++ map prompt_id ps /\
    map pr_promptId (promptResults (store w')) =
    map pr_promptId (promptResults (store w)) ++ map prompt_id ps.
Proof.
  intros Found Ex NP ps.
  destruct (@runAnalysis_fault_free engine URL_hostname provider projectId
              runId onProgress project w Found Ex NP)
    as (rs & w' & Run & -> & _ & _ & H3 & H4).
  exists (results w'), w'. split; [exact Run|]. split; [|exact H4].
  now rewrite H3, map_app, reported_ids.
Qed.

Lemma X10_witness :
  let ps := project_prompts two_prompt_project in
  exists rs w',
    runAnalysis strict_engine no_hostname (answering "Acme is great") no_faults
      1 30 false (sample_world [first_prompt; second_prompt]) = (Ok rs, w') /\
    map rr_promptId rs =
    map rr_promptId (results (sample_world [first_prompt; second_prompt]))
    ++ map prompt_id ps /\
    map pr_promptId (promptResults (store w')) =
    map pr_promptId
      (promptResults (store (sample_world [first_prompt; second_prompt])))
    ++ map prompt_id ps.
Proof.
  apply (@X10_one_result_per_prompt strict_engine no_hostname
           (answering "Acme is great") 1 30 false two_prompt_project
           (sample_world [first_prompt; second_prompt])).
  - reflexivity.
  - reflexivity.
  - cbn. intuition discriminate.
Defined.

(** X11.  Under the same conditions an entry of the returned array carries
    the outcome of its own provider call: the literal [success: true] of the
    push is overwritten by the spread of the result, so the entry of a
    prompt whose call failed has [success] false and the message of the
    failure as its [error], although the iteration itself did not fail. *)
Theorem X11_results_report_each_call
    engine URL_hostname provider projectId runId onProgress project w :
  fst (project_findUnique projectId (store w)) = Ok (Some project) ->
  existsb (fun r => run_id r =? runId) (runs (store w)) = true ->
  ~ In proto_key (map brand_name (project_brands project)) ->
  let ps := project_prompts project in
  let names := map brand_name (project_brands project) in
  exists rs w',
    runAnalysis engine URL_hostname provider no_faults projectId runId
      onProgress w = (Ok rs, w') /\
    rs = results w ++ reported engine URL_hostname provider names 0 ps /\
    (forall k p,
       nth_error ps k = Some p ->
       exists entry,
         nth_error rs (length (results w) + k) = Some entry /\
         rr_promptId entry = prompt_id p /\
         rr_success entry =
         success (analyzePrompt engine URL_hostname (provider k)
                    (prompt_text p) names) /\
         (forall e, outcome (provider k) = Failed e ->
                    rr_success entry = false /\
                    rr_error entry = Some (message e))).
Proof.
  intros Found Ex NP ps names.
  destruct (@runAnalysis_fault_free engine URL_hostname provider projectId
              runId onProgress project w Found Ex NP)
    as (rs & w' & Run & -> & _ & _ & H3 & _).
  exists (results w'), w'. split; [exact Run|]. split; [exact H3|].
  intros k p Hk. rewrite H3.
  rewrite nth_error_app2 by lia.
  replace (length (results w) + k - length (results w)) with k by lia.
  eexists. split; [apply (nth_error_reported _ _ _ _ _ 0 _ Hk)|].
  cbn [rr_promptId rr_success rr_error Nat.add].
  split; [reflexivity|]. split; [reflexivity|].
  intros e He. now apply analyzePrompt_failed.
Qed.

Lemma X11_witness :
  let w := sample_world [first_prompt; second_prompt] in
  let provider := failing_at [1] "quota exceeded" "Acme is great" in
  let ps := project_prompts two_prompt_project in
  let names := map brand_name (project_brands two_prompt_project) in
  exists rs w',
    runAnalysis strict_engine no_hostname provider no_faults 1 30 true w
    = (Ok rs, w') /\
    rs = results w ++ reported strict_engine no_hostname provider names 0 ps /\
    (forall k p,
       nth_error ps k = Some p ->
       exists entry,
         nth_error rs (length (results w) + k) = Some entry /\
         rr_promptId entry = prompt_id p /\
         rr_success entry =
         success (analyzePrompt strict_engine no_hostname (provider k)
                    (prompt_text p) names) /\
         (forall e, outcome (provider k) = Failed e ->
                    rr_success entry = false /\
                    rr_error entry = Some (message e))).
Proof.
  apply (@X11_results_report_each_call strict_engine no_hostname
           (failing_at [1] "quota exceeded" "Acme is great") 1 30 true
           two_prompt_project (sample_world [first_prompt; second_prompt])).
  - reflexivity.
  - reflexivity.
  - cbn. intuition discriminate.
Defined.

(* ================================================================== *)
(** * What a run leaves alone *)
(* ================================================================== *)

Lemma Forall2_same {A} (R : A -> A -> Prop) l :
  (forall x, R x x) -> Forall2 R l l.
Proof. intros H. induction l; constructor; auto. Qed.

Lemma Forall2_map_r {A B} (R : A -> B -> Prop) (g : B -> B) l l' :
  Forall2 R l l' -> (forall x y, R x y -> R x (g y)) ->
  Forall2 R l (map g l').
Proof. intros H Hg. induction H; cbn; constructor; auto. Qed.

Lemma confined_refl runId d : confined runId d d.
Proof.
  split; [reflexivity|]. split; [apply Forall2_same; auto|].
  split; [exists []; split; [now rewrite app_nil_r|intros r []]|].
  split; exists []; now rewrite app_nil_r.
Qed.

(** A call that changes only the snapshots and the next id. *)
Lemma confined_aside runId d0 d d' :
  projects d' = projects d -> runs d' = runs d ->
  promptResults d' = promptResults d -> brandMentions d' = brandMentions d ->
  citationRows d' = citationRows d ->
  confined runId d0 d -> confined runId d0 d'.
Proof.
  intros E1 E2 E3 E4 E5 (C1 & C2 & C3 & C4 & C5).
  unfold confined. rewrite E1, E2, E3, E4, E5. auto.
Qed.

Lemma confined_update runId change d0 d r d' :
  (forall x, run_id (change x) = run_id x /\
             run_projectId (change x) = run_projectId x /\
             (status (change x) = failed -> status x = failed)) ->
  analysisRun_update runId change d = (r, d') ->
  confined runId d0 d -> confined runId d0 d'.
Proof.
  intros Hc. unfold analysisRun_update.
  destruct (existsb _ _); intros [= _ <-]; [|auto].
  intros (C1 & C2 & C3 & C4 & C5).
  split; [exact C1|]. split; [|auto].
  cbn [runs with_runs]. apply Forall2_map_r; [exact C2|].
  intros x y (I1 & I2 & I3 & I4).
  destruct (run_id y =? runId) eqn:E; [|auto].
  destruct (Hc y) as (K1 & K2 & K3).
  split; [congruence|]. split; [congruence|]. split; [|auto].
  intros N. apply Nat.eqb_eq in E. congruence.
Qed.

Lemma confined_promptResult runId promptId raw len time err d0 d r d' :
  promptResult_create runId promptId raw len time err d = (r, d') ->
  confined runId d0 d -> confined runId d0 d'.
Proof.
  intros [= _ <-] (C1 & C2 & (rows & C3 & Own) & C4 & C5).
  split; [exact C1|]. split; [exact C2|]. split; [|auto].
  cbn [promptResults add_promptResult]. eexists. rewrite C3, <- app_assoc.
  split; [reflexivity|].
  intros x Hx. apply in_app_iff in Hx. destruct Hx as [Hx|[<-|[]]];
    [now apply Own|reflexivity].
Qed.

Lemma confined_brandMention runId k brandId m d0 d r d' :
  brandMention_create k brandId m d = (r, d') ->
  confined runId d0 d -> confined runId d0 d'.
Proof.
  unfold brandMention_create.
  destruct (position m); intros [= _ <-]; auto;
    intros (C1 & C2 & C3 & (rows & C4) & C5);
    (split; [exact C1|]; split; [exact C2|]; split; [exact C3|];
     split; [|exact C5]);
    cbn [brandMentions add_brandMention]; eexists;
    rewrite C4, <- app_assoc; reflexivity.
Qed.

Lemma confined_citation runId k c d0 d r d' :
  citation_create k c d = (r, d') ->
  confined runId d0 d -> confined runId d0 d'.
Proof.
  intros [= _ <-] (C1 & C2 & C3 & C4 & (rows & C5)).
  split; [exact C1|]. split; [exact C2|]. split; [exact C3|].
  split; [exact C4|].
  cbn [citationRows add_citation]. eexists.
  rewrite C5, <- app_assoc. reflexivity.
Qed.

Lemma triple_prisma_keeps {A} faults (q : query A) (P : db -> Prop) :
  (forall d r d', q d = (r, d') -> P d -> P d') ->
  triple (on P) (prisma faults q) (fun _ => on P) (on P).
Proof.
  intros Hq. apply triple_prisma; [|auto].
  intros d r d' Pd Eq. destruct r; eapply Hq; eauto.
Qed.

Section Confined.

Variable engine : jsstring -> bool -> option matcher.
Variable URL_hostname : jsstring -> option jsstring.
Variable provider : nat -> provider_call.
Variable faults : nat -> option jsstring.
Variable runId : nat.
Variable d0 : db.

Lemma calculateMetrics_confined project :
  triple (on (confined runId d0)) (calculateMetrics faults runId project)
         (fun _ => on (confined runId d0)) (on (confined runId d0)).
Proof.
  unfold calculateMetrics. eapply triple_bind.
  { apply triple_prisma_keeps. now intros d r d' [= _ <-]. }
  intros prs. cbn beta. eapply triple_bind.
  { apply triple_forM. intros b Hb. apply triple_prisma_keeps.
    intros d r d'. unfold metricsSnapshot_upsert.
    destruct (existsb _ _); intros [= _ <-]; now apply confined_aside. }
  intros u. eapply triple_bind.
  { apply triple_prisma_keeps. intros d r d'.
    rewrite sum_mentionCount_value. now intros [= _ <-]. }
  intros total. cbn beta. destruct (0 <? _); [|apply triple_ret; auto].
  eapply triple_bind.
  { apply triple_prisma_keeps. now intros d r d' [= _ <-]. }
  intros found. apply triple_forM. intros s Hs. apply triple_prisma_keeps.
  intros d r d'. unfold metricsSnapshot_update_share.
  destruct (existsb _ _); intros [= _ <-]; [now apply confined_aside|auto].
Qed.

Lemma process_prompt_confined project total onProgress i p :
  triple (on (confined runId d0))
    (process_prompt engine URL_hostname provider faults project runId total
       onProgress i p)
    (fun _ => on (confined runId d0)) (on (confined runId d0)).
Proof.
  unfold process_prompt. cbn zeta. eapply triple_bind.
  { apply triple_prisma_keeps. intros d r d'. apply confined_promptResult. }
  intros row. eapply triple_bind.
  { apply triple_when, triple_forM. intros m Hm. unfold save_mention.
    destruct (find _ _) as [b|]; [|apply triple_ret; auto].
    apply triple_prisma_keeps. intros d r d'. apply confined_brandMention. }
  intros u1. eapply triple_bind.
  { apply triple_when, triple_forM. intros c Hc.
    apply triple_prisma_keeps. intros d r d'. apply confined_citation. }
  intros u2. eapply triple_bind; [apply triple_push_result|].
  intros u3. eapply triple_bind.
  { apply triple_prisma_keeps. intros d r d'. apply confined_update.
    intros x. cbn. auto. }
  intros u4. apply triple_when, triple_emit.
Qed.

Lemma for_prompts_confined project total onProgress ps : forall i,
  triple (on (confined runId d0))
    (for_prompts engine URL_hostname provider faults project runId total
       onProgress i ps)
    (fun _ => on (confined runId d0)) (on (confined runId d0)).
Proof.
  induction ps as [|p ps IH]; intros i; cbn [for_prompts].
  - apply triple_ret. auto.
  - eapply triple_bind; [|intros u; apply IH].
    eapply triple_try_catch; [apply process_prompt_confined|].
    intros e. unfold record_failure. eapply triple_bind.
    { apply triple_prisma_keeps. intros d r d'. apply confined_promptResult. }
    intros row. apply triple_push_result.
Qed.

Lemma runAnalysis_confined projectId onProgress :
  triple (on (confined runId d0))
    (runAnalysis engine URL_hostname provider faults projectId runId onProgress)
    (fun _ => on (confined runId d0)) (on (confined runId d0)).
Proof.
  unfold runAnalysis. eapply triple_bind.
  { apply triple_prisma_keeps. now intros d r d' [= _ <-]. }
  intros [project|]; [|apply triple_throw; auto].
  cbn zeta. eapply triple_bind.
  { apply triple_prisma_keeps. intros d r d'. apply confined_update.
    intros x. cbn. split; [reflexivity|]. split; [reflexivity|discriminate]. }
  intros u1. eapply triple_bind; [apply for_prompts_confined|].
  intros u2. eapply triple_bind; [apply calculateMetrics_confined|].
  intros u3. eapply triple_bind.
  { apply triple_prisma_keeps. intros d r d'. apply confined_update.
    intros x. cbn. split; [reflexivity|]. split; [reflexivity|discriminate]. }
  intros u4. eapply triple_bind; [apply triple_when, triple_emit|].
  intros u5. apply triple_get_results.
Qed.

End Confined.

(** X12.  Whatever the provider answers and whichever database calls fail,
    and whether [runAnalysis] returns or throws, it leaves the projects as
    they were, adds and removes no run, changes no run but its own, never
    sets a status to [failed] (that is left to the caller), and only adds
    rows to the prompt results (all of its own run), the brand mentions and
    the citations. *)
Theorem X12_run_is_confined
    engine URL_hostname provider faults projectId runId onProgress w :
  confined runId (store w)
    (store (snd (runAnalysis engine URL_hostname provider faults projectId
                   runId onProgress w))).
Proof.
  pose proof (@runAnalysis_confined engine URL_hostname provider faults runId
                (store w) projectId onProgress w) as T.
  destruct (runAnalysis engine URL_hostname provider faults projectId runId
              onProgress w) as [r w'] eqn:Run.
  specialize (T r w' (confined_refl runId (store w)) eq_refl).
  cbn [snd]. now destruct r.
Qed.

(* ================================================================== *)
(** * Aggregating twice *)
(* ================================================================== *)

Lemma with_snapshots_same d : with_snapshots d (snapshots d) (next_id d) = d.
Proof. now destruct d. Qed.

Lemma brand_metrics_id valid b b' :
  brand_id b = brand_id b' -> brand_metrics valid b = brand_metrics valid b'.
Proof. unfold brand_metrics. now intros ->. Qed.

Lemma existsb_ext_in {A} (f g : A -> bool) l :
  (forall x, f x = g x) -> existsb f l = existsb g l.
Proof. intros H. induction l as [|x l IH]; cbn; [reflexivity|now rewrite H, IH]. Qed.

Lemma existsb_false_on {A} (f : A -> bool) l x :
  existsb f l = false -> In x l -> f x = false.
Proof.
  intros H Hx. destruct (f x) eqn:E; [|reflexivity].
  assert (T : existsb f l = true) by (apply existsb_exists; eauto).
  congruence.
Qed.

Lemma snapshot_is_brands runId b b' s :
  snapshot_is runId (brand_id b) s = true ->
  snapshot_is runId (brand_id b') s = true -> brand_id b = brand_id b'.
Proof.
  unfold snapshot_is. intros H H'.
  apply andb_true_iff in H, H'. destruct H as [_ H], H' as [_ H'].
  apply Nat.eqb_eq in H, H'. congruence.
Qed.

Lemma upsert_settled runId valid b' b d r d' :
  metricsSnapshot_upsert runId (brand_id b') (brand_metrics valid b') d
  = (r, d') ->
  brand_id b = brand_id b' \/ settled runId valid b (snapshots d) ->
  settled runId valid b (snapshots d').
Proof.
  unfold metricsSnapshot_upsert.
  destruct (existsb (snapshot_is runId (brand_id b')) (snapshots d)) eqn:Ex;
    intros [= _ <-] H; cbn [snapshots with_snapshots]; split.
  - rewrite existsb_map.
    rewrite (@existsb_ext_in _ _ (snapshot_is runId (brand_id b))).
    + destruct H as [E|[H _]]; [now rewrite E|exact H].
    + intros s. now destruct (snapshot_is runId (brand_id b') s).
  - intros s' Hs'. apply in_map_iff in Hs'. destruct Hs' as (s & <- & Hs).
    destruct (snapshot_is runId (brand_id b') s) eqn:Ib'.
    + intros Ib. change (snapshot_is runId (brand_id b) s = true) in Ib.
      rewrite (@brand_metrics_id valid _ _ (@snapshot_is_brands _ _ _ _ Ib Ib')).
      reflexivity.
    + intros Ib. destruct H as [E|[_ H]]; [|now apply H].
      rewrite E in Ib. congruence.
  - rewrite existsb_app. destruct H as [E|[H _]]; [|now rewrite H].
    cbn [existsb]. unfold snapshot_is at 2. cbn [ms_analysisRunId ms_brandId
      snapshot_created]. rewrite E, !Nat.eqb_refl. cbn.
    now rewrite orb_true_r.
  - intros s Hs Ib. apply in_app_iff in Hs. destruct Hs as [Hs|[<-|[]]].
    + destruct H as [E|[_ H]]; [|now apply H].
      rewrite E in Ib. rewrite (@existsb_false_on _ _ _ _ Ex Hs) in Ib.
      discriminate.
    + assert (E : brand_id b = brand_id b').
      { unfold snapshot_is in Ib. apply andb_true_iff in Ib.
        destruct Ib as [_ Ib]. apply Nat.eqb_eq in Ib. cbn in Ib. congruence. }
      rewrite (@brand_metrics_id valid _ _ E). reflexivity.
Qed.

Lemma upsert_fixed runId valid b d :
  settled runId valid b (snapshots d) ->
  metricsSnapshot_upsert runId (brand_id b) (brand_metrics valid b) d
  = (Ok tt, d).
Proof.
  intros [Ex Fix]. unfold metricsSnapshot_upsert. rewrite Ex.
  assert (E : map (fun s => if snapshot_is runId (brand_id b) s
                            then snapshot_updated s (brand_metrics valid b)
                            else s) (snapshots d) = snapshots d).
  { rewrite <- (map_id (snapshots d)) at 2. apply map_ext_in.
    intros s Hs. destruct (snapshot_is runId (brand_id b) s) eqn:Ib; auto. }
  now rewrite E, with_snapshots_same.
Qed.

Lemma share_updates_is runId brandId total ts : forall s,
  snapshot_is runId brandId (share_updates total ts s)
  = snapshot_is runId brandId s.
Proof.
  induction ts as [|t ts IH]; intros s; [reflexivity|].
  rewrite share_updates_cons, IH. now destruct (ms_id s =? ms_id t).
Qed.

Lemma share_updates_mentionCount total ts : forall s,
  mentionCount (share_updates total ts s) = mentionCount s.
Proof.
  induction ts as [|t ts IH]; intros s; [reflexivity|].
  rewrite share_updates_cons, IH. now destruct (ms_id s =? ms_id t).
Qed.

Lemma share_updates_updated total v ts : forall s,
  snapshot_updated s v = s ->
  snapshot_updated (share_updates total ts s) v = share_updates total ts s.
Proof.
  induction ts as [|t ts IH]; intros s H; [exact H|].
  rewrite share_updates_cons. apply IH.
  destruct (ms_id s =? ms_id t); [|exact H].
  transitivity (set_shareOfVoice (share_of (mentionCount t) total)
                  (snapshot_updated s v)); [reflexivity|now rewrite H].
Qed.

Lemma settled_share runId valid b total ts ss :
  settled runId valid b ss ->
  settled runId valid b (map (share_updates total ts) ss).
Proof.
  intros [Ex Fix]. split.
  - rewrite existsb_map.
    rewrite (@existsb_ext_in _ _ (snapshot_is runId (brand_id b)));
      [exact Ex|].
    intros s. apply share_updates_is.
  - intros s' Hs'. apply in_map_iff in Hs'. destruct Hs' as (s & <- & Hs).
    rewrite share_updates_is. intros Ib.
    apply share_updates_updated. now apply Fix.
Qed.

Lemma share_updates_targets total (g : MetricsSnapshot -> MetricsSnapshot) ts :
  (forall t, ms_id (g t) = ms_id t /\ mentionCount (g t) = mentionCount t) ->
  forall s, share_updates total (map g ts) s = share_updates total ts s.
Proof.
  intros Hg. induction ts as [|t ts IH]; intros s; [reflexivity|].
  cbn [map]. rewrite !share_updates_cons, IH.
  destruct (Hg t) as [-> ->]. reflexivity.
Qed.

Lemma share_updates_snoc total ts t s :
  share_updates total (ts ++ [t]) s =
  (if ms_id (share_updates total ts s) =? ms_id t
   then set_shareOfVoice (share_of (mentionCount t) total)
          (share_updates total ts s)
   else share_updates total ts s).
Proof. unfold share_updates. now rewrite fold_left_app. Qed.

Lemma share_updates_overwritten total q ts : forall s,
  set_shareOfVoice q (share_updates total ts s) = set_shareOfVoice q s.
Proof.
  induction ts as [|t ts IH]; intros s; [reflexivity|].
  rewrite share_updates_cons, IH. now destruct (ms_id s =? ms_id t).
Qed.

Lemma share_updates_twice total ts : forall s,
  share_updates total ts (share_updates total ts s) = share_updates total ts s.
Proof.
  induction ts as [|t ts IH] using rev_ind; intros s; [reflexivity|].
  rewrite (share_updates_snoc total ts t s).
  assert (Eu : ms_id (share_updates total ts s) = ms_id s)
    by apply share_updates_id.
  rewrite Eu. destruct (ms_id s =? ms_id t) eqn:E.
  - rewrite share_updates_snoc, share_updates_id.
    cbn [ms_id set_shareOfVoice]. rewrite Eu, E.
    now rewrite share_updates_overwritten.
  - rewrite share_updates_snoc, IH, Eu, E. reflexivity.
Qed.

Section Twice.

Variable faults : nat -> option jsstring.
Variable runId : nat.

Lemma upsert_pass_settled valid brands : forall w w',
  forM (fun b => prisma faults (metricsSnapshot_upsert runId (brand_id b)
                                  (brand_metrics valid b))) brands w
  = (Ok tt, w') ->
  forall b, In b brands \/ settled runId valid b (snapshots (store w)) ->
            settled runId valid b (snapshots (store w')).
Proof.
  induction brands as [|b0 bs IH]; intros w w'.
  - intros [= <-] b [[]|H]. exact H.
  - cbn [forM]. intros H. apply bind_Ok in H. destruct H as (u & w1 & H1 & H2).
    apply prisma_Ok in H1. destruct H1 as [H1 _].
    intros b Hb. apply (IH w1 w' H2).
    destruct Hb as [[<-|Hb]|Hb].
    + right. eapply upsert_settled; [exact H1|now left].
    + now left.
    + right. eapply upsert_settled; [exact H1|now right].
Qed.

Lemma upsert_pass_fixed valid brands : forall w w',
  (forall b, In b brands -> settled runId valid b (snapshots (store w))) ->
  forM (fun b => prisma faults (metricsSnapshot_upsert runId (brand_id b)
                                  (brand_metrics valid b))) brands w
  = (Ok tt, w') ->
  store w' = store w.
Proof.
  induction brands as [|b0 bs IH]; intros w w' S.
  - now intros [= <-].
  - cbn [forM]. intros H. apply bind_Ok in H. destruct H as (u & w1 & H1 & H2).
    apply prisma_Ok in H1. destruct H1 as [H1 _].
    rewrite upsert_fixed in H1 by (apply S; now left).
    injection H1 as _ E1.
    rewrite (IH w1 w'); [now symmetry| |exact H2].
    intros b Hb. rewrite <- E1. apply S. now right.
Qed.

Lemma upsert_pass_aside valid brands : forall w w',
  forM (fun b => prisma faults (metricsSnapshot_upsert runId (brand_id b)
                                  (brand_metrics valid b))) brands w
  = (Ok tt, w') ->
  promptResults (store w') = promptResults (store w) /\
  brandMentions (store w') = brandMentions (store w) /\
  citationRows (store w') = citationRows (store w).
Proof.
  induction brands as [|b0 bs IH]; intros w w'.
  - intros [= <-]. auto.
  - cbn [forM]. intros H. apply bind_Ok in H. destruct H as (u & w1 & H1 & H2).
    apply prisma_Ok in H1. destruct H1 as [H1 _].
    destruct (IH w1 w' H2) as (E1 & E2 & E3). rewrite E1, E2, E3.
    unfold metricsSnapshot_upsert in H1.
    destruct (existsb _ _); apply (f_equal snd) in H1; cbn [snd] in H1;
      rewrite <- H1; auto.
Qed.

Lemma update_loop_store total : forall targets w w',
  forM (fun snapshot =>
          prisma faults (metricsSnapshot_update_share (ms_id snapshot)
                           (share_of (mentionCount snapshot) total)))
       targets w = (Ok tt, w') ->
  store w' =
  with_snapshots (store w)
    (map (share_updates total targets) (snapshots (store w)))
    (next_id (store w)).
Proof.
  induction targets as [|t ts IH]; intros w w'.
  - intros [= <-]. cbn. now rewrite map_id, with_snapshots_same.
  - cbn [forM]. intros H. apply bind_Ok in H. destruct H as (u & w1 & H1 & H2).
    apply prisma_Ok in H1. destruct H1 as [H1 _].
    unfold metricsSnapshot_update_share in H1.
    destruct (existsb _ _); [|discriminate].
    apply (f_equal snd) in H1. cbn [snd] in H1.
    rewrite (IH _ _ H2), <- H1. cbn [snapshots next_id with_snapshots].
    rewrite map_map. reflexivity.
Qed.

(** The steps of an aggregation that completed. *)
Lemma calculateMetrics_trace project w w' :
  calculateMetrics faults runId project w = (Ok tt, w') ->
  exists prs w0 wm,
    promptResult_findMany runId (store w) = (Ok prs, store w0) /\
    forM (fun b => prisma faults (metricsSnapshot_upsert runId (brand_id b)
                                    (brand_metrics (filter no_error prs) b)))
         (project_brands project) w0 = (Ok tt, wm) /\
    let targets := filter (of_run runId) (snapshots (store wm)) in
    let total := list_sum (map mentionCount targets) in
    store w' =
    if 0 <? total
    then with_snapshots (store wm)
           (map (share_updates total targets) (snapshots (store wm)))
           (next_id (store wm))
    else store wm.
Proof.
  intros H. unfold calculateMetrics in H.
  apply bind_Ok in H. destruct H as (prs & w0 & H1 & H).
  apply prisma_Ok in H1. destruct H1 as [H1 _].
  apply bind_Ok in H. destruct H as (u & wm & H2 & H). destruct u.
  exists prs, w0, wm. split; [exact H1|]. split; [exact H2|]. cbn zeta.
  apply bind_Ok in H. destruct H as (tm & w3 & H3 & H).
  apply (@prisma_Ok_unchanged _ faults _
           (fun d => match filter (of_run runId) (snapshots d) with
                     | [] => None
                     | rows => Some (list_sum (map mentionCount rows))
                     end)) in H3; [|apply sum_mentionCount_value].
  destruct H3 as [Etm S3].
  assert (Etotal : match tm with Some n => n | None => 0 end
                   = list_sum (map mentionCount
                                 (filter (of_run runId) (snapshots (store wm))))).
  { subst tm. now destruct (filter (of_run runId) (snapshots (store wm))). }
  rewrite Etotal in H. clear Etm Etotal.
  destruct (0 <? _).
  - apply bind_Ok in H. destruct H as (found & w4 & H4 & H).
    apply (@prisma_Ok_unchanged _ faults _
             (fun d => filter (of_run runId) (snapshots d)))
      in H4; [|reflexivity].
    destruct H4 as [Ef S4]. rewrite S3 in Ef. subst found.
    apply update_loop_store in H. now rewrite H, S4, S3.
  - injection H as <-. exact S3.
Qed.

End Twice.

Lemma calculateMetrics_returns runId project w :
  exists w', calculateMetrics no_faults runId project w = (Ok tt, w').
Proof.
  pose proof (@calculateMetrics_ok runId project (runs (store w)) (emitted w)
                (results w) (map pr_promptId (promptResults (store w))) w) as T.
  destruct (calculateMetrics no_faults runId project w) as [[[]|e] w'] eqn:E.
  - now exists w'.
  - destruct (T (Throw e) w'); [repeat split|reflexivity].
Qed.

(** X13.  An aggregation is idempotent: when the database fails no call,
    [calculateMetrics] completes, and running it again on what it left
    changes nothing in any table. *)
Theorem X13_aggregation_is_idempotent runId project w :
  let r1 := calculateMetrics no_faults runId project w in
  let r2 := calculateMetrics no_faults runId project (snd r1) in
  fst r1 = Ok tt /\ fst r2 = Ok tt /\ store (snd r2) = store (snd r1).
Proof.
  cbn zeta.
  destruct (calculateMetrics_returns runId project w) as [w1 H1].
  rewrite H1. cbn [fst snd].
  destruct (calculateMetrics_returns runId project w1) as [w2 H2].
  rewrite H2. cbn [fst snd]. split; [reflexivity|]. split; [reflexivity|].
  apply calculateMetrics_trace in H1, H2.
  destruct H1 as (prs & w0 & wm & F1 & U1 & S1).
  destruct H2 as (prs' & w0' & wm' & F2 & U2 & S2). cbn zeta in S1, S2.
  pose proof (@upsert_pass_aside _ _ _ _ _ _ U1) as (A1 & A2 & A3).
  pose proof (fun b Hb => @upsert_pass_settled _ _ _ _ _ _ U1 b (or_introl Hb))
    as Settled.
  set (valid := filter no_error prs) in *.
  set (dm := store wm) in *.
  set (targets := filter (of_run runId) (snapshots dm)) in *.
  set (total := list_sum (map mentionCount targets)) in *.
  unfold promptResult_findMany in F1, F2.
  injection F1 as Eprs E0. injection F2 as Eprs' E0'.
  assert (Tables : promptResults (store w1) = promptResults (store w) /\
                   brandMentions (store w1) = brandMentions (store w) /\
                   citationRows (store w1) = citationRows (store w)).
  { rewrite S1, E0 in *. destruct (0 <? total); cbn; rewrite A1, A2, A3; auto. }
  destruct Tables as (T1 & T2 & T3).
  assert (Same : prs' = prs).
  { rewrite <- Eprs, <- Eprs', T1, T2, T3. reflexivity. }
  rewrite Same in U2. fold valid in U2.
  assert (Settled1 : forall b, In b (project_brands project) ->
                               settled runId valid b (snapshots (store w1))).
  { intros b Hb. specialize (Settled b Hb). rewrite S1.
    destruct (0 <? total); [|exact Settled].
    cbn [snapshots with_snapshots]. now apply settled_share. }
  apply upsert_pass_fixed in U2; [|now rewrite <- E0'].
  rewrite U2, <- E0' in S2. rewrite S2. clear S2 U2.
  rewrite S1. destruct (0 <? total) eqn:Pos.
  - cbn [snapshots next_id with_snapshots].
    rewrite filter_map_commute by apply share_updates_run.
    fold targets. rewrite map_map.
    rewrite (map_ext _ mentionCount)
      by (intros s; apply share_updates_mentionCount).
    fold total. rewrite Pos.
    assert (Again : map (share_updates total
                           (map (share_updates total targets) targets))
                      (map (share_updates total targets) (snapshots dm))
                    = map (share_updates total targets) (snapshots dm)).
    { rewrite map_map. apply map_ext. intros s.
      rewrite share_updates_targets; [apply share_updates_twice|].
      intros t.
      split; [apply share_updates_id|apply share_updates_mentionCount]. }
    rewrite Again. reflexivity.
  - fold targets. fold total. now rewrite Pos.
Qed.

(* ================================================================== *)
(** * The metrics of one brand *)
(* ================================================================== *)

Lemma filter_length_le {A} (f : A -> bool) l : length (filter f l) <= length l.
Proof.
  induction l as [|x l IH]; cbn; [lia|]. destruct (f x); cbn; lia.
Qed.

Lemma sentiments_exclusive l :
  length (filter (sentiment_is Positive) l)
  + length (filter (sentiment_is Neutral) l)
  + length (filter (sentiment_is Negative) l) <= length l.
Proof.
  induction l as [|m l IH]; cbn [filter length]; [lia|].
  destruct (sentiment_is Positive m) eqn:P, (sentiment_is Neutral m) eqn:N,
           (sentiment_is Negative m) eqn:G; cbn [length]; try lia;
    exfalso; unfold sentiment_is in P, N, G;
    destruct (bm_sentiment m) as [[| |]|]; discriminate.
Qed.

Lemma positions_of_mentioned l :
  length (somes (map bm_position
                   (filter (fun m => is_some (bm_position m)) l)))
  = length (filter (fun m => is_some (bm_position m)) l).
Proof.
  induction l as [|m l IH]; [reflexivity|]. cbn [filter].
  destruct (bm_position m) eqn:E; cbn [is_some]; [|exact IH].
  cbn [map somes]. rewrite E. cbn [length]. now rewrite IH.
Qed.

Lemma Q_of_nat_nonneg n : (0 <= Q_of_nat n)%Q.
Proof.
  unfold Q_of_nat. change 0%Q with (inject_Z 0). rewrite <- Zle_Qle. lia.
Qed.

Lemma ratio_nonneg a n : (0 <= Q_of_nat a / Q_of_nat n * 100)%Q.
Proof.
  apply Qmult_le_0_compat; [|discriminate].
  apply Qmult_le_0_compat; [apply Q_of_nat_nonneg|].
  apply Qinv_le_0_compat, Q_of_nat_nonneg.
Qed.

Lemma ratio_at_most_100 a n :
  0 < n -> a <= n -> (Q_of_nat a / Q_of_nat n * 100 <= 100)%Q.
Proof.
  intros Hn Ha.
  setoid_replace 100%Q with (1 * 100)%Q at 2 by reflexivity.
  apply Qmult_le_compat_r; [|discriminate].
  apply Qle_shift_div_r.
  - unfold Q_of_nat. change 0%Q with (inject_Z 0). rewrite <- Zlt_Qlt. lia.
  - rewrite Qmult_1_l. unfold Q_of_nat. rewrite <- Zle_Qle. lia.
Qed.

Lemma flat_map_length_le {A B} (f : A -> list B) l :
  (forall x, In x l -> length (f x) <= 1) ->
  length (flat_map f l) <= length l.
Proof.
  induction l as [|x l IH]; intros H; [reflexivity|].
  cbn [flat_map]. rewrite length_app. cbn [length].
  specialize (H x (or_introl eq_refl)) as Hx.
  assert (length (flat_map f l) <= length l)
    by (apply IH; intros y Hy; apply H; now right).
  lia.
Qed.

(** X14.  The values that [calculateMetrics] stores for a brand are
    consistent with each other, whatever rows it read: the three sentiment
    tallies together, the recommendation count and the first-position count
    never exceed [mentionCount]; [averagePosition] is null exactly when
    [mentionCount] is 0 (the second filter on the positions removes
    nothing); and [visibilityScore] is never negative and is 0 when there
    is no result without error. *)
Theorem X14_brand_metrics_consistent valid b :
  let v := brand_metrics valid b in
  sv_positiveMentions v + sv_neutralMentions v + sv_negativeMentions v
    <= sv_mentionCount v /\
  sv_recommendationCount v <= sv_mentionCount v /\
  sv_firstPositionCount v <= sv_mentionCount v /\
  (sv_averagePosition v = None <-> sv_mentionCount v = 0) /\
  (0 <= sv_visibilityScore v)%Q /\
  (valid = [] -> sv_visibilityScore v = 0%Q /\ sv_mentionCount v = 0).
Proof.
  cbn zeta. unfold brand_metrics.
  cbn [sv_positiveMentions sv_neutralMentions sv_negativeMentions
       sv_mentionCount sv_recommendationCount sv_firstPositionCount
       sv_averagePosition sv_visibilityScore].
  set (mentioned :=
         filter (fun m => is_some (bm_position m))
           (flat_map (fun r => filter (fun m => bm_brandId m =? brand_id b)
                                 (pri_brandMentions r)) valid)).
  split; [apply sentiments_exclusive|].
  split; [apply filter_length_le|].
  split.
  { etransitivity; [apply filter_length_le|].
    unfold mentioned. now rewrite positions_of_mentioned. }
  split.
  { unfold mentioned at 1 2 3. rewrite positions_of_mentioned.
    fold mentioned. destruct (length mentioned) as [|n]; cbn [Nat.ltb Nat.leb].
    - split; reflexivity.
    - split; discriminate. }
  split.
  { destruct (0 <? length valid); [apply ratio_nonneg|discriminate]. }
  intros ->. split; reflexivity.
Qed.

(** X15.  When no result holds two mention rows of the brand, as in a run
    of a project with distinct brand names, [mentionCount] is at most the
    number of results without error and [visibilityScore] is at most 100. *)
Theorem X15_visibility_at_most_100 valid b :
  (forall r, In r valid ->
     length (filter (fun m => bm_brandId m =? brand_id b)
               (pri_brandMentions r)) <= 1) ->
  sv_mentionCount (brand_metrics valid b) <= length valid /\
  (sv_visibilityScore (brand_metrics valid b) <= 100)%Q.
Proof.
  intros One. unfold brand_metrics. cbn [sv_mentionCount sv_visibilityScore].
  set (mentioned :=
         filter (fun m => is_some (bm_position m))
           (flat_map (fun r => filter (fun m => bm_brandId m =? brand_id b)
                                 (pri_brandMentions r)) valid)).
  assert (Le : length mentioned <= length valid).
  { unfold mentioned. etransitivity; [apply filter_length_le|].
    now apply flat_map_length_le. }
  split; [exact Le|].
  destruct (0 <? length valid) eqn:Pos; [|discriminate].
  apply Nat.ltb_lt in Pos. now apply ratio_at_most_100.
Qed.

Lemma X15_witness :
  sv_mentionCount (brand_metrics sample_valid acme) <= length sample_valid /\
  (sv_visibilityScore (brand_metrics sample_valid acme) <= 100)%Q.
Proof.
  apply (@X15_visibility_at_most_100 sample_valid acme).
  intros r [<-|[]]. vm_compute. lia.
Defined.

(* ================================================================== *)
(** * The order of the citations *)
(* ================================================================== *)

Lemma filter_filter {A} (f g : A -> bool) l :
  filter f (filter g l) = filter (fun a => g a && f a) l.
Proof.
  induction l as [|x l IH]; [reflexivity|]. cbn [filter].
  destruct (g x); cbn [filter andb]; [|exact IH].
  destruct (f x); now rewrite IH.
Qed.

Lemma filter_all {A} (f : A -> bool) l :
  (forall x, In x l -> f x = true) -> filter f l = l.
Proof.
  induction l as [|x l IH]; intros H; [reflexivity|]. cbn [filter].
  rewrite (H x (or_introl eq_refl)), IH; [reflexivity|].
  intros y Hy. apply H. now right.
Qed.

Lemma visit_chunks_order URL_hostname chunks : forall acc seen,
  map url (fst (fold_left (visit_chunk URL_hostname) chunks (acc, seen)))
  = map url acc
    ++ filter (fun u => negb (existsb (jsstring_eqb u) seen))
         (first_occurrences (map uri (web_sources chunks))).
Proof.
  induction chunks as [|chunk chunks IH]; intros acc seen.
  - cbn. now rewrite app_nil_r.
  - cbn [fold_left]. unfold visit_chunk at 2. cbn [fst snd].
    destruct chunk as [[w|]]; unfold web_sources; cbn [web map somes];
      fold (web_sources chunks); [|apply IH].
    cbn [first_occurrences filter].
    destruct (existsb (jsstring_eqb (uri w)) seen) eqn:E; cbn [negb].
    + rewrite IH, filter_filter. f_equal. apply filter_ext_in.
      intros u Hu. destruct (jsstring_eqb u (uri w)) eqn:F; [|reflexivity].
      apply jsstring_eqb_eq in F. subst u. now rewrite E.
    + rewrite IH, map_app, <- app_assoc. cbn [map url app]. f_equal. f_equal.
      rewrite filter_filter. apply filter_ext. intros u. cbn [existsb].
      now rewrite negb_orb.
Qed.

Lemma first_occurrences_length l : length (first_occurrences l) <= length l.
Proof.
  induction l as [|x l IH]; cbn [first_occurrences length]; [lia|].
  pose proof (filter_length_le (fun y => negb (jsstring_eqb y x))
                (first_occurrences l)).
  lia.
Qed.

Lemma first_occurrences_In l u : In u (first_occurrences l) -> In u l.
Proof.
  induction l as [|x l IH]; cbn [first_occurrences]; [auto|].
  intros [<-|H]; [now left|]. right. apply filter_In in H. now apply IH.
Qed.

Lemma first_occurrences_NoDup l : NoDup l -> first_occurrences l = l.
Proof.
  induction 1 as [|x l Hx ND IH]; [reflexivity|]. cbn [first_occurrences].
  rewrite IH. f_equal. apply filter_all. intros y Hy.
  apply negb_true_iff, jsstring_eqb_neq. congruence.
Qed.

(** X16.  The citations that [extractCitations] returns stand in the order
    in which their URLs first occur among the web-sourced chunks; there are
    at most as many as such chunks; and when the chunks carry pairwise
    distinct URLs there is one citation per chunk, in the order of the
    chunks. *)
Theorem X16_citations_keep_first_occurrence_order
    (URL_hostname : jsstring -> option jsstring) gm :
  let ws := web_sources (chunks_of gm) in
  let r := extractCitations URL_hostname (Some gm) in
  map url r = first_occurrences (map uri ws) /\
  length r <= length ws /\
  (NoDup (map uri ws) -> map url r = map uri ws).
Proof.
  cbn zeta.
  assert (Order : map url (extractCitations URL_hostname (Some gm))
                  = first_occurrences (map uri (web_sources (chunks_of gm)))).
  { unfold extractCitations. fold (chunks_of gm).
    rewrite visit_chunks_order. cbn [map app existsb negb].
    apply filter_all. reflexivity. }
  split; [exact Order|]. split.
  - rewrite <- (length_map url), Order, <- (length_map uri (web_sources _)).
    apply first_occurrences_length.
  - intros ND. rewrite Order. now apply first_occurrences_NoDup.
Qed.

(* ================================================================== *)
(** * A recommendation names the brand *)
(* ================================================================== *)

Lemma someM_true_inv {A} (f : A -> result bool) l :
  someM f l = Ok true -> exists x, In x l /\ f x = Ok true.
Proof.
  induction l as [|y l IH]; cbn [someM]; [discriminate|].
  destruct (f y) as [[|]|e] eqn:Fy; cbn [rbind]; [|intros H|discriminate].
  - intros _. exists y. split; [now left|exact Fy].
  - destruct (IH H) as (x & Hx & Fx). exists x. split; [now right|exact Fx].
Qed.

Lemma flat_map_nonempty {A B} (f : A -> list B) l :
  flat_map f l <> [] -> exists x, In x l /\ f x <> [].
Proof.
  induction l as [|x l IH]; cbn [flat_map]; [congruence|].
  intros H. destruct (f x) eqn:Fx.
  - destruct (IH H) as (y & Hy & Fy). exists y. split; [now right|exact Fy].
  - exists x. split; [now left|congruence].
Qed.

(** A match of a sequence of terms that holds the literals of [lit] puts
    [lit], up to case, somewhere in the text. *)
Lemma ends_names text lit back front : forall i,
  ends true text (seq_of (front ++ map RChar lit ++ back)) i <> [] ->
  exists k, ci_prefix lit (skipn k text) = true.
Proof.
  induction front as [|t front IH]; intros i.
  - cbn [app]. rewrite ends_literals.
    destruct (ci_prefix lit (skipn i text)) eqn:E; [eauto|congruence].
  - cbn [app]. rewrite ends_seq_cons. intros H.
    apply flat_map_nonempty in H. destruct H as (k & _ & Hk). eauto.
Qed.

Lemma RegExp_test_somewhere (mt : matcher) text :
  RegExp_test mt text = true -> exists j, mt text j <> [].
Proof.
  unfold RegExp_test, RegExp_exec. rewrite exec_from_find.
  destruct (find _ _) as [j|] eqn:F; [|discriminate]. intros _.
  apply find_some in F. destruct F as [_ F]. exists j.
  destruct (mt text j); [discriminate|congruence].
Qed.

Lemma parse_literal_pattern p :
  all_literal p = true ->
  parse p initial_pstate = Parsed (seq_of (map RChar p)).
Proof.
  intros H. rewrite <- (app_nil_r p) at 1. rewrite (parse_all_literal _ _ _ H).
  cbn [parse]. rewrite push_literals_below. cbn [below initial_pstate].
  unfold close_frame. rewrite push_literals_top.
  cbn [alts cur top initial_pstate empty_frame fold_left].
  now rewrite app_nil_r, rev_involutive.
Qed.

Lemma parse_wildcard_pattern a c :
  all_literal a = true -> all_literal c = true ->
  parse (a ++ str ".*" ++ c) initial_pstate
  = Parsed (seq_of (map RChar a ++ RQuant 0 None true RAny :: map RChar c)).
Proof.
  intros Ha Hc. rewrite (parse_all_literal _ _ _ Ha).
  change (str ".*" ++ c) with ("."%char :: "*"%char :: c).
  rewrite parse_dot_star. rewrite <- (app_nil_r c) at 1.
  rewrite (parse_all_literal _ _ _ Hc).
  cbn [parse]. rewrite push_literals_below. cbn [below].
  rewrite push_literals_below. cbn [below initial_pstate].
  unfold close_frame. rewrite push_literals_top. cbn [alts cur top].
  rewrite push_literals_top.
  cbn [alts cur top initial_pstate empty_frame fold_left].
  f_equal. f_equal. rewrite app_nil_r.
  rewrite (rev_app_distr (rev (map RChar c))), rev_involutive.
  cbn [rev]. now rewrite rev_involutive, <- app_assoc.
Qed.

Lemma all_literal_app a c :
  all_literal a = true -> all_literal c = true -> all_literal (a ++ c) = true.
Proof. unfold all_literal. intros Ha Hc. now rewrite forallb_app, Ha, Hc. Qed.

(** Every pattern of [checkIfRecommended] for a name without pattern syntax
    is read as a sequence of terms that holds the literals of the name. *)
Lemma recommendPatterns_shape b p :
  plain b = true -> In p (recommendPatterns (toLowerCase b)) ->
  exists front back,
    parse p initial_pstate
    = Parsed (seq_of (front ++ map RChar (toLowerCase b) ++ back)).
Proof.
  intros Hb Hp. apply plain_lower_all_literal in Hb.
  set (lb := toLowerCase b) in *.
  assert (Pre : forall x, all_literal (str x) = true ->
                  exists front back,
                    parse (str x ++ lb) initial_pstate
                    = Parsed (seq_of (front ++ map RChar lb ++ back))).
  { intros x Hx. exists (map RChar (str x)), [].
    rewrite parse_literal_pattern by now apply all_literal_app.
    now rewrite map_app, app_nil_r. }
  assert (Post : forall y, all_literal (str y) = true ->
                   exists front back,
                     parse (lb ++ str y) initial_pstate
                     = Parsed (seq_of (front ++ map RChar lb ++ back))).
  { intros y Hy. exists [], (map RChar (str y)).
    rewrite parse_literal_pattern by now apply all_literal_app.
    now rewrite map_app. }
  assert (WPre : forall x, all_literal (str x) = true ->
                   exists front back,
                     parse (str x ++ str ".*" ++ lb) initial_pstate
                     = Parsed (seq_of (front ++ map RChar lb ++ back))).
  { intros x Hx. exists (map RChar (str x) ++ [RQuant 0 None true RAny]), [].
    rewrite parse_wildcard_pattern by assumption.
    now rewrite app_nil_r, <- app_assoc. }
  assert (WPost : forall y, all_literal (str y) = true ->
                    exists front back,
                      parse (lb ++ str ".*" ++ str y) initial_pstate
                      = Parsed (seq_of (front ++ map RChar lb ++ back))).
  { intros y Hy. exists [], (RQuant 0 None true RAny :: map RChar (str y)).
    now rewrite parse_wildcard_pattern by assumption. }
  unfold recommendPatterns in Hp. cbn [In] in Hp.
  destruct Hp as [<-|Hp]; [apply (Pre "recommend "%string); reflexivity|].
  destruct Hp as [<-|Hp]; [apply (Post " is recommended"%string); reflexivity|].
  destruct Hp as [<-|Hp]; [apply (Pre "suggest "%string); reflexivity|].
  destruct Hp as [<-|Hp]; [apply (Post " is a great choice"%string); reflexivity|].
  destruct Hp as [<-|Hp]; [apply (Post " is ideal"%string); reflexivity|].
  destruct Hp as [<-|Hp]; [apply (Post " is perfect"%string); reflexivity|].
  destruct Hp as [<-|Hp]; [apply (Post " is the best"%string); reflexivity|].
  destruct Hp as [<-|Hp]; [apply (WPre "top pick"%string); reflexivity|].
  destruct Hp as [<-|Hp]; [apply (WPost "top pick"%string); reflexivity|].
  destruct Hp as [<-|Hp]; [apply (WPre "best"%string); reflexivity|].
  destruct Hp as [<-|[]]. apply (WPost "stands out"%string); reflexivity.
Qed.

Lemma toLower_unit_twice c : toLower_unit (toLower_unit c) = toLower_unit c.
Proof. each_ascii c. Qed.

Lemma lower_of_canonical c :
  toLower_unit c = c -> toLower_unit (Canonicalize c) = c.
Proof. each_ascii c. Qed.

Lemma canonical_lower x y :
  toLower_unit x = x -> toLower_unit y = y ->
  Canonicalize x = Canonicalize y -> x = y.
Proof.
  intros Hx Hy E. rewrite <- (@lower_of_canonical x Hx), E.
  now apply lower_of_canonical.
Qed.

Lemma ci_prefix_lower a : forall s,
  (forall x, In x a -> toLower_unit x = x) ->
  (forall y, In y s -> toLower_unit y = y) ->
  ci_prefix a s = true -> startsWith a s = true.
Proof.
  induction a as [|x a IH]; intros s Ha Hs; [reflexivity|].
  destruct s as [|y s]; cbn [ci_prefix startsWith]; [discriminate|].
  rewrite !andb_true_iff, !Ascii.eqb_eq. intros [E H]. split.
  - apply canonical_lower; [apply Ha|apply Hs|exact E]; now left.
  - apply IH; [intros; apply Ha|intros; apply Hs|exact H]; now right.
Qed.

Lemma toLowerCase_lower s x : In x (toLowerCase s) -> toLower_unit x = x.
Proof.
  unfold toLowerCase. intros H. apply in_map_iff in H.
  destruct H as (c & <- & _). apply toLower_unit_twice.
Qed.

Lemma toLowerCase_twice s : toLowerCase (toLowerCase s) = toLowerCase s.
Proof.
  unfold toLowerCase. rewrite map_map. apply map_ext, toLower_unit_twice.
Qed.

Lemma includes_at p k text :
  startsWith p (skipn k text) = true -> includes text p = true.
Proof.
  intros H. apply startsWith_prefix in H. destruct H as [post E].
  apply includes_substring. exists (firstn k text), post.
  now rewrite <- E, firstn_skipn.
Qed.

(** X17.  For a brand name without pattern syntax, [checkIfRecommended]
    answers true only when the name occurs in the text, the case of letters
    ignored: each of the eleven patterns holds the name as literals, so no
    pattern can match a text that does not contain it. *)
Theorem X17_recommended_only_if_named engine text b :
  plain b = true ->
  checkIfRecommended engine text b = Ok true ->
  includes (toLowerCase text) (toLowerCase b) = true /\
  occurs_ignoring_case b text.
Proof.
  intros Hb H.
  assert (Inc : includes (toLowerCase text) (toLowerCase b) = true).
  { unfold checkIfRecommended in H. apply someM_true_inv in H.
    destruct H as (p & Hp & H).
    destruct (@recommendPatterns_shape b p Hb Hp) as (front & back & Parse).
    unfold RegExp_new in H. rewrite Parse in H. cbn [rbind] in H.
    injection H as H. apply RegExp_test_somewhere in H. destruct H as [j Hj].
    apply ends_names in Hj. destruct Hj as [k Hk].
    apply (@includes_at _ k). apply ci_prefix_lower; [| |exact Hk].
    - apply toLowerCase_lower.
    - intros y Hy. apply (@toLowerCase_lower text).
      rewrite <- (firstn_skipn k). apply in_or_app. now right. }
  split; [exact Inc|].
  apply includes_lower_occurs in Inc; [|apply toLowerCase_twice].
  destruct Inc as (pre & mid & post & E & L).
  exists pre, mid, post. split; [exact E|]. now rewrite L, toLowerCase_twice.
Qed.

Lemma X17_witness :
  includes (toLowerCase (str "Many teams say Acme stands out"))
    (toLowerCase (str "Acme")) = true /\
  occurs_ignoring_case (str "Acme") (str "Many teams say Acme stands out").
Proof.
  apply (@X17_recommended_only_if_named strict_engine
           (str "Many teams say Acme stands out") (str "Acme"));
    vm_compute; reflexivity.
Defined.

(* ================================================================== *)
(** * Iterations that fail do not end the run *)
(* ================================================================== *)

Lemma triple_prisma_settles {A} (q : query A) (P : world -> Prop)
    (Q : A -> world -> Prop) (E : world -> Prop) :
  (forall w r d', P w -> q (store w) = (r, d') ->
     match r with
     | Ok a => Q a {| store := d'; calls := S (calls w);
                      emitted := emitted w; results := results w |}
     | Throw _ => E {| store := d'; calls := S (calls w);
                       emitted := emitted w; results := results w |}
     end) ->
  triple P (prisma no_faults q) Q E.
Proof.
  intros H w r w' Pw. unfold prisma, no_faults.
  destruct (q (store w)) as [r0 d'] eqn:Eq. intros [= <- <-].
  exact (H w r0 d' Pw Eq).
Qed.

Lemma Forall2_map_self {A} (R : A -> A -> Prop) (g : A -> A) l :
  (forall x, R x (g x)) -> Forall2 R l (map g l).
Proof. intros H. induction l; cbn; constructor; auto. Qed.

Lemma in_progress_ids runId n st R0 R :
  in_progress runId n st R0 R -> map run_id R = map run_id R0.
Proof.
  unfold in_progress. induction 1 as [|r0 r R0 R [E _] _ IH]; [reflexivity|].
  cbn [map]. now rewrite E, IH.
Qed.

Lemma in_progress_exists runId n st R0 R :
  in_progress runId n st R0 R ->
  existsb (fun r => run_id r =? runId) R
  = existsb (fun r => run_id r =? runId) R0.
Proof.
  intros H. rewrite !run_exists_ids. now rewrite (in_progress_ids H).
Qed.

Lemma in_progress_start runId n R0 :
  in_progress runId n processing R0
    (change_run runId (start_processing n) R0).
Proof.
  unfold in_progress, change_run. apply Forall2_map_self. intros r.
  destruct (run_id r =? runId) eqn:E; cbn [run_id start_processing];
    rewrite ?E; auto.
Qed.

Lemma in_progress_change runId n st st' f R0 R :
  (forall r, run_id (f r) = run_id r /\
             (status r = st -> totalPrompts r = Some n ->
              status (f r) = st' /\ totalPrompts (f r) = Some n)) ->
  in_progress runId n st R0 R ->
  in_progress runId n st' R0 (change_run runId f R).
Proof.
  intros Hf. unfold in_progress, change_run.
  induction 1 as [|r0 r R0 R [E H] _ IH]; cbn [map]; constructor; [|exact IH].
  destruct (Hf r) as [Fi Fs].
  destruct (run_id r0 =? runId) eqn:Er.
  - rewrite E, Er. destruct H as [Hs Ht]. split; [congruence|]. now apply Fs.
  - subst r. rewrite Er. auto.
Qed.

Section Robust.

Variable engine : jsstring -> bool -> option matcher.
Variable URL_hostname : jsstring -> option jsstring.
Variable provider : nat -> provider_call.
Variable runId : nat.
Variable n : nat.
Variable R0 : list AnalysisRun.

Hypothesis run_exists : existsb (fun r => run_id r =? runId) R0 = true.

Lemma triple_keep_progress ids f :
  (forall r, run_id (f r) = run_id r /\
             (status r = processing -> totalPrompts r = Some n ->
              status (f r) = processing /\ totalPrompts (f r) = Some n)) ->
  triple (fun w => in_progress runId n processing R0 (runs (store w)) /\
                   map rr_promptId (results w) = ids)
         (prisma no_faults (analysisRun_update runId f))
         (fun _ w => in_progress runId n processing R0 (runs (store w)) /\
                     map rr_promptId (results w) = ids)
         (fun _ => False).
Proof.
  intros Hf. apply triple_prisma_settles. intros w r d' [H1 H2].
  unfold analysisRun_update. rewrite (in_progress_exists H1), run_exists.
  intros [= <- <-]. cbn [store runs with_runs results]. split; [|exact H2].
  exact (@in_progress_change runId n processing processing f R0 _ Hf H1).
Qed.

Lemma for_prompts_robust project total onProgress ps : forall i ids,
  triple (fun w => in_progress runId n processing R0 (runs (store w)) /\
                   map rr_promptId (results w) = ids)
    (for_prompts engine URL_hostname provider no_faults project runId total
       onProgress i ps)
    (fun _ w => in_progress runId n processing R0 (runs (store w)) /\
                map rr_promptId (results w) = ids ++ map prompt_id ps)
    (fun _ => False).
Proof.
  induction ps as [|p ps IH]; intros i ids.
  - apply triple_ret. intros w H. cbn [map]. now rewrite app_nil_r.
  - cbn [for_prompts].
    set (I := fun ids (w : world) =>
                in_progress runId n processing R0 (runs (store w)) /\
                map rr_promptId (results w) = ids).
    eapply triple_bind with (R := fun _ => I (ids ++ [prompt_id p])).
    2:{ intros u. eapply triple_weaken; [apply (IH (S i) (ids ++ [prompt_id p]))
                                        |auto| |auto].
        intros a w [H1 H2]. split; [exact H1|].
        cbn [map]. now rewrite H2, <- app_assoc. }
    apply triple_try_catch with (E' := I ids).
    + unfold process_prompt. cbn zeta.
      eapply triple_bind with (R := fun _ => I ids).
      { apply triple_prisma_settles. intros w r d' H. intros [= <- <-]. exact H. }
      intros row. eapply triple_bind with (R := fun _ => I ids).
      { apply triple_when, triple_forM. intros m Hm. unfold save_mention.
        destruct (find _ _) as [b|]; [|apply triple_ret; auto].
        apply triple_prisma_settles. intros w r d' H.
        unfold brandMention_create.
        destruct (position m); intros [= <- <-]; exact H. }
      intros u1. eapply triple_bind with (R := fun _ => I ids).
      { apply triple_when, triple_forM. intros c Hc.
        apply triple_prisma_settles. intros w r d' H. intros [= <- <-]. exact H. }
      intros u2. eapply triple_bind with (R := fun _ => I (ids ++ [prompt_id p])).
      { apply triple_push_to. intros w [H1 H2]. split; [exact H1|].
        cbn [results]. now rewrite map_app, H2. }
      intros u3. eapply triple_bind with (R := fun _ => I (ids ++ [prompt_id p])).
      { apply triple_weaken
          with (P' := I (ids ++ [prompt_id p]))
               (Q' := fun _ : unit => I (ids ++ [prompt_id p]))
               (E' := fun _ : world => False);
          [apply triple_keep_progress; intros r; cbn; auto
          |auto|auto|intros w []]. }
      intros u4. destruct onProgress; cbn [when].
      * apply triple_emit_to. intros w H. exact H.
      * apply triple_ret. auto.
    + intros e. unfold record_failure.
      eapply triple_bind with (R := fun _ => I ids).
      { apply triple_prisma_settles. intros w r d' H. intros [= <- <-]. exact H. }
      intros row. apply triple_push_to. intros w [H1 H2]. split; [exact H1|].
      cbn [results]. now rewrite map_app, H2.
Qed.

End Robust.

Lemma calculateMetrics_aside runId project (P : world -> Prop) :
  (forall w d', P w ->
     runs d' = runs (store w) ->
     P {| store := d'; calls := S (calls w); emitted := emitted w;
          results := results w |}) ->
  triple P (calculateMetrics no_faults runId project) (fun _ => P)
         (fun _ => False).
Proof.
  intros HP. unfold calculateMetrics.
  eapply triple_bind with (R := fun _ => P).
  { apply triple_prisma_ok. intros w H. eexists _, _.
    split; [reflexivity|]. now apply HP. }
  intros prs. cbn zeta. eapply triple_bind with (R := fun _ => P).
  { apply triple_forM. intros b Hb. apply triple_prisma_ok.
    intros w H. unfold metricsSnapshot_upsert.
    destruct (existsb _ _); (eexists _, _; split; [reflexivity|]);
      now apply HP. }
  intros u. eapply triple_bind with (R := fun _ => P).
  { apply triple_prisma_ok. intros w H.
    rewrite sum_mentionCount_value. eexists _, _.
    split; [reflexivity|]. now apply HP. }
  intros tm. destruct (0 <? _); [|apply triple_ret; auto].
  eapply triple_bind
    with (R := fun found w =>
                 P w /\ forall s, In s found ->
                                  In (ms_id s) (map ms_id (snapshots (store w)))).
  { apply triple_prisma_ok. intros w H. eexists _, _.
    split; [reflexivity|]. split; [now apply HP|].
    intros s Hs. cbn [store]. apply filter_In in Hs. now apply in_map. }
  intros found.
  set (J := fun w : world =>
              P w /\ forall s, In s found ->
                               In (ms_id s) (map ms_id (snapshots (store w)))).
  apply triple_weaken
    with (P' := J) (Q' := fun _ : unit => J) (E' := fun _ : world => False);
    [apply triple_forM| | |].
  - intros s Hs. apply triple_prisma_ok. intros w [HI Ids].
    unfold metricsSnapshot_update_share.
    rewrite (snapshot_exists_ids _ _ (Ids s Hs)).
    eexists _, _. split; [reflexivity|]. split; [now apply HP|].
    intros s' Hs'. cbn [store snapshots with_snapshots].
    rewrite map_map.
    replace (map (fun x => ms_id (if ms_id x =? ms_id s
                                  then set_shareOfVoice
                                         (share_of (mentionCount s)
                                            match tm with
                                            | Some n => n
                                            | None => 0
                                            end) x
                                  else x)) (snapshots (store w)))
      with (map ms_id (snapshots (store w))); [now apply Ids|].
    apply map_ext. intros x. now destruct (ms_id x =? ms_id s).
  - auto.
  - intros a w [H _]. exact H.
  - auto.
Qed.

(** A run on which the database fails no call returns, whatever happens in
    its iterations. *)
Lemma runAnalysis_completes
    engine URL_hostname provider projectId runId onProgress project w :
  fst (project_findUnique projectId (store w)) = Ok (Some project) ->
  existsb (fun r => run_id r =? runId) (runs (store w)) = true ->
  let ps := project_prompts project in
  exists rs w',
    runAnalysis engine URL_hostname provider no_faults projectId runId
      onProgress w = (Ok rs, w') /\
    map rr_promptId rs = map rr_promptId (results w) ++ map prompt_id ps /\
    in_progress runId (length ps) completed (runs (store w)) (runs (store w')).
Proof.
  intros Found Ex ps.
  set (I := fun st ids (w1 : world) =>
              in_progress runId (length ps) st (runs (store w))
                (runs (store w1)) /\
              map rr_promptId (results w1) = ids).
  set (post := fun rs w' =>
    map rr_promptId rs = map rr_promptId (results w) ++ map prompt_id ps /\
    in_progress runId (length ps) completed (runs (store w)) (runs (store w'))).
  assert (T : triple (fun w0 => w0 = w)
                (runAnalysis engine URL_hostname provider no_faults projectId
                   runId onProgress)
                post (fun _ => False)).
  { unfold runAnalysis.
    eapply triple_bind
      with (R := fun found w1 =>
                   found = Some project /\
                   runs (store w1) = runs (store w) /\
                   results w1 = results w).
    { apply triple_prisma_ok. intros w0 ->.
      unfold project_findUnique in *. cbn [fst] in Found.
      eexists _, _. split; [reflexivity|]. split; [congruence|]. auto. }
    intros found.
    apply triple_weaken
      with (P' := fun w1 => found = Some project /\
                            runs (store w1) = runs (store w) /\
                            results w1 = results w)
           (Q' := post) (E' := fun _ : world => False); auto.
    intros w1 r w1' (-> & Hr & Hs). cbn zeta. fold ps.
    apply (@triple_bind _ _
             (fun w1 => runs (store w1) = runs (store w) /\
                        results w1 = results w)
             _ _ (fun _ => I processing (map rr_promptId (results w)))
             post (fun _ => False)); [| |auto].
    { apply triple_prisma_settles. intros w2 r2 d' [H1 H2].
      unfold analysisRun_update. rewrite H1, Ex. intros [= <- <-].
      split; [apply in_progress_start|]. cbn [results]. now rewrite H2. }
    intros u1. eapply triple_bind.
    { apply (@for_prompts_robust engine URL_hostname provider runId
               (length ps) (runs (store w)) Ex). }
    intros u2.
    eapply triple_bind
      with (R := fun _ => I processing
                            (map rr_promptId (results w) ++ map prompt_id ps)).
    { apply calculateMetrics_aside. intros w2 d' [H1 H2] E.
      split; [cbn [store]; now rewrite E|exact H2]. }
    intros u3.
    eapply triple_bind
      with (R := fun _ => I completed
                            (map rr_promptId (results w) ++ map prompt_id ps)).
    { apply triple_prisma_settles. intros w2 r2 d' [H1 H2].
      unfold analysisRun_update. rewrite (in_progress_exists H1), Ex.
      intros [= <- <-]. split; [|exact H2].
      cbn [store runs with_runs].
      apply (@in_progress_change runId (length ps) processing completed
               set_completed (runs (store w)) _); [|exact H1].
      intros x. cbn. auto. }
    intros u4.
    eapply triple_bind
      with (R := fun _ => I completed
                            (map rr_promptId (results w) ++ map prompt_id ps)).
    { destruct onProgress; cbn [when];
        [apply triple_emit_to|apply triple_ret]; auto. }
    intros u5 w2 r2 w2' [H1 H2] [= <- <-]. split; [exact H2|exact H1]. }
  destruct (runAnalysis engine URL_hostname provider no_faults projectId runId
              onProgress w) as [[rs|e] w'] eqn:Run.
  - exists rs, w'. split; [reflexivity|]. exact (T w (Ok rs) w' eq_refl Run).
  - destruct (T w (Throw e) w' eq_refl Run).
Qed.

(** X18.  When the database fails no call and the project and the run
    exist, [runAnalysis] returns whatever the provider answers and whatever
    the brands are called: an iteration that throws (a brand named
    [__proto__] that the response mentions makes the brand mention
    invalid) is recorded by the handler and the loop goes on.  The returned
    array has exactly one entry per active prompt, in their order, and the
    run ends [completed] with [totalPrompts] the number of prompts, the
    other runs untouched. *)
Theorem X18_failed_iterations_do_not_abort
    engine URL_hostname provider projectId runId onProgress project w :
  fst (project_findUnique projectId (store w)) = Ok (Some project) ->
  existsb (fun r => run_id r =? runId) (runs (store w)) = true ->
  let ps := project_prompts project in
  exists rs w',
    runAnalysis engine URL_hostname provider no_faults projectId runId
      onProgress w = (Ok rs, w') /\
    map rr_promptId rs = map rr_promptId (results w) ++ map prompt_id ps /\
    in_progress runId (length ps) completed (runs (store w)) (runs (store w')).
Proof. exact (@runAnalysis_completes engine URL_hostname provider projectId runId onProgress project w). Qed.

Lemma X18_witness :
  let ps := project_prompts proto_project in
  exists rs w',
    runAnalysis strict_engine no_hostname
      (answering "Acme beats __proto__ here") no_faults 1 30 true proto_world
    = (Ok rs, w') /\
    map rr_promptId rs = map rr_promptId (results proto_world)
                         ++ map prompt_id ps /\
    in_progress 30 (length ps) completed (runs (store proto_world))
      (runs (store w')).
Proof.
  apply (@X18_failed_iterations_do_not_abort strict_engine no_hostname
           (answering "Acme beats __proto__ here") 1 30 true proto_project
           proto_world); reflexivity.
Defined.

(* ================================================================== *)
(** * The route that starts a run *)
(* ================================================================== *)

Lemma confined_ids runId d0 d :
  confined runId d0 d -> map run_id (runs d) = map run_id (runs d0).
Proof.
  intros (_ & H & _). induction H as [|r0 r R0 R (E & _) _ IH]; [reflexivity|].
  cbn [map]. now rewrite E, IH.
Qed.

Lemma update_sets_status runId f st d d' u :
  (forall r, run_id (f r) = run_id r /\ status (f r) = st) ->
  analysisRun_update runId f d = (Ok u, d') ->
  run_status_is runId st (runs d').
Proof.
  intros Hf. unfold analysisRun_update.
  destruct (existsb (fun r => run_id r =? runId) (runs d)) eqn:Ex;
    [|discriminate].
  intros [= _ <-]. cbn [runs with_runs]. split.
  - fold (change_run runId f (runs d)).
    rewrite change_run_exists; [exact Ex|]. intros r. apply Hf.
  - intros r Hr Er. apply in_map_iff in Hr. destruct Hr as (x & <- & _).
    destruct (run_id x =? runId) eqn:E.
    + apply Hf.
    + apply Nat.eqb_neq in E. congruence.
Qed.

Lemma bind_prisma_ok {A B} (q : query A) (k : A -> M B) w a d :
  q (store w) = (Ok a, d) ->
  bind (prisma no_faults q) k w
  = k a {| store := d; calls := S (calls w); emitted := emitted w;
           results := results w |}.
Proof. intros E. unfold bind, prisma, no_faults. now rewrite E. Qed.

Section Routes.

Variable engine : jsstring -> bool -> option matcher.
Variable URL_hostname : jsstring -> option jsstring.
Variable provider : nat -> provider_call.
Variable faults : nat -> option jsstring.
Variable GEMINI_API_KEY : option jsstring.

(** What the handler has done when it responds. *)
Lemma start_run_cases projectId w r w' :
  start_run faults GEMINI_API_KEY projectId w = (r, w') ->
  emitted w' = emitted w /\ results w' = results w /\
  match r with
  | Throw _ => store w' = store w
  | Ok (resp, None) =>
      In (statusCode resp) [404; 400; 500] /\ store w' = store w
  | Ok (resp, Some runId) =>
      exists project,
        fst (project_findUnique projectId (store w)) = Ok (Some project) /\
        project_prompts project <> [] /\
        no_api_key GEMINI_API_KEY = false /\
        find (is_processing projectId) (runs (store w)) = None /\
        runId = next_id (store w) /\
        resp = {| statusCode := 202;
                  body := StartedBody runId (length (project_prompts project))
                            (length (project_prompts project) * 2) |} /\
        store w' =
        snd (analysisRun_create projectId (length (project_prompts project))
               (store w))
  end.
Proof.
  unfold start_run, bind, prisma, ret.
  destruct (faults (calls w)); [intros [= <- <-]; auto|].
  cbn [project_findUnique store calls emitted results].
  destruct (find (fun p => project_id p =? projectId) (projects (store w)))
    as [p0|] eqn:F; cbn [option_map];
    [|intros [= <- <-]; cbn; auto 10].
  set (project := {| project_id := project_id p0;
                     project_brands := project_brands p0;
                     project_prompts := filter isActive (project_prompts p0) |}).
  cbn [project_prompts]. fold (project_prompts project).
  destruct (length (project_prompts project) =? 0) eqn:Z;
    [intros [= <- <-]; cbn; auto 10|].
  destruct (no_api_key GEMINI_API_KEY) eqn:K;
    [intros [= <- <-]; cbn; auto 10|].
  cbn [store calls emitted results].
  destruct (faults (S (calls w))); [intros [= <- <-]; auto|].
  cbn [analysisRun_findFirst_processing store calls emitted results].
  destruct (find (is_processing projectId) (runs (store w))) as [running|] eqn:R;
    [intros [= <- <-]; cbn; auto 10|].
  cbn [store calls emitted results].
  destruct (faults (S (S (calls w)))); [intros [= <- <-]; auto|].
  cbn [analysisRun_create store calls emitted results run_id new_run].
  intros [= <- <-]. cbn [emitted results store].
  split; [reflexivity|]. split; [reflexivity|].
  exists project. unfold project_findUnique. rewrite F. cbn [fst option_map snd].
  split; [reflexivity|]. split.
  { intros E. fold project in E. rewrite E in Z. discriminate. }
  auto 10.
Qed.


(** X21.  Once the run that a request started has settled, its status
    tells how: [completed] when [runAnalysis] returned, and [failed] when
    it threw and the database let the rejection handler write; whatever
    calls the database failed before. *)
Theorem X21_settled_run_status projectId w :
  let '(out, bg, w') :=
    post_run engine URL_hostname provider faults GEMINI_API_KEY projectId w in
  let runId := next_id (store w) in
  match bg with
  | NotStarted => True
  | Returned _ => run_status_is runId completed (runs (store w'))
  | MarkedFailed _ => run_status_is runId failed (runs (store w'))
  | Unhandled _ _ => True
  end.
Proof.
  unfold post_run.
  destruct (start_run faults GEMINI_API_KEY projectId w)
    as [[[resp [runId|]]|e] w1] eqn:S; [|exact I|exact I].
  apply start_run_cases in S. destruct S as (_ & _ & S).
  destruct S as (project & _ & _ & _ & _ & -> & _ & _).
  destruct (runAnalysis _ _ _ _ _ _ _ _) as [[rs|e] w2] eqn:Run.
  - cbn zeta. unfold runAnalysis in Run.
    apply bind_Ok in Run. destruct Run as ([pr|] & wa & _ & Run);
      [|discriminate].
    cbn zeta in Run.
    apply bind_Ok in Run. destruct Run as (u1 & wb & _ & Run).
    apply bind_Ok in Run. destruct Run as (u2 & wc & _ & Run).
    apply bind_Ok in Run. destruct Run as (u3 & wd & _ & Run).
    apply bind_Ok in Run. destruct Run as (u4 & we & Up & Run).
    apply bind_Ok in Run. destruct Run as (u5 & wf & Em & Run).
    injection Run as _ <-.
    assert (Es : store wf = store we).
    { unfold when, emit in Em. now injection Em as _ <-. }
    rewrite Es. apply prisma_Ok in Up. destruct Up as [Up _].
    eapply update_sets_status; [|exact Up]. intros r. cbn. auto.
  - destruct (prisma faults _ w2) as [[u|e'] w3] eqn:Up; [|exact I].
    cbn zeta. apply prisma_Ok in Up. destruct Up as [Up _].
    eapply update_sets_status; [|exact Up]. intros r. cbn. auto.
Qed.

End Routes.

(** X20.  When the database fails no call, a request for a project with
    active prompts, with the API key configured and no run of the project
    in [processing], is answered 202 with the id of the new run, the number
    of prompts and twice that number as the estimate; the run in the
    background returns one entry per prompt and leaves the new run
    [completed], whatever the provider answered. *)
Theorem X20_started_run_completes
    engine URL_hostname provider GEMINI_API_KEY projectId project w :
  fst (project_findUnique projectId (store w)) = Ok (Some project) ->
  project_prompts project <> [] ->
  no_api_key GEMINI_API_KEY = false ->
  find (is_processing projectId) (runs (store w)) = None ->
  let ps := project_prompts project in
  let n := length ps in
  let runId := next_id (store w) in
  exists rs w',
    post_run engine URL_hostname provider no_faults GEMINI_API_KEY projectId w
    = (Sent {| statusCode := 202; body := StartedBody runId n (n * 2) |},
       Returned rs, w') /\
    map rr_promptId rs = map prompt_id ps /\
    in_progress runId n completed
      (runs (store w) ++ [new_run runId projectId n]) (runs (store w')).
Proof.
  intros Found NE Key Idle ps n runId.
  assert (Z : (n =? 0) = false).
  { apply Nat.eqb_neq. unfold n, ps.
    destruct (project_prompts project); [now contradiction NE|discriminate]. }
  assert (F : project_findUnique projectId (store w)
              = (Ok (Some project), store w)).
  { unfold project_findUnique in *. cbn [fst] in Found.
    injection Found as Found. now rewrite Found. }
  unfold post_run, start_run.
  rewrite (@bind_prisma_ok _ _ _ _ w _ _ F). cbv beta iota zeta.
  fold ps. fold n. rewrite Z, Key.
  rewrite (@bind_prisma_ok _ _ (analysisRun_findFirst_processing projectId)
             _ _ None (store w))
    by (unfold analysisRun_findFirst_processing; cbn [store]; now rewrite Idle).
  cbv beta iota.
  rewrite (@bind_prisma_ok _ _ (analysisRun_create projectId n) _ _
             (new_run runId projectId n)
             (snd (analysisRun_create projectId n (store w))))
    by reflexivity.
  unfold ret. cbn [run_id new_run store calls emitted results].
  fold runId.
  match goal with
  | |- context [runAnalysis _ _ _ _ _ _ _ ?w1] =>
      destruct (@runAnalysis_completes engine URL_hostname provider projectId
                  runId true project w1) as (rs & w' & Run & Ids & Prog)
  end.
  - unfold analysisRun_create. cbn [store snd].
    unfold project_findUnique in F |- *. cbn [projects fst].
    now injection F as ->.
  - unfold analysisRun_create. cbn [store snd runs].
    rewrite existsb_app. cbn [existsb run_id new_run]. fold runId.
    now rewrite Nat.eqb_refl, orb_true_r.
  - rewrite Run. exists rs, w'. split; [reflexivity|].
    split; [exact Ids|exact Prog].
Qed.

Lemma X20_witness :
  let w := sample_world [first_prompt; second_prompt] in
  let ps := project_prompts two_prompt_project in
  let n := length ps in
  let runId := next_id (store w) in
  exists rs w',
    post_run strict_engine no_hostname (answering "Acme is great") no_faults
      (Some (str "key")) 1 w
    = (Sent {| statusCode := 202; body := StartedBody runId n (n * 2) |},
       Returned rs, w') /\
    map rr_promptId rs = map prompt_id ps /\
    in_progress runId n completed
      (runs (store w) ++ [new_run runId 1 n]) (runs (store w')).
Proof.
  apply (@X20_started_run_completes strict_engine no_hostname
           (answering "Acme is great") (Some (str "key")) 1 two_prompt_project
           (sample_world [first_prompt; second_prompt]));
    [reflexivity|discriminate|reflexivity|reflexivity].
Defined.

(* ================================================================== *)
(** * Dashboard routes: which prompts count as mentioned *)
(* ================================================================== *)

Lemma filter_partition_length {A} (f : A -> bool) l :
  length (filter f l) + length (filter (fun x => negb (f x)) l) = length l.
Proof.
  induction l as [|x l IH]; [reflexivity|]. cbn [filter].
  destruct (f x); cbn [negb length]; lia.
Qed.

Lemma find_filter_none {A} (f : A -> bool) l :
  filter f l = [] -> find f l = None.
Proof.
  induction l as [|x l IH]; [reflexivity|]. cbn [filter find].
  destruct (f x); [discriminate|exact IH].
Qed.

Lemma find_filter_one {A} (f : A -> bool) l x :
  filter f l = [x] -> find f l = Some x.
Proof.
  induction l as [|y l IH]; [discriminate|]. cbn [filter find].
  destruct (f y); [now intros [= ->]|exact IH].
Qed.

(** X22.  The two dashboard routes count the same prompt differently when
    the prompt result has no mention row of the user's brand (as the
    result that the handler of a failed iteration stores): [GET
    /:projectId/prompts] reports it as mentioned, with position null,
    because [undefined !== null]; the summary of [GET /:projectId] counts
    it as not mentioned.  When the result has one such row the two routes
    agree. *)
Theorem X22_prompt_without_user_row_counts_as_mentioned ub r :
  (forall m, In m (ri_brandMentions r) ->
             (isUserBrand (mi_brand m) = true <->
              bm_brandId (mi_row m) = brand_id ub)) ->
  length (summary_rows r) <= 1 ->
  (summary_rows r = [] ->
   isMentioned (prompt_view_of (Some ub) r) = true /\
   pv_position (prompt_view_of (Some ub) r) = None /\
   summary_mentioned r = false) /\
  (summary_rows r <> [] ->
   isMentioned (prompt_view_of (Some ub) r) = summary_mentioned r) /\
  isMentioned (prompt_view_of None r) = true.
Proof.
  intros Coherent One.
  assert (Same : summary_rows r =
                 filter (fun m => bm_brandId (mi_row m) =? brand_id ub)
                        (ri_brandMentions r)).
  { unfold summary_rows. apply filter_ext_in. intros m Hm.
    destruct (Coherent m Hm) as [C1 C2].
    destruct (isUserBrand (mi_brand m)) eqn:U.
    - symmetry. apply Nat.eqb_eq. now apply C1.
    - symmetry. apply Nat.eqb_neq. intros E. apply C2 in E. discriminate. }
  unfold summary_mentioned, prompt_view_of, userMention_of.
  cbn [isMentioned pv_position]. rewrite Same in *.
  split; [|split; [|reflexivity]].
  - intros E. rewrite E, (find_filter_none _ _ E). auto.
  - intros NE.
    destruct (filter _ (ri_brandMentions r)) as [|m [|m' rest]] eqn:E;
      [congruence| |cbn in One; lia].
    rewrite (find_filter_one _ _ E). cbn [existsb]. now rewrite orb_false_r.
Qed.

Lemma X22_witness :
  (summary_rows bare_result = [] ->
   isMentioned (prompt_view_of (Some acme) bare_result) = true /\
   pv_position (prompt_view_of (Some acme) bare_result) = None /\
   summary_mentioned bare_result = false) /\
  (summary_rows bare_result <> [] ->
   isMentioned (prompt_view_of (Some acme) bare_result)
   = summary_mentioned bare_result) /\
  isMentioned (prompt_view_of None bare_result) = true.
Proof.
  apply (@X22_prompt_without_user_row_counts_as_mentioned acme bare_result).
  - intros m [].
  - cbn. lia.
Defined.

(** X23.  In the response of [GET /:projectId/prompts] the counts
    [mentioned] and [notMentioned] add up to [total], the number of prompt
    results of the run, whatever filter was asked for.  The prompts
    returned are, in the order of the results, exactly those that the
    filter asks for: the ones with [isMentioned] under the filter
    "mentioned", the ones without under "not-mentioned", and all of them
    under any other value; so their number is the matching count.  The two
    counts of the summary of [GET /:projectId] add up to the same
    number. *)
Theorem X23_prompt_counts_add_up userBrand flt results_ :
  let resp := prompts_response_of userBrand flt results_ in
  rp_total resp = length results_ /\
  rp_mentioned resp + rp_notMentioned resp = rp_total resp /\
  rp_prompts resp =
    filter (fun p => if jsstring_eqb flt (str "mentioned") then isMentioned p
                     else if jsstring_eqb flt (str "not-mentioned")
                          then negb (isMentioned p)
                          else true)
           (map (prompt_view_of userBrand) results_) /\
  length (rp_prompts resp) =
    (if jsstring_eqb flt (str "mentioned") then rp_mentioned resp
     else if jsstring_eqb flt (str "not-mentioned") then rp_notMentioned resp
     else rp_total resp) /\
  fst (promptsSummary results_) + snd (promptsSummary results_)
  = length results_.
Proof.
  cbn zeta. unfold prompts_response_of, promptsSummary.
  cbn [rp_total rp_mentioned rp_notMentioned rp_prompts fst snd].
  rewrite length_map. split; [reflexivity|].
  split; [now rewrite filter_partition_length, length_map|].
  split; [|split; [|apply filter_partition_length]].
  - destruct (jsstring_eqb flt (str "mentioned")); [reflexivity|].
    destruct (jsstring_eqb flt (str "not-mentioned")); [reflexivity|].
    symmetry. apply filter_all. reflexivity.
  - destruct (jsstring_eqb flt (str "mentioned")); [reflexivity|].
    destruct (jsstring_eqb flt (str "not-mentioned")); [reflexivity|].
    apply length_map.
Qed.

(* ================================================================== *)
(** * Dashboard routes: the cited domains *)
(* ================================================================== *)

Lemma own_entry_None o k : own_entry o k = None <-> ~ In k (map fst o).
Proof.
  induction o as [|[k' e] o IH]; cbn [own_entry map fst In]; [tauto|].
  destruct (jsstring_eqb k k') eqn:E.
  - apply jsstring_eqb_eq in E. subst. split; [discriminate|tauto].
  - apply jsstring_eqb_neq in E. rewrite IH. split; [intros H [C|C]|]; auto.
Qed.

Lemma update_entry_keys o k f : map fst (update_entry o k f) = map fst o.
Proof.
  unfold update_entry. rewrite map_map. apply map_ext.
  intros [k' e]. cbn [fst snd]. now destruct (jsstring_eqb k k').
Qed.

Lemma update_entry_In o k f k' e' :
  In (k', e') (update_entry o k f) ->
  exists e, In (k', e) o /\
            ((k' = k /\ e' = f e) \/ (k' <> k /\ e' = e)).
Proof.
  unfold update_entry. intros H. apply in_map_iff in H.
  destruct H as ([k0 e0] & E & H). cbn [fst snd] in E.
  destruct (jsstring_eqb k k0) eqn:K; injection E as <- <-; exists e0;
    (split; [exact H|]).
  - apply jsstring_eqb_eq in K. left. auto.
  - apply jsstring_eqb_neq in K. right. auto.
Qed.

Lemma own_entry_new o k e :
  own_entry o k = None -> own_entry (o ++ [(k, e)]) k = Some e.
Proof.
  induction o as [|[k' e'] o IH]; cbn [own_entry app].
  - now rewrite jsstring_eqb_refl.
  - destruct (jsstring_eqb k k'); [discriminate|exact IH].
Qed.

(** The callback when no own property has an inherited name, as in every
    state that the loop reaches. *)
Lemma count_citation_eq o c :
  (forall k, In k (map fst o) -> inherited k = false) ->
  count_citation o c =
  let key := cit_domain (ci_row c) in
  if inherited key
  then ThrewTypeError (str "Cannot read properties of undefined (reading 'add')")
  else
    Done (update_entry
            (match own_entry o key with
             | Some _ => o
             | None => o ++ [(key, {| de_domain := key; de_count := 0;
                                      de_urls := []; de_prompts := [] |})]
             end) key
            (fun d => {| de_domain := de_domain d;
                         de_count := S (de_count d);
                         de_urls := Set_add (de_urls d) (cit_url (ci_row c));
                         de_prompts := Set_add (de_prompts d)
                                         (ci_promptText c) |})).
Proof.
  intros NoShadow. cbn zeta. unfold count_citation.
  set (key := cit_domain (ci_row c)).
  set (fresh := {| de_domain := key; de_count := 0; de_urls := [];
                   de_prompts := [] |}).
  destruct (jsstring_eqb key proto_key) eqn:P.
  - unfold read_entry, inherited. now rewrite P.
  - destruct (own_entry o key) as [e|] eqn:Own.
    + assert (I : inherited key = false).
      { apply NoShadow.
        destruct (in_dec (list_eq_dec ascii_dec) key (map fst o)) as [I|N];
          [exact I|]. apply own_entry_None in N. congruence. }
      rewrite I. unfold read_entry. rewrite P, Own. cbv iota.
      now rewrite Own.
    + unfold inherited. rewrite P. cbn [orb].
      destruct (existsb (jsstring_eqb key) Object_prototype_keys) eqn:K.
      * unfold read_entry. rewrite P, Own, K. cbv iota.
        rewrite ?Own, ?K. reflexivity.
      * unfold read_entry. rewrite P, Own, K. cbv iota.
        now rewrite (@own_entry_new o key fresh Own).
Qed.

Lemma count_domain_app k a b :
  count_domain k (a ++ b) = count_domain k a + count_domain k b.
Proof. unfold count_domain. now rewrite filter_app, length_app. Qed.

Lemma count_domain_absent k seen :
  ~ In k (map (fun c => cit_domain (ci_row c)) seen) -> count_domain k seen = 0.
Proof.
  unfold count_domain. induction seen as [|c seen IH]; [reflexivity|].
  cbn [map In filter]. intros H.
  destruct (jsstring_eqb (cit_domain (ci_row c)) k) eqn:E.
  - apply jsstring_eqb_eq in E. tauto.
  - apply IH. tauto.
Qed.

Lemma count_domain_one c k :
  count_domain k [c] = if jsstring_eqb (cit_domain (ci_row c)) k then 1 else 0.
Proof.
  unfold count_domain. cbn [filter].
  now destruct (jsstring_eqb (cit_domain (ci_row c)) k).
Qed.

Lemma Set_add_length s x :
  length s <= length (Set_add s x) <= S (length s) /\
  1 <= length (Set_add s x).
Proof.
  unfold Set_add. destruct (existsb (jsstring_eqb x) s) eqn:E.
  - split; [lia|]. destruct s; [discriminate|cbn; lia].
  - rewrite length_app. cbn [length]. lia.
Qed.

Lemma count_citation_counted seen o c o' :
  counted seen o -> count_citation o c = Done o' ->
  counted (seen ++ [c]) o'.
Proof.
  intros (ND & Keys & Entries & NoShadow).
  rewrite (@count_citation_eq _ c NoShadow). cbn zeta.
  destruct (inherited (cit_domain (ci_row c))) eqn:Plain; [discriminate|].
  set (key := cit_domain (ci_row c)).
  set (fresh := {| de_domain := key; de_count := 0; de_urls := [];
                   de_prompts := [] |}).
  set (o1 := match own_entry o key with
             | Some _ => o
             | None => o ++ [(key, fresh)]
             end).
  intros [= <-].
  assert (K1 : forall k, In k (map fst o1) <-> In k (map fst o) \/ k = key).
  { intros k. unfold o1. destruct (own_entry o key) as [e|] eqn:Own.
    - split; [tauto|]. intros [H| ->]; [exact H|].
      destruct (in_dec (list_eq_dec ascii_dec) key (map fst o)) as [I|N];
        [exact I|]. apply own_entry_None in N. congruence.
    - rewrite map_app, in_app_iff. cbn [map fst In]. intuition congruence. }
  assert (ND1 : NoDup (map fst o1)).
  { unfold o1. destruct (own_entry o key) as [e|] eqn:Own; [exact ND|].
    apply own_entry_None in Own. rewrite map_app. cbn [map fst].
    apply NoDup_app; [exact ND|repeat constructor; cbn; tauto|].
    intros x Hx [<-|[]]. exact (Own Hx). }
  assert (E1 : forall k e, In (k, e) o1 ->
                 (In (k, e) o) \/
                 (k = key /\ e = fresh /\ ~ In key (map fst o))).
  { intros k e. unfold o1. destruct (own_entry o key) as [e0|] eqn:Own;
      [tauto|].
    apply own_entry_None in Own. rewrite in_app_iff. cbn [In].
    intros [H|[[= <- <-]|[]]]; auto. }
  split; [now rewrite update_entry_keys|]. split.
  { intros k. rewrite update_entry_keys, K1, Keys, map_app, in_app_iff.
    cbn [map In]. fold key. intuition congruence. }
  split.
  2:{ intros k. rewrite update_entry_keys, K1. intros [H| ->];
        [now apply NoShadow|exact Plain]. }
  intros k e' H. apply update_entry_In in H.
  destruct H as (e & He & [[-> ->]|[Nk ->]]); apply E1 in He.
  - cbn [de_domain de_count de_urls de_prompts].
    rewrite count_domain_app, count_domain_one. fold key.
    rewrite jsstring_eqb_refl.
    pose proof (Set_add_length (de_urls e) (cit_url (ci_row c))) as U.
    pose proof (Set_add_length (de_prompts e) (ci_promptText c)) as P.
    destruct He as [He|(_ & -> & Absent)].
    + destruct (Entries key e He) as (D & C & Lu & Lp).
      split; [exact D|lia].
    + cbn [fresh de_domain de_count de_urls de_prompts] in *.
      rewrite (@count_domain_absent key seen)
        by (intros C; apply Absent, Keys, C).
      cbn [length] in *. split; [reflexivity|lia].
  - destruct He as [He|(-> & _)]; [|congruence].
    destruct (Entries k e He) as (D & C & Lu & Lp).
    rewrite count_domain_app, count_domain_one. fold key.
    assert (F : jsstring_eqb key k = false)
      by (apply jsstring_eqb_neq; congruence).
    rewrite F. split; [exact D|lia].
Qed.

Lemma count_citations_counted cs : forall seen o o',
  counted seen o -> count_citations o cs = Done o' ->
  counted (seen ++ cs) o'.
Proof.
  induction cs as [|c cs IH]; intros seen o o' H; cbn [count_citations].
  - intros [= <-]. now rewrite app_nil_r.
  - destruct (count_citation o c) as [o1|m] eqn:E; [|discriminate].
    intros R. replace (seen ++ c :: cs) with ((seen ++ [c]) ++ cs)
      by now rewrite <- app_assoc.
    eapply IH; [|exact R]. eapply count_citation_counted; eassumption.
Qed.

Lemma counted_start : counted [] [].
Proof.
  split; [constructor|]. split; [reflexivity|].
  split; [intros k e []|intros k []].
Qed.

Lemma count_citations_throws cs : forall seen o,
  counted seen o ->
  ((exists m, count_citations o cs = ThrewTypeError m) <->
   exists c, In c cs /\ inherited (cit_domain (ci_row c)) = true).
Proof.
  induction cs as [|c cs IH]; intros seen o H; cbn [count_citations].
  - split; [intros [m C]; discriminate|intros (c & [] & _)].
  - destruct (count_citation o c) as [o1|m] eqn:E.
    + pose proof (@count_citation_counted _ _ _ _ H E) as H1.
      rewrite (IH _ _ H1).
      destruct H as (_ & _ & _ & NoShadow).
      rewrite (@count_citation_eq _ c NoShadow) in E. cbn zeta in E.
      destruct (inherited (cit_domain (ci_row c))) eqn:Plain; [discriminate|].
      split.
      * intros (c' & Hc & E'). exists c'. split; [now right|exact E'].
      * intros (c' & [<-|Hc] & E'); [congruence|eauto].
    + destruct H as (_ & _ & _ & NoShadow).
      rewrite (@count_citation_eq _ c NoShadow) in E. cbn zeta in E.
      destruct (inherited (cit_domain (ci_row c))) eqn:Plain; [|discriminate].
      split; [intros _; exists c; split; [now left|exact Plain]|eauto].
Qed.

Lemma list_sum_head a l : list_sum (a :: l) = a + list_sum l.
Proof. reflexivity. Qed.

(** Every citation adds one to the counts. *)
Lemma update_entry_sum o k f :
  NoDup (map fst o) -> In k (map fst o) ->
  (forall e, de_count (f e) = S (de_count e)) ->
  list_sum (map (fun ke => de_count (snd ke)) (update_entry o k f))
  = S (list_sum (map (fun ke => de_count (snd ke)) o)).
Proof.
  intros ND Hk Hf. induction o as [|[k' e] o IH]; [contradiction|].
  cbn [map fst] in ND. inversion ND as [|? ? Hk' ND']; subst.
  change (update_entry ((k', e) :: o) k f)
    with ((if jsstring_eqb k k' then (k', f e) else (k', e))
          :: update_entry o k f).
  cbn [map]. rewrite !list_sum_head.
  destruct (jsstring_eqb k k') eqn:E; cbn [snd].
  - apply jsstring_eqb_eq in E. subst k'. rewrite Hf.
    assert (Same : update_entry o k f = o).
    { unfold update_entry. rewrite <- (map_id o) at 2. apply map_ext_in.
      intros [k0 e0] H0. cbn [fst snd].
      destruct (jsstring_eqb k k0) eqn:E0; [|reflexivity].
      apply jsstring_eqb_eq in E0. subst k0. exfalso. apply Hk'.
      now apply (in_map fst) in H0. }
    rewrite Same. lia.
  - apply jsstring_eqb_neq in E.
    destruct Hk as [C|Hk]; [cbn in C; congruence|].
    rewrite (IH ND' Hk). lia.
Qed.

Lemma count_citations_sum cs : forall seen o o',
  counted seen o -> count_citations o cs = Done o' ->
  list_sum (map (fun ke => de_count (snd ke)) o')
  = list_sum (map (fun ke => de_count (snd ke)) o) + length cs.
Proof.
  induction cs as [|c cs IH]; intros seen o o' H; cbn [count_citations].
  - intros [= <-]. cbn. lia.
  - destruct (count_citation o c) as [o1|m] eqn:E; [|discriminate].
    intros R. pose proof (@count_citation_counted _ _ _ _ H E) as H1.
    rewrite (IH _ _ _ H1 R). cbn [length].
    destruct H as (ND & Keys & _ & NoShadow).
    rewrite (@count_citation_eq _ c NoShadow) in E. cbn zeta in E.
    destruct (inherited (cit_domain (ci_row c))); [discriminate|].
    injection E as <-.
    destruct (own_entry o (cit_domain (ci_row c))) as [e|] eqn:Own.
    + rewrite update_entry_sum; [lia|exact ND| |reflexivity].
      destruct (in_dec (list_eq_dec ascii_dec) (cit_domain (ci_row c))
                  (map fst o)) as [I|N]; [exact I|].
      apply own_entry_None in N. congruence.
    + apply own_entry_None in Own. rewrite update_entry_sum.
      * rewrite map_app, list_sum_app. cbn. lia.
      * rewrite map_app. cbn [map fst].
        apply NoDup_app; [exact ND|repeat constructor; cbn; tauto|].
        intros x Hx [<-|[]]. exact (Own Hx).
      * rewrite map_app, in_app_iff. right. now left.
      * reflexivity.
Qed.

Lemma filter_split_Permutation {A} (f : A -> bool) l :
  Permutation (filter f l ++ filter (fun x => negb (f x)) l) l.
Proof.
  induction l as [|x l IH]; [constructor|]. cbn [filter].
  destruct (f x); cbn [negb app].
  - now constructor.
  - rewrite <- Permutation_middle. now constructor.
Qed.

Lemma Object_values_Permutation {V} (o : list (jsstring * V)) :
  Permutation (Object_values o) (map snd o).
Proof.
  unfold Object_values. apply Permutation_map.
  rewrite Array_sort_Permutation. apply filter_split_Permutation.
Qed.

Lemma Array_sort_ext {A} (cmp cmp' : A -> A -> Z) l :
  (forall a b, cmp a b = cmp' a b) -> Array_sort cmp l = Array_sort cmp' l.
Proof.
  intros H. unfold Array_sort. induction l as [|x l IH]; [reflexivity|].
  cbn [fold_right]. rewrite IH. generalize (fold_right (sort_insert cmp') [] l).
  intros s. induction s as [|y s IHs]; [reflexivity|].
  cbn [sort_insert]. now rewrite H, IHs.
Qed.

Lemma count_citations_message cs : forall seen o m,
  counted seen o ->
  count_citations o cs = ThrewTypeError m ->
  m = str "Cannot read properties of undefined (reading 'add')".
Proof.
  induction cs as [|c cs IH]; intros seen o m H; cbn [count_citations];
    [discriminate|].
  destruct (count_citation o c) as [o1|m1] eqn:E.
  - apply (IH (seen ++ [c])). eapply count_citation_counted; eassumption.
  - destruct H as (_ & _ & _ & NoShadow).
    rewrite (@count_citation_eq _ c NoShadow) in E. cbn zeta in E.
    destruct (inherited (cit_domain (ci_row c))); [|discriminate].
    injection E as <-. now intros [= <-].
Qed.

(** X24.  [GET /:projectId/citations] fails with a [TypeError] exactly when
    a citation of the run has a domain that is the name of a property that
    plain objects inherit ([constructor], [toString], [__proto__], ...), as
    happens for a cited URL that does not parse and reads like that: the
    object used as a map finds the inherited value instead of creating an
    entry. *)
Theorem X24_inherited_domain_name_throws limit citations_ :
  ((exists m, citations_response_of limit citations_ = ThrewTypeError m) <->
   exists c, In c citations_ /\ inherited (cit_domain (ci_row c)) = true) /\
  (forall m, citations_response_of limit citations_ = ThrewTypeError m ->
             m = str "Cannot read properties of undefined (reading 'add')").
Proof.
  pose proof (@count_citations_throws citations_ [] [] counted_start) as T.
  pose proof (fun m => @count_citations_message citations_ [] [] m
                         counted_start) as M.
  unfold citations_response_of, domain_rows.
  destruct (count_citations [] citations_) as [o|m0] eqn:E.
  - split; [|discriminate]. split; [intros [m H]; discriminate|].
    intros H. apply T in H. destruct H as [m H]. discriminate.
  - split.
    + split; [intros _; apply T; eauto|eauto].
    + intros m [= <-]. now apply M.
Qed.

Lemma Permutation_list_sum l l' :
  Permutation l l' -> list_sum l = list_sum l'.
Proof.
  induction 1 as [|x l l' _ IH|x y l|l l' l'' _ IH1 _ IH2];
    rewrite ?list_sum_head; try lia; congruence.
Qed.

(** X25.  When the route does not throw, the rows of [domains] before the
    slice are right: there is exactly one row per domain that occurs among
    the citations; its [citationCount] is the number of citations of that
    domain, and its [uniqueUrls] and [promptsCited] lie between 1 and that
    number; the counts of all rows add up to [totalCitations]; the rows
    stand in descending order of [citationCount]; and the response carries
    the first rows of this list, with the number of rows as
    [uniqueDomains]. *)
Theorem X25_domain_rows_count_the_citations citations_ rows :
  domain_rows citations_ = Done rows ->
  NoDup (map dr_domain rows) /\
  (forall k, In k (map dr_domain rows) <->
             In k (map (fun c => cit_domain (ci_row c)) citations_)) /\
  (forall r, In r rows ->
     dr_citationCount r = count_domain (dr_domain r) citations_ /\
     1 <= dr_uniqueUrls r <= dr_citationCount r /\
     1 <= dr_promptsCited r <= dr_citationCount r) /\
  list_sum (map dr_citationCount rows) = length citations_ /\
  (forall i j a b,
     i < j -> nth_error rows i = Some a -> nth_error rows j = Some b ->
     dr_citationCount b <= dr_citationCount a) /\
  (forall limit,
     citations_response_of limit citations_
     = Done {| cr_totalCitations := length citations_;
               cr_uniqueDomains := length rows;
               cr_domains := slice_to limit rows |}).
Proof.
  intros H. pose proof H as H0. unfold domain_rows in H.
  destruct (count_citations [] citations_) as [o|m] eqn:E; [|discriminate].
  injection H as H.
  pose proof (@count_citations_counted citations_ [] [] o counted_start E)
    as (ND & Keys & Entries & _). cbn [app] in Keys, Entries.
  pose proof (@count_citations_sum citations_ [] [] o counted_start E) as Sum.
  cbn [map list_sum Nat.add] in Sum.
  set (row_of := fun d : domain_entry =>
                   {| dr_domain := de_domain d;
                      dr_citationCount := de_count d;
                      dr_uniqueUrls := length (de_urls d);
                      dr_promptsCited := length (de_prompts d);
                      dr_percentage :=
                        (Q_of_nat (de_count d)
                         / Q_of_nat (length citations_) * 100)%Q |}) in *.
  set (key := fun r : domain_row => (- Z.of_nat (dr_citationCount r))%Z).
  assert (Sorted : rows = Array_sort (fun a b => (key a - key b)%Z)
                            (map row_of (Object_values o))).
  { rewrite <- H. apply Array_sort_ext. intros a b. unfold key. lia. }
  assert (Perm : Permutation rows (map row_of (map snd o))).
  { rewrite Sorted, Array_sort_Permutation.
    apply Permutation_map, Object_values_Permutation. }
  assert (Domains : map dr_domain (map row_of (map snd o)) = map fst o).
  { rewrite !map_map. apply map_ext_in. intros [k e] Hk. cbn [snd fst].
    now destruct (Entries k e Hk). }
  assert (Counts : map dr_citationCount (map row_of (map snd o))
                   = map (fun ke => de_count (snd ke)) o).
  { rewrite !map_map. reflexivity. }
  split.
  { eapply Permutation_NoDup; [symmetry; apply Permutation_map, Perm|].
    now rewrite Domains. }
  split.
  { intros k. rewrite <- Keys, <- Domains.
    split; apply Permutation_in; [|symmetry]; apply Permutation_map, Perm. }
  split.
  { intros r Hr. apply (Permutation_in _ Perm) in Hr.
    rewrite map_map in Hr. apply in_map_iff in Hr.
    destruct Hr as ([k e] & <- & Hk). cbn [snd].
    destruct (Entries k e Hk) as (D & C & Lu & Lp).
    cbn [row_of dr_domain dr_citationCount dr_uniqueUrls dr_promptsCited].
    rewrite D. auto. }
  split.
  { rewrite (Permutation_list_sum (Permutation_map dr_citationCount Perm)).
    now rewrite Counts. }
  split.
  { intros i j a b Hij Ha Hb.
    pose proof (@Array_sort_ascending _ key (map row_of (Object_values o)))
      as Asc.
    rewrite <- Sorted in Asc. specialize (Asc i j a b Hij Ha Hb).
    unfold key in Asc. lia. }
  intros limit. unfold citations_response_of. rewrite H0, E.
  assert (L : length o = length rows).
  { rewrite (Permutation_length Perm), !length_map. reflexivity. }
  now rewrite L.
Qed.

Lemma X25_witness :
  NoDup (map dr_domain sample_domain_rows) /\
  (forall k, In k (map dr_domain sample_domain_rows) <->
             In k (map (fun c => cit_domain (ci_row c)) sample_citations)) /\
  (forall r, In r sample_domain_rows ->
     dr_citationCount r = count_domain (dr_domain r) sample_citations /\
     1 <= dr_uniqueUrls r <= dr_citationCount r /\
     1 <= dr_promptsCited r <= dr_citationCount r) /\
  list_sum (map dr_citationCount sample_domain_rows)
  = length sample_citations /\
  (forall i j a b,
     i < j -> nth_error sample_domain_rows i = Some a ->
     nth_error sample_domain_rows j = Some b ->
     dr_citationCount b <= dr_citationCount a) /\
  (forall limit,
     citations_response_of limit sample_citations
     = Done {| cr_totalCitations := length sample_citations;
               cr_uniqueDomains := length sample_domain_rows;
               cr_domains := slice_to limit sample_domain_rows |}).
Proof.
  apply (@X25_domain_rows_count_the_citations sample_citations
           sample_domain_rows).
  vm_compute. reflexivity.
Defined.
(* ================================================================== *)
(** * Doubles: the error of one rounding *)
(* ================================================================== *)

Section Rounding.

Local Open Scope Q_scope.

Lemma round_half_even_close n d :
  (0 < d)%Z ->
  (- d <= 2 * (round_half_even n d * d - n) <= d)%Z.
Proof.
  intros Hd. unfold round_half_even.
  pose proof (Z.div_mod n d ltac:(lia)) as E.
  pose proof (Z.mod_pos_bound n d Hd) as B.
  set (k := (n / d)%Z) in *. set (r := (n mod d)%Z) in *.
  destruct (Z.compare_spec (2 * r) d); [destruct (Z.even k)| |]; nia.
Qed.

Lemma nearest_integer x :
  x - (1#2) <= inject_Z (round_half_even (Qnum x) (QDen x)) <= x + (1#2).
Proof.
  destruct x as [n d]. cbn [Qnum Qden].
  pose proof (@round_half_even_close n (Zpos d) ltac:(lia)) as C.
  set (m := round_half_even n (Zpos d)) in *.
  unfold Qle, Qminus, Qplus, Qopp, inject_Z. cbn [Qnum Qden].
  split; nia.
Qed.

Lemma pow2_pos e : 0 < 2 ^ e.
Proof. now apply Qpower_0_lt. Qed.

Lemma inject_pow2 a : (0 <= a)%Z -> inject_Z (2 ^ a) == 2 ^ a.
Proof. intros H. now rewrite Zpower_Qpower. Qed.


Lemma Qmake_num_den q : q * inject_Z (QDen q) == inject_Z (Qnum q).
Proof.
  destruct q as [n d]. unfold Qeq, Qmult, inject_Z. cbn [Qnum Qden]. lia.
Qed.

Lemma pow2_succ e : 2 ^ (e + 1) == 2 * 2 ^ e.
Proof. rewrite Qpower_plus by discriminate. change (2 ^ 1) with 2. ring. Qed.

Lemma log2_Q n :
  (0 < n)%Z -> 2 ^ Z.log2 n <= inject_Z n /\ inject_Z n < 2 * 2 ^ Z.log2 n.
Proof.
  intros H. destruct (Z.log2_spec n H) as [L U].
  pose proof (Z.log2_nonneg n) as N.
  rewrite <- pow2_succ, <- !inject_pow2 by lia.
  rewrite <- Zle_Qle, <- Zlt_Qlt. unfold Z.succ in U. lia.
Qed.

Lemma Qnum_pos q : 0 < q -> (0 < Qnum q)%Z.
Proof. unfold Qlt. cbn. lia. Qed.

(** The quotient by the power of the exponent has a significand of 53
    bits. *)
Lemma normal_exponent_spec q :
  0 < q ->
  2 ^ 52 * 2 ^ normal_exponent q <= q /\
  q < 2 ^ 53 * 2 ^ normal_exponent q.
Proof.
  intros Hq. unfold normal_exponent.
  set (a := Z.log2 (Qnum q)). set (b := Z.log2 (QDen q)).
  destruct (log2_Q (Qnum_pos Hq)) as [An Bn]. fold a in An, Bn.
  destruct (@log2_Q (QDen q) ltac:(lia)) as [Ad Bd]. fold b in Ad, Bd.
  pose proof (Qmake_num_den q) as E.
  set (N := inject_Z (Qnum q)) in *. set (D := inject_Z (QDen q)) in *.
  assert (Ea : 2 ^ a == 2 ^ (a - b - 52) * 2 ^ 52 * 2 ^ b).
  { rewrite <- !Qpower_plus by discriminate. apply Qpower_comp; [reflexivity|lia]. }
  pose proof (pow2_pos a) as Pa. pose proof (pow2_pos b) as Pb.
  pose proof (pow2_pos (a - b - 52)) as P0.
  set (A := 2 ^ a) in *. set (B := 2 ^ b) in *.
  set (e0 := (a - b - 52)%Z) in *. set (p0 := 2 ^ e0) in *.
  assert (K : 2 ^ 52 == 4503599627370496) by reflexivity.
  assert (K' : 2 ^ 53 == 9007199254740992) by reflexivity.
  rewrite K in Ea. rewrite K, K'.
  assert (Lo : 2251799813685248 * p0 <= q).
  { apply Qnot_lt_le. intros C. nra. }
  assert (Hi : q < 9007199254740992 * p0).
  { apply Qnot_le_lt. intros C. nra. }
  assert (X : q / p0 * p0 == q) by (field; lra).
  destruct (Qle_bool 4503599627370496 (q / p0)) eqn:T.
  - apply Qle_bool_iff in T.
    fold p0. split; [|lra]. rewrite <- X. nra.
  - assert (T' : q / p0 < 4503599627370496).
    { apply Qnot_le_lt. intros C. apply Qle_bool_iff in C. congruence. }
    assert (E1 : p0 == 2 * 2 ^ (e0 - 1)).
    { unfold p0. rewrite <- pow2_succ. apply Qpower_comp; [reflexivity|lia]. }
    pose proof (pow2_pos (e0 - 1)).
    set (x := q / p0) in *. split; [lra|nra].
Qed.

Lemma last_place_normal q :
  0 < q -> 2 ^ (-1020) <= q -> last_place q = normal_exponent q.
Proof.
  intros Hq Big. unfold last_place. apply Z.max_l.
  destruct (Z.le_gt_cases (-1074) (normal_exponent q)) as [|C]; [assumption|].
  exfalso. destruct (normal_exponent_spec Hq) as [_ Hi].
  assert (P : 2 ^ normal_exponent q <= 2 ^ (-1075))
    by (apply Qpower_le_compat_l; [lia|discriminate]).
  assert (K : 2 ^ 53 * 2 ^ (-1075) < 2 ^ (-1020)) by reflexivity.
  assert (K' : 0 < 2 ^ 53) by reflexivity.
  set (a := 2 ^ 53) in *. set (b := 2 ^ (-1075)) in *.
  set (c := 2 ^ (-1020)) in *. set (p := 2 ^ normal_exponent q) in *.
  nra.
Qed.

Lemma round_positive_close q :
  0 < q -> 2 ^ (-1020) <= q ->
  q * (1 - unit_roundoff) <= round_positive q <= q * (1 + unit_roundoff).
Proof.
  intros Hq Big. unfold round_positive.
  rewrite (last_place_normal Hq Big).
  destruct (normal_exponent_spec Hq) as [Lo _].
  pose proof (pow2_pos (normal_exponent q)) as Pp.
  set (p := 2 ^ normal_exponent q) in *.
  pose proof (nearest_integer (q / p)) as [M1 M2].
  set (m := inject_Z (round_half_even (Qnum (q / p)) (QDen (q / p)))) in *.
  assert (X : q / p * p == q) by (field; lra).
  set (x := q / p) in *.
  assert (K : 2 ^ 52 == 4503599627370496) by reflexivity.
  rewrite K in Lo. unfold unit_roundoff.
  split; nra.
Qed.

Lemma round_double_positive q : 0 < q -> round_double q = round_positive q.
Proof.
  intros H. apply Qnum_pos in H. unfold round_double.
  destruct (Qnum q); [lia|reflexivity|lia].
Qed.

Lemma share_of_zero (total : nat) : share_of 0 total = 0.
Proof. reflexivity. Qed.

Lemma share_of_close (mentions total : nat) :
  (0 < mentions <= total)%nat -> (Z.of_nat total < 2 ^ 53)%Z ->
  let exact := Q_of_nat mentions * 100 in
  exact * (1 - unit_roundoff) * (1 - unit_roundoff)
  <= share_of mentions total * Q_of_nat total
  <= exact * (1 + unit_roundoff) * (1 + unit_roundoff).
Proof.
  intros [Hm Hle] Ht. cbn zeta. unfold share_of.
  assert (C : 1 <= Q_of_nat mentions)
    by (unfold Q_of_nat; rewrite <- (Zle_Qle 1); lia).
  assert (T1 : Q_of_nat mentions <= Q_of_nat total)
    by (unfold Q_of_nat; rewrite <- Zle_Qle; lia).
  assert (T2 : Q_of_nat total <= 9007199254740992)
    by (unfold Q_of_nat; rewrite <- (Zle_Qle _ 9007199254740992); lia).
  set (c := Q_of_nat mentions) in *. set (t := Q_of_nat total) in *.
  assert (X : c / t * t == c) by (field; lra).
  set (q1 := c / t) in *.
  assert (K : 2 ^ (-1020) <= 1 # 18014398509481984) by (vm_compute; discriminate).
  assert (P1 : 0 < q1) by nra.
  assert (B1 : 2 ^ (-1020) <= q1).
  { apply Qle_trans with (1 # 18014398509481984); [exact K|]. nra. }
  rewrite (round_double_positive P1).
  pose proof (round_positive_close P1 B1) as [L1 U1].
  set (r1 := round_positive q1) in *. unfold unit_roundoff in *.
  assert (P2 : 0 < r1 * 100) by nra.
  assert (B2 : 2 ^ (-1020) <= r1 * 100).
  { apply Qle_trans with (1 # 18014398509481984); [exact K|]. nra. }
  rewrite (round_double_positive P2).
  pose proof (round_positive_close P2 B2) as [L2 U2].
  set (r2 := round_positive (r1 * 100)) in *. unfold unit_roundoff in *.
  split; nra.
Qed.

(** A share is the exact percentage up to three roundings' worth of
    relative error. *)
Lemma share_of_near (mentions total : nat) :
  (mentions <= total)%nat -> (0 < total)%nat -> (Z.of_nat total < 2 ^ 53)%Z ->
  exact_share mentions total * (1 - 3 * unit_roundoff)
  <= share_of mentions total
  <= exact_share mentions total * (1 + 3 * unit_roundoff).
Proof.
  intros Hle Ht Hb. destruct mentions as [|c].
  - rewrite share_of_zero. unfold exact_share. change (Q_of_nat 0) with 0.
    unfold unit_roundoff.
    setoid_replace (0 / Q_of_nat total * 100) with 0 by (unfold Qdiv; ring).
    lra.
  - pose proof (@share_of_close (S c) total ltac:(lia) Hb) as B. cbn zeta in B.
    assert (T : 0 < Q_of_nat total)
      by (unfold Q_of_nat; rewrite <- (Zlt_Qlt 0); lia).
    assert (C : 0 < Q_of_nat (S c))
      by (unfold Q_of_nat; rewrite <- (Zlt_Qlt 0); lia).
    assert (E : exact_share (S c) total * Q_of_nat total == Q_of_nat (S c) * 100)
      by (unfold exact_share; field; lra).
    set (x := exact_share (S c) total) in *. set (s := share_of (S c) total) in *.
    set (t := Q_of_nat total) in *. set (m := Q_of_nat (S c)) in *.
    unfold unit_roundoff in *. split; nra.
Qed.

(** The shares of a list of rows, added up, against the exact
    percentages. *)
Lemma Qsum_shares_close {A} (f : A -> nat) (total : nat) l :
  (0 < total)%nat -> (Z.of_nat total < 2 ^ 53)%Z ->
  (forall x, In x l -> (f x <= total)%nat) ->
  forall acc,
    let sum := fold_left Qplus (map (fun x => share_of (f x) total) l) acc in
    let exact := Q_of_nat (list_sum (map f l)) * 100 in
    acc * Q_of_nat total
    + exact * (1 - unit_roundoff) * (1 - unit_roundoff)
    <= sum * Q_of_nat total
    <= acc * Q_of_nat total
       + exact * (1 + unit_roundoff) * (1 + unit_roundoff).
Proof.
  intros Ht Hb. induction l as [|x l IH]; intros Hle acc; cbn zeta.
  - cbn [map fold_left]. change (Q_of_nat (list_sum [])) with 0.
    unfold unit_roundoff. lra.
  - cbn [map fold_left].
    change (list_sum (f x :: map f l)) with (f x + list_sum (map f l))%nat.
    specialize (IH (fun y Hy => Hle y (or_intror Hy)) (acc + share_of (f x) total)).
    cbn zeta in IH.
    assert (E : Q_of_nat (f x + list_sum (map f l))
                == Q_of_nat (f x) + Q_of_nat (list_sum (map f l))).
    { unfold Q_of_nat. now rewrite Nat2Z.inj_add, inject_Z_plus. }
    rewrite E.
    set (S := fold_left Qplus _ _) in *. set (T := Q_of_nat total) in *.
    set (R := Q_of_nat (list_sum (map f l))) in *.
    assert (One : Q_of_nat (f x) * 100 * (1 - unit_roundoff) * (1 - unit_roundoff)
                  <= share_of (f x) total * T
                  <= Q_of_nat (f x) * 100 * (1 + unit_roundoff) * (1 + unit_roundoff)).
    { destruct (f x) as [|c] eqn:Ex.
      - rewrite share_of_zero. change (Q_of_nat 0) with 0.
        unfold unit_roundoff. lra.
      - apply share_of_close; [|exact Hb]. split; [lia|].
        rewrite <- Ex. apply Hle. now left. }
    set (c := Q_of_nat (f x)) in *. set (s := share_of (f x) total) in *.
    unfold unit_roundoff in *. lra.
Qed.

Lemma share_tolerance_covers :
  100 - share_tolerance <= 100 * (1 - unit_roundoff) * (1 - unit_roundoff) /\
  100 * (1 + unit_roundoff) * (1 + unit_roundoff) <= 100 + share_tolerance.
Proof. split; apply Qle_bool_imp_le; reflexivity. Qed.

End Rounding.

Lemma In_le_list_sum {A} (f : A -> nat) l x :
  In x l -> f x <= list_sum (map f l).
Proof.
  induction l as [|y l IH]; [contradiction|].
  change (list_sum (map f (y :: l))) with (f y + list_sum (map f l)).
  intros [->|H]; [lia|]. specialize (IH H). lia.
Qed.

(** The shares of the rows of a run, whose counts add up to the total, add
    up to 100 within the tolerance. *)
Lemma shares_sum_close {A} (f : A -> nat) l :
  let total := list_sum (map f l) in
  0 < total -> (Z.of_nat total < 2 ^ 53)%Z ->
  (100 - share_tolerance <= Qsum (map (fun x => share_of (f x) total) l)
   <= 100 + share_tolerance)%Q.
Proof.
  cbn zeta. intros Ht Hb.
  pose proof (@Qsum_shares_close A f _ l Ht Hb
                (fun x Hx => In_le_list_sum f l x Hx) 0%Q) as B.
  cbn zeta in B. fold (Qsum (map (fun x => share_of (f x) (list_sum (map f l))) l)) in B.
  destruct share_tolerance_covers as [Lo Hi].
  assert (T : (0 < Q_of_nat (list_sum (map f l)))%Q)
    by (unfold Q_of_nat; rewrite <- (Zlt_Qlt 0); lia).
  set (S := Qsum _) in *. set (t := Q_of_nat _) in *.
  unfold unit_roundoff, share_tolerance in *.
  split; nra.
Qed.

(** [round_double] against the standard library's specification of
    binary64 arithmetic: the two computations of a share agree on all
    counts up to 40, on thirds, on larger totals and on a count equal to
    the total. *)
Example share_of_agrees_with_binary64 :
  forallb agrees_with_binary64
    (count_pairs 40 ++ [(1, 3); (2, 3); (500, 1000); (1234, 4321); (7, 4999);
                        (4999, 4999)]) = true.
Proof. vm_compute. reflexivity. Qed.
(* ================================================================== *)
(** * Share of voice *)
(* ================================================================== *)

Lemma NoDup_map_filter {A B} (f : A -> B) (g : A -> bool) l :
  NoDup (map f l) -> NoDup (map f (filter g l)).
Proof.
  induction l as [|x l IH]; [trivial|]. cbn [map filter].
  intros ND. inversion ND as [|? ? Hx ND']; subst.
  destruct (g x); [|now apply IH]. cbn [map]. constructor; [|now apply IH].
  intros C. apply Hx. apply in_map_iff in C. destruct C as (y & E & Hy).
  apply filter_In in Hy. apply in_map_iff. exists y. tauto.
Qed.

Lemma snapshots_from_start d :
  NoDup (map ms_id (snapshots d)) ->
  (forall s, In s (snapshots d) -> ms_id s < next_id d) ->
  snapshots_from (snapshots d) d.
Proof.
  intros ND Lt. repeat split; try assumption.
  intros s Hs. left. exists s. auto.
Qed.

(** An upsert writes no share and keeps the ids apart. *)
Lemma upsert_snapshots_from old runId brandId v d r d' :
  metricsSnapshot_upsert runId brandId v d = (r, d') ->
  snapshots_from old d -> snapshots_from old d'.
Proof.
  unfold metricsSnapshot_upsert. intros H (ND & Lt & Old & Un).
  destruct (existsb (snapshot_is runId brandId) (snapshots d));
    injection H as _ <-; unfold snapshots_from;
    cbn [snapshots next_id with_snapshots].
  - assert (Ids : map ms_id (map (fun s => if snapshot_is runId brandId s
                                           then snapshot_updated s v else s)
                               (snapshots d)) = map ms_id (snapshots d)).
    { rewrite map_map. apply map_ext. intros s.
      now destruct (snapshot_is runId brandId s). }
    rewrite Ids. split; [exact ND|]. split; [|split; [exact Old|]].
    + intros s' Hs'. apply in_map_iff in Hs'. destruct Hs' as (s & <- & Hs).
      specialize (Lt s Hs). now destruct (snapshot_is runId brandId s).
    + intros s' Hs'. apply in_map_iff in Hs'. destruct Hs' as (s & <- & Hs).
      specialize (Un s Hs). now destruct (snapshot_is runId brandId s).
  - rewrite map_app. cbn [map ms_id snapshot_created].
    split; [|split; [|split]].
    + apply NoDup_app; [exact ND|repeat constructor; intros []|].
      intros x Hx [<-|[]]. apply in_map_iff in Hx.
      destruct Hx as (s & E & Hs). specialize (Lt s Hs). lia.
    + intros s Hs. apply in_app_iff in Hs. destruct Hs as [Hs|[<-|[]]].
      * specialize (Lt s Hs). lia.
      * cbn. lia.
    + intros s0 Hs0. specialize (Old s0 Hs0). lia.
    + intros s Hs. apply in_app_iff in Hs. destruct Hs as [Hs|[<-|[]]].
      * now apply Un.
      * right. split; [|reflexivity].
        intros s0 Hs0. specialize (Old s0 Hs0). cbn. lia.
Qed.

Lemma upsert_pass_snapshots_from faults runId old valid brands : forall w w',
  forM (fun b => prisma faults (metricsSnapshot_upsert runId (brand_id b)
                                  (brand_metrics valid b))) brands w
  = (Ok tt, w') ->
  snapshots_from old (store w) -> snapshots_from old (store w').
Proof.
  induction brands as [|b0 bs IH]; intros w w'.
  - now intros [= <-].
  - cbn [forM]. intros H. apply bind_Ok in H. destruct H as (u & w1 & H1 & H2).
    apply prisma_Ok in H1. destruct H1 as [H1 _].
    intros I. apply (IH w1 w' H2). eapply upsert_snapshots_from; eassumption.
Qed.

(** The snapshots of the run after an aggregation that completed, from the
    snapshots [targets] of the run that its second pass read. *)
Lemma calculateMetrics_shares faults runId project w w' :
  NoDup (map ms_id (snapshots (store w))) ->
  (forall s, In s (snapshots (store w)) -> ms_id s < next_id (store w)) ->
  calculateMetrics faults runId project w = (Ok tt, w') ->
  exists targets,
    (forall s, In s targets -> share_untouched (snapshots (store w)) s) /\
    (forall b, In b (project_brands project) ->
               exists s, In s targets /\ ms_brandId s = brand_id b) /\
    let total := list_sum (map mentionCount targets) in
    run_snapshots runId w' =
    if 0 <? total
    then map (fun s => set_shareOfVoice (share_of (mentionCount s) total) s)
             targets
    else targets.
Proof.
  intros ND Lt H. apply calculateMetrics_trace in H.
  destruct H as (prs & w0 & wm & F & U & S). cbn zeta in S.
  unfold promptResult_findMany in F. injection F as _ E0.
  pose proof (@upsert_pass_snapshots_from faults runId (snapshots (store w))
                _ _ _ _ U) as I.
  rewrite <- E0 in I. specialize (I (@snapshots_from_start _ ND Lt)).
  destruct I as (ND' & _ & _ & Un).
  set (targets := filter (of_run runId) (snapshots (store wm))) in *.
  exists targets. split; [|split].
  - intros s Hs. apply Un. unfold targets in Hs. now apply filter_In in Hs.
  - intros b Hb.
    destruct (@upsert_pass_settled _ _ _ _ _ _ U b (or_introl Hb)) as [Ex _].
    apply existsb_exists in Ex. destruct Ex as (s & Hs & Is).
    unfold snapshot_is in Is. apply andb_true_iff in Is.
    destruct Is as [Ir Ib]. exists s. split.
    + unfold targets. apply filter_In. auto.
    + now apply Nat.eqb_eq.
  - cbn zeta. unfold run_snapshots. rewrite S.
    destruct (0 <? list_sum (map mentionCount targets)); [|reflexivity].
    cbn [snapshots with_snapshots].
    rewrite filter_map_commute by apply share_updates_run. fold targets.
    apply map_ext_in. intros s Hs.
    apply share_updates_own; [|assumption|reflexivity].
    unfold targets. now apply NoDup_map_filter.
Qed.

(** C3, amended.  After an aggregation that completed (the ids of the
    snapshots being distinct and below the next id, as ids of a table are),
    every brand of the project has a snapshot of the run.  If the run-wide
    total of [mentionCount] is greater than 0, the [shareOfVoice] of each
    snapshot of the run is the double that (mentionCount / total) x 100
    evaluates to; for a total below 2^53 it is the exact percentage up to a
    relative error of 3 x 2^-53, and the values add up, in exact arithmetic,
    to 100 within 10^-13.  If the total is 0, no [shareOfVoice] is written:
    the snapshots exist, one that the aggregation created has
    [shareOfVoice] null (not 0), and one that existed before keeps the value
    it had.  For a run without earlier snapshots and brands with distinct
    ids there is exactly one snapshot per brand, in the order of the brands,
    and with a total of 0 every [shareOfVoice] is null. *)
Theorem C3_share_of_voice faults runId project w w' :
  NoDup (map ms_id (snapshots (store w))) ->
  (forall s, In s (snapshots (store w)) -> ms_id s < next_id (store w)) ->
  calculateMetrics faults runId project w = (Ok tt, w') ->
  let snaps := run_snapshots runId w' in
  let total := list_sum (map mentionCount snaps) in
  (forall b, In b (project_brands project) ->
             exists s, In s snaps /\ ms_brandId s = brand_id b) /\
  (0 < total ->
   (forall s, In s snaps ->
              shareOfVoice s = Some (share_of (mentionCount s) total)) /\
   ((Z.of_nat total < 2 ^ 53)%Z ->
    (forall s, In s snaps ->
       (exact_share (mentionCount s) total * (1 - 3 * unit_roundoff)
        <= share_of (mentionCount s) total
        <= exact_share (mentionCount s) total * (1 + 3 * unit_roundoff))%Q) /\
    (100 - share_tolerance <= Qsum (somes (map shareOfVoice snaps))
     <= 100 + share_tolerance)%Q)) /\
  (total = 0 ->
   forall s, In s snaps -> share_untouched (snapshots (store w)) s) /\
  ((forall s, In s (snapshots (store w)) -> ms_analysisRunId s <> runId) ->
   NoDup (map brand_id (project_brands project)) ->
   map ms_brandId snaps = map brand_id (project_brands project) /\
   (total = 0 -> forall s, In s snaps -> shareOfVoice s = None)).
Proof.
  intros ND Lt H.
  destruct (@calculateMetrics_shares _ _ _ _ _ ND Lt H) as (targets & Un & Br & Rows).
  cbn zeta in *. set (T := list_sum (map mentionCount targets)) in *.
  assert (ET : list_sum (map mentionCount (run_snapshots runId w')) = T).
  { rewrite Rows. destruct (0 <? T); [|reflexivity]. now rewrite map_map. }
  rewrite ET. split; [|split; [|split]].
  - intros b Hb. destruct (Br b Hb) as (s & Hs & Eb). rewrite Rows.
    destruct (0 <? T); [|eauto].
    exists (set_shareOfVoice (share_of (mentionCount s) T) s).
    split; [|exact Eb]. apply in_map_iff. eauto.
  - intros Pos. rewrite Rows.
    destruct (Nat.ltb_spec 0 T) as [_|]; [|lia]. split; [|intros Hb; split].
    + intros s Hs. apply in_map_iff in Hs. destruct Hs as (s0 & <- & _).
      reflexivity.
    + intros s Hs. apply in_map_iff in Hs. destruct Hs as (s0 & <- & Hs0).
      cbn [mentionCount set_shareOfVoice].
      apply share_of_near; [|exact Pos|exact Hb].
      apply (In_le_list_sum mentionCount targets s0 Hs0).
    + rewrite map_map. cbn [shareOfVoice set_shareOfVoice].
      rewrite somes_map_Some. now apply (shares_sum_close mentionCount targets).
  - intros Zero. rewrite Rows.
    destruct (Nat.ltb_spec 0 T) as [|_]; [lia|]. exact Un.
  - intros Fresh NDb.
    destruct (calculateMetrics_rows _ _ _ NDb Fresh H)
      as (created & Bc & Sh & Rows').
    cbn zeta in Rows'.
    assert (ET' : list_sum (map mentionCount (run_snapshots runId w'))
                  = list_sum (map mentionCount created)).
    { rewrite Rows'.
      destruct (0 <? list_sum (map mentionCount created));
        [now rewrite map_map|reflexivity]. }
    rewrite ET in ET'. rewrite <- ET' in Rows'. rewrite Rows'.
    destruct (Nat.ltb_spec 0 T) as [|_].
    + split; [now rewrite map_map|lia].
    + split; [exact Bc|]. intros _. exact Sh.
Qed.

(** Two prompts, the first naming both brands and the second one of them:
    the counts are 2 and 1. *)
Lemma C3_witness :
  let snaps := run_snapshots 30 (snd thirds_output) in
  let total := list_sum (map mentionCount snaps) in
  (forall b, In b (project_brands two_prompt_project) ->
             exists s, In s snaps /\ ms_brandId s = brand_id b) /\
  (0 < total ->
   (forall s, In s snaps ->
              shareOfVoice s = Some (share_of (mentionCount s) total)) /\
   ((Z.of_nat total < 2 ^ 53)%Z ->
    (forall s, In s snaps ->
       (exact_share (mentionCount s) total * (1 - 3 * unit_roundoff)
        <= share_of (mentionCount s) total
        <= exact_share (mentionCount s) total * (1 + 3 * unit_roundoff))%Q) /\
    (100 - share_tolerance <= Qsum (somes (map shareOfVoice snaps))
     <= 100 + share_tolerance)%Q)) /\
  (total = 0 ->
   forall s, In s snaps -> share_untouched (snapshots (store thirds_input)) s) /\
  ((forall s, In s (snapshots (store thirds_input)) ->
              ms_analysisRunId s <> 30) ->
   NoDup (map brand_id (project_brands two_prompt_project)) ->
   map ms_brandId snaps = map brand_id (project_brands two_prompt_project) /\
   (total = 0 -> forall s, In s snaps -> shareOfVoice s = None)).
Proof.
  apply (@C3_share_of_voice no_faults 30 two_prompt_project thirds_input
           (snd thirds_output)).
  - constructor.
  - intros s [].
  - vm_compute. reflexivity.
Defined.

(** In that run the shares are the doubles 66.66666666666666 and
    33.33333333333333, which add up to a little less than 100. *)
Example thirds_fall_short_of_100 :
  let snaps := run_snapshots 30 (snd thirds_output) in
  map mentionCount snaps = [2; 1] /\
  map (option_map Qred) (map shareOfVoice snaps)
  = [Some (2345624805922133 # 35184372088832);
     Some (2345624805922133 # 70368744177664)]%Q /\
  Qred (Qsum (somes (map shareOfVoice snaps)))
  = (7036874417766399 # 70368744177664)%Q /\
  (Qsum (somes (map shareOfVoice snaps)) < 100)%Q.
Proof. vm_compute. repeat split. Qed.
(* ================================================================== *)
(** * The rows stored for a failed prompt *)
(* ================================================================== *)

Lemma triple_conj {A} (P1 P2 : world -> Prop) (m : M A)
    (Q1 Q2 : A -> world -> Prop) (E1 E2 : world -> Prop) :
  triple P1 m Q1 E1 -> triple P2 m Q2 E2 ->
  triple (fun w => P1 w /\ P2 w) m (fun a w => Q1 a w /\ Q2 a w)
         (fun w => E1 w /\ E2 w).
Proof.
  intros H1 H2 w r w' [Pw1 Pw2] Em.
  specialize (H1 _ _ _ Pw1 Em). specialize (H2 _ _ _ Pw2 Em).
  destruct r; auto.
Qed.

(** A loop whose invariant counts the elements done. *)
Lemma triple_forM_from {A} (I : nat -> world -> Prop) (f : A -> M unit) E l :
  forall k,
  (forall j a, nth_error l j = Some a ->
               triple (I (k + j)) (f a) (fun _ => I (S (k + j))) E) ->
  triple (I k) (forM f l) (fun _ => I (k + length l)) E.
Proof.
  induction l as [|x l IH]; intros k H.
  - apply triple_ret. intros w. now rewrite Nat.add_0_r.
  - cbn [forM]. eapply triple_bind.
    + specialize (H 0 x eq_refl). rewrite Nat.add_0_r in H. exact H.
    + intros u. cbn [length]. rewrite <- Nat.add_succ_comm. apply IH.
      intros j a Hj. rewrite Nat.add_succ_comm. now apply (H (S j)).
Qed.

Lemma triple_forM_counting {A} (I : nat -> world -> Prop) (f : A -> M unit)
    E l :
  (forall j a, nth_error l j = Some a ->
               triple (I j) (f a) (fun _ => I (S j)) E) ->
  triple (I 0) (when (0 <? length l) (forM f l)) (fun _ => I (length l)) E.
Proof.
  intros H. destruct l as [|x l]; [apply triple_ret; auto|].
  change (0 <? length (x :: l)) with true. cbn [when].
  apply (@triple_forM_from A I f E (x :: l) 0). exact H.
Qed.

Lemma firstn_snoc {A} (l : list A) : forall j b,
  nth_error l j = Some b -> firstn (S j) l = firstn j l ++ [b].
Proof.
  induction l as [|x l IH]; intros [|j] b; try discriminate.
  - now intros [= ->].
  - cbn [nth_error]. intros H. cbn [firstn app]. f_equal.
    now apply IH.
Qed.

(** With distinct names, the brand looked up by the name of a brand of the
    project is that brand. *)
Lemma find_by_name brands : forall j b,
  NoDup (map brand_name brands) ->
  nth_error brands j = Some b ->
  find (fun b' => jsstring_eqb (brand_name b') (brand_name b)) brands = Some b.
Proof.
  induction brands as [|x l IH]; intros [|j] b ND H; try discriminate.
  - injection H as ->. cbn [find]. now rewrite jsstring_eqb_refl.
  - cbn [nth_error] in H. cbn [map] in ND.
    inversion ND as [|? ? Hx ND']; subst. cbn [find].
    destruct (jsstring_eqb (brand_name x) (brand_name b)) eqn:E.
    + exfalso. apply jsstring_eqb_eq in E. apply Hx. rewrite E.
      apply in_map. eapply nth_error_In. eassumption.
    + now apply (IH j).
Qed.

Lemma mention_brands_add k d row :
  mention_brands k (add_brandMention d row)
  = if bm_promptResultId row =? k
    then mention_brands k d ++ [bm_brandId row]
    else mention_brands k d.
Proof.
  unfold mention_brands. cbn [brandMentions add_brandMention].
  rewrite filter_app, map_app. cbn [filter].
  destruct (bm_promptResultId row =? k); [reflexivity|apply app_nil_r].
Qed.

Lemma per_brand_initial brands d :
  refs_below d -> per_brand brands (next_id d) [] d.
Proof.
  intros R. split; [exact R|]. split; [lia|]. destruct R as (R1 & _).
  split.
  - unfold new_results. rewrite filter_none; [reflexivity|].
    intros r Hr. specialize (R1 r Hr). apply Nat.leb_gt. lia.
  - intros r Hr Hn. specialize (R1 r Hr). lia.
Qed.

Lemma per_brand_same brands n0 errs d d' :
  same_results d d' -> per_brand brands n0 errs d -> per_brand brands n0 errs d'.
Proof.
  intros (Ep & Em & Ec & Hn) ((R1 & R2 & R3) & N & L & B).
  unfold per_brand, refs_below, rows_per_brand, new_results, mention_brands
    in *.
  rewrite Ep, Em, Ec. split; [|split; [lia|split; [exact L|exact B]]].
  split; [|split].
  - intros x Hx. specialize (R1 x Hx). lia.
  - intros x Hx. specialize (R2 x Hx). lia.
  - intros x Hx. specialize (R3 x Hx). lia.
Qed.

Lemma writing_same brands n0 errs k e j d d' :
  same_results d d' -> writing_mentions brands n0 errs k e j d ->
  writing_mentions brands n0 errs k e j d'.
Proof.
  intros (Ep & Em & Ec & Hn) ((R1 & R2 & R3) & N & K & L & E & B & W).
  unfold writing_mentions, refs_below, rows_per_brand, new_results,
    mention_brands in *.
  rewrite Ep, Em, Ec.
  split; [|split; [lia|split; [lia|split; [exact L|split; [exact E|auto]]]]].
  split; [|split].
  - intros x Hx. specialize (R1 x Hx). lia.
  - intros x Hx. specialize (R2 x Hx). lia.
  - intros x Hx. specialize (R3 x Hx). lia.
Qed.

Lemma promptResult_create_writing brands n0 errs runId promptId raw len time
    err d row d' :
  per_brand brands n0 errs d ->
  promptResult_create runId promptId raw len time err d = (Ok row, d') ->
  writing_mentions brands n0 (errs ++ [(promptId, err)]) (pr_id row) err 0 d'.
Proof.
  intros ((R1 & R2 & R3) & N & L & B). unfold promptResult_create.
  intros [= <- <-]. cbn [pr_id].
  unfold writing_mentions, refs_below, rows_per_brand, new_results,
    mention_brands in *.
  cbn [promptResults brandMentions citationRows next_id add_promptResult].
  split; [split; [|split]|split; [|split; [|split; [|split; [|split]]]]].
  - intros r Hr. apply in_app_iff in Hr. destruct Hr as [Hr|[<-|[]]].
    + specialize (R1 r Hr). lia.
    + cbn. lia.
  - intros m Hm. specialize (R2 m Hm). lia.
  - intros c Hc. specialize (R3 c Hc). lia.
  - exact N.
  - lia.
  - rewrite filter_app, map_app, L. cbn [filter pr_id].
    destruct (Nat.leb_spec n0 (next_id d)); [reflexivity|lia].
  - intros r Hr E. apply in_app_iff in Hr. destruct Hr as [Hr|[<-|[]]].
    + specialize (R1 r Hr). lia.
    + reflexivity.
  - intros r Hr Hn He Hk. apply in_app_iff in Hr.
    destruct Hr as [Hr|[<-|[]]].
    + apply (B r Hr Hn He). discriminate.
    + now contradiction Hk.
  - intros _. cbn [firstn map]. rewrite filter_none; [reflexivity|].
    intros m Hm. specialize (R2 m Hm). apply Nat.eqb_neq. lia.
Qed.

Lemma add_brandMention_writing brands n0 errs k e j d row :
  writing_mentions brands n0 errs k e j d ->
  bm_promptResultId row = k ->
  (e <> None ->
   exists b, nth_error brands j = Some b /\ bm_brandId row = brand_id b) ->
  writing_mentions brands n0 errs k e (S j) (add_brandMention d row).
Proof.
  intros ((R1 & R2 & R3) & N & K & L & E & B & W) Ek Hrow.
  unfold writing_mentions, refs_below.
  split; [split; [|split]|split; [|split; [|split; [|split; [|split]]]]].
  - intros r Hr. specialize (R1 r Hr). cbn. lia.
  - cbn [brandMentions add_brandMention next_id].
    intros x Hx. apply in_app_iff in Hx. destruct Hx as [Hx|[<-|[]]].
    + specialize (R2 x Hx). lia.
    + lia.
  - intros c Hc. specialize (R3 c Hc). cbn. lia.
  - exact N.
  - cbn. lia.
  - exact L.
  - exact E.
  - intros r Hr Hn He Hk. rewrite mention_brands_add.
    destruct (Nat.eqb_spec (bm_promptResultId row) (pr_id r)) as [C|_].
    + exfalso. apply Hk. congruence.
    + now apply B.
  - intros He. rewrite mention_brands_add, Ek, Nat.eqb_refl, (W He).
    destruct (Hrow He) as (b & Hb & ->).
    now rewrite (firstn_snoc _ _ Hb), map_app.
Qed.

Lemma add_citation_writing brands n0 errs k e j d row :
  writing_mentions brands n0 errs k e j d ->
  cit_promptResultId row = k ->
  writing_mentions brands n0 errs k e j (add_citation d row).
Proof.
  intros ((R1 & R2 & R3) & N & K & L & E & B & W) Ek.
  unfold writing_mentions, refs_below.
  split; [split; [|split]|split; [|split; [|split; [|split; [|split]]]]];
    try assumption.
  - intros r Hr. specialize (R1 r Hr). cbn. lia.
  - intros x Hx. specialize (R2 x Hx). cbn. lia.
  - cbn [citationRows add_citation next_id].
    intros x Hx. apply in_app_iff in Hx. destruct Hx as [Hx|[<-|[]]].
    + specialize (R3 x Hx). lia.
    + lia.
  - cbn. lia.
Qed.

Lemma writing_done brands n0 errs k e j d :
  writing_mentions brands n0 errs k e j d ->
  (e <> None -> j = length brands) ->
  per_brand brands n0 errs d.
Proof.
  intros (R & N & K & L & E & B & W) Hj.
  split; [exact R|]. split; [lia|]. split; [exact L|].
  intros r Hr Hn He _.
  destruct (Nat.eq_dec (pr_id r) k) as [Ek|Nk].
  - rewrite Ek. rewrite (E r Hr Ek) in He.
    rewrite (W He), (Hj He). now rewrite firstn_all.
  - apply B; try assumption. congruence.
Qed.

Section PerBrand.

Variable engine : jsstring -> bool -> option matcher.
Variable URL_hostname : jsstring -> option jsstring.
Variable provider : nat -> provider_call.
Variable project : Project.
Variable n0 : nat.

Hypothesis distinct_names : NoDup (map brand_name (project_brands project)).
Hypothesis no_proto : ~ In proto_key (map brand_name (project_brands project)).

Let brands := project_brands project.
Let names := map brand_name (project_brands project).

(** One iteration that is not stopped by the database stores the error of
    its result and, when there is one, a placeholder row per brand. *)
Lemma process_prompt_per_brand faults runId total onProgress i p errs :
  triple (on (per_brand brands n0 errs))
    (process_prompt engine URL_hostname provider faults project runId total
       onProgress i p)
    (fun _ =>
       on (per_brand brands n0
             (errs ++ stored_errors engine URL_hostname provider names i [p])))
    (fun _ => True).
Proof.
  unfold process_prompt. cbn [stored_errors]. fold names.
  set (result := analyzePrompt engine URL_hostname (provider i) (prompt_text p)
                   names).
  set (e := string_or_null (error result)).
  assert (F : e <> None -> mentions result = map unmentioned names)
    by (intros He; apply string_or_null_Some in He;
        now destruct (analyzePrompt_error engine URL_hostname (provider i)
                        (prompt_text p) names He) as (_ & Em & _)).
  set (errs' := errs ++ [(prompt_id p, e)]).
  eapply triple_bind.
  { apply (@triple_prisma _ faults _ (per_brand brands n0 errs)
             (fun row => writing_mentions brands n0 errs' (pr_id row) e 0)
             (fun _ => True)); [|auto].
    intros d r d' I Eq. destruct r as [row|]; [|exact Logic.I].
    exact (promptResult_create_writing I Eq). }
  intros row. cbn beta. set (k := pr_id row).
  eapply triple_bind.
  { apply (@triple_forM_counting _
             (fun j => on (writing_mentions brands n0 errs' k e j))).
    intros j m Hj. unfold save_mention.
    destruct (find _ _) as [b|] eqn:Fb.
    - apply (@triple_prisma _ faults _
               (writing_mentions brands n0 errs' k e j)
               (fun _ => writing_mentions brands n0 errs' k e (S j))
               (fun _ => True)); [|auto].
      intros d r d' W. unfold brandMention_create.
      assert (Hrow : e <> None ->
                     exists b0, nth_error brands j = Some b0 /\
                                brand_id b = brand_id b0).
      { intros He. rewrite (F He) in Hj. unfold names in Hj.
        rewrite map_map, nth_error_map in Hj.
        fold brands in Hj.
        destruct (nth_error brands j) as [b0|] eqn:Nb; [|discriminate].
        injection Hj as <-. exists b0. split; [reflexivity|].
        cbn [brand unmentioned] in Fb.
        unfold brands in Nb. rewrite (@find_by_name _ _ _ distinct_names Nb) in Fb.
        congruence. }
      destruct (position m); intros [= <- <-]; try exact Logic.I;
        (apply add_brandMention_writing; [exact W|reflexivity|exact Hrow]).
    - assert (En : e = None).
      { destruct e as [msg|] eqn:Ee; [exfalso|reflexivity].
        assert (He : Some msg <> None) by discriminate.
        rewrite (F He) in Hj. unfold names in Hj.
        rewrite map_map, nth_error_map in Hj.
        destruct (nth_error (project_brands project) j) as [b0|] eqn:Nb;
          [|discriminate].
        injection Hj as <-. cbn [brand unmentioned] in Fb.
        rewrite (@find_by_name _ _ _ distinct_names Nb) in Fb. discriminate. }
      apply triple_ret. intros w (R & N & K & L & E & B & W).
      split; [exact R|]. repeat (split; [assumption|]).
      intros C. destruct (C En). }
  intros u1. cbn beta.
  set (done := length (mentions result)).
  eapply triple_bind.
  { apply triple_when, triple_forM. intros c Hc.
    apply (@triple_prisma _ faults _
             (writing_mentions brands n0 errs' k e done)
             (fun _ => writing_mentions brands n0 errs' k e done)
             (fun _ => True)); [|auto].
    intros d r d' W. unfold citation_create. intros [= <- <-].
    now apply add_citation_writing. }
  intros u2. eapply triple_bind.
  { apply (@triple_push_result (writing_mentions brands n0 errs' k e done)). }
  intros u3. eapply triple_bind.
  { apply (@triple_prisma _ faults _
             (writing_mentions brands n0 errs' k e done)
             (fun _ => writing_mentions brands n0 errs' k e done)
             (fun _ => True)); [|auto].
    intros d r d' W Eq. destruct r; [|exact Logic.I].
    eapply writing_same; [|exact W].
    eapply analysisRun_update_same. exact Eq. }
  intros u4.
  eapply triple_weaken
    with (P' := on (writing_mentions brands n0 errs' k e done))
         (Q' := fun _ : unit => on (writing_mentions brands n0 errs' k e done))
         (E' := fun _ : world => True);
    [apply triple_when, triple_emit|auto| |auto].
  intros a w W. apply (writing_done W).
  intros He. unfold done. rewrite (F He). unfold names, brands.
  now rewrite !length_map.
Qed.

Lemma process_prompt_stays runId total onProgress i p :
  triple (run_exists runId)
    (process_prompt engine URL_hostname provider no_faults project runId total
       onProgress i p)
    (fun _ => run_exists runId) (fun _ => False).
Proof.
  intros w r w' Ex Eq.
  pose proof (@process_prompt_ok engine URL_hostname provider project runId
                total onProgress i p (runs (store w)) (emitted w) (results w)
                (map pr_promptId (promptResults (store w))) Ex no_proto
                w r w' ltac:(repeat split) Eq) as H.
  destruct r; [|exact H]. destruct H as (H & _).
  unfold run_exists. rewrite H, change_run_exists; [exact Ex|reflexivity].
Qed.

Lemma for_prompts_per_brand runId total onProgress ps : forall i errs,
  triple (fun w => run_exists runId w /\ on (per_brand brands n0 errs) w)
    (for_prompts engine URL_hostname provider no_faults project runId total
       onProgress i ps)
    (fun _ w =>
       run_exists runId w /\
       on (per_brand brands n0
             (errs ++ stored_errors engine URL_hostname provider names i ps)) w)
    (fun _ => False).
Proof.
  induction ps as [|p ps IH]; intros i errs; cbn [for_prompts stored_errors].
  - apply triple_ret. intros w. now rewrite app_nil_r.
  - eapply triple_bind.
    { eapply triple_try_catch with (E' := fun _ => False).
      - eapply triple_weaken;
          [apply (triple_conj (@process_prompt_stays runId total onProgress i p)
                    (@process_prompt_per_brand no_faults runId total
                       onProgress i p errs))
          |auto|intros a w H; exact H|intros w [[] _]].
      - intros e w r w' []. }
    intros u.
    eapply triple_weaken;
      [apply (IH (S i)
                (errs ++ stored_errors engine URL_hostname provider names i [p]))
      |auto| |auto].
    intros a w H. cbn [stored_errors] in H. rewrite <- app_assoc in H.
    exact H.
Qed.

Lemma calculateMetrics_stays runId :
  triple (run_exists runId) (calculateMetrics no_faults runId project)
         (fun _ => run_exists runId) (fun _ => False).
Proof.
  intros w r w' Ex Eq.
  pose proof (@calculateMetrics_ok runId project (runs (store w)) (emitted w)
                (results w) (map pr_promptId (promptResults (store w)))
                w r w' ltac:(repeat split) Eq) as H.
  destruct r; [|exact H]. destruct H as (H & _).
  unfold run_exists. now rewrite H.
Qed.

(** A run that the database does not fail, from the tables [d0]. *)
Lemma runAnalysis_per_brand projectId runId onProgress w :
  n0 = next_id (store w) ->
  refs_below (store w) ->
  fst (project_findUnique projectId (store w)) = Ok (Some project) ->
  run_exists runId w ->
  exists out w',
    runAnalysis engine URL_hostname provider no_faults projectId runId
      onProgress w = (Ok out, w') /\
    per_brand brands n0
      (stored_errors engine URL_hostname provider names 0
         (project_prompts project))
      (store w').
Proof.
  intros En R Found Ex.
  set (ps := project_prompts project).
  set (errs := stored_errors engine URL_hostname provider names 0 ps).
  set (I := fun l w1 => run_exists runId w1 /\ on (per_brand brands n0 l) w1).
  assert (T : triple (fun w0 => w0 = w)
                (runAnalysis engine URL_hostname provider no_faults projectId
                   runId onProgress)
                (fun _ => I errs) (fun _ => False)).
  { unfold runAnalysis.
    eapply triple_bind
      with (R := fun found w1 => found = Some project /\ I [] w1).
    { apply triple_prisma_ok. intros w0 ->.
      unfold project_findUnique in *. cbn [fst] in Found.
      eexists _, _. split; [reflexivity|]. split; [congruence|].
      split; [exact Ex|]. unfold on. cbn [store]. rewrite En.
      now apply per_brand_initial. }
    intros found.
    eapply triple_weaken
      with (P' := fun w1 => found = Some project /\ I [] w1)
           (Q' := fun _ => I errs) (E' := fun _ => False); auto.
    intros w1 r w1' [-> Pre]. revert w1 r w1' Pre.
    change (triple (I [])
              (let prompts := project_prompts project in
               bind (prisma no_faults
                       (analysisRun_update runId
                          (start_processing (length prompts))))
                    (fun _ =>
                     bind (for_prompts engine URL_hostname provider no_faults
                             project runId (length prompts) onProgress 0 prompts)
                          (fun _ =>
                           bind (calculateMetrics no_faults runId project)
                                (fun _ =>
                                 bind (prisma no_faults
                                         (analysisRun_update runId set_completed))
                                      (fun _ =>
                                       bind (when onProgress
                                               (emit (Complete runId)))
                                            (fun _ => get_results))))))
              (fun _ => I errs) (fun _ => False)).
    cbn zeta. fold ps.
    assert (Upd : forall f l,
               (forall r, run_id (f r) = run_id r) ->
               triple (I l) (prisma no_faults (analysisRun_update runId f))
                      (fun _ => I l) (fun _ => False)).
    { intros f l Hf. apply triple_prisma_ok. intros w1 [E1 P1].
      unfold analysisRun_update. unfold run_exists in E1. rewrite E1.
      eexists _, _. split; [reflexivity|]. split.
      - unfold run_exists. cbn [store runs with_runs].
        fold (change_run runId f (runs (store w1))).
        now rewrite change_run_exists.
      - unfold on in *. cbn [store].
        eapply per_brand_same; [|exact P1]. repeat split; cbn; lia. }
    eapply triple_bind; [apply Upd; reflexivity|].
    intros u1. eapply triple_bind.
    { eapply triple_weaken;
        [apply (@for_prompts_per_brand runId (length ps) onProgress ps 0 [])
        |auto|intros a w1 H; exact H|auto]. }
    intros u2. cbn [app]. fold errs.
    eapply triple_bind.
    { eapply triple_weaken;
        [apply (triple_conj (@calculateMetrics_stays runId)
                  (@calculateMetrics_keeps no_faults runId project
                     (per_brand brands n0 errs)
                     (fun d d' S P => per_brand_same S P)))
        |auto|intros a w1 H; exact H|intros w1 [[] _]]. }
    intros u3. eapply triple_bind; [apply Upd; reflexivity|].
    intros u4. eapply triple_bind with (R := fun _ => I errs).
    { destruct onProgress; cbn [when].
      - apply triple_emit_to. intros w1 H. exact H.
      - apply triple_ret. auto. }
    intros u5. intros w1 r w1' H [= <- <-]. exact H. }
  destruct (runAnalysis engine URL_hostname provider no_faults projectId runId
              onProgress w) as [[out|e] w'] eqn:Run.
  - exists out, w'. split; [reflexivity|].
    exact (proj2 (T _ _ _ eq_refl Run)).
  - destruct (T _ _ _ eq_refl Run).
Qed.

End PerBrand.

Lemma nth_error_stored_errors engine URL_hostname provider names ps :
  forall i k p,
  nth_error ps k = Some p ->
  nth_error (stored_errors engine URL_hostname provider names i ps) k
  = Some (prompt_id p,
          string_or_null
            (error (analyzePrompt engine URL_hostname (provider (i + k))
                      (prompt_text p) names))).
Proof.
  induction ps as [|q ps IH]; intros i k p; [now destruct k|].
  destruct k as [|k]; cbn [nth_error stored_errors].
  - intros [= ->]. now rewrite Nat.add_0_r.
  - intros H. rewrite (IH (S i) k p H).
    now replace (S i + k) with (i + S k) by lia.
Qed.

(** C1, amended.  In every run, whatever the provider and the database do,
    a prompt result that the run stored with its error field set has no
    citation rows, and the brand mention rows stored for it, if any, are the
    placeholders of the failed call: position, sentiment, sentiment score
    and context all null, and not recommended.  Such rows are stored: when
    the database fails no call, in a run of a project whose brand names are
    pairwise distinct and other than [__proto__], the run returns, the
    prompt results it stored are one per prompt, in order, each with the
    error of the result of [analyzePrompt]; every one of them that has its
    error set has exactly one mention row per brand, in the order of the
    brands; and a prompt whose provider call failed with a message that is
    not empty has such a prompt result, with that message as its error. *)
Theorem C1_error_results_have_no_findings
    engine URL_hostname provider projectId runId onProgress w :
  refs_below (store w) ->
  (forall faults res w',
      runAnalysis engine URL_hostname provider faults projectId runId
        onProgress w = (res, w') ->
      forall r,
        In r (promptResults (store w')) ->
        next_id (store w) <= pr_id r ->
        pr_error r <> None ->
        (forall c, In c (citationRows (store w')) ->
                   cit_promptResultId c <> pr_id r) /\
        (forall m, In m (brandMentions (store w')) ->
                   bm_promptResultId m = pr_id r -> placeholder_row m)) /\
  (forall project,
      fst (project_findUnique projectId (store w)) = Ok (Some project) ->
      run_exists runId w ->
      NoDup (map brand_name (project_brands project)) ->
      ~ In proto_key (map brand_name (project_brands project)) ->
      exists out w',
        runAnalysis engine URL_hostname provider no_faults projectId runId
          onProgress w = (Ok out, w') /\
        map logged (new_results (next_id (store w)) (store w'))
        = stored_errors engine URL_hostname provider
            (map brand_name (project_brands project)) 0
            (project_prompts project) /\
        (forall r,
            In r (promptResults (store w')) ->
            next_id (store w) <= pr_id r ->
            pr_error r <> None ->
            mention_brands (pr_id r) (store w')
            = map brand_id (project_brands project)) /\
        (forall i p e,
            nth_error (project_prompts project) i = Some p ->
            outcome (provider i) = Failed e ->
            message e <> [] ->
            exists r,
              In r (promptResults (store w')) /\
              next_id (store w) <= pr_id r /\
              pr_promptId r = prompt_id p /\
              pr_error r = Some (message e) /\
              mention_brands (pr_id r) (store w')
              = map brand_id (project_brands project))).
Proof.
  intros R. split.
  - intros faults res w' Run.
    pose proof (@runAnalysis_keeps engine URL_hostname provider faults
                  (next_id (store w)) projectId runId onProgress w res w'
                  (run_invariant_initial R) Run) as K.
    assert (I : run_invariant (next_id (store w)) (store w'))
      by (destruct res; exact K).
    destruct I as (_ & _ & B). exact B.
  - intros project Found Ex ND NP.
    destruct (@runAnalysis_per_brand engine URL_hostname provider project
                (next_id (store w)) ND NP projectId runId onProgress w
                eq_refl R Found Ex) as (out & w' & Run & _ & _ & L & B).
    exists out, w'. split; [exact Run|]. split; [exact L|].
    assert (Rows : forall r,
               In r (promptResults (store w')) ->
               next_id (store w) <= pr_id r -> pr_error r <> None ->
               mention_brands (pr_id r) (store w')
               = map brand_id (project_brands project)).
    { intros r Hr Hn He. apply (B r Hr Hn He). discriminate. }
    split; [exact Rows|].
    intros i p e Hp Fail NE.
    pose proof (@nth_error_stored_errors engine URL_hostname provider
                  (map brand_name (project_brands project))
                  (project_prompts project) 0 i p Hp) as N.
    rewrite <- L, nth_error_map in N. cbn [Nat.add] in N.
    destruct (nth_error (new_results (next_id (store w)) (store w')) i)
      as [r|] eqn:Nr; [|discriminate].
    injection N as Ep Ee.
    destruct (analyzePrompt_failed engine URL_hostname (provider i)
                (prompt_text p) (map brand_name (project_brands project)) Fail)
      as [_ Err].
    rewrite Err in Ee.
    assert (Es : pr_error r = Some (message e))
      by (rewrite Ee; destruct (message e); [now contradiction NE|reflexivity]).
    apply nth_error_In in Nr. unfold new_results in Nr.
    apply filter_In in Nr. destruct Nr as [Hr Hn]. apply Nat.leb_le in Hn.
    exists r. repeat split; try assumption.
    apply Rows; try assumption. rewrite Es. discriminate.
Qed.

(** The sample project with two prompts, the first call of the provider
    failing. *)
Lemma C1_witness :
  let w := sample_world [first_prompt; second_prompt] in
  let provider := failing_at [0] "quota exceeded" "Acme is great" in
  (forall faults res w',
      runAnalysis strict_engine no_hostname provider faults 1 30 false w
      = (res, w') ->
      forall r,
        In r (promptResults (store w')) ->
        next_id (store w) <= pr_id r ->
        pr_error r <> None ->
        (forall c, In c (citationRows (store w')) ->
                   cit_promptResultId c <> pr_id r) /\
        (forall m, In m (brandMentions (store w')) ->
                   bm_promptResultId m = pr_id r -> placeholder_row m)) /\
  (forall project,
      fst (project_findUnique 1 (store w)) = Ok (Some project) ->
      run_exists 30 w ->
      NoDup (map brand_name (project_brands project)) ->
      ~ In proto_key (map brand_name (project_brands project)) ->
      exists out w',
        runAnalysis strict_engine no_hostname provider no_faults 1 30 false w
        = (Ok out, w') /\
        map logged (new_results (next_id (store w)) (store w'))
        = stored_errors strict_engine no_hostname provider
            (map brand_name (project_brands project)) 0
            (project_prompts project) /\
        (forall r,
            In r (promptResults (store w')) ->
            next_id (store w) <= pr_id r ->
            pr_error r <> None ->
            mention_brands (pr_id r) (store w')
            = map brand_id (project_brands project)) /\
        (forall i p e,
            nth_error (project_prompts project) i = Some p ->
            outcome (provider i) = Failed e ->
            message e <> [] ->
            exists r,
              In r (promptResults (store w')) /\
              next_id (store w) <= pr_id r /\
              pr_promptId r = prompt_id p /\
              pr_error r = Some (message e) /\
              mention_brands (pr_id r) (store w')
              = map brand_id (project_brands project))).
Proof.
  apply (@C1_error_results_have_no_findings strict_engine no_hostname
           (failing_at [0] "quota exceeded" "Acme is great") 1 30 false
           (sample_world [first_prompt; second_prompt])).
  unfold refs_below, sample_world.
  cbn [store promptResults brandMentions citationRows].
  repeat split; intros ? [].
Defined.

(** What that run stores: an error for the first prompt, with a placeholder
    row for each of the two brands, and none for the second. *)
Example half_failed_run_rows :
  let d := store (snd half_failed_run) in
  map logged (new_results 100 d)
  = [(prompt_id first_prompt, Some (str "quota exceeded"));
     (prompt_id second_prompt, None)] /\
  map (fun r => mention_brands (pr_id r) d) (new_results 100 d)
  = [[brand_id acme; brand_id globex]; [brand_id acme; brand_id globex]] /\
  map (fun m => (bm_promptResultId m, bm_position m)) (brandMentions d)
  = [(100, None); (100, None); (103, Some 1); (103, None)].
Proof. vm_compute. repeat split. Qed.
